(** * Learned indexes: B-Tree, B+-Tree, RMI, FITing-Tree and RadixSpline

    A shallow embedding of the index engines of the repository
    (btree.h, bplus_tree.h, rmi.h, fiting_tree.h, radix_spline.h) and the
    properties of them that the specification states.

    Conventions of the embedding.
    - [KeyType] is instantiated at the unsigned 64-bit integer: a key is a [Z]
      in [0, 2^64) and key arithmetic wraps modulo [2^64].
    - [double] is IEEE 754 binary64, computed with the Standard Library's
      [SpecFloat] operations at precision 53 and exponent bound 1024.
    - A [std::vector] is a [list]; positions are [Z] because the code computes
      them in [int] and [size_t] and lets them run outside the array.
    - An operation that reads or writes outside the storage of a vector, or
      converts a double that does not fit the integer type, has no defined
      result: the functions return [option], and [None] is that case. *)

From Stdlib Require Import String Ascii.
From Stdlib Require Import ZArith List Bool Lia.
From Stdlib Require Import Floats.SpecFloat.
From Stdlib Require Import Sorting.Permutation Sorting.Sorted.
Import ListNotations.
Open Scope Z_scope.

(** ** Option as the monad of partial operations *)

Definition bind {A B : Type} (x : option A) (f : A -> option B) : option B :=
  match x with
  | Some a => f a
  | None => None
  end.

Notation "'do' x <- e ; k" := (bind e (fun x => k))
  (at level 10, x pattern, e at level 100, k at level 200).

(** ** Machine integers *)

Definition uint64_mod : Z := 2 ^ 64.
Definition int_min : Z := - 2 ^ 31.
Definition int_max : Z := 2 ^ 31 - 1.

(** Unsigned 64-bit arithmetic wraps. *)
Definition u64 (z : Z) : Z := z mod uint64_mod.
Definition u64_sub (a b : Z) : Z := u64 (a - b).
Definition u64_add (a b : Z) : Z := u64 (a + b).
Definition u64_max : Z := uint64_mod - 1.

(** Signed [int] arithmetic is defined only while the result fits. *)
Definition int_chk (z : Z) : option Z :=
  if (int_min <=? z) && (z <=? int_max) then Some z else None.
Definition int_add (a b : Z) : option Z := int_chk (a + b).
Definition int_sub (a b : Z) : option Z := int_chk (a - b).

(** A [size_t] or [ptrdiff_t] value converted to [int], by [static_cast<int>],
    by initialising an [int] variable or field with it, or by returning it
    from a function of result type [int]: the value modulo [2^32], taken in
    [int_min .. int_max]. *)
Definition int_of (z : Z) : Z := (z - int_min) mod 2 ^ 32 + int_min.

(** ** Vectors *)

(** [v[i]] for a position computed in [Z]. *)
Definition nth_Z {A : Type} (v : list A) (i : Z) : option A :=
  if i <? 0 then None else nth_error v (Z.to_nat i).

Definition size {A : Type} (v : list A) : Z := Z.of_nat (length v).

(** [v.insert(v.begin() + i, x)], defined for [0 <= i <= v.size()]. *)
Definition insert_at {A : Type} (v : list A) (i : Z) (x : A) : option (list A) :=
  if (0 <=? i) && (i <=? size v)
  then Some (firstn (Z.to_nat i) v ++ x :: skipn (Z.to_nat i) v)
  else None.

(** [v[i] = x] on an existing slot. *)
Fixpoint set_nth {A : Type} (v : list A) (i : nat) (x : A) : list A :=
  match v, i with
  | [], _ => []
  | _ :: r, O => x :: r
  | y :: r, S j => y :: set_nth r j x
  end.

(** The storage of a vector.  Shrinking a vector with [resize] keeps its
    allocation, and for the element types used here (integers and plain
    structs) leaves the bytes of the dropped elements where they were:
    [vs_live] are the elements, [vs_slack] what the storage holds after them. *)
Record vec_storage (A : Type) : Type := mkStorage {
  vs_live : list A;
  vs_slack : list A
}.
Arguments mkStorage {A} _ _.
Arguments vs_live {A} _.
Arguments vs_slack {A} _.

Definition vec_of {A : Type} (v : list A) : vec_storage A := mkStorage v [].

(** [v.resize(n)] for [n <= v.size()]. *)
Definition vec_shrink {A : Type} (n : nat) (s : vec_storage A) : vec_storage A :=
  mkStorage (firstn n (vs_live s)) (skipn n (vs_live s) ++ vs_slack s).

(** [v[i]] served from the storage: a live element, or what a shrink left
    behind; nothing outside the storage. *)
Definition vec_read {A : Type} (s : vec_storage A) (i : nat) : option A :=
  nth_error (vs_live s ++ vs_slack s) i.

(** ** Doubles *)

Module Double.

Definition prec : Z := 53.
Definition emax : Z := 1024.
Definition double : Type := spec_float.

Definition zero : double := S754_zero false.

Definition add : double -> double -> double := SFadd prec emax.
Definition sub : double -> double -> double := SFsub prec emax.
Definition mul : double -> double -> double := SFmul prec emax.
Definition div : double -> double -> double := SFdiv prec emax.
Definition abs : double -> double := SFabs.
Definition ltb : double -> double -> bool := SFltb.
Definition gtb (x y : double) : bool := SFltb y x.

(** [std::max(a, b)] is [(a < b) ? b : a], [std::min(a, b)] is [(b < a) ? b : a]. *)
Definition max (a b : double) : double := if ltb a b then b else a.
Definition min (a b : double) : double := if ltb b a then b else a.

(** Conversion of an integer to double, to nearest with ties to even.  The
    mantissa is brought to 53 bits: a short one is shifted left (exact), a
    long one is shifted right and rounded. *)
Definition bits (p : positive) : Z := Z.log2 (Zpos p) + 1.

Definition round_shift (p : positive) (sh : Z) : Z :=
  let q := Z.shiftr (Zpos p) sh in
  let r := Zpos p - Z.shiftl q sh in
  let half := Z.shiftl 1 (sh - 1) in
  if (half <? r) || ((half =? r) && Z.odd q) then q + 1 else q.

Definition mant (p : positive) : positive :=
  let d := bits p in
  if d <=? prec then Z.to_pos (Z.shiftl (Zpos p) (prec - d))
  else
    let q := round_shift p (d - prec) in
    if q =? 2 ^ prec then Z.to_pos (2 ^ (prec - 1)) else Z.to_pos q.

Definition expo (p : positive) : Z :=
  let d := bits p in
  if d <=? prec then d - prec
  else
    let q := round_shift p (d - prec) in
    if q =? 2 ^ prec then d - prec + 1 else d - prec.

Definition of_Z (z : Z) : double :=
  match z with
  | Z0 => S754_zero false
  | Zpos p => S754_finite false (mant p) (expo p)
  | Zneg p => S754_finite true (mant p) (expo p)
  end.

(** The integer part of a finite double, towards zero; this is the value a
    conversion to an integer type yields when it fits. *)
Definition trunc (x : double) : option Z :=
  match x with
  | S754_zero _ => Some 0
  | S754_finite s m e =>
      let a := if 0 <=? e then Z.shiftl (Zpos m) e else Z.shiftr (Zpos m) (- e) in
      Some (if s then - a else a)
  | _ => None
  end.

(** [static_cast<int>(x)]. *)
Definition to_int (x : double) : option Z :=
  do z <- trunc x; int_chk z.

(** [static_cast<size_t>(x)] and [static_cast<uint64_t>(x)]. *)
Definition to_u64 (x : double) : option Z :=
  do z <- trunc x;
  if (0 <=? z) && (z <=? u64_max) then Some z else None.

(** [std::round]: to the nearest integer, halfway cases away from zero,
    as an integer.  A double with a non-negative exponent is an integer. *)
Definition round_Z (x : double) : option Z :=
  match x with
  | S754_zero _ => Some 0
  | S754_finite s m e =>
      let a :=
        if 0 <=? e then Z.shiftl (Zpos m) e
        else Z.shiftr (Zpos m + Z.shiftl 1 (- e - 1)) (- e) in
      Some (if s then - a else a)
  | _ => None
  end.

(** [static_cast<int>(std::round(x))]. *)
Definition round_to_int (x : double) : option Z :=
  do z <- round_Z x; int_chk z.

(** [std::ceil] as an integer. *)
Definition ceil_Z (x : double) : option Z :=
  match x with
  | S754_zero _ => Some 0
  | S754_finite s m e =>
      if 0 <=? e then
        let a := Z.shiftl (Zpos m) e in Some (if s then - a else a)
      else
        let q := Z.shiftr (Zpos m) (- e) in
        let exact := Zpos m =? Z.shiftl q (- e) in
        Some (if s then - q else if exact then q else q + 1)
  | _ => None
  end.

(** An [int] assigned from [std::ceil(x)]. *)
Definition ceil_to_int (x : double) : option Z :=
  do z <- ceil_Z x; int_chk z.

(** Structural equality, to compare results of computations. *)
Definition same (x y : double) : bool :=
  match x, y with
  | S754_zero a, S754_zero b => Bool.eqb a b
  | S754_infinity a, S754_infinity b => Bool.eqb a b
  | S754_nan, S754_nan => true
  | S754_finite a m e, S754_finite b n f => Bool.eqb a b && Pos.eqb m n && Z.eqb e f
  | _, _ => false
  end.

(** The literals the code uses. *)
Definition one_tenth : double := div (of_Z 1) (of_Z 10).
Definition tiny : double := div (of_Z 1) (of_Z (10 ^ 10)).

End Double.

Definition double : Type := Double.double.

(** ** Standard algorithms *)

(** [std::lower_bound(v.begin() + first, v.begin() + last, val)] on a vector
    whose elements are compared through [key_of]: the halving search of the
    standard library.  When [last <= first] the loop does not run and the
    result is [first].  The result is a position. *)
Fixpoint lower_bound_loop {A : Type} (key_of : A -> Z) (v : list A)
    (fuel : nat) (first len val : Z) : option Z :=
  match fuel with
  | O => Some first
  | S f =>
      if len <=? 0 then Some first
      else
        let half := Z.shiftr len 1 in
        let mid := first + half in
        do x <- nth_Z v mid;
        if key_of x <? val
        then lower_bound_loop key_of v f (mid + 1) (len - half - 1) val
        else lower_bound_loop key_of v f first half val
  end.

Definition lower_bound {A : Type} (key_of : A -> Z) (v : list A)
    (first last val : Z) : option Z :=
  lower_bound_loop key_of v (Z.to_nat (last - first)) first (last - first) val.

(** [std::upper_bound], the same search with the test [!(val < *mid)]. *)
Fixpoint upper_bound_loop {A : Type} (key_of : A -> Z) (v : list A)
    (fuel : nat) (first len val : Z) : option Z :=
  match fuel with
  | O => Some first
  | S f =>
      if len <=? 0 then Some first
      else
        let half := Z.shiftr len 1 in
        let mid := first + half in
        do x <- nth_Z v mid;
        if val <? key_of x
        then upper_bound_loop key_of v f first half val
        else upper_bound_loop key_of v f (mid + 1) (len - half - 1) val
  end.

Definition upper_bound {A : Type} (key_of : A -> Z) (v : list A)
    (first last val : Z) : option Z :=
  upper_bound_loop key_of v (Z.to_nat (last - first)) first (last - first) val.

(** [std::sort] on integers: the ascending arrangement of the elements. *)
Fixpoint insert_sorted (x : Z) (l : list Z) : list Z :=
  match l with
  | [] => [x]
  | y :: r => if x <=? y then x :: l else y :: insert_sorted x r
  end.

Definition sort (l : list Z) : list Z := fold_right insert_sorted [] l.

(** [if (it != data.end() && *it == key) return distance(begin, it); return -1]
    in a function of result type [int]: the distance is converted to [int]. *)
Definition found_at (d : list Z) (it key : Z) : option Z :=
  if it =? size d then Some (-1)
  else do x <- nth_Z d it; Some (if x =? key then int_of it else -1).

(** The elements [v[first..last)] of a vector, as [insert(end, first, last)]
    copies them; an inverted range copies nothing. *)
Definition slice {A : Type} (v : list A) (first last : Z) : option (list A) :=
  if last <=? first then Some []
  else if (0 <=? first) && (last <=? size v)
  then Some (firstn (Z.to_nat (last - first)) (skipn (Z.to_nat first) v))
  else None.

(** ** B-Tree (btree.h)

    [BTree<T, ORDER>]: the nodes own their children through shared pointers,
    and no node is reachable twice, so a node is a tree value.  [T] is
    compared through [key_of] ([KeyIndex] compares its [key] field, an
    integer key is itself). *)

Module BTree.

Unset Elimination Schemes.
Inductive Node (T : Type) : Type :=
  mkNode (is_leaf : bool) (keys : list T) (children : list (Node T)).
Set Elimination Schemes.
Arguments mkNode {T} _ _ _.

Definition is_leaf {T} (n : Node T) : bool := match n with mkNode l _ _ => l end.
Definition keys {T} (n : Node T) : list T := match n with mkNode _ ks _ => ks end.
Definition children {T} (n : Node T) : list (Node T) :=
  match n with mkNode _ _ cs => cs end.

Record BTree (T : Type) : Type := mkBTree { root : Node T; size_ : Z }.
Arguments mkBTree {T} _ _.
Arguments root {T} _.
Arguments size_ {T} _.

(** The constructor: an empty leaf as root. *)
Definition empty {T} : BTree T := mkBTree (mkNode true [] []) 0.

(** The longest path from a node down to a leaf, in nodes: the depth the
    recursive functions reach. *)
Fixpoint height {T} (n : Node T) : nat :=
  match n with
  | mkNode _ _ cs => S (fold_right Nat.max O (map height cs))
  end.

Section Operations.
Context {T : Type}.
Variable key_of : T -> Z.
Variable ORDER : Z.

Definition mid : Z := Z.quot ORDER 2.

Definition full (n : Node T) : bool := size (keys n) =? 2 * ORDER - 1.

(** [split_child(parent, index, child)].  [child] is the node that
    [parent->children[index]] points to, so what the function does to it is
    written back to that slot.  The code shrinks [child->keys] to [mid]
    entries and then reads [child->keys[mid]] for the separator: the read is
    served from the storage the shrink left in place.  A [resize] that would
    grow [children] with null pointers is outside the model. *)
Definition split_child (parent : Node T) (index : Z) (child : Node T)
    : option (Node T) :=
  if mid <? 0 then None else
  let m := Z.to_nat mid in
  let new_keys := skipn (S m) (keys child) in
  do cc <- (if is_leaf child then Some ([], children child)
            else if size (children child) <? mid + 1 then None
            else Some (skipn (S m) (children child), firstn (S m) (children child)));
  let '(new_children, child_children) := cc in
  let new_child := mkNode (is_leaf child) new_keys new_children in
  let ks := vec_shrink m (vec_of (keys child)) in
  do sep <- vec_read ks m;
  let child' := mkNode (is_leaf child) (vs_live ks) child_children in
  do pk <- insert_at (keys parent) index sep;
  do pc <- insert_at (set_nth (children parent) (Z.to_nat index) child')
                     (index + 1) new_child;
  Some (mkNode (is_leaf parent) pk pc).

(** The leaf loop of [insert_non_full], on the keys from the last one down:
    every key greater than [key] moves one slot up, [key] lands behind the
    first one that is not. *)
Fixpoint shift_insert (key : T) (rks : list T) : list T :=
  match rks with
  | [] => [key]
  | x :: r => if key_of key <? key_of x then x :: shift_insert key r
              else key :: rks
  end.

Definition leaf_insert (key : T) (ks : list T) : list T :=
  rev (shift_insert key (rev ks)).

(** The descent loop: [i] runs down from the last key while [key < keys[i]],
    then is incremented. *)
Fixpoint skip_greater (key : T) (rks : list T) : nat :=
  match rks with
  | [] => O
  | x :: r => if key_of key <? key_of x then skip_greater key r else length rks
  end.

Definition child_index (key : T) (ks : list T) : Z :=
  Z.of_nat (skip_greater key (rev ks)).

(** [insert_non_full(node, key)]; [fuel] bounds the depth of the recursion. *)
Fixpoint insert_non_full (fuel : nat) (node : Node T) (key : T)
    : option (Node T) :=
  match fuel with
  | O => None
  | S f =>
      if is_leaf node
      then Some (mkNode (is_leaf node) (leaf_insert key (keys node)) (children node))
      else
        let i := child_index key (keys node) in
        do c <- nth_Z (children node) i;
        do st <- (if full c then
                    do node' <- split_child node i c;
                    do k <- nth_Z (keys node') i;
                    Some (node', if key_of k <? key_of key then i + 1 else i)
                  else Some (node, i));
        let '(node1, j) := st in
        do cj <- nth_Z (children node1) j;
        do cj' <- insert_non_full f cj key;
        Some (mkNode (is_leaf node1) (keys node1)
                     (set_nth (children node1) (Z.to_nat j) cj'))
  end.

(** [insert(key)].  Every completed insertion ends in one leaf and counts
    one element in [size_]. *)
Definition insert (t : BTree T) (key : T) : option (BTree T) :=
  if full (root t) then
    let new_root := mkNode false [] [root t] in
    do new_root' <- split_child new_root 0 (root t);
    do r <- insert_non_full (height new_root') new_root' key;
    Some (mkBTree r (size_ t + 1))
  else
    do r <- insert_non_full (height (root t)) (root t) key;
    Some (mkBTree r (size_ t + 1)).

(** A sequence of insertions, starting from a tree. *)
Fixpoint insert_all (t : BTree T) (ks : list T) : option (BTree T) :=
  match ks with
  | [] => Some t
  | k :: r => do t' <- insert t k; insert_all t' r
  end.

(** The scan [while (i < keys.size() && key > keys[i]) ++i]. *)
Fixpoint scan_greater (key : T) (ks : list T) : nat :=
  match ks with
  | [] => O
  | x :: r => if key_of x <? key_of key then S (scan_greater key r) else O
  end.

(** [search_internal(node, key)]. *)
Fixpoint search_internal (fuel : nat) (node : Node T) (key : T) : option bool :=
  match fuel with
  | O => None
  | S f =>
      let i := scan_greater key (keys node) in
      let found :=
        match nth_error (keys node) i with
        | Some x => key_of key =? key_of x
        | None => false
        end in
      if found then Some true
      else if is_leaf node then Some false
      else do c <- nth_error (children node) i; search_internal f c key
  end.

Definition search (t : BTree T) (key : T) : option bool :=
  search_internal (height (root t)) (root t) key.

(** The second loop of [range_search_internal], from position [i] on: [ks]
    are the keys from [i], [cs] the children from [i + 1]. *)
Fixpoint range_loop (rec : Node T -> option (list T)) (leaf : bool)
    (ks : list T) (cs : list (Node T)) (start end_ : T) : option (list T) :=
  match ks with
  | [] => Some []
  | k :: ks' =>
      if key_of k <=? key_of end_ then
        let here := if key_of start <=? key_of k then [k] else [] in
        do sub <- (if leaf then Some []
                   else match cs with
                        | [] => Some []
                        | c :: _ => rec c
                        end);
        do rest <- range_loop rec leaf ks' (tl cs) start end_;
        Some (here ++ sub ++ rest)
      else Some []
  end.

(** [range_search_internal(node, start, end, result)]: what it appends. *)
Fixpoint range_search_internal (fuel : nat) (node : Node T) (start end_ : T)
    : option (list T) :=
  match fuel with
  | O => None
  | S f =>
      let i := scan_greater start (keys node) in
      do first <- (if is_leaf node then Some []
                   else do c <- nth_error (children node) i;
                        range_search_internal f c start end_);
      do rest <- range_loop (fun c => range_search_internal f c start end_)
                   (is_leaf node) (skipn i (keys node))
                   (skipn (S i) (children node)) start end_;
      Some (first ++ rest)
  end.

Definition range_search (t : BTree T) (start end_ : T) : option (list T) :=
  range_search_internal (height (root t)) (root t) start end_.

(** [v.back()]: the last element of a vector that has one. *)
Definition back {A : Type} (v : list A) : option A :=
  nth_error v (length v - 1).

(** [v.erase(v.begin() + i)] for an existing position. *)
Definition erase_at {A : Type} (v : list A) (i : nat) : option (list A) :=
  if (i <? length v)%nat then Some (firstn i v ++ skipn (S i) v) else None.

(** The loops of [remove_internal] that walk from a child down to the leaf
    with the predecessor, along the last children, and to the leaf with the
    successor, along the first ones. *)
Fixpoint last_leaf (fuel : nat) (n : Node T) : option (Node T) :=
  match fuel with
  | O => None
  | S f => if is_leaf n then Some n
           else do c <- back (children n); last_leaf f c
  end.

Fixpoint first_leaf (fuel : nat) (n : Node T) : option (Node T) :=
  match fuel with
  | O => None
  | S f => if is_leaf n then Some n
           else do c <- nth_error (children n) 0; first_leaf f c
  end.

(** [borrow_from_prev(node, idx)]: the key of [node] before the child goes
    down to the front of the child, the last key of the left sibling goes up,
    and with inner nodes the last child of the sibling moves over. *)
Definition borrow_from_prev (node : Node T) (idx : nat) : option (Node T) :=
  do child <- nth_error (children node) idx;
  if (idx =? 0)%nat then None else
  do sibling <- nth_error (children node) (idx - 1);
  do down <- nth_error (keys node) (idx - 1);
  do up <- back (keys sibling);
  do moved <- (if is_leaf child then Some (children child, children sibling)
               else do c <- back (children sibling);
                    Some (c :: children child, removelast (children sibling)));
  let child' := mkNode (is_leaf child) (down :: keys child) (fst moved) in
  let sibling' := mkNode (is_leaf sibling) (removelast (keys sibling)) (snd moved) in
  Some (mkNode (is_leaf node) (set_nth (keys node) (idx - 1) up)
          (set_nth (set_nth (children node) idx child') (idx - 1) sibling')).

(** [borrow_from_next(node, idx)], the same from the right sibling. *)
Definition borrow_from_next (node : Node T) (idx : nat) : option (Node T) :=
  do child <- nth_error (children node) idx;
  do sibling <- nth_error (children node) (S idx);
  do down <- nth_error (keys node) idx;
  do up <- nth_error (keys sibling) 0;
  do moved <- (if is_leaf child then Some (children child, children sibling)
               else do c <- nth_error (children sibling) 0;
                    Some (children child ++ [c], tl (children sibling)));
  let child' := mkNode (is_leaf child) (keys child ++ [down]) (fst moved) in
  let sibling' := mkNode (is_leaf sibling) (tl (keys sibling)) (snd moved) in
  Some (mkNode (is_leaf node) (set_nth (keys node) idx up)
          (set_nth (set_nth (children node) idx child') (S idx) sibling')).

(** [merge_children(node, idx)]: the child at [idx] takes the key of [node]
    at [idx] and the keys and children of its right sibling, which leaves. *)
Definition merge_children (node : Node T) (idx : nat) : option (Node T) :=
  do child <- nth_error (children node) idx;
  do sibling <- nth_error (children node) (S idx);
  do down <- nth_error (keys node) idx;
  let child' := mkNode (is_leaf child) (keys child ++ down :: keys sibling)
                  (if is_leaf child then children child
                   else children child ++ children sibling) in
  do nk <- erase_at (keys node) idx;
  do nc <- erase_at (set_nth (children node) idx child') (S idx);
  Some (mkNode (is_leaf node) nk nc).

(** [remove_internal(node, key)] below the root: whether the key was found,
    the node afterwards, and [size_], which the erasure in a leaf decrements.
    The comparisons of a size with [ORDER] convert [ORDER] to [size_t]. *)
Fixpoint remove_internal (fuel : nat) (node : Node T) (key : T) (sz : Z)
    : option (bool * Node T * Z) :=
  match fuel with
  | O => None
  | S f =>
      let idx := scan_greater key (keys node) in
      let here :=
        match nth_error (keys node) idx with
        | Some x => key_of key =? key_of x
        | None => false
        end in
      if here then
        if is_leaf node then
          do ks <- erase_at (keys node) idx;
          Some (true, mkNode (is_leaf node) ks (children node), u64_sub sz 1)
        else
          do lchild <- nth_error (children node) idx;
          if u64 ORDER <=? size (keys lchild) then
            do leaf <- last_leaf f lchild;
            do predecessor <- back (keys leaf);
            do r <- remove_internal f lchild predecessor sz;
            Some (true,
                  mkNode (is_leaf node) (set_nth (keys node) idx predecessor)
                    (set_nth (children node) idx (snd (fst r))),
                  snd r)
          else
            do rchild <- nth_error (children node) (S idx);
            if u64 ORDER <=? size (keys rchild) then
              do leaf <- first_leaf f rchild;
              do successor <- nth_error (keys leaf) 0;
              do r <- remove_internal f rchild successor sz;
              Some (true,
                    mkNode (is_leaf node) (set_nth (keys node) idx successor)
                      (set_nth (children node) (S idx) (snd (fst r))),
                    snd r)
            else
              do node1 <- merge_children node idx;
              do merged <- nth_error (children node1) idx;
              do r <- remove_internal f merged key sz;
              Some (true,
                    mkNode (is_leaf node1) (keys node1)
                      (set_nth (children node1) idx (snd (fst r))),
                    snd r)
      else if is_leaf node then Some (false, node, sz)
      else
        do child <- nth_error (children node) idx;
        do r <- remove_internal f child key sz;
        let child_removed := fst (fst r) in
        let child' := snd (fst r) in
        let node1 := mkNode (is_leaf node) (keys node)
                       (set_nth (children node) idx child') in
        do node2 <-
          (if child_removed && (size (keys child') <? u64 (ORDER - 1)) then
             do prev_big <-
               (if (0 <? idx)%nat
                then do p <- nth_error (children node1) (idx - 1);
                     Some (u64 ORDER <=? size (keys p))
                else Some false);
             if prev_big then borrow_from_prev node1 idx
             else
               do next_big <-
                 (if Z.of_nat idx <? u64 (size (children node1) - 1)
                  then do nx <- nth_error (children node1) (S idx);
                       Some (u64 ORDER <=? size (keys nx))
                  else Some false);
               if next_big then borrow_from_next node1 idx
               else if (0 <? idx)%nat then merge_children node1 (idx - 1)
               else merge_children node1 idx
           else Some node1);
        Some (child_removed, node2, snd r)
  end.

(** [remove(key)].  The call on the root ends with the test that replaces a
    root without keys by its first child. *)
Definition remove (t : BTree T) (key : T) : option (bool * BTree T) :=
  do r <- remove_internal (height (root t)) (root t) key (size_ t);
  let node := snd (fst r) in
  do new_root <- (if (size (keys node) =? 0) && negb (is_leaf node)
                  then nth_error (children node) 0
                  else Some node);
  Some (fst (fst r), mkBTree new_root (snd r)).

End Operations.

(** Every node below the root, with the number of keys it holds. *)
Fixpoint key_counts {T} (n : Node T) : list Z :=
  match n with
  | mkNode _ ks cs => size ks :: flat_map key_counts cs
  end.

Definition nonroot_key_counts {T} (t : BTree T) : list Z :=
  flat_map key_counts (children (root t)).

End BTree.

(** ** B+-Tree (bplus_tree.h)

    [BPlusTree<uint64_t, ORDER>].  A leaf is referenced by its parent and by
    the leaf before it ([next_leaf]), and a split can leave one child under
    two parents, so the nodes live in a heap and are named by their address:
    the position in [heap].  [std::make_shared] appends a node. *)

Module BPlusTree.

Record Node : Type := mkNode {
  is_leaf : bool;
  keys : list Z;
  children : list nat;
  next_leaf : option nat
}.

Record BPlusTree : Type := mkTree { heap : list Node; root : nat; size_ : Z }.

Definition empty : BPlusTree := mkTree [mkNode true [] [] None] 0 0.

(** [keys.resize(n)]: cut, or pad with [0]. *)
Definition resize_keys (n : nat) (ks : list Z) : list Z :=
  firstn n ks ++ repeat 0 (n - length ks).

Section Operations.
Variable ORDER : Z.

Definition mid : Z := Z.quot ORDER 2.

Definition full (n : Node) : bool := size (keys n) =? 2 * ORDER - 1.

(** [split_child(parent, index, child)] on addresses.  An inner node gives
    [keys[mid - 1]] to the parent before it is cut; a leaf gives the first
    key of the new leaf.  A [resize] that would grow [children] with null
    pointers is outside the model. *)
Definition split_child (h : list Node) (parent : nat) (index : Z) (child : nat)
    : option (list Node) :=
  if mid <? 0 then None else
  let m := Z.to_nat mid in
  do cn <- nth_error h child;
  let new_id := length h in
  let new_keys := skipn m (keys cn) in
  do parts <-
    (if is_leaf cn then
       (* the leaf keeps [mid] keys, its first right key goes up *)
       do sep <- nth_error new_keys 0;
       Some (mkNode true new_keys [] (next_leaf cn),
             mkNode true (resize_keys m (keys cn)) (children cn) (Some new_id),
             sep)
     else
       if size (children cn) <? mid + 1 then None else
       do sep <- nth_Z (keys cn) (mid - 1);
       if mid - 1 <? 0 then None else
       Some (mkNode false new_keys (skipn m (children cn)) None,
             mkNode false (resize_keys (Z.to_nat (mid - 1)) (keys cn))
                    (firstn (S m) (children cn)) (next_leaf cn),
             sep));
  let '(new_child, child', sep) := parts in
  let h1 := set_nth h child child' ++ [new_child] in
  do pn <- nth_error h1 parent;
  do pk <- insert_at (keys pn) index sep;
  do pc <- insert_at (children pn) (index + 1) new_id;
  Some (set_nth h1 parent (mkNode (is_leaf pn) pk pc (next_leaf pn))).

Fixpoint shift_insert (key : Z) (rks : list Z) : list Z :=
  match rks with
  | [] => [key]
  | x :: r => if key <? x then x :: shift_insert key r else key :: rks
  end.

Definition leaf_insert (key : Z) (ks : list Z) : list Z :=
  rev (shift_insert key (rev ks)).

Fixpoint skip_greater (key : Z) (rks : list Z) : nat :=
  match rks with
  | [] => O
  | x :: r => if key <? x then skip_greater key r else length rks
  end.

Definition child_index (key : Z) (ks : list Z) : Z :=
  Z.of_nat (skip_greater key (rev ks)).

(** [insert_non_full(node, key)]. *)
Fixpoint insert_non_full (fuel : nat) (h : list Node) (node : nat) (key : Z)
    : option (list Node) :=
  match fuel with
  | O => None
  | S f =>
      do n <- nth_error h node;
      if is_leaf n
      then Some (set_nth h node
                   (mkNode true (leaf_insert key (keys n)) (children n) (next_leaf n)))
      else
        let i := child_index key (keys n) in
        do c <- nth_Z (children n) i;
        do cn <- nth_error h c;
        do st <- (if full cn then
                    do h' <- split_child h node i c;
                    do n' <- nth_error h' node;
                    do k <- nth_Z (keys n') i;
                    Some (h', if k <? key then i + 1 else i)
                  else Some (h, i));
        let '(h1, j) := st in
        do n1 <- nth_error h1 node;
        do cj <- nth_Z (children n1) j;
        insert_non_full f h1 cj key
  end.

(** [insert(key)]. *)
Definition insert (t : BPlusTree) (key : Z) : option BPlusTree :=
  do r <- nth_error (heap t) (root t);
  if full r then
    let new_root := length (heap t) in
    let h0 := heap t ++ [mkNode false [] [root t] None] in
    do h1 <- split_child h0 new_root 0 (root t);
    do h2 <- insert_non_full (S (length h1)) h1 new_root key;
    Some (mkTree h2 new_root (size_ t + 1))
  else
    do h1 <- insert_non_full (S (length (heap t))) (heap t) (root t) key;
    Some (mkTree h1 (root t) (size_ t + 1)).

Fixpoint insert_all (t : BPlusTree) (ks : list Z) : option BPlusTree :=
  match ks with
  | [] => Some t
  | k :: r => do t' <- insert t k; insert_all t' r
  end.

End Operations.

(** The number of keys of every node under a node, the node included. *)
Fixpoint key_counts (fuel : nat) (h : list Node) (node : nat) : list Z :=
  match fuel with
  | O => []
  | S f =>
      match nth_error h node with
      | None => []
      | Some n => size (keys n) :: flat_map (key_counts f h) (children n)
      end
  end.

Definition nonroot_key_counts (t : BPlusTree) : list Z :=
  match nth_error (heap t) (root t) with
  | None => []
  | Some r => flat_map (key_counts (length (heap t)) (heap t)) (children r)
  end.

End BPlusTree.

(** ** Strings of the model-file parser *)

Definition is_space (c : ascii) : bool :=
  (c =? " ")%char || (c =? "009")%char || (c =? "010")%char || (c =? "013")%char.

Fixpoint drop_space (s : list ascii) : list ascii :=
  match s with
  | c :: r => if is_space c then drop_space r else s
  | [] => []
  end.

(** [trim]: the part from the first to the last character that is not a
    space, tab, newline or carriage return. *)
Definition trim (s : string) : string :=
  string_of_list_ascii
    (rev (drop_space (rev (drop_space (list_ascii_of_string s))))).

(** [s.find(pat, pos)]: [None] is [npos]. *)
Definition find (pat : string) (pos : nat) (s : string) : option nat :=
  index pos pat s.

Definition contains (pat s : string) : bool :=
  match find pat 0 s with Some _ => true | None => false end.

(** [s.substr(pos)]. *)
Definition substr_from (pos : nat) (s : string) : string :=
  substring pos (String.length s - pos) s.

(** [if (!s.empty() && s.back() == ',') s.pop_back()]. *)
Definition drop_trailing_comma (s : string) : string :=
  match rev (list_ascii_of_string s) with
  | c :: r => if (c =? ",")%char then string_of_list_ascii (rev r) else s
  | [] => s
  end.

(** The lines [std::getline] yields from the content of a file: the pieces
    between newline characters, without a last piece that is empty. *)
Fixpoint getlines_from (cur : list ascii) (s : list ascii) : list string :=
  match s with
  | [] => match cur with
          | [] => []
          | _ => [string_of_list_ascii (rev cur)]
          end
  | c :: r =>
      if (c =? "010")%char
      then string_of_list_ascii (rev cur) :: getlines_from [] r
      else getlines_from (c :: cur) r
  end.

Definition getlines (content : string) : list string :=
  getlines_from [] (list_ascii_of_string content).

(** ** RMI and its model loader (rmi.h) *)

Module RMI.

(** What a call can come to: a value, a C++ exception, or an operation
    without defined result. *)
Inductive outcome (A : Type) : Type :=
  | Ok (a : A)
  | Throw
  | Undefined.
Arguments Ok {A} _.
Arguments Throw {A}.
Arguments Undefined {A}.

Definition obind {A B : Type} (x : outcome A) (f : A -> outcome B) : outcome B :=
  match x with
  | Ok a => f a
  | Throw => Throw
  | Undefined => Undefined
  end.

Definition defined {A : Type} (x : option A) : outcome A :=
  match x with
  | Some a => Ok a
  | None => Undefined
  end.

Record LinearModel : Type := mkLinear { slope : double; intercept : double }.

Definition predict (m : LinearModel) (x : double) : double :=
  Double.add (Double.mul (slope m) x) (intercept m).

Record ModelParams : Type := mkParams {
  p_slope : double;
  p_intercept : double;
  p_min_error : Z;
  p_max_error : Z
}.

Record RMIModelParams : Type := mkRMIParams {
  p_branch_factor : Z;
  p_stage1 : ModelParams;
  p_stage2 : list ModelParams
}.

(** [ModelParams{}]. *)
Definition zero_params : ModelParams := mkParams Double.zero Double.zero 0 0.

Section Parser.

(** [std::stod] on the text of a value: [None] when it throws. *)
Variable stod : string -> option double.

(** What the locals [params] and [currentModel] hold before anything is
    assigned to them. *)
Variable uninit_params : RMIModelParams.
Variable uninit_model : ModelParams.

(** [extractNumericValue(line, key)]. *)
Definition extractNumericValue (line key : string) : outcome double :=
  match find key 0 line with
  | None => Ok Double.zero
  | Some pos =>
      match find ":" (pos + String.length key) line with
      | None => Ok Double.zero
      | Some pos' =>
          let valueStr := drop_trailing_comma (trim (substr_from (pos' + 1) line)) in
          match stod valueStr with
          | Some d => Ok d
          | None => Throw
          end
      end
  end.

Definition extractInt (line key : string) : outcome Z :=
  obind (extractNumericValue line key) (fun d => defined (Double.to_int d)).

Record parser_state : Type := mkParser {
  params : RMIModelParams;
  inStage1 : bool;
  inStage2 : bool;
  currentModel : ModelParams
}.

(** A field name between double quotes, as the parser looks for it. *)
Definition dquote : ascii := "034"%char.
Definition q (s : string) : string :=
  String dquote (s ++ String dquote EmptyString)%string.

(** The body of the [while (std::getline(file, line))] loop. *)
Definition parse_line (st : parser_state) (raw : string) : outcome parser_state :=
  let line := trim raw in
  let p := params st in
  let cur := currentModel st in
  if contains (q "branch_factor") line then
    obind (extractInt line (q "branch_factor")) (fun b =>
    Ok (mkParser (mkRMIParams b (p_stage1 p) (p_stage2 p))
                 (inStage1 st) (inStage2 st) cur))
  else if contains (q "stage1") line then
    Ok (mkParser p true false cur)
  else if contains (q "stage2") line then
    Ok (mkParser p false true cur)
  else if inStage1 st then
    let s1 := p_stage1 p in
    if contains (q "slope") line then
      obind (extractNumericValue line (q "slope")) (fun d =>
      Ok (mkParser (mkRMIParams (p_branch_factor p)
                      (mkParams d (p_intercept s1) (p_min_error s1) (p_max_error s1))
                      (p_stage2 p))
                   (inStage1 st) (inStage2 st) cur))
    else if contains (q "intercept") line then
      obind (extractNumericValue line (q "intercept")) (fun d =>
      Ok (mkParser (mkRMIParams (p_branch_factor p)
                      (mkParams (p_slope s1) d (p_min_error s1) (p_max_error s1))
                      (p_stage2 p))
                   (inStage1 st) (inStage2 st) cur))
    else Ok st
  else if inStage2 st then
    if (line =? "{")%string then
      Ok (mkParser p (inStage1 st) (inStage2 st) zero_params)
    else if (line =? "},")%string || (line =? "}")%string then
      Ok (mkParser (mkRMIParams (p_branch_factor p) (p_stage1 p) (p_stage2 p ++ [cur]))
                   (inStage1 st) (inStage2 st) cur)
    else if contains (q "slope") line then
      obind (extractNumericValue line (q "slope")) (fun d =>
      Ok (mkParser p (inStage1 st) (inStage2 st)
            (mkParams d (p_intercept cur) (p_min_error cur) (p_max_error cur))))
    else if contains (q "intercept") line then
      obind (extractNumericValue line (q "intercept")) (fun d =>
      Ok (mkParser p (inStage1 st) (inStage2 st)
            (mkParams (p_slope cur) d (p_min_error cur) (p_max_error cur))))
    else if contains (q "min_error") line then
      obind (extractInt line (q "min_error")) (fun e =>
      Ok (mkParser p (inStage1 st) (inStage2 st)
            (mkParams (p_slope cur) (p_intercept cur) e (p_max_error cur))))
    else if contains (q "max_error") line then
      obind (extractInt line (q "max_error")) (fun e =>
      Ok (mkParser p (inStage1 st) (inStage2 st)
            (mkParams (p_slope cur) (p_intercept cur) (p_min_error cur) e)))
    else Ok st
  else Ok st.

Fixpoint parse_lines (st : parser_state) (lines : list string) : outcome parser_state :=
  match lines with
  | [] => Ok st
  | l :: r => obind (parse_line st l) (fun st' => parse_lines st' r)
  end.

(** [parseRMIModel(filename)]; [file] is the content of the file of that
    name, [None] when it cannot be opened. *)
Definition parseRMIModel (file : option string) : outcome RMIModelParams :=
  match file with
  | None => Throw
  | Some content =>
      obind (parse_lines
               (mkParser (mkRMIParams (p_branch_factor uninit_params)
                                      (p_stage1 uninit_params) [])
                         false false uninit_model)
               (getlines content))
            (fun st => Ok (params st))
  end.

End Parser.

Record RMI : Type := mkRMI {
  branch_factor : Z;
  stage1_model : LinearModel;
  stage2_models : list LinearModel;
  min_errors : list Z;
  max_errors : list Z;
  data : list Z
}.

(** [RMI()]. *)
Definition init : RMI :=
  mkRMI 0 (mkLinear Double.zero Double.zero) [] [] [] [].

(** [load_model(filename)]: the returned flag and the state left behind. *)
Definition load_model (stod : string -> option double)
    (uninit_params : RMIModelParams) (uninit_model : ModelParams)
    (r : RMI) (file : option string) : outcome (bool * RMI) :=
  match parseRMIModel stod uninit_params uninit_model file with
  | Ok p =>
      Ok (true,
          mkRMI (p_branch_factor p)
                (mkLinear (p_slope (p_stage1 p)) (p_intercept (p_stage1 p)))
                (map (fun m => mkLinear (p_slope m) (p_intercept m)) (p_stage2 p))
                (map p_min_error (p_stage2 p))
                (map p_max_error (p_stage2 p))
                (data r))
  | Throw => Ok (false, r)
  | Undefined => Undefined
  end.

(** [load_data(new_data)]. *)
Definition load_data (r : RMI) (new_data : list Z) : RMI :=
  mkRMI (branch_factor r) (stage1_model r) (stage2_models r)
        (min_errors r) (max_errors r) new_data.

(** The local [model_idx] of [predict_position]. *)
Definition stage2_index (r : RMI) (key : Z) : option Z :=
  let stage1_pred := predict (stage1_model r) (Double.of_Z key) in
  do t <- Double.to_int stage1_pred;
  do b1 <- int_sub (branch_factor r) 1;
  Some (Z.max 0 (Z.min b1 t)).

(** [predict_position(key)]. *)
Definition predict_position (r : RMI) (key : Z) : option (Z * Z) :=
  if branch_factor r =? 0 then Some (-1, -1)
  else
    do model_idx <- stage2_index r key;
    do m <- nth_Z (stage2_models r) model_idx;
    do pred_pos <- Double.round_to_int (predict m (Double.of_Z key));
    do mn <- nth_Z (min_errors r) model_idx;
    do lo <- int_add pred_pos mn;
    do mx <- nth_Z (max_errors r) model_idx;
    do upper_bound <- int_add pred_pos mx;
    Some (Z.max 0 lo, upper_bound).

(** [lookup(key)]. *)
Definition lookup (r : RMI) (key : Z) : option Z :=
  match data r with
  | [] => Some (-1)
  | _ =>
      if branch_factor r =? 0 then
        do it <- lower_bound id (data r) 0 (size (data r)) key;
        found_at (data r) it key
      else
        do b <- predict_position r key;
        let lower_bound_ := Z.max 0 (fst b) in
        do top <- int_sub (int_of (size (data r))) 1;
        let upper_bound_ := Z.min top (snd b) in
        do it <- lower_bound id (data r) lower_bound_ (upper_bound_ + 1) key;
        found_at (data r) it key
  end.

(** [range_query(lower, upper)].  [static_cast<int>(data.size()) - 1] is
    [top], and the position of [lower_it] enters the second window converted
    to [int]. *)
Definition range_query (r : RMI) (lower upper : Z) : option (list Z) :=
  let d := data r in
  if match d with [] => true | _ => false end || (upper <? lower) then Some []
  else
    do lower_it <-
      (if branch_factor r =? 0 then lower_bound id d 0 (size d) lower
       else
         do b <- predict_position r lower;
         let lb_pos := Z.max 0 (fst b) in
         do top <- int_sub (int_of (size d)) 1;
         let ub_pos := Z.min top (snd b) in
         do it <- lower_bound id d lb_pos (ub_pos + 1) lower;
         if it =? ub_pos + 1 then lower_bound id d 0 (size d) lower else Some it);
    if lower_it =? size d then Some []
    else
      do upper_it <-
        (if branch_factor r =? 0 then upper_bound id d lower_it (size d) upper
         else
           do b <- predict_position r upper;
           let lb_pos := Z.max (int_of lower_it) (fst b) in
           do top <- int_sub (int_of (size d)) 1;
           let ub_pos := Z.min top (snd b) in
           if ub_pos <? lb_pos then upper_bound id d lower_it (size d) upper
           else
             do it <- upper_bound id d lb_pos (ub_pos + 1) upper;
             if it =? lb_pos then upper_bound id d lower_it (size d) upper
             else Some it);
      slice d lower_it upper_it.

End RMI.

(** ** FITing-Tree (fiting_tree.h) *)

Module FitingTree.

Record KeyIndex : Type := mkKeyIndex { key : Z; index : Z }.

Record Segment : Type := mkSegment {
  start_key : Z;
  slope : double;
  intercept : double;
  max_error : Z;
  start_position : Z;
  end_position : Z
}.

Record DeltaBuffer : Type := mkBuffer { keys : list Z; max_size : Z }.

(** [DeltaBuffer()]. *)
Definition new_buffer : DeltaBuffer := mkBuffer [] 64.

Record FitingTree : Type := mkTree {
  epsilon : Z;
  segments : list Segment;
  segment_index : BTree.BTree KeyIndex;
  data : list Z;
  delta_buffers : list DeltaBuffer
}.

(** [FitingTree(epsilon)]; the default argument is 32. *)
Definition init (eps : Z) : FitingTree := mkTree eps [] BTree.empty [] [].

(** The running sums of the least-squares fit, the model they give, the
    error accepted last and the position after the segment. *)
Record fit : Type := mkFit {
  count : Z;
  sum_x : double;
  sum_y : double;
  sum_xx : double;
  sum_xy : double;
  f_slope : double;
  f_intercept : double;
  f_max_error : double;
  end_idx : Z
}.

(** The loop over [i] in [start_idx .. end_idx] that takes the largest
    [|slope * data[i] + intercept - i|]; [n] positions are left. *)
Fixpoint scan_errors (sl ic : double) (d : list Z) (i : Z) (n : nat)
    (max_current_error : double) : option double :=
  match n with
  | O => Some max_current_error
  | S n' =>
      do x <- nth_Z d i;
      let predicted_pos := Double.add (Double.mul sl (Double.of_Z x)) ic in
      let error := Double.abs (Double.sub predicted_pos (Double.of_Z i)) in
      scan_errors sl ic d (i + 1) n' (Double.max max_current_error error)
  end.

(** The loop [while (end_idx < n)] that extends a segment.  Each arithmetic
    operation rounds to double; [count] is an [int] and [count++] is defined
    while it fits.  On [break] the sums and the model have taken in the point
    at [end_idx]; [max_error] and [end_idx] have not moved. *)
Fixpoint extend (fuel : nat) (d : list Z) (n eps start_idx : Z) (st : fit)
    : option fit :=
  match fuel with
  | O => Some st
  | S f =>
      if end_idx st <? n then
        do x <- nth_Z d (end_idx st);
        let xd := Double.of_Z x in
        let yd := Double.of_Z (end_idx st) in
        do cnt <- int_add (count st) 1;
        let sx := Double.add (sum_x st) xd in
        let sy := Double.add (sum_y st) yd in
        let sxx := Double.add (sum_xx st) (Double.mul xd xd) in
        let sxy := Double.add (sum_xy st) (Double.mul xd yd) in
        let denominator :=
          Double.sub (Double.mul (Double.of_Z cnt) sxx) (Double.mul sx sx) in
        let '(sl, ic) :=
          if Double.gtb (Double.abs denominator) Double.tiny then
            let sl := Double.div
                        (Double.sub (Double.mul (Double.of_Z cnt) sxy)
                                    (Double.mul sx sy))
                        denominator in
            (sl, Double.div (Double.sub sy (Double.mul sl sx)) (Double.of_Z cnt))
          else (f_slope st, f_intercept st) in
        do mce <- scan_errors sl ic d start_idx
                    (Z.to_nat (end_idx st - start_idx + 1)) Double.zero;
        if Double.gtb mce (Double.of_Z eps)
        then Some (mkFit cnt sx sy sxx sxy sl ic (f_max_error st) (end_idx st))
        else extend f d n eps start_idx
               (mkFit cnt sx sy sxx sxy sl ic mce (end_idx st + 1))
      else Some st
  end.

(** The loop [while (start_idx < n)] that cuts the data into segments.
    [start_idx] and [end_idx] are [size_t]; [int start_pos = start_idx] and
    the field [end_position], an [int], hold them converted to [int]. *)
Fixpoint segment_loop (fuel : nat) (d : list Z) (n eps start_idx : Z)
    (acc : list Segment) : option (list Segment) :=
  match fuel with
  | O => Some acc
  | S f =>
      if start_idx <? n then
        do x <- nth_Z d start_idx;
        let xd := Double.of_Z x in
        let start_pos := int_of start_idx in
        let pos := Double.of_Z start_pos in
        let st0 := mkFit 1 xd pos (Double.mul xd xd) (Double.mul xd pos)
                     Double.zero pos Double.zero (start_idx + 1) in
        do st <- extend (Z.to_nat n) d n eps start_idx st0;
        let st' :=
          if (end_idx st =? start_idx + 1)
             && Double.gtb (f_max_error st) (Double.of_Z eps)
          then mkFit (count st) (sum_x st) (sum_y st) (sum_xx st) (sum_xy st)
                     Double.zero pos Double.zero (start_idx + 1)
          else st in
        do me <- Double.ceil_to_int (f_max_error st');
        let segment := mkSegment x (f_slope st') (f_intercept st') me
                         start_pos (int_of (end_idx st' - 1)) in
        segment_loop f d n eps (end_idx st') (acc ++ [segment])
      else Some acc
  end.

(** The loop that enters [(segments[i].start_key, i)] into the B-Tree; the
    [size_t] counter [i] is converted to the [int] field [index]. *)
Fixpoint index_segments (t : BTree.BTree KeyIndex) (segs : list Segment) (i : Z)
    : option (BTree.BTree KeyIndex) :=
  match segs with
  | [] => Some t
  | s :: r =>
      do t' <- BTree.insert key 5 t (mkKeyIndex (start_key s) (int_of i));
      index_segments t' r (i + 1)
  end.

(** [buildSegments()].  [segments] is cleared; [segment_index] is not. *)
Definition buildSegments (ft : FitingTree) : option FitingTree :=
  match data ft with
  | [] => Some (mkTree (epsilon ft) [] (segment_index ft) [] (delta_buffers ft))
  | _ =>
      let n := size (data ft) in
      do segs <- segment_loop (Z.to_nat n) (data ft) n (epsilon ft) 0 [];
      do t <- index_segments (segment_index ft) segs 0;
      Some (mkTree (epsilon ft) segs t (data ft) (delta_buffers ft))
  end.

(** [findSegmentIndex(key)]. *)
Definition findSegmentIndex (ft : FitingTree) (k : Z) : option Z :=
  do results <- BTree.range_search key (segment_index ft)
                  (mkKeyIndex 0 (-1)) (mkKeyIndex k (-1));
  match results with
  | [] => Some 0
  | r0 :: _ =>
      Some (fst (fold_left
                   (fun (best : Z * Z) (ki : KeyIndex) =>
                      if (key ki <=? k) && (snd best <=? key ki)
                      then (index ki, key ki) else best)
                   results (index r0, key r0)))
  end.

(** [DeltaBuffer::insert(key)]: the flag and the buffer.  [isFull] compares
    the size with [max_size] converted to [size_t]. *)
Definition buffer_insert (b : DeltaBuffer) (k : Z) : option (bool * DeltaBuffer) :=
  if u64 (max_size b) <=? size (keys b) then Some (false, b)
  else
    do it <- lower_bound id (keys b) 0 (size (keys b)) k;
    do dup <- (if it =? size (keys b) then Some false
               else do x <- nth_Z (keys b) it; Some (x =? k));
    if dup then Some (false, b)
    else do ks <- insert_at (keys b) it k; Some (true, mkBuffer ks (max_size b)).

(** [v.resize(n, DeltaBuffer())]. *)
Definition resize_buffers (n : nat) (bs : list DeltaBuffer) : list DeltaBuffer :=
  firstn n bs ++ repeat new_buffer (n - length bs).

(** [build(keys)]. *)
Definition build (ft : FitingTree) (ks : list Z) : option FitingTree :=
  let ft1 := mkTree (epsilon ft) (segments ft) (segment_index ft) (sort ks)
               (delta_buffers ft) in
  do ft2 <- buildSegments ft1;
  Some (mkTree (epsilon ft2) (segments ft2) (segment_index ft2) (data ft2)
          (resize_buffers (length (segments ft2)) (delta_buffers ft2))).

(** The search window of [lookup] and [insertInPlace] in a segment, in
    [int]; [top] is [static_cast<int>(data.size()) - 1]. *)
Definition window (ft : FitingTree) (segment : Segment) (k : Z) : option (Z * Z) :=
  let predicted_pos :=
    Double.add (Double.mul (slope segment) (Double.of_Z k)) (intercept segment) in
  do pred_pos <- Double.round_to_int predicted_pos;
  do lo <- int_sub pred_pos (max_error segment);
  do hi <- int_add pred_pos (max_error segment);
  let lower_bound_ := Z.max (start_position segment) lo in
  let upper_bound_ := Z.min (end_position segment) hi in
  do top <- int_sub (int_of (size (data ft))) 1;
  Some (Z.max 0 lower_bound_, Z.min top upper_bound_).

Definition no_data (ft : FitingTree) : bool :=
  match data ft, segments ft with
  | [], _ => true
  | _, [] => true
  | _, _ => false
  end.

(** [lookup(key)]. *)
Definition lookup (ft : FitingTree) (k : Z) : option Z :=
  if no_data ft then Some (-1)
  else
    do segment_idx <- findSegmentIndex ft k;
    do segment <- nth_Z (segments ft) segment_idx;
    do w <- window ft segment k;
    do it <- lower_bound id (data ft) (fst w) (snd w + 1) k;
    found_at (data ft) it k.

(** The body of the loop of [range_query] over the segments, with
    [static_cast<int>(segments.size())] and [static_cast<int>(data.size())]. *)
Fixpoint range_segments (fuel : nat) (ft : FitingTree) (start end_ : Z)
    (seg_idx end_segment_idx : Z) : option (list Z) :=
  match fuel with
  | O => Some []
  | S f =>
      if (seg_idx <=? end_segment_idx)
         && (seg_idx <? int_of (size (segments ft))) then
        do segment <- nth_Z (segments ft) seg_idx;
        let search_start := Z.max start (start_key segment) in
        let start_pred_pos :=
          Double.add (Double.mul (slope segment) (Double.of_Z search_start))
                     (intercept segment) in
        do sp <- Double.round_to_int start_pred_pos;
        do sp' <- int_sub sp (max_error segment);
        let start_pos := Z.max (start_position segment) sp' in
        do last <- int_sub (int_of (size (segments ft))) 1;
        do next_start <-
          (if seg_idx <? last
           then do nxt <- nth_Z (segments ft) (seg_idx + 1);
                Some (u64_sub (start_key nxt) 1)
           else Some u64_max);
        let search_end := Z.min end_ next_start in
        let end_pred_pos :=
          Double.add (Double.mul (slope segment) (Double.of_Z search_end))
                     (intercept segment) in
        do ep <- Double.round_to_int end_pred_pos;
        do ep' <- int_add ep (max_error segment);
        let end_pos := Z.min (end_position segment) ep' in
        let start_pos := Z.max 0 start_pos in
        do top <- int_sub (int_of (size (data ft))) 1;
        let end_pos := Z.min top end_pos in
        do start_it <- lower_bound id (data ft) start_pos (end_pos + 1) search_start;
        do end_it <- upper_bound id (data ft) start_it (end_pos + 1) search_end;
        do part <- slice (data ft) start_it end_it;
        do rest <- range_segments f ft start end_ (seg_idx + 1) end_segment_idx;
        Some (part ++ rest)
      else Some []
  end.

(** [range_query(start, end)]. *)
Definition range_query (ft : FitingTree) (start end_ : Z) : option (list Z) :=
  if no_data ft || (end_ <? start) then Some []
  else
    do start_segment_idx <- findSegmentIndex ft start;
    do end_segment_idx <- findSegmentIndex ft end_;
    range_segments (S (length (segments ft))) ft start end_
      start_segment_idx end_segment_idx.

(** The loop of [insertInPlace] that moves the positions at or after the
    insertion point up by one. *)
Definition shift_segment (insert_pos : Z) (s : Segment) : Segment :=
  mkSegment (start_key s) (slope s) (intercept s) (max_error s)
    (if insert_pos <=? start_position s then start_position s + 1
     else start_position s)
    (if insert_pos <=? end_position s then end_position s + 1
     else end_position s).

(** [insertInPlace(key)].  [insert_pos] is the position of the iterator
    that the search returns; it lies between the ends of the window, which
    are [int]s as the positions of a segment are, so the [int] variable
    that the code keeps it in holds it as it is.  [segment] is a reference into [segments], so after the positions have
    moved it names the moved segment, the same one as [updated_segment]: the
    test for a rebuild compares a span with twice itself. *)
Definition insertInPlace (ft : FitingTree) (k : Z) : option (bool * FitingTree) :=
  if no_data ft then
    do ft' <- buildSegments
                (mkTree (epsilon ft) (segments ft) (segment_index ft)
                        (data ft ++ [k]) (delta_buffers ft));
    Some (true, ft')
  else
    do segment_idx <- findSegmentIndex ft k;
    do segment <- nth_Z (segments ft) segment_idx;
    do w <- window ft segment k;
    do insert_pos <- lower_bound id (data ft) (fst w) (snd w + 1) k;
    do present <- (if insert_pos =? size (data ft) then Some false
                   else do x <- nth_Z (data ft) insert_pos; Some (x =? k));
    if present then Some (false, ft)
    else
      do d' <- insert_at (data ft) insert_pos k;
      let segs' := map (shift_segment insert_pos) (segments ft) in
      do updated_segment <- nth_Z segs' segment_idx;
      let segment' := updated_segment in
      let ft' := mkTree (epsilon ft) segs' (segment_index ft) d' (delta_buffers ft) in
      if 2 * (end_position segment' - start_position segment')
         <? end_position updated_segment - start_position updated_segment
      then do ft'' <- buildSegments ft'; Some (true, ft'')
      else Some (true, ft').

(** [for (auto& k : ks) insertInPlace(k)]. *)
Fixpoint insert_each (ft : FitingTree) (ks : list Z) : option FitingTree :=
  match ks with
  | [] => Some ft
  | k :: r => do res <- insertInPlace ft k; insert_each (snd res) r
  end.

Definition set_buffers (ft : FitingTree) (bs : list DeltaBuffer) : FitingTree :=
  mkTree (epsilon ft) (segments ft) (segment_index ft) (data ft) bs.

(** The loop of the full merge: every buffer is inserted and emptied, in
    order; [i] is the position of the buffer. *)
Fixpoint merge_all (fuel : nat) (ft : FitingTree) (i : nat) : option FitingTree :=
  match fuel with
  | O => Some ft
  | S f =>
      match nth_error (delta_buffers ft) i with
      | None => Some ft
      | Some b =>
          do ft1 <- insert_each ft (keys b);
          merge_all f
            (set_buffers ft1
               (set_nth (delta_buffers ft1) i (mkBuffer [] (max_size b))))
            (S i)
      end
  end.

Definition total_buffer_size (ft : FitingTree) : Z :=
  fold_left (fun acc b => acc + size (keys b)) (delta_buffers ft) 0.

(** [insertDelta(key)]. *)
Definition insertDelta (ft : FitingTree) (k : Z) : option (bool * FitingTree) :=
  if no_data ft then
    do ft' <- buildSegments
                (mkTree (epsilon ft) (segments ft) (segment_index ft)
                        (data ft ++ [k]) (delta_buffers ft));
    Some (true, ft')
  else
    do segment_idx <- findSegmentIndex ft k;
    if segment_idx <? 0 then None else
    let bs := if size (delta_buffers ft) <=? segment_idx
              then resize_buffers (Z.to_nat (segment_idx + 1)) (delta_buffers ft)
              else delta_buffers ft in
    do b <- nth_Z bs segment_idx;
    do res <- buffer_insert b k;
    let '(inserted, b') := res in
    let ft1 := set_buffers ft (set_nth bs (Z.to_nat segment_idx) b') in
    if negb inserted then
      do ft2 <- insert_each ft1 (keys b');
      let ft3 := set_buffers ft2
                   (set_nth (delta_buffers ft2) (Z.to_nat segment_idx)
                      (mkBuffer [] (max_size b'))) in
      do ft4 <- buildSegments ft3;
      insertInPlace ft4 k
    else
      if Double.gtb (Double.of_Z (total_buffer_size ft1))
                    (Double.mul (Double.of_Z (size (data ft1))) Double.one_tenth)
      then
        do ft2 <- merge_all (length (delta_buffers ft1)) ft1 O;
        do ft3 <- buildSegments ft2;
        Some (true, ft3)
      else Some (true, ft1).

End FitingTree.

(** ** RadixSpline (radix_spline.h) *)

Module RadixSpline.

Record SplinePoint : Type := mkPoint { x : Z; y : double }.

Record SearchBound : Type := mkBound { begin_ : Z; end_ : Z }.

Record RadixSpline : Type := mkSpline {
  data : list Z;
  min_key_ : Z;
  max_key_ : Z;
  num_keys_ : Z;
  spline_points_ : list SplinePoint;
  num_radix_bits_ : Z;
  num_radix_buckets_ : Z;
  radix_table_ : list Z
}.

(** [RadixSpline()]. *)
Definition init : RadixSpline :=
  mkSpline [] 0 0 0 [] 18 (2 ^ 18) (repeat 0 (Z.to_nat (2 ^ 18 + 1))).

(** [GetRadixIndex(key)]. *)
Definition GetRadixIndex (rs : RadixSpline) (key : Z) : option Z :=
  if key <=? min_key_ rs then Some 0
  else if max_key_ rs <=? key then Some (u64_sub (num_radix_buckets_ rs) 1)
  else
    let normalized_key :=
      Double.div (Double.of_Z (u64_sub key (min_key_ rs)))
                 (Double.of_Z (u64_sub (max_key_ rs) (min_key_ rs))) in
    do index <- Double.to_u64
                  (Double.mul normalized_key (Double.of_Z (num_radix_buckets_ rs)));
    Some (Z.min index (u64_sub (num_radix_buckets_ rs) 1)).

(** The loop of [build] over [data[1..]]: a point for every key that
    differs from the [x] of the last point.  [rpoints] are the points so far,
    last one first. *)
Fixpoint spline_loop (d : list Z) (i : Z) (rpoints : list SplinePoint)
    : list SplinePoint :=
  match d with
  | [] => rpoints
  | k :: r =>
      let differs := match rpoints with
                     | p :: _ => negb (k =? x p)
                     | [] => true
                     end in
      spline_loop r (i + 1)
        (if differs then mkPoint k (Double.of_Z i) :: rpoints else rpoints)
  end.

(** The loop [while (cur + 1 < size && points[cur + 1].x <= boundary) ++cur]. *)
Fixpoint advance (fuel : nat) (points : list SplinePoint) (cur boundary : Z) : Z :=
  match fuel with
  | O => cur
  | S f =>
      match nth_Z points (cur + 1) with
      | Some p => if x p <=? boundary then advance f points (cur + 1) boundary
                  else cur
      | None => cur
      end
  end.

(** The loop that fills [radix_table_[i]] for the [n] buckets from [i] on. *)
Fixpoint fill_table (n : nat) (points : list SplinePoint)
    (min_key max_key buckets : Z) (i cur : Z) : option (list Z) :=
  match n with
  | O => Some []
  | S n' =>
      let delta := Double.div (Double.of_Z (u64_sub max_key min_key))
                              (Double.of_Z buckets) in
      do off <- Double.to_u64 (Double.mul (Double.of_Z (i + 1)) delta);
      let bucket_boundary := u64_add min_key off in
      let cur' := advance (length points) points cur bucket_boundary in
      do rest <- fill_table n' points min_key max_key buckets (i + 1) cur';
      Some (cur' :: rest)
  end.

(** [build(keys, num_radix_bits)]; the default argument is 18. *)
Definition build (rs : RadixSpline) (ks : list Z) (num_radix_bits : Z)
    : option RadixSpline :=
  let min_key := hd 0 ks in
  let max_key := last ks 0 in
  let num_keys := size ks in
  if (num_radix_bits <? 0) || (64 <=? num_radix_bits) then None else
  let buckets := 2 ^ num_radix_bits in
  let rpoints := spline_loop (tl ks) 1 [mkPoint min_key Double.zero] in
  let rpoints :=
    match rpoints with
    | p :: _ => if x p =? max_key then rpoints
                else mkPoint max_key (Double.of_Z (u64_sub num_keys 1)) :: rpoints
    | [] => rpoints
    end in
  let points := rev rpoints in
  do table <- fill_table (Z.to_nat buckets) points min_key max_key buckets 0 0;
  Some (mkSpline ks min_key max_key num_keys points num_radix_bits buckets
          (table ++ [size points - 1])).

(** [get_search_bound(key)]. *)
Definition get_search_bound (rs : RadixSpline) (key : Z) : option SearchBound :=
  if match data rs with [] => true | _ => false end || (key <=? min_key_ rs)
  then Some (mkBound 0 1)
  else if max_key_ rs <=? key
  then Some (mkBound (u64_sub (num_keys_ rs) 1) (num_keys_ rs))
  else if size (spline_points_ rs) <=? 1
  then Some (mkBound 0 (size (data rs)))
  else
    do radix_index <- GetRadixIndex rs key;
    let radix_index :=
      if u64_sub (size (radix_table_ rs)) 1 <=? radix_index
      then u64_sub (size (radix_table_ rs)) 2 else radix_index in
    do spline_start <- nth_Z (radix_table_ rs) radix_index;
    do next <- nth_Z (radix_table_ rs) (radix_index + 1);
    let spline_end := u64_add next 1 in
    do segment_idx <-
      (if spline_start =? spline_end then Some spline_start
       else
         do it <- upper_bound x (spline_points_ rs) spline_start
                    (Z.min spline_end (size (spline_points_ rs))) key;
         Some (if it =? spline_start then spline_start else it - 1));
    let segment_idx :=
      if size (spline_points_ rs) - 1 <=? segment_idx
      then (if 2 <=? size (spline_points_ rs)
            then size (spline_points_ rs) - 2 else 0)
      else segment_idx in
    do p1 <- nth_Z (spline_points_ rs) segment_idx;
    do p2 <- nth_Z (spline_points_ rs) (segment_idx + 1);
    let dx := Double.of_Z (u64_sub key (x p1)) in
    let dy := Double.sub (y p2) (y p1) in
    let dx_full := Double.of_Z (u64_sub (x p2) (x p1)) in
    let pos_estimate := Double.add (y p1) (Double.div (Double.mul dx dy) dx_full) in
    let error := Double.sub (Double.max (y p1) (y p2)) (Double.min (y p1) (y p2)) in
    do b <- Double.to_u64 (Double.max Double.zero (Double.sub pos_estimate error));
    do e <- Double.to_u64
              (Double.min (Double.of_Z (num_keys_ rs))
                 (Double.add (Double.add pos_estimate error) (Double.of_Z 1)));
    Some (mkBound b e).

(** [lookup(key)]. *)
Definition lookup (rs : RadixSpline) (key : Z) : option Z :=
  match data rs with
  | [] => Some (-1)
  | _ =>
      do bound <- get_search_bound rs key;
      let b := Z.min (begin_ bound) (size (data rs)) in
      let e := Z.min (end_ bound) (size (data rs)) in
      if (e <=? b) || (size (data rs) <=? b) then Some (-1)
      else
        do it <- lower_bound id (data rs) b e key;
        found_at (data rs) it key
  end.

(** The loop [for (it = ...; it != end_it && *it <= end_key; ++it)]. *)
Fixpoint take_upto (end_key : Z) (l : list Z) : list Z :=
  match l with
  | [] => []
  | k :: r => if k <=? end_key then k :: take_upto end_key r else []
  end.

(** [range_query(start_key, end_key)]. *)
Definition range_query (rs : RadixSpline) (start_key end_key : Z)
    : option (list Z) :=
  if match data rs with [] => true | _ => false end || (end_key <? start_key)
  then Some []
  else
    do start_bound <- get_search_bound rs start_key;
    do end_bound <- get_search_bound rs end_key;
    let b := begin_ start_bound in
    let e := Z.min (end_ end_bound) (size (data rs)) in
    if (e <=? b) || (size (data rs) <=? b) then Some []
    else
      do it <- lower_bound id (data rs) b e start_key;
      do rest <- slice (data rs) it e;
      Some (take_upto end_key rest).

End RadixSpline.

(** ** The search-tree invariant of the B-Tree *)

Section BTreeInvariant.
Context {T : Type}.
Variable key_of : T -> Z.

(** Every element stored in a tree. *)
Fixpoint all_keys (n : BTree.Node T) : list T :=
  match n with
  | BTree.mkNode _ ks cs => ks ++ flat_map all_keys cs
  end.

(** The tallest of a list of children. *)
Definition tallest (cs : list (BTree.Node T)) : nat :=
  fold_right Nat.max O (map BTree.height cs).

(** Bounds of a subtree; [None] is no bound.  The bounds are not strict:
    the tree accepts equal keys. *)
Definition above (lo : option Z) (k : Z) : Prop :=
  match lo with Some l => l <= k | None => True end.

Definition below (hi : option Z) (k : Z) : Prop :=
  match hi with Some h => k <= h | None => True end.

(** The keys of a node ascend and lie within the bounds. *)
Inductive sorted_in : option Z -> option Z -> list T -> Prop :=
  | sorted_nil : forall lo hi, sorted_in lo hi []
  | sorted_cons : forall lo hi k ks,
      above lo (key_of k) -> below hi (key_of k) ->
      sorted_in (Some (key_of k)) hi ks ->
      sorted_in lo hi (k :: ks).

(** A leaf has sorted keys and no children; an inner node has one child
    more than keys, the keys ascend, and the child between two keys holds
    keys between them. *)
Inductive ordered : option Z -> option Z -> BTree.Node T -> Prop :=
  | ordered_leaf : forall lo hi ks,
      sorted_in lo hi ks -> ordered lo hi (BTree.mkNode true ks [])
  | ordered_inner : forall lo hi ks cs,
      ordered_children lo hi ks cs -> ordered lo hi (BTree.mkNode false ks cs)
with ordered_children
  : option Z -> option Z -> list T -> list (BTree.Node T) -> Prop :=
  | children_last : forall lo hi c,
      ordered lo hi c -> ordered_children lo hi [] [c]
  | children_cons : forall lo hi k ks c cs,
      above lo (key_of k) -> below hi (key_of k) ->
      ordered lo (Some (key_of k)) c ->
      ordered_children (Some (key_of k)) hi ks cs ->
      ordered_children lo hi (k :: ks) (c :: cs).

(** The number of keys at the front that are not greater than [key]: the
    child index of an ascending node, counted from the left. *)
Fixpoint idx_left (key : T) (ks : list T) : nat :=
  match ks with
  | [] => O
  | x :: r => if key_of key <? key_of x then O else S (idx_left key r)
  end.

(** Insertion before the first greater key, from the left. *)
Fixpoint ins_left (key : T) (ks : list T) : list T :=
  match ks with
  | [] => [key]
  | x :: r => if key_of key <? key_of x then key :: ks else x :: ins_left key r
  end.

(** The tree after a sequence of insertions into the empty tree. *)
Definition built (ORDER : Z) (ks : list T) : option (BTree.BTree T) :=
  BTree.insert_all key_of ORDER BTree.empty ks.

End BTreeInvariant.

(** ** A model file and the decimal numbers in it *)

Definition digit_of (c : ascii) : option Z :=
  let n := Z.of_nat (nat_of_ascii c) in
  if (48 <=? n) && (n <=? 57) then Some (n - 48) else None.

(** The digits at the front of a text: their value on top of [acc], how
    many there are, and the rest of the text. *)
Fixpoint read_digits (s : list ascii) (acc : Z) (n : Z) : Z * Z * list ascii :=
  match s with
  | c :: r =>
      match digit_of c with
      | Some d => read_digits r (10 * acc + d) (n + 1)
      | None => (acc, n, s)
      end
  | [] => (acc, n, s)
  end.

Definition read_sign (s : list ascii) : bool * list ascii :=
  match s with
  | c :: r => if (c =? "-")%char then (true, r)
              else if (c =? "+")%char then (false, r) else (false, s)
  | [] => (false, s)
  end.

(** [std::stod] on decimal text: spaces, a sign, digits with an optional
    fraction and an optional exponent; what follows is ignored.  The value
    is rounded to the nearest double.  [None] when there is no digit, and
    when the value is out of the range of the doubles.  This is the decimal
    part of [std::stod] only, for the files of the examples: hexadecimal
    text and the words for infinity and not-a-number, which [std::stod]
    reads, and values below the normal doubles, on which it may throw, are
    not covered.  The statements about the loader hold for any [stod]. *)
Definition stod_decimal (text : string) : option double :=
  let s := drop_space (list_ascii_of_string text) in
  let '(neg, s) := read_sign s in
  let '(ip, ni, s) := read_digits s 0 0 in
  let '(m, nf, s) :=
    match s with
    | c :: r => if (c =? ".")%char then read_digits r ip 0 else (ip, 0, s)
    | [] => (ip, 0, s)
    end in
  if ni + nf =? 0 then None else
  let e :=
    match s with
    | c :: r =>
        if (c =? "e")%char || (c =? "E")%char then
          let '(eneg, r') := read_sign r in
          let '(ev, ne, _) := read_digits r' 0 0 in
          if ne =? 0 then 0 else if eneg then - ev else ev
        else 0
    | [] => 0
    end in
  let e10 := e - nf in
  let v :=
    match m with
    | Zpos p =>
        if 0 <=? e10
        then binary_normalize Double.prec Double.emax
               (if neg then - (m * 10 ^ e10) else m * 10 ^ e10) 0 neg
        else Double.div (S754_finite neg p 0)
                        (S754_finite false (Z.to_pos (10 ^ (- e10))) 0)
    | _ => S754_zero neg
    end in
  match v, m with
  | S754_finite _ _ _, _ => Some v
  | S754_zero _, Z0 => Some v
  | _, _ => None
  end.

Definition newline : string := String "010"%char EmptyString.

Definition field (name value : string) : string :=
  (RMI.q name ++ ": " ++ value)%string.

(** A model file laid out as the training script writes it, one field per
    line, that announces three stage-2 models and lists one. *)
Definition short_model_file : string :=
  String.concat newline
    [ "{";
      "  " ++ field "branch_factor" "3,";
      "  " ++ field "stage1" "{";
      "    " ++ field "slope" "0.5,";
      "    " ++ field "intercept" "0.25";
      "  },";
      "  " ++ field "stage2" "[";
      "    {";
      "      " ++ field "slope" "1.0,";
      "      " ++ field "intercept" "0.0,";
      "      " ++ field "min_error" "-1,";
      "      " ++ field "max_error" "1";
      "    }";
      "  ]";
      "}" ]%string.

(** The same file with a [branch_factor] that is not a number. *)
Definition broken_model_file : string :=
  String.concat newline
    [ "{";
      "  " ++ field "branch_factor" "three,";
      "  " ++ field "stage1" "{";
      "    " ++ field "slope" "0.5,";
      "    " ++ field "intercept" "0.25";
      "  },";
      "  " ++ field "stage2" "[";
      "    {";
      "      " ++ field "slope" "1.0,";
      "      " ++ field "intercept" "0.0,";
      "      " ++ field "min_error" "-1,";
      "      " ++ field "max_error" "1";
      "    }";
      "  ]";
      "}" ]%string.

(** Some contents for the locals of the parser that nothing was assigned to. *)
Definition some_params : RMI.RMIModelParams := RMI.mkRMIParams 0 RMI.zero_params [].

(** ** The statements of the specification *)

(** The text that [extractNumericValue(line, key)] hands to [std::stod]: what
    follows the first colon after the key, trimmed and without a comma at
    its end.  [None] when the line has no such key or colon; nothing is
    converted then. *)
Definition field_text (line key : string) : option string :=
  match find key 0 line with
  | None => None
  | Some pos =>
      match find ":" (pos + String.length key) line with
      | None => None
      | Some pos' =>
          Some (drop_trailing_comma (trim (substr_from (pos' + 1) line)))
      end
  end.

(** The key of the numeric field that the loop body of the parser extracts
    from a trimmed line, by the branch that the line and the state select. *)
Definition field_read (st : RMI.parser_state) (line : string) : option string :=
  if contains (RMI.q "branch_factor") line then Some (RMI.q "branch_factor")
  else if contains (RMI.q "stage1") line then None
  else if contains (RMI.q "stage2") line then None
  else if RMI.inStage1 st then
    if contains (RMI.q "slope") line then Some (RMI.q "slope")
    else if contains (RMI.q "intercept") line then Some (RMI.q "intercept")
    else None
  else if RMI.inStage2 st then
    if (line =? "{")%string then None
    else if (line =? "},")%string || (line =? "}")%string then None
    else if contains (RMI.q "slope") line then Some (RMI.q "slope")
    else if contains (RMI.q "intercept") line then Some (RMI.q "intercept")
    else if contains (RMI.q "min_error") line then Some (RMI.q "min_error")
    else if contains (RMI.q "max_error") line then Some (RMI.q "max_error")
    else None
  else None.

(** A line with a numeric field whose text the number conversion rejects:
    the parser, in state [st], extracts a field from the line, and [stod]
    throws on the text of its value. *)
Definition rejects (stod : string -> option double) (st : RMI.parser_state)
    (raw : string) : bool :=
  match field_read st (trim raw) with
  | Some key =>
      match field_text (trim raw) key with
      | Some text => match stod text with None => true | Some _ => false end
      | None => false
      end
  | None => false
  end.

(** The state of the parser before the first line. *)
Definition parser_start (uninit_params : RMI.RMIModelParams)
    (uninit_model : RMI.ModelParams) : RMI.parser_state :=
  RMI.mkParser (RMI.mkRMIParams (RMI.p_branch_factor uninit_params)
                                (RMI.p_stage1 uninit_params) [])
               false false uninit_model.

(** Strictly ascending: sorted and free of duplicates. *)
Definition sorted_unique (l : list Z) : Prop := StronglySorted Z.lt l.

(** The occupancy the specification gives for a node below the root. *)
Definition occupancy_ok (ORDER cnt : Z) : bool :=
  (ORDER - 1 <=? cnt) && (cnt <=? 2 * ORDER - 1).

(** The error bound of a segment at position [i]:
    [|round(slope * D[i] + intercept) - i| <= max_error]. *)
Definition residual_ok (d : list Z) (s : FitingTree.Segment) (i : Z) : option bool :=
  do k <- nth_Z d i;
  do p <- Double.round_Z
            (Double.add (Double.mul (FitingTree.slope s) (Double.of_Z k))
                        (FitingTree.intercept s));
  Some (Z.abs (p - i) <=? FitingTree.max_error s).

(** The bound at every position of a segment, and in every segment. *)
Definition segment_ok (d : list Z) (s : FitingTree.Segment) : option bool :=
  let n := Z.to_nat (FitingTree.end_position s - FitingTree.start_position s + 1) in
  fold_right
    (fun j acc => do a <- acc;
                  do b <- residual_ok d s (FitingTree.start_position s + Z.of_nat j);
                  Some (a && b))
    (Some true) (seq 0 n).

Definition segments_ok (ft : FitingTree.FitingTree) : option bool :=
  fold_right
    (fun s acc => do a <- acc; do b <- segment_ok (FitingTree.data ft) s; Some (a && b))
    (Some true) (FitingTree.segments ft).

(** The stage-2 index as the specification words it: the stage-1
    prediction rounded to the nearest integer, then clamped. *)
Definition spec_stage2_index (r : RMI.RMI) (key : Z) : option Z :=
  do t <- Double.round_to_int (RMI.predict (RMI.stage1_model r) (Double.of_Z key));
  Some (Z.max 0 (Z.min (RMI.branch_factor r - 1) t)).

(** The keys [first, first + step, ...], [n] of them. *)
Definition keys_from (first step : Z) (n : nat) : list Z :=
  map (fun i => first + step * Z.of_nat i) (seq 0 n).

(** A vector whose elements ascend with the position. *)
Definition ascending (d : list Z) : Prop :=
  forall i j x y, i <= j -> nth_Z d i = Some x -> nth_Z d j = Some y -> x <= y.

(** ** The inputs of the examples *)

(** An RMI whose stage-1 model predicts 0.75 for every key, with two
    stage-2 models. *)
Definition rmi_three_quarters : RMI.RMI :=
  RMI.mkRMI 2
    (RMI.mkLinear Double.zero (Double.div (Double.of_Z 3) (Double.of_Z 4)))
    [RMI.mkLinear Double.zero Double.zero; RMI.mkLinear Double.zero Double.zero]
    [0; 0] [0; 0] [5].

(** An RMI without model over three keys. *)
Definition rmi_unloaded : RMI.RMI := RMI.load_data RMI.init [1; 2; 3].

(** The keys 100, 200, ..., 10000 of scenario S6. *)
Definition hundreds : list Z := keys_from 100 100 100.

(** The keys 0, 2, ..., 198 of scenarios S4 and S5. *)
Definition evens : list Z := keys_from 0 2 100.

(** The keys 1 to 10. *)
Definition one_to_ten : list Z := keys_from 1 1 10.

(** The keys 0 to 9. *)
Definition zero_to_nine : list Z := keys_from 0 1 10.

(** Each element is smaller than the next one. *)
Fixpoint ascends (l : list Z) : bool :=
  match l with
  | x :: ((y :: _) as r) => (x <? y) && ascends r
  | _ => true
  end.

(** ** Statements about the engines *)

(** The range [lo, hi] of keys. *)
Definition in_band (lo hi x : Z) : bool := (lo <=? x) && (x <=? hi).

(** An RMI with one stage-2 model that predicts the key itself, one
    position of error to each side, over the keys 0 to 4. *)
Definition rmi_identity : RMI.RMI :=
  RMI.mkRMI 1 (RMI.mkLinear Double.zero Double.zero)
    [RMI.mkLinear (Double.of_Z 1) Double.zero] [-1] [1] [0; 1; 2; 3; 4].

(** The segments cover the positions [from .. n - 1] one after the other,
    each from its [start_position] to its [end_position], and [start_key] is
    the key at the first position. *)
Fixpoint tiles (d : list Z) (from n : Z) (segs : list FitingTree.Segment) : bool :=
  match segs with
  | [] => from =? n
  | s :: r =>
      (FitingTree.start_position s =? from)
      && (from <=? FitingTree.end_position s) && (FitingTree.end_position s <? n)
      && match nth_Z d from with
         | Some x => x =? FitingTree.start_key s
         | None => false
         end
      && tiles d (FitingTree.end_position s + 1) n r
  end.

(** No segment ends before it starts. *)
Definition spans_ok (segs : list FitingTree.Segment) : bool :=
  forallb (fun s => FitingTree.start_position s <=? FitingTree.end_position s) segs.

(** The tree that [build] makes of a list of keys. *)
Definition fiting_of (eps : Z) (ks : list Z) : FitingTree.FitingTree :=
  match FitingTree.build (FitingTree.init eps) ks with
  | Some ft => ft
  | None => FitingTree.init eps
  end.

(** A spline point for every key, at the position of the key; [i] is the
    position of the first one. *)
Fixpoint points_from (i : Z) (ks : list Z) : list RadixSpline.SplinePoint :=
  match ks with
  | [] => []
  | k :: r => RadixSpline.mkPoint k (Double.of_Z i) :: points_from (i + 1) r
  end.

(** The index that [build] makes of a list of keys. *)
Definition spline_of (ks : list Z) (bits : Z) : RadixSpline.RadixSpline :=
  match RadixSpline.build RadixSpline.init ks bits with
  | Some rs => rs
  | None => RadixSpline.init
  end.

(** Keys and the elements of the subtrees around them, from left to right:
    subtree, key, subtree, ..., key, subtree. *)
Fixpoint weave {A : Type} (ks : list A) (subs : list (list A)) {struct subs}
    : list A :=
  match subs with
  | [] => ks
  | s :: subs' =>
      match ks with
      | [] => s ++ concat subs'
      | k :: ks' => s ++ k :: weave ks' subs'
      end
  end.

(** The elements of a tree in the order of a traversal from left to right. *)
Fixpoint inorder {T : Type} (n : BTree.Node T) : list T :=
  match n with
  | BTree.mkNode _ ks cs => weave ks (map inorder cs)
  end.

(** The key of [x] lies in the range of the keys of [lo] and [hi]. *)
Definition key_in_band {T : Type} (key_of : T -> Z) (lo hi x : T) : bool :=
  (key_of lo <=? key_of x) && (key_of x <=? key_of hi).

(** A tree of height [h] whose leaves all lie at depth [h], whose nodes
    hold at most [cap] keys, whose nodes below the root hold at least
    [floor] keys, and whose inner nodes have one child more than keys. *)
Fixpoint shaped {T : Type} (floor cap : Z) (h : nat) (n : BTree.Node T) : bool :=
  match h with
  | O => false
  | S h' =>
      (size (BTree.keys n) <=? cap)
      && (if BTree.is_leaf n
          then (h' =? 0)%nat
               && match BTree.children n with [] => true | _ => false end
          else (length (BTree.children n) =? S (length (BTree.keys n)))%nat
               && forallb (fun c => (floor <=? size (BTree.keys c))
                                    && shaped floor cap h' c)
                          (BTree.children n))
  end.

(** What [shaped] asks of a child. *)
Definition child_ok {T : Type} (floor cap : Z) (h : nat) (c : BTree.Node T) : bool :=
  (floor <=? size (BTree.keys c)) && shaped floor cap h c.

(** The entries that [buildSegments] adds to the index: the first key of
    every segment with the position of the segment, [i] for the first, as
    the [int] that the entry keeps it in. *)
Fixpoint index_entries (segs : list FitingTree.Segment) (i : Z)
    : list FitingTree.KeyIndex :=
  match segs with
  | [] => []
  | s :: r =>
      FitingTree.mkKeyIndex (FitingTree.start_key s) (int_of i)
      :: index_entries r (i + 1)
  end.

(** How often a key occurs among stored elements. *)
Definition occurrences {T : Type} (key_of : T -> Z) (z : Z) (l : list T) : nat :=
  count_occ Z.eq_dec (map key_of l) z.

(** One if the two keys are the same, else zero. *)
Definition hit (a z : Z) : nat := if Z.eq_dec a z then 1%nat else 0%nat.

(** What [remove_internal] makes of a node of height [h] that holds [key]:
    the node keeps its shape, loses at most one key of its own, stays a
    search tree within any bounds it had, and holds one occurrence less of
    the key and as many of every other key. *)
Definition removed_from {T : Type} (key_of : T -> Z) (floor cap : Z) (key : T)
    (h : nat) (n n' : BTree.Node T) : Prop :=
  shaped floor cap h n' = true
  /\ size (BTree.keys n) - 1 <= size (BTree.keys n')
  /\ (forall lo hi, ordered key_of lo hi n -> ordered key_of lo hi n')
  /\ (forall z, occurrences key_of z (all_keys n)
                = (occurrences key_of z (all_keys n') + hit (key_of key) z)%nat).

(** The state a B-Tree is in between two operations: a search tree that is
    balanced, with nodes within the capacity, nodes below the root holding
    at least [ORDER / 2] keys, and an inner root holding a key. *)
Definition btree_ok {T : Type} (key_of : T -> Z) (ORDER : Z) (t : BTree.BTree T)
    : Prop :=
  ordered key_of None None (BTree.root t)
  /\ (exists h, shaped (BTree.mid ORDER) (2 * ORDER - 1) h (BTree.root t) = true)
  /\ (BTree.is_leaf (BTree.root t) = false
      -> 1 <= size (BTree.keys (BTree.root t))).

(** A B-Tree of order 2 with three levels, for the examples. *)
Definition sample_btree : BTree.BTree Z :=
  Eval cbv in
    match built id 2 (keys_from 1 1 12) with
    | Some t => t
    | None => BTree.empty
    end.

(** * Properties *)

(** ** Machine integers *)

Lemma int_of_fits (z : Z) : int_min <= z <= int_max -> int_of z = z.
Proof.
  unfold int_of, int_min, int_max. intros H.
  rewrite Z.mod_small; lia.
Qed.

(** [int_of] lands in [int], whatever it is given. *)
Lemma int_of_range (z : Z) : int_min <= int_of z <= int_max.
Proof.
  unfold int_of, int_min, int_max.
  pose proof (Z.mod_pos_bound (z - - 2 ^ 31) (2 ^ 32)). lia.
Qed.

(** ** Doubles *)

(** The conversion of integers agrees with the rounding of the library, on
    small values, around the 53 bits of the mantissa, and at the ends of the
    64-bit range. *)
Lemma of_Z_rounds_to_nearest :
  forallb
    (fun z => Double.same (Double.of_Z z)
                (binary_normalize Double.prec Double.emax z 0 false))
    [0; 1; 2; 3; 10; 100; 1000; - 5; 2 ^ 53; 2 ^ 53 + 1; 2 ^ 53 + 2; 2 ^ 53 + 3;
     2 ^ 54 + 2; 2 ^ 54 + 6; 2 ^ 63; 2 ^ 63 + 1024; 2 ^ 63 + 1025; 2 ^ 63 + 3072;
     2 ^ 64 - 200; 2 ^ 64 - 1023; 2 ^ 64 - 1024; 2 ^ 64 - 1025; 2 ^ 64 - 1;
     - (2 ^ 60 + 1); 12345678901234567; 36028797018963967]
  = true.
Proof. vm_compute. reflexivity. Qed.

(** The literal [0.1] is the double that [stod] reads from its text. *)
Lemma one_tenth_literal : stod_decimal "0.1" = Some Double.one_tenth.
Proof. vm_compute. reflexivity. Qed.

(** ** Sorting *)

Lemma insert_sorted_perm (x : Z) (l : list Z) :
  Permutation (x :: l) (insert_sorted x l).
Proof.
  induction l as [|y l IH]; simpl; [reflexivity|].
  destruct (x <=? y); [reflexivity|].
  rewrite perm_swap. now constructor.
Qed.

Lemma sort_perm (l : list Z) : Permutation l (sort l).
Proof.
  induction l as [|x l IH]; simpl; [constructor|].
  rewrite <- insert_sorted_perm. now constructor.
Qed.

Lemma insert_sorted_sorted (x : Z) (l : list Z) :
  Sorted Z.le l -> Sorted Z.le (insert_sorted x l).
Proof.
  induction 1 as [|y l Hs IH Hd]; simpl.
  - repeat constructor.
  - destruct (Z.leb_spec x y).
    + repeat constructor; auto.
    + constructor; [exact IH|].
      destruct l as [|z l]; simpl.
      * constructor. lia.
      * inversion Hd; subst. destruct (x <=? z); constructor; lia.
Qed.

Lemma sort_sorted (l : list Z) : StronglySorted Z.le (sort l).
Proof.
  apply Sorted_StronglySorted; [intros a b c; lia|].
  induction l as [|x l IH]; simpl; [constructor|].
  now apply insert_sorted_sorted.
Qed.

Lemma sort_fixes_sorted (l : list Z) : sorted_unique l -> sort l = l.
Proof.
  unfold sorted_unique. induction 1 as [|x l Hs IH Hf]; simpl; [reflexivity|].
  rewrite IH. destruct l as [|y l]; simpl; [reflexivity|].
  inversion Hf; subst. destruct (Z.leb_spec x y); [reflexivity|lia].
Qed.

(** ** Binary search on an ascending vector *)

Lemma sorted_ascending_nat (d : list Z) :
  StronglySorted Z.le d ->
  forall (i j : nat) x y, (i <= j)%nat ->
    nth_error d i = Some x -> nth_error d j = Some y -> x <= y.
Proof.
  induction 1 as [|a l Hs IH Hf]; intros i j x y Hij Hi Hj.
  - destruct i; discriminate.
  - destruct i as [|i], j as [|j]; simpl in *; try lia.
    + inversion Hi; inversion Hj; subst. lia.
    + inversion Hi; subst. rewrite Forall_forall in Hf. apply Hf.
      eapply nth_error_In; eauto.
    + apply (IH i j); auto. lia.
Qed.

Lemma sorted_ascending (d : list Z) : StronglySorted Z.le d -> ascending d.
Proof.
  intros H i j x y Hij Hi Hj. unfold nth_Z in *.
  destruct (Z.ltb_spec i 0); [discriminate|].
  destruct (Z.ltb_spec j 0); [discriminate|].
  apply (sorted_ascending_nat d H (Z.to_nat i) (Z.to_nat j)); auto. lia.
Qed.

Lemma nth_Z_in_range {A : Type} (d : list A) (i : Z) :
  0 <= i < size d -> exists x, nth_Z d i = Some x.
Proof.
  intros H. unfold nth_Z, size in *.
  destruct (Z.ltb_spec i 0); [lia|].
  destruct (nth_error d (Z.to_nat i)) eqn:E; [eauto|].
  apply nth_error_None in E. lia.
Qed.

Lemma nth_Z_some_range {A : Type} (d : list A) (i : Z) (x : A) :
  nth_Z d i = Some x -> 0 <= i < size d.
Proof.
  unfold nth_Z, size. destruct (Z.ltb_spec i 0) as [Hneg|Hpos]; [discriminate|].
  intros E.
  assert (Z.to_nat i < length d)%nat by (apply nth_error_Some; congruence).
  lia.
Qed.

Lemma nth_Z_In {A : Type} (d : list A) (i : Z) (x : A) :
  nth_Z d i = Some x -> In x d.
Proof.
  unfold nth_Z. destruct (i <? 0); [discriminate|]. apply nth_error_In.
Qed.

Lemma In_nth_Z {A : Type} (d : list A) (x : A) :
  In x d -> exists i, nth_Z d i = Some x.
Proof.
  intros H. destruct (In_nth_error _ _ H) as [n Hn].
  exists (Z.of_nat n). unfold nth_Z.
  destruct (Z.ltb_spec (Z.of_nat n) 0); [lia|]. now rewrite Nat2Z.id.
Qed.

Lemma half_bounds (len : Z) :
  0 < len -> 0 <= Z.shiftr len 1 /\ Z.shiftr len 1 < len.
Proof.
  intros H. rewrite Z.shiftr_div_pow2 by lia. change (2 ^ 1) with 2.
  split; [apply Z.div_pos; lia|apply Z.div_lt; lia].
Qed.

Lemma lower_bound_loop_spec (d : list Z) (k : Z) :
  ascending d ->
  forall (fuel : nat) (first len : Z),
    0 <= first -> 0 <= len -> first + len <= size d -> len <= Z.of_nat fuel ->
    (forall j x, j < first -> nth_Z d j = Some x -> x < k) ->
    (forall j x, first + len <= j -> nth_Z d j = Some x -> k <= x) ->
    exists it,
      lower_bound_loop id d fuel first len k = Some it
      /\ first <= it <= first + len
      /\ (forall j x, j < it -> nth_Z d j = Some x -> x < k)
      /\ (forall j x, it <= j -> nth_Z d j = Some x -> k <= x).
Proof.
  intros Hasc. induction fuel as [|f IH]; intros first len H0 Hl Hs Hf Hlo Hhi.
  - exists first. simpl. assert (len = 0) by lia. subst.
    repeat split; auto; try lia. intros j x Hj. apply Hhi. lia.
  - simpl. destruct (Z.leb_spec len 0) as [Hle|Hgt].
    + exists first. assert (len = 0) by lia. subst.
      repeat split; auto; try lia. intros j x Hj. apply Hhi. lia.
    + destruct (half_bounds len Hgt) as [Hh0 Hh1].
      set (half := Z.shiftr len 1) in *.
      destruct (nth_Z_in_range d (first + half)) as [x Hx]; [lia|].
      rewrite Hx. cbn [bind]. unfold id at 1.
      destruct (Z.ltb_spec x k) as [Hlt|Hge].
      * destruct (IH (first + half + 1) (len - half - 1)) as [it [E [R [A B]]]];
          try lia.
        -- intros j y Hj Hy.
           assert (y <= x) by (apply (Hasc j (first + half) y x); auto; lia).
           lia.
        -- intros j y Hj. apply Hhi. lia.
        -- exists it. repeat split; auto; lia.
      * destruct (IH first half) as [it [E [R [A B]]]]; try lia.
        -- exact Hlo.
        -- intros j y Hj Hy.
           assert (x <= y) by (apply (Hasc (first + half) j x y); auto).
           lia.
        -- exists it. repeat split; auto; lia.
Qed.

Lemma lower_bound_whole (d : list Z) (k : Z) :
  ascending d ->
  exists it,
    lower_bound id d 0 (size d) k = Some it
    /\ 0 <= it <= size d
    /\ (forall j x, j < it -> nth_Z d j = Some x -> x < k)
    /\ (forall j x, it <= j -> nth_Z d j = Some x -> k <= x).
Proof.
  intros Hasc. unfold lower_bound.
  destruct (lower_bound_loop_spec d k Hasc (Z.to_nat (size d - 0)) 0 (size d - 0))
    as [it [E [R [A B]]]]; unfold size in *; try lia.
  - intros j x Hj Hx. apply nth_Z_some_range in Hx. lia.
  - intros j x Hj Hx. apply nth_Z_some_range in Hx. unfold size in Hx. lia.
  - exists it. repeat split; auto; lia.
Qed.

(** A search of the whole ascending array for [k] ends on the position of
    [k] when [k] is stored, and on the absence sentinel when it is not. *)
Lemma binary_search_whole (d : list Z) (k : Z) :
  ascending d ->
  exists it,
    lower_bound id d 0 (size d) k = Some it
    /\ ((In k d -> found_at d it k = Some (int_of it) /\ nth_Z d it = Some k)
        /\ (~ In k d -> found_at d it k = Some (-1))).
Proof.
  intros Hasc. destruct (lower_bound_whole d k Hasc) as [it [E [R [A B]]]].
  exists it. split; [exact E|]. unfold found_at.
  destruct (Z.eqb_spec it (size d)) as [Heq|Hne].
  - split; [|reflexivity]. intros Hin. exfalso.
    destruct (In_nth_Z d k Hin) as [j Hj].
    pose proof (nth_Z_some_range _ _ _ Hj).
    assert (k < k) by (apply (A j k); auto; lia). lia.
  - destruct (nth_Z_in_range d it) as [x Hx]; [lia|].
    rewrite Hx. cbn [bind].
    assert (k <= x) by (apply (B it x); auto; lia).
    destruct (Z.eqb_spec x k) as [->|Hxk].
    + split; auto. intros Hn. exfalso. apply Hn. eapply nth_Z_In; eauto.
    + split; [|reflexivity]. intros Hin. exfalso.
      destruct (In_nth_Z d k Hin) as [j Hj].
      destruct (Z.lt_ge_cases j it) as [Hlt|Hge].
      * assert (k < k) by (apply (A j k); auto). lia.
      * assert (x <= k) by (apply (Hasc it j x k); auto). lia.
Qed.

(** ** Lists *)

Lemma nth_error_decompose {A : Type} (l : list A) (n : nat) (a : A) :
  nth_error l n = Some a -> l = firstn n l ++ a :: skipn (S n) l.
Proof.
  revert n. induction l as [|b l IH]; intros [|n] H; simpl in *; try discriminate.
  - now inversion H.
  - f_equal. now apply IH.
Qed.

Lemma set_nth_middle {A : Type} (a b : list A) (x y : A) (i : nat) :
  i = length a -> set_nth (a ++ x :: b) i y = a ++ y :: b.
Proof.
  intros ->. induction a as [|z a IH]; simpl; [reflexivity|now rewrite IH].
Qed.

Lemma nth_error_middle {A : Type} (a b : list A) (x : A) (i : nat) :
  i = length a -> nth_error (a ++ x :: b) i = Some x.
Proof.
  intros ->. induction a as [|z a IH]; simpl; [reflexivity|exact IH].
Qed.

Lemma set_nth_length {A : Type} (l : list A) (i : nat) (x : A) :
  length (set_nth l i x) = length l.
Proof.
  revert i. induction l as [|y l IH]; intros [|i]; simpl; auto.
Qed.

Lemma set_nth_hit {A : Type} (l : list A) (i : nat) (x : A) :
  (i < length l)%nat -> nth_error (set_nth l i x) i = Some x.
Proof.
  revert i. induction l as [|y l IH]; intros [|i] H; simpl in *; try lia; auto.
  apply IH. lia.
Qed.

Lemma split_lists_normal {A : Type} (cs : list A) (i : nat) (c l r : A) :
  nth_error cs i = Some c ->
  firstn (S i) (set_nth cs i l) ++ r :: skipn (S i) (set_nth cs i l)
  = firstn i cs ++ l :: r :: skipn (S i) cs.
Proof.
  revert i. induction cs as [|y cs IH]; intros [|i] H; simpl in *; try discriminate.
  - reflexivity.
  - f_equal. now apply IH.
Qed.

Lemma nth_Z_of_nat {A : Type} (l : list A) (n : nat) :
  nth_Z l (Z.of_nat n) = nth_error l n.
Proof.
  unfold nth_Z. destruct (Z.ltb_spec (Z.of_nat n) 0); [lia|]. now rewrite Nat2Z.id.
Qed.

Lemma insert_at_of_nat {A : Type} (l : list A) (n : nat) (x : A) :
  (n <= length l)%nat ->
  insert_at l (Z.of_nat n) x = Some (firstn n l ++ x :: skipn n l).
Proof.
  intros H. unfold insert_at, size.
  destruct (Z.leb_spec 0 (Z.of_nat n)); [|lia].
  destruct (Z.leb_spec (Z.of_nat n) (Z.of_nat (length l))); [|lia].
  simpl. now rewrite Nat2Z.id.
Qed.

(** The separator of [split_child] comes from the first cell behind the
    shrunk vector, which still holds the old middle key. *)
Lemma separator_read_from_slack {A : Type} (ks : list A) (m : nat) :
  (m < length ks)%nat ->
  length (vs_live (vec_shrink m (vec_of ks))) = m
  /\ vec_read (vec_shrink m (vec_of ks)) m = nth_error ks m.
Proof.
  intros H. unfold vec_read, vec_shrink, vec_of. cbn [vs_live vs_slack].
  split; [rewrite length_firstn; lia|].
  now rewrite app_nil_r, firstn_skipn.
Qed.

(** ** C2. The B-Tree *)

Section BTreeProofs.
Context {T : Type}.
Variable key_of : T -> Z.
Variable ORDER : Z.

(** *** Heights *)

Lemma height_node (l : bool) (ks : list T) (cs : list (BTree.Node T)) :
  BTree.height (BTree.mkNode l ks cs) = S (tallest cs).
Proof. reflexivity. Qed.

Lemma height_child (c : BTree.Node T) (cs : list (BTree.Node T)) :
  In c cs -> (BTree.height c <= tallest cs)%nat.
Proof.
  unfold tallest. induction cs as [|d cs IH]; simpl; [contradiction|].
  intros [->|H]; [lia|]. specialize (IH H). lia.
Qed.

Lemma tallest_bound (cs : list (BTree.Node T)) (b : nat) :
  (forall c, In c cs -> (BTree.height c <= b)%nat) -> (tallest cs <= b)%nat.
Proof.
  unfold tallest. induction cs as [|d cs IH]; simpl; intros H; [lia|].
  assert (BTree.height d <= b)%nat by (apply H; now left).
  assert (fold_right Nat.max 0%nat (map BTree.height cs) <= b)%nat
    by (apply IH; intros c Hc; apply H; now right).
  lia.
Qed.

Lemma tallest_firstn (cs : list (BTree.Node T)) (n : nat) :
  (tallest (firstn n cs) <= tallest cs)%nat.
Proof.
  apply tallest_bound. intros c Hc. apply height_child.
  rewrite <- (firstn_skipn n cs). apply in_or_app. now left.
Qed.

Lemma tallest_skipn (cs : list (BTree.Node T)) (n : nat) :
  (tallest (skipn n cs) <= tallest cs)%nat.
Proof.
  apply tallest_bound. intros c Hc. apply height_child.
  rewrite <- (firstn_skipn n cs). apply in_or_app. now right.
Qed.

(** *** Bounds *)

Lemma above_le (lo : option Z) (a b : Z) : above lo a -> a <= b -> above lo b.
Proof. destruct lo; simpl; lia. Qed.

Lemma below_le (hi : option Z) (a b : Z) : below hi b -> a <= b -> below hi a.
Proof. destruct hi; simpl; lia. Qed.

Lemma sorted_in_bounds lo hi ks x :
  sorted_in key_of lo hi ks -> In x ks ->
  above lo (key_of x) /\ below hi (key_of x).
Proof.
  induction 1 as [|lo hi k ks Ha Hb Hs IH]; simpl; [contradiction|].
  intros [<-|Hin]; [auto|].
  destruct (IH Hin) as [A B]. split; [|exact B].
  simpl in A. eapply above_le; eauto.
Qed.

Lemma children_keys_sorted lo hi ks cs :
  ordered_children key_of lo hi ks cs -> sorted_in key_of lo hi ks.
Proof.
  induction 1; constructor; auto.
Qed.

Lemma children_length lo hi ks cs :
  ordered_children key_of lo hi ks cs -> length cs = S (length ks).
Proof.
  induction 1; simpl; auto.
Qed.

Lemma children_bounds lo hi ks cs x :
  ordered_children key_of lo hi ks cs ->
  (forall c lo' hi', In c cs -> ordered key_of lo' hi' c -> In x (all_keys c) ->
     above lo' (key_of x) /\ below hi' (key_of x)) ->
  In x (ks ++ flat_map all_keys cs) ->
  above lo (key_of x) /\ below hi (key_of x).
Proof.
  induction 1 as [lo hi c Hc|lo hi k ks c cs Ha Hb Hc Hcs IH]; intros Hrec Hin.
  - simpl in Hin. rewrite app_nil_r in Hin. apply (Hrec c); simpl; auto.
  - simpl in Hin. destruct Hin as [<-|Hin]; [auto|].
    apply in_app_or in Hin. destruct Hin as [Hin|Hin].
    + destruct IH as [A B].
      * intros d lo' hi' Hd. apply Hrec. now right.
      * apply in_or_app. now left.
      * split; [|exact B]. simpl in A. eapply above_le; eauto.
    + apply in_app_or in Hin. destruct Hin as [Hin|Hin].
      * destruct (Hrec c lo (Some (key_of k))) as [A B]; simpl; auto.
        split; [exact A|]. simpl in B. eapply below_le; eauto.
      * destruct IH as [A B].
        -- intros d lo' hi' Hd. apply Hrec. now right.
        -- apply in_or_app. now right.
        -- split; [|exact B]. simpl in A. eapply above_le; eauto.
Qed.

Lemma ordered_bounds :
  forall (f : nat) (n : BTree.Node T) lo hi x,
    (BTree.height n <= f)%nat -> ordered key_of lo hi n -> In x (all_keys n) ->
    above lo (key_of x) /\ below hi (key_of x).
Proof.
  induction f as [|f IH]; intros n lo hi x Hh Ho Hin.
  - destruct n; simpl in Hh; lia.
  - inversion Ho as [lo0 hi0 ks Hs|lo0 hi0 ks cs Hcs]; subst.
    + simpl in Hin. rewrite app_nil_r in Hin. eapply sorted_in_bounds; eauto.
    + rewrite height_node in Hh.
      apply (children_bounds lo hi ks cs x Hcs); [|exact Hin].
      intros c lo' hi' Hc Hoc Hx. apply (IH c); auto.
      pose proof (height_child c cs Hc). lia.
Qed.

Lemma ordered_keys_bounded (n : BTree.Node T) lo hi x :
  ordered key_of lo hi n -> In x (all_keys n) ->
  above lo (key_of x) /\ below hi (key_of x).
Proof. intros. eapply (ordered_bounds (BTree.height n)); eauto. Qed.


(** *** Search *)

Lemma search_leaf_cons (f : nat) (k k0 : T) (ks : list T) :
  BTree.search_internal key_of (S f) (BTree.mkNode true (k0 :: ks) []) k
  = if key_of k0 <? key_of k
    then BTree.search_internal key_of (S f) (BTree.mkNode true ks []) k
    else if key_of k =? key_of k0 then Some true else Some false.
Proof.
  simpl. destruct (key_of k0 <? key_of k); reflexivity.
Qed.

Lemma search_inner_cons (f : nat) (k k0 : T) (ks : list T)
    (c : BTree.Node T) (cs : list (BTree.Node T)) :
  BTree.search_internal key_of (S f) (BTree.mkNode false (k0 :: ks) (c :: cs)) k
  = if key_of k0 <? key_of k
    then BTree.search_internal key_of (S f) (BTree.mkNode false ks cs) k
    else if key_of k =? key_of k0 then Some true
         else BTree.search_internal key_of f c k.
Proof.
  simpl. destruct (key_of k0 <? key_of k); reflexivity.
Qed.

Lemma search_leaf (f : nat) (k : T) lo hi ks :
  sorted_in key_of lo hi ks ->
  (exists x, In x ks /\ key_of x = key_of k) ->
  BTree.search_internal key_of (S f) (BTree.mkNode true ks []) k = Some true.
Proof.
  induction 1 as [|lo hi k0 ks Ha Hb Hs IH]; intros [x [Hin Hx]].
  - contradiction.
  - rewrite search_leaf_cons.
    destruct (Z.ltb_spec (key_of k0) (key_of k)) as [Hlt|Hge].
    + apply IH. exists x. split; [|exact Hx].
      destruct Hin as [->|Hin]; [lia|exact Hin].
    + destruct (Z.eqb_spec (key_of k) (key_of k0)) as [|Hne]; [reflexivity|].
      exfalso. destruct Hin as [->|Hin]; [lia|].
      destruct (sorted_in_bounds _ _ _ _ Hs Hin) as [A _]. simpl in A. lia.
Qed.

Lemma search_children (f : nat) (k : T) lo hi ks cs :
  ordered_children key_of lo hi ks cs ->
  (forall c lo' hi', In c cs -> ordered key_of lo' hi' c ->
     (exists x, In x (all_keys c) /\ key_of x = key_of k) ->
     BTree.search_internal key_of f c k = Some true) ->
  (exists x, In x (ks ++ flat_map all_keys cs) /\ key_of x = key_of k) ->
  BTree.search_internal key_of (S f) (BTree.mkNode false ks cs) k = Some true.
Proof.
  induction 1 as [lo hi c Hc|lo hi k0 ks c cs Ha Hb Hc Hcs IH];
    intros Hrec [x [Hin Hx]].
  - simpl in Hin. rewrite app_nil_r in Hin. simpl.
    apply (Hrec c lo hi); simpl; eauto.
  - rewrite search_inner_cons.
    simpl in Hin. rewrite app_assoc in Hin.
    destruct (Z.ltb_spec (key_of k0) (key_of k)) as [Hlt|Hge].
    + apply IH.
      * intros d lo' hi' Hd. apply Hrec. now right.
      * exists x. split; [|exact Hx].
        destruct Hin as [->|Hin]; [lia|].
        apply in_app_or in Hin. destruct Hin as [Hin|Hin];
          [|apply in_or_app; now right].
        apply in_app_or in Hin. destruct Hin as [Hin|Hin];
          [apply in_or_app; now left|].
        destruct (ordered_keys_bounded _ _ _ _ Hc Hin) as [_ B].
        simpl in B. lia.
    + destruct (Z.eqb_spec (key_of k) (key_of k0)) as [|Hne]; [reflexivity|].
      apply (Hrec c lo (Some (key_of k0))); simpl; auto.
      exists x. split; [|exact Hx].
      destruct Hin as [->|Hin]; [lia|].
      apply in_app_or in Hin. destruct Hin as [Hin|Hin].
      * apply in_app_or in Hin. destruct Hin as [Hin|Hin]; [|exact Hin].
        exfalso.
        destruct (sorted_in_bounds _ _ _ _ (children_keys_sorted _ _ _ _ Hcs) Hin)
          as [A _].
        simpl in A. lia.
      * exfalso.
        destruct (children_bounds _ _ _ _ x Hcs) as [A _].
        -- intros d lo' hi' _ Hd Hxd. eapply ordered_keys_bounded; eauto.
        -- apply in_or_app. now right.
        -- simpl in A. lia.
Qed.

Lemma search_finds :
  forall (f : nat) (n : BTree.Node T) lo hi (k : T),
    (BTree.height n <= f)%nat -> ordered key_of lo hi n ->
    (exists x, In x (all_keys n) /\ key_of x = key_of k) ->
    BTree.search_internal key_of f n k = Some true.
Proof.
  induction f as [|f IH]; intros n lo hi k Hh Ho Hx.
  - destruct n; simpl in Hh; lia.
  - inversion Ho as [lo0 hi0 ks Hs|lo0 hi0 ks cs Hcs]; subst.
    + apply (search_leaf f k lo hi ks Hs).
      destruct Hx as [x [Hin E]]. simpl in Hin. rewrite app_nil_r in Hin. eauto.
    + rewrite height_node in Hh.
      apply (search_children f k lo hi ks cs Hcs); [|exact Hx].
      intros c lo' hi' Hc Hoc Hxc. apply (IH c lo' hi'); auto.
      pose proof (height_child c cs Hc). lia.
Qed.


(** *** The two scans of a node agree on ascending keys *)

Lemma skip_greater_snoc (k x : T) (l : list T) :
  BTree.skip_greater key_of k (l ++ [x])
  = match BTree.skip_greater key_of k l with
    | O => if key_of k <? key_of x then O else 1%nat
    | S n => S (S n)
    end.
Proof.
  induction l as [|a l IH]; simpl.
  - destruct (key_of k <? key_of x); reflexivity.
  - destruct (key_of k <? key_of a); [exact IH|].
    rewrite length_app. simpl. f_equal. lia.
Qed.

Lemma shift_insert_snoc (k x : T) (l : list T) :
  BTree.shift_insert key_of k (l ++ [x])
  = match BTree.skip_greater key_of k l with
    | O => l ++ (if key_of k <? key_of x then [x; k] else [k; x])
    | S _ => BTree.shift_insert key_of k l ++ [x]
    end.
Proof.
  induction l as [|a l IH]; simpl.
  - destruct (key_of k <? key_of x); reflexivity.
  - destruct (key_of k <? key_of a); [|reflexivity].
    rewrite IH. destruct (BTree.skip_greater key_of k l); reflexivity.
Qed.

Lemma idx_left_head (k : T) lo hi ks :
  sorted_in key_of (Some lo) hi ks -> key_of k < lo -> idx_left key_of k ks = O.
Proof.
  intros H Hlt. inversion H as [|lo0 hi0 k1 ks1 Ha Hb Hs]; subst; simpl; [reflexivity|].
  simpl in Ha. destruct (Z.ltb_spec (key_of k) (key_of k1)); [reflexivity|lia].
Qed.

Lemma skip_greater_left (k : T) lo hi ks :
  sorted_in key_of lo hi ks ->
  BTree.skip_greater key_of k (rev ks) = idx_left key_of k ks.
Proof.
  induction 1 as [|lo hi k0 ks Ha Hb Hs IH]; [reflexivity|].
  simpl. rewrite skip_greater_snoc, IH.
  destruct (Z.ltb_spec (key_of k) (key_of k0)) as [Hlt|Hge].
  - now rewrite (idx_left_head k _ _ _ Hs Hlt).
  - destruct (idx_left key_of k ks); reflexivity.
Qed.

Lemma child_index_left (k : T) lo hi ks :
  sorted_in key_of lo hi ks ->
  BTree.child_index key_of k ks = Z.of_nat (idx_left key_of k ks).
Proof.
  intros H. unfold BTree.child_index. now rewrite (skip_greater_left k _ _ _ H).
Qed.

Lemma ins_left_head (k : T) (ks : list T) :
  idx_left key_of k ks = O -> ins_left key_of k ks = k :: ks.
Proof.
  destruct ks as [|x r]; simpl; [reflexivity|].
  destruct (key_of k <? key_of x); [reflexivity|discriminate].
Qed.

Lemma leaf_insert_left (k : T) lo hi ks :
  sorted_in key_of lo hi ks ->
  BTree.leaf_insert key_of k ks = ins_left key_of k ks.
Proof.
  unfold BTree.leaf_insert.
  induction 1 as [|lo hi k0 ks Ha Hb Hs IH]; [reflexivity|].
  simpl. rewrite shift_insert_snoc, (skip_greater_left k _ _ _ Hs).
  destruct (Z.ltb_spec (key_of k) (key_of k0)) as [Hlt|Hge].
  - rewrite (idx_left_head k _ _ _ Hs Hlt).
    rewrite rev_app_distr, rev_involutive. reflexivity.
  - destruct (idx_left key_of k ks) eqn:E.
    + rewrite rev_app_distr, rev_involutive. simpl.
      now rewrite (ins_left_head k ks E).
    + rewrite rev_app_distr. simpl. now rewrite IH.
Qed.

Lemma ins_left_sorted (k : T) lo hi ks :
  sorted_in key_of lo hi ks -> above lo (key_of k) -> below hi (key_of k) ->
  sorted_in key_of lo hi (ins_left key_of k ks).
Proof.
  induction 1 as [|lo hi k0 ks Ha Hb Hs IH]; intros Hka Hkb; simpl.
  - constructor; auto. constructor.
  - destruct (Z.ltb_spec (key_of k) (key_of k0)) as [Hlt|Hge].
    + constructor; [assumption|assumption|].
      constructor; [simpl; lia|assumption|assumption].
    + constructor; [assumption|assumption|].
      apply IH; [exact Hge|assumption].
Qed.

Lemma ins_left_in (k : T) (ks : list T) : In k (ins_left key_of k ks).
Proof.
  induction ks as [|x r IH]; simpl; [now left|].
  destruct (key_of k <? key_of x); simpl; auto.
Qed.

Lemma idx_left_le (k : T) (ks : list T) : (idx_left key_of k ks <= length ks)%nat.
Proof.
  induction ks as [|x r IH]; simpl; [lia|].
  destruct (key_of k <? key_of x); simpl; lia.
Qed.

(** *** Splitting ascending keys and children at a separator *)

Lemma split_sorted lo hi (a b : list T) (sep : T) :
  sorted_in key_of lo hi (a ++ sep :: b) ->
  sorted_in key_of lo (Some (key_of sep)) a
  /\ sorted_in key_of (Some (key_of sep)) hi b
  /\ above lo (key_of sep) /\ below hi (key_of sep).
Proof.
  revert lo. induction a as [|k0 a IH]; intros lo H; simpl in H;
    inversion H as [|lo0 hi0 k1 ks1 Ha Hb Hs]; subst.
  - repeat split; auto. constructor.
  - destruct (IH _ Hs) as [S1 [S2 [A B]]]. simpl in A.
    repeat split; auto.
    + constructor; simpl; auto.
    + eapply above_le; eauto.
Qed.

Lemma split_ordered_children lo hi (a b : list T) (sep : T)
    (cs : list (BTree.Node T)) :
  ordered_children key_of lo hi (a ++ sep :: b) cs ->
  ordered_children key_of lo (Some (key_of sep)) a (firstn (S (length a)) cs)
  /\ ordered_children key_of (Some (key_of sep)) hi b (skipn (S (length a)) cs)
  /\ above lo (key_of sep) /\ below hi (key_of sep).
Proof.
  revert lo cs. induction a as [|k0 a IH]; intros lo cs H; simpl in H;
    inversion H as [|lo0 hi0 k1 ks1 c cs1 Ha Hb Hc Hcs]; subst.
  - simpl. repeat split; auto. now constructor.
  - destruct (IH _ _ Hcs) as [S1 [S2 [A B]]]. simpl in A.
    repeat split; auto.
    + change (firstn (S (length (k0 :: a))) (c :: cs1))
        with (c :: firstn (S (length a)) cs1).
      constructor; simpl; auto.
    + eapply above_le; eauto.
Qed.


(** *** The child an insertion descends into *)

Lemma focus_child (k : T) lo hi ks cs :
  ordered_children key_of lo hi ks cs ->
  above lo (key_of k) -> below hi (key_of k) ->
  let i := idx_left key_of k ks in
  exists c lo' hi',
    nth_error cs i = Some c
    /\ ordered key_of lo' hi' c
    /\ above lo' (key_of k) /\ below hi' (key_of k)
    /\ (forall c', ordered key_of lo' hi' c' ->
          ordered_children key_of lo hi ks (set_nth cs i c'))
    /\ (forall sep l r,
          above lo' (key_of sep) -> below hi' (key_of sep) ->
          ordered key_of lo' (Some (key_of sep)) l ->
          ordered key_of (Some (key_of sep)) hi' r ->
          ordered_children key_of lo hi
            (firstn i ks ++ sep :: skipn i ks)
            (firstn i cs ++ l :: r :: skipn (S i) cs)).
Proof.
  induction 1 as [lo hi c Hc|lo hi k0 ks c cs Ha Hb Hc Hcs IH]; intros Hka Hkb.
  - exists c, lo, hi. simpl. repeat split; auto.
    + intros c' Hc'. now constructor.
    + intros sep l r A B Hl Hr. constructor; auto. now constructor.
  - simpl. destruct (Z.ltb_spec (key_of k) (key_of k0)) as [Hlt|Hge].
    + exists c, lo, (Some (key_of k0)). simpl. repeat split; auto; [lia| |].
      * intros c' Hc'. now constructor.
      * intros sep l r A B Hl Hr.
        constructor; [exact A| |exact Hl|].
        -- apply (below_le hi _ (key_of k0)); [exact Hb|exact B].
        -- constructor; [exact B|exact Hb|exact Hr|exact Hcs].
    + destruct (IH Hge Hkb) as [d [lo' [hi' [Hn [Hd [A [B [Hrep Hsplit]]]]]]]].
      exists d, lo', hi'. simpl. repeat split; auto.
      * intros c' Hc'. constructor; auto.
      * intros sep l r A' B' Hl Hr. constructor; auto.
Qed.

(** *** [split_child] on a full child *)

Lemma mid_in_full (n : nat) :
  Z.of_nat n = 2 * ORDER - 1 ->
  0 <= BTree.mid ORDER /\ (Z.to_nat (BTree.mid ORDER) < n)%nat.
Proof.
  intros H. unfold BTree.mid.
  assert (1 <= ORDER) by lia.
  rewrite Z.quot_div_nonneg by lia.
  assert (0 <= ORDER / 2 < ORDER) by (split; [apply Z.div_pos; lia|apply Z.div_lt; lia]).
  split; lia.
Qed.

Lemma split_child_spec (ks : list T) (cs : list (BTree.Node T)) (i : nat)
    (c : BTree.Node T) lo hi :
  nth_error cs i = Some c ->
  (i <= length ks)%nat ->
  ordered key_of lo hi c ->
  BTree.full ORDER c = true ->
  exists sep l r,
    BTree.split_child ORDER (BTree.mkNode false ks cs) (Z.of_nat i) c
    = Some (BTree.mkNode false (firstn i ks ++ sep :: skipn i ks)
                               (firstn i cs ++ l :: r :: skipn (S i) cs))
    /\ above lo (key_of sep) /\ below hi (key_of sep)
    /\ ordered key_of lo (Some (key_of sep)) l
    /\ ordered key_of (Some (key_of sep)) hi r
    /\ (BTree.height l <= BTree.height c)%nat
    /\ (BTree.height r <= BTree.height c)%nat.
Proof.
  intros Hn Hi Ho Hfull.
  assert (Hlen : (i < length cs)%nat) by (apply nth_error_Some; congruence).
  unfold BTree.full, size in Hfull. apply Z.eqb_eq in Hfull.
  destruct (mid_in_full _ Hfull) as [Hm0 Hm].
  set (m := Z.to_nat (BTree.mid ORDER)) in *.
  destruct (nth_error (BTree.keys c) m) as [sep|] eqn:Hsep;
    [|apply nth_error_None in Hsep; lia].
  pose proof (nth_error_decompose _ _ _ Hsep) as Hks.
  assert (Hfl : length (firstn m (BTree.keys c)) = m)
    by (rewrite length_firstn; lia).
  unfold BTree.split_child.
  destruct (Z.ltb_spec (BTree.mid ORDER) 0) as [|_]; [lia|].
  fold m.
  assert (Hread : vec_read (vec_shrink m (vec_of (BTree.keys c))) m = Some sep).
  { unfold vec_read, vec_shrink, vec_of. simpl.
    rewrite app_nil_r, firstn_skipn. exact Hsep. }
  rewrite Nat2Z.id.
  replace (Z.of_nat i + 1) with (Z.of_nat (S i)) by lia.
  inversion Ho as [lo0 hi0 cks Hs|lo0 hi0 cks ccs Hcs]; subst;
    cbn [BTree.is_leaf BTree.keys BTree.children] in *.
  - (* a leaf *)
    rewrite Hks in Hs. destruct (split_sorted _ _ _ _ _ Hs) as [S1 [S2 [A B]]].
    exists sep, (BTree.mkNode true (firstn m cks) []),
           (BTree.mkNode true (skipn (S m) cks) []).
    cbn [bind]. rewrite Hread. cbn [bind vec_shrink vec_of vs_live].
    rewrite (insert_at_of_nat ks i sep Hi). cbn [bind].
    rewrite insert_at_of_nat by (rewrite set_nth_length; lia). cbn [bind].
    rewrite (split_lists_normal cs i _ _ _ Hn).
    repeat split; auto; try (now constructor);
      rewrite !height_node; simpl; lia.
  - (* an inner node *)
    pose proof (children_length _ _ _ _ Hcs) as Hcl.
    rewrite Hks in Hcs.
    destruct (split_ordered_children _ _ _ _ _ _ Hcs) as [S1 [S2 [A B]]].
    rewrite Hfl in S1, S2.
    exists sep, (BTree.mkNode false (firstn m cks) (firstn (S m) ccs)),
           (BTree.mkNode false (skipn (S m) cks) (skipn (S m) ccs)).
    unfold size.
    destruct (Z.ltb_spec (Z.of_nat (length ccs)) (BTree.mid ORDER + 1)) as [|_];
      [lia|].
    cbn [bind]. rewrite Hread. cbn [bind vec_shrink vec_of vs_live].
    rewrite (insert_at_of_nat ks i sep Hi). cbn [bind].
    rewrite insert_at_of_nat by (rewrite set_nth_length; lia). cbn [bind].
    rewrite (split_lists_normal cs i _ _ _ Hn).
    pose proof (tallest_firstn ccs (S m)).
    pose proof (tallest_skipn ccs (S m)).
    repeat split; auto; try (now constructor); rewrite !height_node; lia.
Qed.


(** *** Insertion keeps the invariant and stores the key *)

Lemma in_children_keys (x : T) (c : BTree.Node T) (cs : list (BTree.Node T)) :
  In c cs -> In x (all_keys c) -> In x (flat_map all_keys cs).
Proof. intros Hc Hx. apply in_flat_map. eauto. Qed.

Lemma insert_non_full_ok :
  forall (f : nat) (n : BTree.Node T) lo hi (k : T),
    (BTree.height n <= f)%nat -> ordered key_of lo hi n ->
    above lo (key_of k) -> below hi (key_of k) ->
    exists n',
      BTree.insert_non_full key_of ORDER f n k = Some n'
      /\ ordered key_of lo hi n' /\ In k (all_keys n').
Proof.
  induction f as [|f IH]; intros n lo hi k Hh Ho Hka Hkb.
  - destruct n; simpl in Hh; lia.
  - inversion Ho as [lo0 hi0 ks Hs|lo0 hi0 ks cs Hcs]; subst.
    + (* a leaf *)
      exists (BTree.mkNode true (BTree.leaf_insert key_of k ks) []).
      cbn [BTree.insert_non_full BTree.is_leaf BTree.keys BTree.children].
      rewrite (leaf_insert_left k _ _ _ Hs).
      repeat split.
      * constructor. now apply ins_left_sorted.
      * cbn [all_keys flat_map]. rewrite app_nil_r. apply ins_left_in.
    + (* an inner node *)
      rewrite height_node in Hh.
      pose proof (children_keys_sorted _ _ _ _ Hcs) as Hs.
      pose proof (children_length _ _ _ _ Hcs) as Hcl.
      destruct (focus_child k _ _ _ _ Hcs Hka Hkb)
        as [c [lo' [hi' [Hn [Hc [A [B [Hrep Hsplit]]]]]]]].
      set (i := idx_left key_of k ks) in *.
      assert (Hi : (i <= length ks)%nat) by apply idx_left_le.
      assert (Hin : In c cs) by (eapply nth_error_In; eauto).
      pose proof (height_child c cs Hin) as Hhc.
      cbn [BTree.insert_non_full BTree.is_leaf BTree.keys BTree.children].
      rewrite (child_index_left k _ _ _ Hs). fold i.
      rewrite nth_Z_of_nat, Hn. cbn [bind].
      destruct (BTree.full ORDER c) eqn:Hfull.
      * (* the child is full and is split first *)
        destruct (split_child_spec ks cs i c lo' hi' Hn Hi Hc Hfull)
          as [sep [l [r [Hsp [As [Bs [Hl [Hr [Hhl Hhr]]]]]]]]].
        rewrite Hsp. cbn [bind BTree.keys BTree.children BTree.is_leaf].
        rewrite nth_Z_of_nat.
        rewrite (nth_error_middle (firstn i ks) (skipn i ks) sep i)
          by (rewrite length_firstn; lia).
        cbn [bind].
        assert (Hfi : length (firstn i cs) = i) by (rewrite length_firstn; lia).
        destruct (Z.ltb_spec (key_of sep) (key_of k)) as [Hlt|Hge].
        -- (* into the right half *)
           cbn [bind BTree.children BTree.keys BTree.is_leaf].
           replace (Z.of_nat i + 1) with (Z.of_nat (S i)) by lia.
           rewrite nth_Z_of_nat, Nat2Z.id.
           replace (firstn i cs ++ l :: r :: skipn (S i) cs)
             with ((firstn i cs ++ [l]) ++ r :: skipn (S i) cs)
             by (now rewrite <- app_assoc).
           assert (Hfl : length (firstn i cs ++ [l]) = S i)
             by (rewrite length_app; simpl; lia).
           rewrite (nth_error_middle _ _ r (S i)) by (now rewrite Hfl).
           cbn [bind].
           destruct (IH r (Some (key_of sep)) hi' k) as [r' [Hins [Hor Hkr]]];
             [lia|exact Hr|simpl; lia|exact B|].
           rewrite Hins. cbn [bind].
           rewrite (set_nth_middle _ _ r r' (S i)) by (now rewrite Hfl).
           rewrite <- app_assoc. cbn [app].
           eexists. split; [reflexivity|]. split.
           ++ constructor. now apply Hsplit.
           ++ cbn [all_keys]. apply in_or_app. right.
              apply (in_children_keys k r'); [|exact Hkr].
              apply in_or_app. right. right. now left.
        -- (* into the left half *)
           cbn [bind BTree.children BTree.keys BTree.is_leaf].
           rewrite nth_Z_of_nat, Nat2Z.id.
           rewrite (nth_error_middle _ _ l i) by (now rewrite Hfi).
           cbn [bind].
           destruct (IH l lo' (Some (key_of sep)) k) as [l' [Hins [Hol Hkl]]];
             [lia|exact Hl|exact A|simpl; lia|].
           rewrite Hins. cbn [bind].
           rewrite (set_nth_middle _ _ l l' i) by (now rewrite Hfi).
           eexists. split; [reflexivity|]. split.
           ++ constructor. now apply Hsplit.
           ++ cbn [all_keys]. apply in_or_app. right.
              apply (in_children_keys k l'); [|exact Hkl].
              apply in_or_app. right. now left.
      * (* the child has room *)
        cbn [bind BTree.children BTree.keys BTree.is_leaf].
        rewrite nth_Z_of_nat, Hn, Nat2Z.id. cbn [bind].
        destruct (IH c lo' hi' k) as [c' [Hins [Hoc Hkc]]];
          [lia|exact Hc|exact A|exact B|].
        rewrite Hins. cbn [bind BTree.keys BTree.children BTree.is_leaf].
        eexists. split; [reflexivity|]. split.
        -- constructor. now apply Hrep.
        -- cbn [all_keys]. apply in_or_app. right.
           apply (in_children_keys k c'); [|exact Hkc].
           eapply nth_error_In. apply set_nth_hit. lia.
Qed.

Lemma insert_ok (t : BTree.BTree T) (k : T) :
  ordered key_of None None (BTree.root t) ->
  exists t',
    BTree.insert key_of ORDER t k = Some t'
    /\ ordered key_of None None (BTree.root t')
    /\ In k (all_keys (BTree.root t')).
Proof.
  intros Ho. unfold BTree.insert.
  destruct (BTree.full ORDER (BTree.root t)) eqn:Hfull.
  - destruct (split_child_spec [] [BTree.root t] 0 (BTree.root t) None None)
      as [sep [l [r [Hsp [As [Bs [Hl [Hr _]]]]]]]]; auto.
    change (Z.of_nat 0) with 0 in Hsp. rewrite Hsp. cbn [bind].
    cbn [firstn skipn app] in *.
    assert (Hnew : ordered key_of None None (BTree.mkNode false [sep] [l; r])).
    { constructor. constructor; [exact As|exact Bs|exact Hl|]. now constructor. }
    destruct (insert_non_full_ok _ _ None None k (Nat.le_refl _) Hnew I I)
      as [n' [Hins [Hon Hkn]]].
    rewrite Hins. cbn [bind]. eexists. split; [reflexivity|]. split; assumption.
  - destruct (insert_non_full_ok _ _ None None k (Nat.le_refl _) Ho I I)
      as [n' [Hins [Hon Hkn]]].
    rewrite Hins. cbn [bind]. eexists. split; [reflexivity|]. split; assumption.
Qed.

Lemma insert_all_ok (ks : list T) :
  forall t, ordered key_of None None (BTree.root t) ->
  exists t',
    BTree.insert_all key_of ORDER t ks = Some t'
    /\ ordered key_of None None (BTree.root t').
Proof.
  induction ks as [|k ks IH]; intros t Ho; simpl.
  - eauto.
  - destruct (insert_ok t k Ho) as [t1 [H1 [Ho1 _]]].
    rewrite H1. cbn [bind]. now apply IH.
Qed.

Lemma empty_ordered : ordered key_of None None (BTree.root (@BTree.empty T)).
Proof. constructor. constructor. Qed.

(** C2. In a [BTree<T, ORDER>], after any sequence of insertions into the
    empty tree, [insert(k)] completes and [search(k)] on the tree it leaves
    returns true. *)
Theorem btree_insert_then_search (ks : list T) (k : T) :
  exists t t',
    built key_of ORDER ks = Some t
    /\ BTree.insert key_of ORDER t k = Some t'
    /\ BTree.search key_of t' k = Some true.
Proof.
  destruct (insert_all_ok ks BTree.empty empty_ordered) as [t [Hb Ho]].
  destruct (insert_ok t k Ho) as [t' [Hi [Ho' Hk]]].
  exists t, t'. repeat split; auto.
  unfold BTree.search.
  apply (search_finds (BTree.height (BTree.root t')) _ None None); auto.
  exists k. auto.
Qed.

End BTreeProofs.

(** ** C6. The model loader *)

Section Loader.
Variable stod : string -> option double.
Variable uninit_params : RMI.RMIModelParams.
Variable uninit_model : RMI.ModelParams.

Lemma extract_throws (line key : string) :
  RMI.extractNumericValue stod line key = RMI.Throw
  <-> exists text, field_text line key = Some text /\ stod text = None.
Proof.
  unfold RMI.extractNumericValue, field_text.
  destruct (find key 0 line).
  - destruct (find ":" _ line).
    + destruct (stod _) eqn:E; split.
      * discriminate.
      * intros [text [H1 H2]]. inversion H1; subst. congruence.
      * intros _. eauto.
      * reflexivity.
    + split; [discriminate|]. intros [text [H1 _]]. discriminate.
  - split; [discriminate|]. intros [text [H1 _]]. discriminate.
Qed.

Lemma extract_int_throws (line key : string) :
  RMI.extractInt stod line key = RMI.Throw
  <-> exists text, field_text line key = Some text /\ stod text = None.
Proof.
  rewrite <- extract_throws. unfold RMI.extractInt, RMI.obind.
  destruct (RMI.extractNumericValue stod line key) eqn:E.
  - unfold RMI.defined. destruct (Double.to_int a); split; discriminate.
  - split; reflexivity.
  - split; discriminate.
Qed.

Lemma obind_ok_throws {A B : Type} (x : RMI.outcome A) (f : A -> B) :
  RMI.obind x (fun a => RMI.Ok (f a)) = RMI.Throw <-> x = RMI.Throw.
Proof. destruct x; simpl; split; congruence. Qed.

Lemma rejects_field (st : RMI.parser_state) (raw : string) :
  rejects stod st raw = true
  <-> exists key text,
        field_read st (trim raw) = Some key
        /\ field_text (trim raw) key = Some text /\ stod text = None.
Proof.
  unfold rejects. destruct (field_read st (trim raw)) as [key|].
  - destruct (field_text (trim raw) key) as [text|] eqn:F.
    + destruct (stod text) eqn:E; split.
      * discriminate.
      * intros [key' [text' [H1 [H2 H3]]]]. inversion H1; subst.
        rewrite F in H2. inversion H2; subst. congruence.
      * intros _. exists key, text. auto.
      * reflexivity.
    + split; [discriminate|].
      intros [key' [text' [H1 [H2 H3]]]]. inversion H1; subst. congruence.
  - split; [discriminate|]. intros [key' [text' [H1 _]]]. discriminate.
Qed.

(** The loop body throws on the lines with a rejected field, and on no
    other. *)
Lemma parse_line_throws (st : RMI.parser_state) (raw : string) :
  RMI.parse_line stod st raw = RMI.Throw <-> rejects stod st raw = true.
Proof.
  rewrite rejects_field. unfold RMI.parse_line, field_read.
  repeat match goal with
         | |- context [if ?c then _ else _] => destruct c
         end;
    try (split; [discriminate|intros [key [text [H _]]]; discriminate]);
    rewrite obind_ok_throws;
    first [rewrite extract_throws|rewrite extract_int_throws];
    (split;
     [intros [text [H1 H2]]; eauto
     |intros [key [text [H1 [H2 H3]]]]; inversion H1; subst; eauto]).
Qed.

Lemma parse_lines_throws (lines : list string) :
  forall st,
    RMI.parse_lines stod st lines = RMI.Throw
    <-> exists before raw rest st',
          lines = before ++ raw :: rest
          /\ RMI.parse_lines stod st before = RMI.Ok st'
          /\ rejects stod st' raw = true.
Proof.
  induction lines as [|l lines IH]; intros st; cbn [RMI.parse_lines].
  - split; [discriminate|]. intros [[|b before] [raw [rest [st' [H _]]]]];
      discriminate.
  - destruct (RMI.parse_line stod st l) as [st1| |] eqn:E; cbn [RMI.obind].
    + rewrite IH. split.
      * intros [before [raw [rest [st' [H1 [H2 H3]]]]]].
        exists (l :: before), raw, rest, st'. subst lines.
        cbn [RMI.parse_lines app]. rewrite E. cbn [RMI.obind]. auto.
      * intros [[|b before] [raw [rest [st' [H1 [H2 H3]]]]]];
          cbn [app] in H1; inversion H1; subst.
        -- cbn [RMI.parse_lines] in H2. inversion H2; subst.
           apply parse_line_throws in H3. congruence.
        -- cbn [RMI.parse_lines] in H2. rewrite E in H2. cbn [RMI.obind] in H2.
           exists before, raw, rest, st'. auto.
    + split; [intros _|reflexivity].
      exists [], l, lines, st. cbn [app RMI.parse_lines].
      apply parse_line_throws in E. auto.
    + split; [discriminate|].
      intros [[|b before] [raw [rest [st' [H1 [H2 H3]]]]]];
        cbn [app] in H1; inversion H1; subst.
      * cbn [RMI.parse_lines] in H2. inversion H2; subst.
        apply parse_line_throws in H3. congruence.
      * cbn [RMI.parse_lines] in H2. rewrite E in H2. discriminate.
Qed.

Lemma load_model_false (r r' : RMI.RMI) (content : string) :
  RMI.load_model stod uninit_params uninit_model r (Some content)
  = RMI.Ok (false, r')
  <-> r' = r
      /\ exists before raw rest st,
           getlines content = before ++ raw :: rest
           /\ RMI.parse_lines stod (parser_start uninit_params uninit_model) before
              = RMI.Ok st
           /\ rejects stod st raw = true.
Proof.
  rewrite <- parse_lines_throws.
  unfold RMI.load_model, RMI.parseRMIModel. fold (parser_start uninit_params uninit_model).
  destruct (RMI.parse_lines stod _ (getlines content)) eqn:P; cbn [RMI.obind].
  - split; [discriminate|]. intros [_ H]. discriminate.
  - split.
    + intros H. inversion H. auto.
    + intros [-> _]. reflexivity.
  - split; [discriminate|]. intros [_ H]. discriminate.
Qed.

Lemma lookup_unloaded (r : RMI.RMI) (k : Z) :
  RMI.branch_factor r = 0 -> ascending (RMI.data r) ->
  (In k (RMI.data r) ->
     exists it,
       RMI.lookup r k = Some (int_of it)
       /\ nth_Z (RMI.data r) it = Some k
       /\ (size (RMI.data r) <= int_max -> int_of it = it))
  /\ (~ In k (RMI.data r) -> RMI.lookup r k = Some (-1)).
Proof.
  intros HB Hasc. unfold RMI.lookup. rewrite HB. simpl (0 =? 0).
  destruct (binary_search_whole (RMI.data r) k Hasc) as [it [E [Hin Hout]]].
  destruct (RMI.data r) as [|x d] eqn:D.
  - split; [intros []|reflexivity].
  - cbv iota. rewrite E. cbn [bind]. split.
    + intros H. destruct (Hin H) as [F N]. exists it.
      split; [exact F|]. split; [exact N|].
      intros Hsz. apply nth_Z_some_range in N.
      apply int_of_fits. unfold int_min. lia.
    + exact Hout.
Qed.

(** C6, as the code has it.  [load_model] returns false when the file cannot
    be opened.  On a file that can be read it returns false exactly when,
    going through the lines in order, the parser comes to a line from which
    it extracts a numeric field whose text [stod] rejects; it compares
    nothing with [branch_factor].  A failed load leaves the RMI as it was,
    so a fresh one keeps [branch_factor = 0]; in that state [lookup] is a
    binary search of the whole array: on ascending data it returns -1 for a
    key that is not stored and, for a stored key, a position that holds it,
    converted to [int], which is that position when the array has at most
    [int_max] keys. *)
Theorem load_model_failure (r : RMI.RMI) :
  RMI.load_model stod uninit_params uninit_model r None = RMI.Ok (false, r)
  /\ (forall content r',
        RMI.load_model stod uninit_params uninit_model r (Some content)
        = RMI.Ok (false, r')
        <-> r' = r
            /\ exists before raw rest st,
                 getlines content = before ++ raw :: rest
                 /\ RMI.parse_lines stod
                      (parser_start uninit_params uninit_model) before
                    = RMI.Ok st
                 /\ rejects stod st raw = true)
  /\ (forall k,
        RMI.branch_factor r = 0 -> ascending (RMI.data r) ->
        (In k (RMI.data r) ->
           exists it,
             RMI.lookup r k = Some (int_of it)
             /\ nth_Z (RMI.data r) it = Some k
             /\ (size (RMI.data r) <= int_max -> int_of it = it))
        /\ (~ In k (RMI.data r) -> RMI.lookup r k = Some (-1))).
Proof.
  split; [reflexivity|]. split.
  - intros content r'. apply load_model_false.
  - intros k. apply lookup_unloaded.
Qed.

End Loader.

Lemma ascending_123 : ascending [1; 2; 3].
Proof.
  apply sorted_ascending. repeat constructor; lia.
Qed.

(** The file with [branch_factor] given as the word three: the first line
    is read, the second holds the field whose text is rejected, and the
    load fails and leaves the RMI as it was.  And the RMI that was never
    loaded finds the key 2 of its three keys. *)
Lemma load_model_failure_witness :
  RMI.load_model stod_decimal some_params RMI.zero_params RMI.init
    (Some broken_model_file) = RMI.Ok (false, RMI.init)
  /\ (exists it,
        RMI.lookup rmi_unloaded 2 = Some (int_of it)
        /\ nth_Z (RMI.data rmi_unloaded) it = Some 2
        /\ (size (RMI.data rmi_unloaded) <= int_max -> int_of it = it)).
Proof.
  split.
  - destruct (load_model_failure stod_decimal some_params RMI.zero_params RMI.init)
      as [_ [H _]].
    apply (H broken_model_file RMI.init). split; [reflexivity|].
    exists ["{"%string], (("  " ++ field "branch_factor" "three,")%string).
    eexists. eexists.
    split; [vm_compute; reflexivity|].
    split; [vm_compute; reflexivity|]. vm_compute. reflexivity.
  - destruct (load_model_failure stod_decimal some_params RMI.zero_params rmi_unloaded)
      as [_ [_ H]].
    apply (H 2); [reflexivity|exact ascending_123|simpl; auto].
Defined.

(** C6, as the specification has it, fails: a model file that announces
    three stage-2 models and lists one is loaded, and the RMI it leaves has
    [branch_factor = 3] over two stage-2 models. *)
Lemma load_model_accepts_short_file :
  exists r,
    RMI.load_model stod_decimal some_params RMI.zero_params RMI.init
      (Some short_model_file) = RMI.Ok (true, r)
    /\ RMI.branch_factor r = 3
    /\ length (RMI.stage2_models r) = 2%nat.
Proof.
  eexists. split; [vm_compute; reflexivity|]. split; reflexivity.
Qed.

(** ** C7. The stage-2 model of a key *)

(** C7, as the code has it.  With a loaded model of [B >= 1] sub-models,
    the sub-model of a key is [clamp(t, 0, B - 1)] where [t] is the stage-1
    prediction converted to [int], that is cut towards zero; the index lies
    in [0, B - 1]. *)
Theorem stage2_index_truncates (r : RMI.RMI) (key t : Z) :
  1 <= RMI.branch_factor r <= int_max ->
  Double.to_int (RMI.predict (RMI.stage1_model r) (Double.of_Z key)) = Some t ->
  RMI.stage2_index r key = Some (Z.max 0 (Z.min (RMI.branch_factor r - 1) t))
  /\ 0 <= Z.max 0 (Z.min (RMI.branch_factor r - 1) t) <= RMI.branch_factor r - 1.
Proof.
  intros HB Ht. unfold RMI.stage2_index. rewrite Ht. cbn [bind].
  unfold int_sub, int_chk, int_min, int_max in *.
  destruct (Z.leb_spec (- 2 ^ 31) (RMI.branch_factor r - 1)); [|lia].
  destruct (Z.leb_spec (RMI.branch_factor r - 1) (2 ^ 31 - 1)); [|lia].
  cbn [andb bind]. split; [reflexivity|lia].
Qed.

Lemma stage2_index_truncates_witness :
  RMI.stage2_index rmi_three_quarters 5 = Some 0.
Proof.
  apply (stage2_index_truncates rmi_three_quarters 5 0).
  - vm_compute. split; discriminate.
  - vm_compute. reflexivity.
Defined.

(** C7, as the specification has it, fails: for a stage-1 prediction of 0.75
    the code selects sub-model 0, rounding to the nearest integer selects 1. *)
Lemma stage2_index_is_not_rounded :
  RMI.stage2_index rmi_three_quarters 5 = Some 0
  /\ spec_stage2_index rmi_three_quarters 5 = Some 1.
Proof. split; vm_compute; reflexivity. Qed.

(** ** C8. Inverted ranges *)

(** C8. In every state of an RMI, a FITing-Tree and a RadixSpline,
    [range_query(lo, hi)] with [lo > hi] returns the empty sequence. *)
Theorem range_query_inverted (r : RMI.RMI) (ft : FitingTree.FitingTree)
    (rs : RadixSpline.RadixSpline) (lo hi : Z) :
  hi < lo ->
  RMI.range_query r lo hi = Some []
  /\ FitingTree.range_query ft lo hi = Some []
  /\ RadixSpline.range_query rs lo hi = Some [].
Proof.
  intros H. apply Z.ltb_lt in H.
  unfold RMI.range_query, FitingTree.range_query, RadixSpline.range_query.
  rewrite H, !orb_true_r. auto.
Qed.

Lemma range_query_inverted_witness :
  3 < 5
  /\ RMI.range_query rmi_unloaded 5 3 = Some []
  /\ FitingTree.range_query (FitingTree.init 32) 5 3 = Some []
  /\ RadixSpline.range_query RadixSpline.init 5 3 = Some [].
Proof.
  split; [lia|].
  apply (range_query_inverted rmi_unloaded (FitingTree.init 32) RadixSpline.init 5 3).
  lia.
Defined.

(** ** C10. Engines without data *)

Lemma fill_table_no_keys (buckets : positive) (points : list RadixSpline.SplinePoint) :
  forall (n : nat) (i cur : Z), 0 <= i ->
    exists table,
      RadixSpline.fill_table n points 0 0 (Zpos buckets) i cur = Some table.
Proof.
  induction n as [|n IH]; intros i cur Hi; [simpl; eauto|].
  cbn [RadixSpline.fill_table].
  destruct (i + 1) as [|p|p] eqn:E; try lia.
  assert (Hoff : Double.to_u64
                   (Double.mul (Double.of_Z (Z.pos p))
                      (Double.div (Double.of_Z (u64_sub 0 0))
                                  (Double.of_Z (Z.pos buckets)))) = Some 0)
    by reflexivity.
  rewrite Hoff. cbn [bind].
  destruct (IH (Z.pos p) (RadixSpline.advance (length points) points cur
                            (u64_add 0 0))) as [t Ht]; [lia|].
  rewrite Ht. cbn [bind]. eauto.
Qed.

Lemma radix_build_no_keys (rs : RadixSpline.RadixSpline) (bits : Z) :
  0 <= bits < 64 ->
  exists rs', RadixSpline.build rs [] bits = Some rs' /\ RadixSpline.data rs' = [].
Proof.
  intros H. unfold RadixSpline.build.
  destruct (Z.ltb_spec bits 0); [lia|].
  destruct (Z.leb_spec 64 bits); [lia|]. cbn [orb].
  assert (Hp : 0 < 2 ^ bits) by (apply Z.pow_pos_nonneg; lia).
  destruct (2 ^ bits) as [|b|b] eqn:E; try lia.
  cbn [hd last tl RadixSpline.spline_loop RadixSpline.x].
  simpl (0 =? 0). cbv iota.
  destruct (fill_table_no_keys b (rev [RadixSpline.mkPoint 0 Double.zero])
              (Z.to_nat (Z.pos b)) 0 0) as [t Ht]; [lia|].
  rewrite Ht. cbn [bind]. eexists. split; reflexivity.
Qed.

(** C10. An RMI, a FITing-Tree and a RadixSpline without data — as
    constructed, or built from the empty key list — answer every [lookup]
    with -1. *)
Theorem lookup_without_data (k : Z) :
  RMI.lookup RMI.init k = Some (-1)
  /\ (forall r, RMI.lookup (RMI.load_data r []) k = Some (-1))
  /\ (forall eps, FitingTree.lookup (FitingTree.init eps) k = Some (-1))
  /\ (forall ft, exists ft',
        FitingTree.build ft [] = Some ft' /\ FitingTree.lookup ft' k = Some (-1))
  /\ RadixSpline.lookup RadixSpline.init k = Some (-1)
  /\ (forall rs bits, 0 <= bits < 64 ->
        exists rs', RadixSpline.build rs [] bits = Some rs'
                    /\ RadixSpline.lookup rs' k = Some (-1)).
Proof.
  repeat split; try reflexivity.
  - intros ft. eexists. split; reflexivity.
  - intros rs bits H.
    destruct (radix_build_no_keys rs bits H) as [rs' [Hb Hd]].
    exists rs'. split; [exact Hb|].
    unfold RadixSpline.lookup. now rewrite Hd.
Qed.

Lemma lookup_without_data_witness :
  exists rs',
    RadixSpline.build RadixSpline.init [] 18 = Some rs'
    /\ RadixSpline.lookup rs' 7 = Some (-1).
Proof.
  destruct (lookup_without_data 7) as [_ [_ [_ [_ [_ H]]]]].
  apply (H RadixSpline.init 18). lia.
Defined.

(** ** Strictly ascending lists *)

Lemma ascends_sorted_unique (l : list Z) : ascends l = true -> sorted_unique l.
Proof.
  intros H. apply Sorted_StronglySorted; [intros a b c; lia|].
  induction l as [|x l IH]; [constructor|].
  destruct l as [|y l]; [repeat constructor|].
  simpl in H. apply andb_prop in H. destruct H as [Hxy Hr].
  constructor; [apply IH; exact Hr|]. constructor. now apply Z.ltb_lt.
Qed.

Lemma sorted_unique_nodup (l : list Z) : sorted_unique l -> NoDup l.
Proof.
  induction 1 as [|x l Hs IH Hf]; constructor; [|exact IH].
  intros Hin. rewrite Forall_forall in Hf. specialize (Hf x Hin). lia.
Qed.

Lemma sorted_nodup_unique (l : list Z) :
  StronglySorted Z.le l -> NoDup l -> sorted_unique l.
Proof.
  induction 1 as [|x l Hs IH Hf]; intros Hn; [constructor|].
  inversion Hn as [|y l' Hx Hl]; subst.
  constructor; [now apply IH|].
  rewrite Forall_forall in *. intros y Hy.
  assert (x <> y) by (intros ->; contradiction).
  specialize (Hf y Hy). lia.
Qed.

(** ** C4. The key array after a build *)

Lemma buildSegments_data (ft ft' : FitingTree.FitingTree) :
  FitingTree.buildSegments ft = Some ft' -> FitingTree.data ft' = FitingTree.data ft.
Proof.
  unfold FitingTree.buildSegments.
  destruct (FitingTree.data ft) as [|x d] eqn:D.
  - intros H. inversion H. reflexivity.
  - destruct (FitingTree.segment_loop _ _ _ _ _ _); cbn [bind]; [|discriminate].
    destruct (FitingTree.index_segments _ _ _); cbn [bind]; [|discriminate].
    intros H. inversion H. reflexivity.
Qed.

Lemma fiting_build_data (ft ft' : FitingTree.FitingTree) (ks : list Z) :
  FitingTree.build ft ks = Some ft' -> FitingTree.data ft' = sort ks.
Proof.
  unfold FitingTree.build.
  destruct (FitingTree.buildSegments _) as [ft2|] eqn:E; cbn [bind]; [|discriminate].
  intros H. inversion H. cbn [FitingTree.data].
  now rewrite (buildSegments_data _ _ E).
Qed.

Lemma radix_build_data (rs rs' : RadixSpline.RadixSpline) (ks : list Z) (bits : Z) :
  RadixSpline.build rs ks bits = Some rs' -> RadixSpline.data rs' = ks.
Proof.
  unfold RadixSpline.build.
  destruct ((bits <? 0) || (64 <=? bits)); [discriminate|].
  destruct (RadixSpline.fill_table _ _ _ _ _ _ _); cbn [bind]; [|discriminate].
  intros H. inversion H. reflexivity.
Qed.

(** C4, as the code has it.  [RMI::load_data] and [RadixSpline::build]
    keep the key list as it is given; [FitingTree::build] sorts it ascending
    and keeps every duplicate.  So the key array of an RMI or a RadixSpline
    is sorted and duplicate-free exactly when the input is, and that of a
    FITing-Tree exactly when the input is duplicate-free. *)
Theorem key_array_after_build (ks : list Z) :
  (forall r, RMI.data (RMI.load_data r ks) = ks)
  /\ (forall ft ft',
        FitingTree.build ft ks = Some ft' ->
        FitingTree.data ft' = sort ks
        /\ StronglySorted Z.le (FitingTree.data ft')
        /\ Permutation ks (FitingTree.data ft')
        /\ (sorted_unique (FitingTree.data ft') <-> NoDup ks))
  /\ (forall rs bits rs',
        RadixSpline.build rs ks bits = Some rs' -> RadixSpline.data rs' = ks).
Proof.
  split; [reflexivity|]. split.
  - intros ft ft' H. rewrite (fiting_build_data _ _ _ H).
    split; [reflexivity|]. split; [apply sort_sorted|].
    split; [apply sort_perm|]. split.
    + intros Hs. apply (Permutation_NoDup (Permutation_sym (sort_perm ks))).
      now apply sorted_unique_nodup.
    + intros Hn. apply sorted_nodup_unique; [apply sort_sorted|].
      exact (Permutation_NoDup (sort_perm ks) Hn).
  - intros rs bits rs'. apply radix_build_data.
Qed.

Lemma key_array_after_build_witness :
  exists ft',
    FitingTree.build (FitingTree.init 32) [3; 1; 2] = Some ft'
    /\ FitingTree.data ft' = [1; 2; 3].
Proof.
  eexists. split; [vm_compute; reflexivity|].
  destruct (key_array_after_build [3; 1; 2]) as [_ [H _]].
  refine (proj1 (H (FitingTree.init 32) _ _)).
  vm_compute. reflexivity.
Defined.

Lemma sorted_unique_ascends (l : list Z) : sorted_unique l -> ascends l = true.
Proof.
  induction 1 as [|x l Hs IH Hf]; [reflexivity|].
  destruct l as [|y l]; [reflexivity|].
  change (ascends (x :: y :: l)) with ((x <? y) && ascends (y :: l)).
  rewrite IH. inversion Hf; subst.
  apply andb_true_intro. split; [now apply Z.ltb_lt|reflexivity].
Qed.

Lemma not_sorted_unique_1322 : ~ sorted_unique [1; 3; 2; 2].
Proof. intros H. apply sorted_unique_ascends in H. discriminate. Qed.

Lemma not_sorted_unique_1223 : ~ sorted_unique [1; 2; 2; 3].
Proof. intros H. apply sorted_unique_ascends in H. discriminate. Qed.

(** C4, as the specification has it, fails: built from 1, 3, 2, 2 an RMI and
    a RadixSpline hold 1, 3, 2, 2 and a FITing-Tree holds 1, 2, 2, 3. *)
Lemma key_array_not_sorted_unique :
  ~ sorted_unique (RMI.data (RMI.load_data RMI.init [1; 3; 2; 2]))
  /\ (exists ft, FitingTree.build (FitingTree.init 32) [1; 3; 2; 2] = Some ft
                 /\ ~ sorted_unique (FitingTree.data ft))
  /\ (exists rs, RadixSpline.build RadixSpline.init [1; 3; 2; 2] 4 = Some rs
                 /\ ~ sorted_unique (RadixSpline.data rs)).
Proof.
  split; [exact not_sorted_unique_1322|]. split.
  - eexists. split; [vm_compute; reflexivity|]. exact not_sorted_unique_1223.
  - eexists. split; [vm_compute; reflexivity|]. exact not_sorted_unique_1322.
Qed.

(** ** C1. RadixSpline lookups of stored keys *)

(** C1 fails on the code.  On scenario S6 — the keys 100, 200, ..., 10000
    and 4 radix bits — [lookup(500)] returns -1, though 500 is stored at
    position 4. *)
Theorem radix_spline_misses_stored_key :
  sorted_unique hundreds
  /\ nth_Z hundreds 4 = Some 500
  /\ exists rs,
       RadixSpline.build RadixSpline.init hundreds 4 = Some rs
       /\ RadixSpline.get_search_bound rs 500
          = Some (RadixSpline.mkBound 184467440737095520 100)
       /\ RadixSpline.lookup rs 500 = Some (-1).
Proof.
  split; [apply ascends_sorted_unique; vm_compute; reflexivity|].
  split; [reflexivity|].
  eexists. split; [vm_compute; reflexivity|].
  split; vm_compute; reflexivity.
Qed.

(** ** C3. Occupancy of the nodes *)

(** C3 fails on the code.  After the insertions 1, ..., 10 with [ORDER = 5]
    the B-Tree has the root over a node of 2 keys and a node of 7, the
    B+-Tree the root over a leaf of 2 keys and a leaf of 8; the least
    occupancy the specification allows is [ORDER - 1 = 4]. *)
Theorem split_leaves_underfull_node :
  (exists t, built id 5 one_to_ten = Some t
             /\ BTree.nonroot_key_counts t = [2; 7])
  /\ (exists t, BPlusTree.insert_all 5 BPlusTree.empty one_to_ten = Some t
                /\ BPlusTree.nonroot_key_counts t = [2; 8])
  /\ occupancy_ok 5 2 = false.
Proof.
  split; [|split].
  - eexists. split; vm_compute; reflexivity.
  - eexists. split; vm_compute; reflexivity.
  - reflexivity.
Qed.

(** ** C5. The error bound of the segments *)

(** C5 fails on the code.  With [epsilon = 1], [build] on 0, 1, 2, 3, 1000
    makes a segment over the positions 0 to 3 with [max_error = 0] whose
    model predicts position 1 for the key at position 0. *)
Theorem segment_bound_broken_by_build :
  exists ft s,
    FitingTree.build (FitingTree.init 1) [0; 1; 2; 3; 1000] = Some ft
    /\ nth_error (FitingTree.segments ft) 0 = Some s
    /\ FitingTree.start_position s = 0 /\ FitingTree.end_position s = 3
    /\ FitingTree.max_error s = 0
    /\ Double.round_Z
         (Double.add (Double.mul (FitingTree.slope s) (Double.of_Z 0))
                     (FitingTree.intercept s)) = Some 1
    /\ residual_ok (FitingTree.data ft) s 0 = Some false
    /\ segments_ok ft = Some false.
Proof.
  eexists. eexists. split; [vm_compute; reflexivity|].
  split; [reflexivity|].
  repeat split; vm_compute; reflexivity.
Qed.

(** The same with the default [epsilon = 32]: the keys 0, ..., 99 and
    1000000. *)
Lemma segment_bound_broken_by_default_build :
  exists ft,
    FitingTree.build (FitingTree.init 32) (keys_from 0 1 100 ++ [1000000]) = Some ft
    /\ segments_ok ft = Some false
    /\ FitingTree.lookup ft 0 = Some (-1).
Proof.
  eexists. split; [vm_compute; reflexivity|]. split; vm_compute; reflexivity.
Qed.

(** And an in-place insertion breaks the bound of a segment that had it:
    scenario S5, the keys 0, 2, ..., 198 with [epsilon = 0], then 51. *)
Lemma segment_bound_broken_by_insertInPlace :
  exists ft ft',
    FitingTree.build (FitingTree.init 0) evens = Some ft
    /\ segments_ok ft = Some true
    /\ FitingTree.insertInPlace ft 51 = Some (true, ft')
    /\ segments_ok ft' = Some false.
Proof.
  eexists. eexists. split; [vm_compute; reflexivity|].
  split; [vm_compute; reflexivity|].
  split; [vm_compute; reflexivity|]. vm_compute. reflexivity.
Qed.

(** ** C9. Keys in the delta buffers *)

Lemma found_at_stored (d : list Z) (it k p : Z) :
  found_at d it k = Some p ->
  p = -1 \/ (p = int_of it /\ nth_Z d it = Some k).
Proof.
  unfold found_at. destruct (it =? size d); [intros H; inversion H; auto|].
  destruct (nth_Z d it) as [x|] eqn:E; cbn [bind]; [|discriminate].
  destruct (Z.eqb_spec x k) as [->|]; intros H; inversion H; subst; auto.
Qed.

(** A position that [lookup] reports is the position, as an [int], of a
    place that holds the key. *)
Lemma fiting_lookup_stored (ft : FitingTree.FitingTree) (k p : Z) :
  FitingTree.lookup ft k = Some p ->
  p = -1 \/ exists it, p = int_of it /\ nth_Z (FitingTree.data ft) it = Some k.
Proof.
  unfold FitingTree.lookup.
  destruct (FitingTree.no_data ft); [intros H; inversion H; auto|].
  destruct (FitingTree.findSegmentIndex ft k); cbn [bind]; [|discriminate].
  destruct (nth_Z (FitingTree.segments ft) z); cbn [bind]; [|discriminate].
  destruct (FitingTree.window ft s k); cbn [bind]; [|discriminate].
  destruct (lower_bound id (FitingTree.data ft) _ _ k) as [it|]; cbn [bind];
    [|discriminate].
  intros H. destruct (found_at_stored _ _ _ _ H) as [|Hs]; [now left|].
  right. now exists it.
Qed.

Lemma slice_stored {A : Type} (d l : list A) (a b : Z) :
  slice d a b = Some l -> incl l d.
Proof.
  unfold slice. destruct (b <=? a).
  - intros H. inversion H. intros x [].
  - destruct ((0 <=? a) && (b <=? size d)); [|discriminate].
    intros H. inversion H. intros x Hx.
    rewrite <- (firstn_skipn (Z.to_nat a) d). apply in_or_app. right.
    rewrite <- (firstn_skipn (Z.to_nat (b - a)) (skipn (Z.to_nat a) d)).
    apply in_or_app. now left.
Qed.

Lemma range_segments_stored (ft : FitingTree.FitingTree) (lo hi : Z) :
  forall (fuel : nat) (i j : Z) (out : list Z),
    FitingTree.range_segments fuel ft lo hi i j = Some out ->
    incl out (FitingTree.data ft).
Proof.
  induction fuel as [|f IH]; intros i j out H; simpl in H.
  - inversion H. intros x [].
  - destruct ((i <=? j) && (i <? int_of (size (FitingTree.segments ft))));
      [|inversion H; intros x []].
    repeat match type of H with
           | bind ?e _ = _ => destruct e eqn:?; cbn [bind] in H; [|discriminate]
           end.
    inversion H; subst. apply incl_app.
    + eapply slice_stored; eauto.
    + eapply IH; eauto.
Qed.

(** [range_query] emits stored keys only. *)
Lemma fiting_range_query_stored (ft : FitingTree.FitingTree) (lo hi : Z)
    (out : list Z) :
  FitingTree.range_query ft lo hi = Some out -> incl out (FitingTree.data ft).
Proof.
  unfold FitingTree.range_query.
  destruct (FitingTree.no_data ft || (hi <? lo)); [intros H; inversion H; intros x []|].
  destruct (FitingTree.findSegmentIndex ft lo); cbn [bind]; [|discriminate].
  destruct (FitingTree.findSegmentIndex ft hi); cbn [bind]; [|discriminate].
  apply range_segments_stored.
Qed.

(** An insertion that goes to a buffer and spills nothing changes the
    buffers and nothing else. *)
Lemma insertDelta_buffers_only (ft : FitingTree.FitingTree) (k i : Z)
    (b b' : FitingTree.DeltaBuffer) :
  FitingTree.no_data ft = false ->
  FitingTree.findSegmentIndex ft k = Some i -> 0 <= i ->
  let bs := if size (FitingTree.delta_buffers ft) <=? i
            then FitingTree.resize_buffers (Z.to_nat (i + 1))
                   (FitingTree.delta_buffers ft)
            else FitingTree.delta_buffers ft in
  nth_Z bs i = Some b ->
  FitingTree.buffer_insert b k = Some (true, b') ->
  Double.gtb
    (Double.of_Z (FitingTree.total_buffer_size
                    (FitingTree.set_buffers ft (set_nth bs (Z.to_nat i) b'))))
    (Double.mul (Double.of_Z (size (FitingTree.data ft))) Double.one_tenth) = false ->
  FitingTree.insertDelta ft k
  = Some (true, FitingTree.set_buffers ft (set_nth bs (Z.to_nat i) b')).
Proof.
  intros Hd Hi Hi0 bs Hb Hins Hsum. unfold FitingTree.insertDelta.
  rewrite Hd, Hi. cbn [bind].
  destruct (Z.ltb_spec i 0); [lia|].
  fold bs. rewrite Hb. cbn [bind]. rewrite Hins. cbn [bind negb].
  cbn [FitingTree.data FitingTree.set_buffers] in *. now rewrite Hsum.
Qed.

(** Apart from the reads outside the array, C9 holds: after such an
    insertion of a key that is not stored, the data are as before, a
    [lookup] of the key that returns reports -1, and a [range_query] that
    returns does not hold the key. *)
Lemma buffered_key_stays_invisible (ft : FitingTree.FitingTree) (k i : Z)
    (b b' : FitingTree.DeltaBuffer) :
  ~ In k (FitingTree.data ft) ->
  FitingTree.no_data ft = false ->
  FitingTree.findSegmentIndex ft k = Some i -> 0 <= i ->
  let bs := if size (FitingTree.delta_buffers ft) <=? i
            then FitingTree.resize_buffers (Z.to_nat (i + 1))
                   (FitingTree.delta_buffers ft)
            else FitingTree.delta_buffers ft in
  nth_Z bs i = Some b ->
  FitingTree.buffer_insert b k = Some (true, b') ->
  Double.gtb
    (Double.of_Z (FitingTree.total_buffer_size
                    (FitingTree.set_buffers ft (set_nth bs (Z.to_nat i) b'))))
    (Double.mul (Double.of_Z (size (FitingTree.data ft))) Double.one_tenth) = false ->
  exists ft',
    FitingTree.insertDelta ft k = Some (true, ft')
    /\ FitingTree.data ft' = FitingTree.data ft
    /\ FitingTree.segments ft' = FitingTree.segments ft
    /\ (forall p, FitingTree.lookup ft' k = Some p -> p = -1)
    /\ (forall lo hi out, FitingTree.range_query ft' lo hi = Some out -> ~ In k out).
Proof.
  intros Hk Hd Hi Hi0 bs Hb Hins Hsum.
  eexists. split; [apply (insertDelta_buffers_only ft k i b b'); assumption|].
  split; [reflexivity|]. split; [reflexivity|]. split.
  - intros p Hp.
    destruct (fiting_lookup_stored _ _ _ Hp) as [|[it [_ Hn]]]; [assumption|].
    exfalso. apply Hk. apply nth_Z_In in Hn. exact Hn.
  - intros lo hi out Ho Hin. apply Hk.
    exact (fiting_range_query_stored _ _ _ _ Ho k Hin).
Qed.

(** C9 fails on the code.  In the FITing-Tree built from 0, ..., 9,
    [insertDelta(1000000000)] puts the key in the buffer of segment 0 and
    returns true; [lookup(1000000000)] then forms the window from position
    1000000000 to position 9, gets position 1000000000 from the search, and
    reads the array of 10 keys there. *)
Theorem buffered_key_lookup_reads_past_end :
  exists ft ft' s,
    FitingTree.build (FitingTree.init 32) zero_to_nine = Some ft
    /\ ~ In 1000000000 (FitingTree.data ft)
    /\ FitingTree.insertDelta ft 1000000000 = Some (true, ft')
    /\ map FitingTree.keys (FitingTree.delta_buffers ft') = [[1000000000]]
    /\ FitingTree.data ft' = zero_to_nine
    /\ nth_Z (FitingTree.segments ft') 0 = Some s
    /\ FitingTree.window ft' s 1000000000 = Some (1000000000, 9)
    /\ lower_bound id (FitingTree.data ft') 1000000000 (9 + 1) 1000000000
       = Some 1000000000
    /\ found_at (FitingTree.data ft') 1000000000 1000000000 = None
    /\ FitingTree.lookup ft' 1000000000 = None.
Proof.
  eexists. eexists. eexists. split; [vm_compute; reflexivity|].
  split.
  { vm_compute. intros H. repeat (destruct H as [H|H]; [discriminate|]). exact H. }
  split; [vm_compute; reflexivity|].
  split; [reflexivity|]. split; [reflexivity|]. split; [reflexivity|].
  repeat split; vm_compute; reflexivity.
Qed.

(** Inside the array the claim is what happens: after [insertDelta(10)],
    [lookup(10)] returns -1 and a range query over all keys emits the ten
    stored keys. *)
Lemma buffered_key_invisible_at_ten :
  exists ft ft',
    FitingTree.build (FitingTree.init 32) zero_to_nine = Some ft
    /\ FitingTree.insertDelta ft 10 = Some (true, ft')
    /\ map FitingTree.keys (FitingTree.delta_buffers ft') = [[10]]
    /\ FitingTree.lookup ft' 10 = Some (-1)
    /\ FitingTree.range_query ft' 0 100 = Some zero_to_nine.
Proof.
  eexists. eexists. split; [vm_compute; reflexivity|].
  split; [vm_compute; reflexivity|].
  split; [reflexivity|]. split; vm_compute; reflexivity.
Qed.

(** * More about the engines *)

(** ** Sizes that fit in an [int] *)

(** [static_cast<int>(v.size()) - 1] of a vector of at most [int_max]
    elements. *)
Lemma int_top (n : Z) :
  0 <= n <= int_max -> int_sub (int_of n) 1 = Some (n - 1).
Proof.
  intros H. rewrite int_of_fits by (unfold int_min; lia).
  unfold int_sub, int_chk, int_min, int_max in *.
  destruct (Z.leb_spec (- 2 ^ 31) (n - 1)); [|lia].
  destruct (Z.leb_spec (n - 1) (2 ^ 31 - 1)); [reflexivity|lia].
Qed.

Lemma size_nonneg {A : Type} (l : list A) : 0 <= size l.
Proof. unfold size. lia. Qed.

(** The conversion to [int] does not make a size larger. *)
Lemma int_of_le (z : Z) : 0 <= z -> int_of z <= z.
Proof.
  intros H. unfold int_of, int_min.
  pose proof (Z.mod_le (z - - 2 ^ 31) (2 ^ 32)). lia.
Qed.

Lemma int_chk_range (z c : Z) : int_chk z = Some c -> c = z /\ int_min <= c <= int_max.
Proof.
  unfold int_chk. destruct (Z.leb_spec int_min z); [|discriminate].
  destruct (Z.leb_spec z int_max); [|discriminate].
  intros E. inversion E. lia.
Qed.

(** [static_cast<int>(v.size()) - 1] is never past the last position. *)
Lemma int_top_le (n top : Z) :
  0 <= n -> int_sub (int_of n) 1 = Some top -> top <= n - 1.
Proof.
  intros H E. apply int_chk_range in E. pose proof (int_of_le n H). lia.
Qed.

(** ** Binary search on a part of an ascending vector *)

Lemma lower_bound_loop_range (d : list Z) (k : Z) :
  ascending d ->
  forall (fuel : nat) (first len : Z),
    0 <= first -> 0 <= len -> first + len <= size d -> len <= Z.of_nat fuel ->
    exists it,
      lower_bound_loop id d fuel first len k = Some it
      /\ first <= it <= first + len
      /\ (forall j x, first <= j < it -> nth_Z d j = Some x -> x < k)
      /\ (forall j x, it <= j < first + len -> nth_Z d j = Some x -> k <= x).
Proof.
  intros Hasc. induction fuel as [|f IH]; intros first len H0 Hl Hs Hf.
  - exists first. simpl. repeat split; try lia.
  - simpl. destruct (Z.leb_spec len 0) as [Hle|Hgt].
    + exists first. repeat split; try lia.
    + destruct (half_bounds len Hgt) as [Hh0 Hh1].
      set (half := Z.shiftr len 1) in *.
      destruct (nth_Z_in_range d (first + half)) as [x Hx]; [lia|].
      rewrite Hx. cbn [bind]. unfold id at 1.
      destruct (Z.ltb_spec x k) as [Hlt|Hge].
      * destruct (IH (first + half + 1) (len - half - 1)) as [it [E [R [A B]]]];
          try lia.
        exists it. repeat split; auto; try lia.
        -- intros j y Hj Hy.
           destruct (Z.le_gt_cases j (first + half)) as [Hle|Hgt'].
           ++ assert (y <= x) by (apply (Hasc j (first + half) y x); auto). lia.
           ++ apply (A j y); auto. lia.
        -- intros j y Hj. apply B. lia.
      * destruct (IH first half) as [it [E [R [A B]]]]; try lia.
        exists it. repeat split; auto; try lia.
        intros j y Hj Hy.
        destruct (Z.lt_ge_cases j (first + half)) as [Hlt'|Hge'].
        -- apply (B j y); auto. lia.
        -- assert (x <= y) by (apply (Hasc (first + half) j x y); auto). lia.
Qed.

Lemma lower_bound_range (d : list Z) (k first last : Z) :
  ascending d -> 0 <= first <= last -> last <= size d ->
  exists it,
    lower_bound id d first last k = Some it
    /\ first <= it <= last
    /\ (forall j x, first <= j < it -> nth_Z d j = Some x -> x < k)
    /\ (forall j x, it <= j < last -> nth_Z d j = Some x -> k <= x).
Proof.
  intros Hasc Hr Hs. unfold lower_bound.
  destruct (lower_bound_loop_range d k Hasc (Z.to_nat (last - first)) first (last - first))
    as [it [E [R [A B]]]]; try lia.
  exists it. repeat split; auto; try lia.
  intros j x Hj. apply B. lia.
Qed.

Lemma lower_bound_inverted {A : Type} (key_of : A -> Z) (d : list A)
    (k first last : Z) :
  last <= first -> lower_bound key_of d first last k = Some first.
Proof.
  intros H. unfold lower_bound.
  replace (Z.to_nat (last - first)) with O by lia. reflexivity.
Qed.

Lemma upper_bound_loop_range (d : list Z) (k : Z) :
  ascending d ->
  forall (fuel : nat) (first len : Z),
    0 <= first -> 0 <= len -> first + len <= size d -> len <= Z.of_nat fuel ->
    exists it,
      upper_bound_loop id d fuel first len k = Some it
      /\ first <= it <= first + len
      /\ (forall j x, first <= j < it -> nth_Z d j = Some x -> x <= k)
      /\ (forall j x, it <= j < first + len -> nth_Z d j = Some x -> k < x).
Proof.
  intros Hasc. induction fuel as [|f IH]; intros first len H0 Hl Hs Hf.
  - exists first. simpl. repeat split; try lia.
  - simpl. destruct (Z.leb_spec len 0) as [Hle|Hgt].
    + exists first. repeat split; try lia.
    + destruct (half_bounds len Hgt) as [Hh0 Hh1].
      set (half := Z.shiftr len 1) in *.
      destruct (nth_Z_in_range d (first + half)) as [x Hx]; [lia|].
      rewrite Hx. cbn [bind]. unfold id at 1.
      destruct (Z.ltb_spec k x) as [Hlt|Hge].
      * destruct (IH first half) as [it [E [R [A B]]]]; try lia.
        exists it. repeat split; auto; try lia.
        intros j y Hj Hy.
        destruct (Z.lt_ge_cases j (first + half)) as [Hlt'|Hge'].
        -- apply (B j y); auto. lia.
        -- assert (x <= y) by (apply (Hasc (first + half) j x y); auto). lia.
      * destruct (IH (first + half + 1) (len - half - 1)) as [it [E [R [A B]]]];
          try lia.
        exists it. repeat split; auto; try lia.
        -- intros j y Hj Hy.
           destruct (Z.le_gt_cases j (first + half)) as [Hle|Hgt'].
           ++ assert (y <= x) by (apply (Hasc j (first + half) y x); auto). lia.
           ++ apply (A j y); auto. lia.
        -- intros j y Hj. apply B. lia.
Qed.

Lemma upper_bound_range (d : list Z) (k first last : Z) :
  ascending d -> 0 <= first <= last -> last <= size d ->
  exists it,
    upper_bound id d first last k = Some it
    /\ first <= it <= last
    /\ (forall j x, first <= j < it -> nth_Z d j = Some x -> x <= k)
    /\ (forall j x, it <= j < last -> nth_Z d j = Some x -> k < x).
Proof.
  intros Hasc Hr Hs. unfold upper_bound.
  destruct (upper_bound_loop_range d k Hasc (Z.to_nat (last - first)) first (last - first))
    as [it [E [R [A B]]]]; try lia.
  exists it. repeat split; auto; try lia.
  intros j x Hj. apply B. lia.
Qed.

Lemma upper_bound_inverted {A : Type} (key_of : A -> Z) (d : list A)
    (k first last : Z) :
  last <= first -> upper_bound key_of d first last k = Some first.
Proof.
  intros H. unfold upper_bound.
  replace (Z.to_nat (last - first)) with O by lia. reflexivity.
Qed.

(** A search for [k] in a part of the array that holds [k] ends on a
    position of [k], the first one of the part. *)
Lemma windowed_search_finds (d : list Z) (k p first last : Z) :
  ascending d -> 0 <= first -> last <= size d ->
  first <= p < last -> nth_Z d p = Some k ->
  exists it,
    lower_bound id d first last k = Some it
    /\ first <= it <= p
    /\ nth_Z d it = Some k
    /\ found_at d it k = Some (int_of it).
Proof.
  intros Hasc H0 Hs Hp Hk.
  destruct (lower_bound_range d k first last Hasc) as [it [E [R [A B]]]]; try lia.
  assert (Hit : it <= p).
  { destruct (Z.le_gt_cases it p) as [|Hgt]; [assumption|].
    assert (k < k) by (apply (A p k); auto; lia). lia. }
  destruct (nth_Z_in_range d it) as [x Hx]; [lia|].
  assert (k <= x) by (apply (B it x); auto; lia).
  assert (x <= k) by (apply (Hasc it p x k); auto).
  assert (x = k) by lia. subst x.
  exists it. repeat split; auto; try lia.
  unfold found_at. destruct (Z.eqb_spec it (size d)); [lia|].
  rewrite Hx. cbn [bind]. now rewrite Z.eqb_refl.
Qed.

(** The part of a list between two positions is what a filter keeps when the
    elements before fail the test, those between pass and those after fail. *)
Lemma filter_none {A : Type} (P : A -> bool) (l : list A) :
  (forall x, In x l -> P x = false) -> filter P l = [].
Proof.
  induction l as [|a l IH]; simpl; intros H; [reflexivity|].
  rewrite (H a) by now left. apply IH. intros x Hx. apply H. now right.
Qed.

Lemma filter_all {A : Type} (P : A -> bool) (l : list A) :
  (forall x, In x l -> P x = true) -> filter P l = l.
Proof.
  induction l as [|a l IH]; simpl; intros H; [reflexivity|].
  rewrite (H a) by now left. f_equal. apply IH. intros x Hx. apply H. now right.
Qed.

Lemma In_firstn_nth {A : Type} (l : list A) (n : nat) (x : A) :
  In x (firstn n l) -> exists j, (j < n)%nat /\ nth_error l j = Some x.
Proof.
  revert n. induction l as [|a l IH]; intros [|n] H; simpl in H; try contradiction.
  destruct H as [->|H].
  - exists O. split; [lia|reflexivity].
  - destruct (IH n H) as [j [Hj E]]. exists (S j). split; [lia|exact E].
Qed.

Lemma In_skipn_nth {A : Type} (l : list A) (n : nat) (x : A) :
  In x (skipn n l) -> exists j, (n <= j)%nat /\ nth_error l j = Some x.
Proof.
  revert n. induction l as [|a l IH]; intros [|n] H.
  - contradiction.
  - contradiction.
  - destruct (In_nth_error _ _ H) as [j Hj]. exists j. split; [lia|exact Hj].
  - destruct (IH n H) as [j [Hj E]]. exists (S j). split; [lia|exact E].
Qed.

Lemma filter_band {A : Type} (P : A -> bool) (l : list A) (a b : nat) :
  (a <= b)%nat ->
  (forall j x, (j < a)%nat -> nth_error l j = Some x -> P x = false) ->
  (forall j x, (a <= j < b)%nat -> nth_error l j = Some x -> P x = true) ->
  (forall j x, (b <= j)%nat -> nth_error l j = Some x -> P x = false) ->
  filter P l = firstn (b - a) (skipn a l).
Proof.
  intros Hab Hlo Hmid Hhi.
  rewrite <- (firstn_skipn a l) at 1.
  rewrite <- (firstn_skipn (b - a) (skipn a l)) at 1.
  rewrite !filter_app.
  rewrite (filter_none P (firstn a l)).
  2:{ intros x Hx. destruct (In_firstn_nth _ _ _ Hx) as [j [Hj E]]. eauto. }
  rewrite (filter_none P (skipn (b - a) (skipn a l))).
  2:{ intros x Hx. rewrite skipn_skipn in Hx.
      destruct (In_skipn_nth _ _ _ Hx) as [j [Hj E]]. apply (Hhi j); auto. lia. }
  rewrite app_nil_r. simpl. apply filter_all.
  intros x Hx. destruct (In_firstn_nth _ _ _ Hx) as [j [Hj E]].
  rewrite nth_error_skipn in E. apply (Hmid (a + j)%nat); auto. lia.
Qed.

Lemma slice_is_filter (d : list Z) (lo hi a b : Z) :
  0 <= a <= b -> b <= size d ->
  (forall j x, j < a -> nth_Z d j = Some x -> x < lo) ->
  (forall j x, a <= j < b -> nth_Z d j = Some x -> lo <= x <= hi) ->
  (forall j x, b <= j -> nth_Z d j = Some x -> hi < x) ->
  slice d a b = Some (filter (in_band lo hi) d).
Proof.
  intros Hab Hs Hlo Hmid Hhi. unfold slice.
  assert (Hf : filter (in_band lo hi) d
               = firstn (Z.to_nat b - Z.to_nat a) (skipn (Z.to_nat a) d)).
  { apply filter_band; try lia.
    - intros j x Hj E. rewrite <- nth_Z_of_nat in E.
      assert (x < lo) by (apply (Hlo (Z.of_nat j)); auto; lia).
      unfold in_band. destruct (Z.leb_spec lo x); [lia|reflexivity].
    - intros j x Hj E. rewrite <- nth_Z_of_nat in E.
      assert (lo <= x <= hi) by (apply (Hmid (Z.of_nat j)); auto; lia).
      unfold in_band. destruct (Z.leb_spec lo x); [|lia].
      destruct (Z.leb_spec x hi); [reflexivity|lia].
    - intros j x Hj E. rewrite <- nth_Z_of_nat in E.
      assert (hi < x) by (apply (Hhi (Z.of_nat j)); auto; lia).
      unfold in_band. destruct (Z.leb_spec x hi); [lia|].
      now rewrite andb_false_r. }
  destruct (Z.leb_spec b a) as [Hle|Hgt].
  - rewrite Hf. replace (Z.to_nat b - Z.to_nat a)%nat with O by lia. reflexivity.
  - destruct (Z.leb_spec 0 a); [|lia]. destruct (Z.leb_spec b (size d)); [|lia].
    simpl. rewrite Hf. repeat f_equal. lia.
Qed.

Lemma sorted_unique_ascending (l : list Z) : sorted_unique l -> ascending l.
Proof.
  intros H. apply sorted_ascending.
  induction H as [|x l Hs IH Hf]; constructor; auto.
  eapply Forall_impl; [|exact Hf]. intros; simpl in *; lia.
Qed.

Lemma ascends_ascending (l : list Z) : ascends l = true -> ascending l.
Proof. intros H. now apply sorted_unique_ascending, ascends_sorted_unique. Qed.

(** X8. RMI with a loaded model (branch_factor != 0) over ascending data of at
    most INT_MAX keys: if predict_position(k) returns (lo, hi) and k is stored
    at a position p with lo <= p <= hi, then lookup(k) returns a position q <=
    p that holds k (the first one within the searched window), not -1. *)
Theorem rmi_lookup_within_bounds (r : RMI.RMI) (k p lo hi : Z) :
  size (RMI.data r) <= int_max ->
  ascending (RMI.data r) ->
  RMI.branch_factor r <> 0 ->
  RMI.predict_position r k = Some (lo, hi) ->
  nth_Z (RMI.data r) p = Some k ->
  lo <= p <= hi ->
  exists q, RMI.lookup r k = Some q /\ q <= p /\ nth_Z (RMI.data r) q = Some k.
Proof.
  intros Hsz Hasc HB Hpred Hk Hp.
  pose proof (nth_Z_some_range _ _ _ Hk) as Hr.
  unfold RMI.lookup.
  destruct (RMI.data r) as [|d0 dr] eqn:Hd; [unfold size in Hr; simpl in Hr; lia|].
  rewrite <- Hd in *.
  destruct (Z.eqb_spec (RMI.branch_factor r) 0) as [|_]; [contradiction|].
  rewrite Hpred. cbn [bind fst snd].
  rewrite int_top by lia. cbn [bind].
  destruct (windowed_search_finds (RMI.data r) k p (Z.max 0 lo)
              (Z.min (size (RMI.data r) - 1) hi + 1)) as [it [E [R [Hx F]]]];
    auto; try lia.
  rewrite E. cbn [bind]. exists it.
  rewrite F, int_of_fits by (unfold int_min; lia).
  repeat split; auto; lia.
Qed.

Lemma rmi_lookup_within_bounds_witness :
  exists q, RMI.lookup rmi_identity 3 = Some q /\ q <= 3
            /\ nth_Z (RMI.data rmi_identity) q = Some 3.
Proof.
  apply (rmi_lookup_within_bounds rmi_identity 3 3 2 4).
  - vm_compute. discriminate.
  - apply ascends_ascending. reflexivity.
  - discriminate.
  - reflexivity.
  - reflexivity.
  - lia.
Defined.

(** X9. RMI without a model (branch_factor = 0) over ascending data:
    range_query(lo, hi) returns exactly the stored keys x with lo <= x <= hi,
    in order (empty when lo > hi or when there is no data). *)
Theorem rmi_range_query_unloaded (r : RMI.RMI) (lo hi : Z) :
  RMI.branch_factor r = 0 -> ascending (RMI.data r) ->
  RMI.range_query r lo hi = Some (filter (in_band lo hi) (RMI.data r)).
Proof.
  intros HB Hasc. unfold RMI.range_query. rewrite HB. cbn [Z.eqb].
  destruct (RMI.data r) as [|d0 dr] eqn:Hd; [reflexivity|]. rewrite <- Hd in *.
  cbn [orb].
  assert (Hsz : 0 < size (RMI.data r)) by (rewrite Hd; unfold size; simpl; lia).
  destruct (Z.ltb_spec hi lo) as [Hinv|Hle].
  - f_equal. symmetry. apply filter_none. intros x _. unfold in_band.
    destruct (Z.leb_spec lo x); [|reflexivity].
    destruct (Z.leb_spec x hi); [lia|reflexivity].
  - destruct (lower_bound_whole (RMI.data r) lo Hasc) as [a [Ea [Ra [Aa Ba]]]].
    rewrite Ea. cbn [bind].
    destruct (Z.eqb_spec a (size (RMI.data r))) as [Heq|Hne].
    + f_equal. symmetry. apply filter_none. intros x Hx. unfold in_band.
      destruct (In_nth_Z _ _ Hx) as [j Hj].
      pose proof (nth_Z_some_range _ _ _ Hj).
      assert (x < lo) by (apply (Aa j x); auto; lia).
      destruct (Z.leb_spec lo x); [lia|reflexivity].
    + destruct (upper_bound_range (RMI.data r) hi a (size (RMI.data r)) Hasc)
        as [b [Eb [Rb [Ab Bb]]]]; try lia.
      rewrite Eb. cbn [bind].
      apply slice_is_filter; try lia.
      * exact Aa.
      * intros j x Hj Hx. split; [apply (Ba j x); auto; lia|apply (Ab j x); auto].
      * intros j x Hj Hx. pose proof (nth_Z_some_range _ _ _ Hx).
        apply (Bb j x); auto. lia.
Qed.

Lemma rmi_range_query_unloaded_witness :
  RMI.range_query rmi_unloaded 2 5 = Some (filter (in_band 2 5) (RMI.data rmi_unloaded)).
Proof.
  apply rmi_range_query_unloaded; [reflexivity|exact ascending_123].
Defined.

Lemma slice_elements {A : Type} (d l : list A) (a b : Z) (x : A) :
  slice d a b = Some l -> In x l -> exists j, a <= j < b /\ nth_Z d j = Some x.
Proof.
  unfold slice. destruct (Z.leb_spec b a) as [|Hlt].
  - intros E; inversion E; subst. contradiction.
  - destruct (Z.leb_spec 0 a); [|discriminate].
    destruct (Z.leb_spec b (size d)); [|discriminate]. simpl.
    intros E Hin; inversion E; subst; clear E.
    destruct (In_firstn_nth _ _ _ Hin) as [j [Hj E]].
    rewrite nth_error_skipn in E.
    exists (Z.of_nat (Z.to_nat a + j)). split; [lia|].
    now rewrite nth_Z_of_nat.
Qed.

(** What [upper_bound] leaves before its result holds keys not above the
    bound, from the start of the array on. *)
Lemma upper_bound_prefix (d : list Z) (k first last it : Z) :
  ascending d -> 0 <= first <= last -> last <= size d ->
  upper_bound id d first last k = Some it -> it <> first ->
  forall j x, j < it -> nth_Z d j = Some x -> x <= k.
Proof.
  intros Hasc Hr Hs E Hne j x Hj Hx.
  destruct (upper_bound_range d k first last Hasc Hr Hs) as [it' [E' [R [A B]]]].
  rewrite E in E'. inversion E'; subst it'.
  destruct (nth_Z_in_range d (it - 1)) as [y Hy]; [lia|].
  assert (y <= k) by (apply (A (it - 1) y); auto; lia).
  assert (x <= y) by (apply (Hasc j (it - 1) x y); auto; lia).
  lia.
Qed.

Lemma upper_bound_from (d : list Z) (k first it : Z) :
  ascending d -> 0 <= first <= size d ->
  upper_bound id d first (size d) k = Some it ->
  first <= it <= size d
  /\ forall j x, first <= j < it -> nth_Z d j = Some x -> x <= k.
Proof.
  intros Hasc Hr E.
  destruct (upper_bound_range d k first (size d) Hasc) as [it' [E' [R [A B]]]];
    try lia.
  rewrite E in E'. inversion E'; subst it'. split; [lia|exact A].
Qed.

Lemma lower_bound_suffix (d : list Z) (k first last it : Z) :
  ascending d -> 0 <= first <= last -> last <= size d ->
  lower_bound id d first last k = Some it -> it <> last ->
  first <= it < last
  /\ forall j x, it <= j -> nth_Z d j = Some x -> k <= x.
Proof.
  intros Hasc Hr Hs E Hne.
  destruct (lower_bound_range d k first last Hasc Hr Hs) as [it' [E' [R [A B]]]].
  rewrite E in E'. inversion E'; subst it'. split; [lia|].
  intros j x Hj Hx.
  destruct (nth_Z_in_range d it) as [y Hy]; [lia|].
  assert (k <= y) by (apply (B it y); auto; lia).
  assert (y <= x) by (apply (Hasc it j y x); auto).
  lia.
Qed.

(** The lower end of a predicted window is a position that an [int]
    holds. *)
Lemma predict_position_range (r : RMI.RMI) (k l h : Z) :
  RMI.branch_factor r <> 0 ->
  RMI.predict_position r k = Some (l, h) -> 0 <= l <= int_max.
Proof.
  intros HB. unfold RMI.predict_position.
  destruct (Z.eqb_spec (RMI.branch_factor r) 0) as [|_]; [contradiction|].
  destruct (RMI.stage2_index r k); cbn [bind]; [|discriminate].
  destruct (nth_Z (RMI.stage2_models r) z); cbn [bind]; [|discriminate].
  destruct (Double.round_to_int _); cbn [bind]; [|discriminate].
  destruct (nth_Z (RMI.min_errors r) z); cbn [bind]; [|discriminate].
  destruct (int_add z0 z1) as [lo|] eqn:E; cbn [bind]; [|discriminate].
  destruct (nth_Z (RMI.max_errors r) z); cbn [bind]; [|discriminate].
  destruct (int_add z0 z2); cbn [bind]; [|discriminate].
  intros H. inversion H; subst. apply int_chk_range in E.
  unfold int_max in *. lia.
Qed.

(** X10. RMI over ascending data of any size, with any model and with the
    conversions to int of data.size() and of the position of the lower
    iterator as the code makes them: every key that range_query(lo, hi)
    returns is a stored key and is <= hi. When the data has at most INT_MAX
    keys and the window predicted for lo, after clamping, is not inverted
    (max(0, l) <= min(size-1, h) + 1), every returned key is also >= lo. When
    the window is inverted the code searches an inverted iterator range, and
    the model of that search gives no such bound. *)
Theorem rmi_range_query_sound (r : RMI.RMI) (lo hi : Z) (out : list Z) :
  ascending (RMI.data r) ->
  RMI.range_query r lo hi = Some out ->
  (forall x, In x out -> In x (RMI.data r) /\ x <= hi)
  /\ (forall l h,
        size (RMI.data r) <= int_max ->
        RMI.predict_position r lo = Some (l, h) ->
        Z.max 0 l <= Z.min (size (RMI.data r) - 1) h + 1 ->
        forall x, In x out -> lo <= x).
Proof.
  intros Hasc.
  destruct (Z.eqb_spec (RMI.branch_factor r) 0) as [HB|HB].
  { rewrite (rmi_range_query_unloaded r lo hi HB Hasc).
    intros E; inversion E; subst; clear E.
    assert (H : forall x, In x (filter (in_band lo hi) (RMI.data r)) ->
                In x (RMI.data r) /\ lo <= x <= hi).
    { intros x Hx. apply filter_In in Hx. destruct Hx as [Hin Hb].
      unfold in_band in Hb. apply andb_true_iff in Hb. split; [exact Hin|lia]. }
    split; [intros x Hx|intros l h _ _ _ x Hx]; destruct (H x Hx);
      [split; [auto|lia]|lia]. }
  unfold RMI.range_query. cbv zeta.
  destruct (RMI.data r) as [|d0 dr] eqn:Hd.
  { intros E; inversion E; subst. split; [|intros l h _ _ _]; intros x []. }
  rewrite <- Hd in *. cbn [orb]. set (d := RMI.data r) in *.
  destruct (Z.ltb_spec hi lo) as [|Hle].
  { intros E; inversion E; subst. split; [|intros l h _ _ _]; intros x []. }
  destruct (Z.eqb_spec (RMI.branch_factor r) 0) as [|_]; [contradiction|].
  destruct (RMI.predict_position r lo) as [[l h]|] eqn:Hp; [|discriminate].
  cbn [bind fst snd].
  destruct (int_sub (int_of (size d)) 1) as [top|] eqn:Htop; [|discriminate].
  cbn [bind].
  pose proof (int_top_le _ _ (size_nonneg d) Htop) as Htop'.
  destruct (predict_position_range r lo l h HB Hp) as [Hl0 Hl1].
  set (lb := Z.max 0 l). set (ub := Z.min top h).
  destruct (lower_bound id d lb (ub + 1) lo) as [it|] eqn:Eit; [|discriminate].
  cbn [bind].
  destruct (match (if it =? ub + 1 then lower_bound id d 0 (size d) lo else Some it)
            with Some L => Some L | None => None end) as [L|] eqn:HL.
  2:{ destruct (if it =? ub + 1 then _ else _); discriminate. }
  assert (HL' : (if it =? ub + 1 then lower_bound id d 0 (size d) lo else Some it)
                = Some L).
  { destruct (if it =? ub + 1 then _ else _); [exact HL|discriminate]. }
  clear HL. rewrite HL'. cbn [bind].
  destruct (Z.eqb_spec L (size d)) as [|HLs].
  { intros E; inversion E; subst. split; [|intros l' h' _ _ _]; intros x []. }
  destruct (RMI.predict_position r hi) as [[l2 h2]|] eqn:Hp2; [|discriminate].
  cbn [bind fst snd].
  destruct (predict_position_range r hi l2 h2 HB Hp2) as [Hl2 _].
  set (lb2 := Z.max (int_of L) l2). set (ub2 := Z.min top h2).
  (* the position of the first emitted key *)
  assert (HL0 : 0 <= L /\ (size d < L -> L = lb)).
  { destruct (Z.le_gt_cases lb (ub + 1)) as [Hv|Hi].
    - destruct (lower_bound_range d lo lb (ub + 1) Hasc)
        as [it' [E [R _]]]; try lia.
      rewrite Eit in E. inversion E; subst it'.
      destruct (it =? ub + 1).
      + destruct (lower_bound_whole d lo Hasc) as [a [Ea [Ra _]]].
        rewrite Ea in HL'. inversion HL'; subst. lia.
      + inversion HL'; subst. lia.
    - rewrite lower_bound_inverted in Eit by lia. inversion Eit; subst it.
      destruct (Z.eqb_spec lb (ub + 1)); [lia|].
      inversion HL'; subst. lia. }
  destruct HL0 as [HL0 HLbig].
  destruct (Z.lt_ge_cases (size d) L) as [Hbig|Hsmall].
  { (* past the end: nothing is copied *)
    assert (Hup : upper_bound id d L (size d) hi = Some L)
      by (apply upper_bound_inverted; lia).
    assert (HLint : int_of L = L).
    { apply int_of_fits. rewrite (HLbig Hbig). unfold int_min. lia. }
    destruct (Z.ltb_spec ub2 lb2); [|lia].
    rewrite Hup. cbn [bind]. unfold slice.
    destruct (Z.leb_spec L L); [|lia].
    intros E; inversion E; subst. split; [|intros l' h' _ _ _]; intros x []. }
  intros Hres.
  assert (HU : exists U, slice d L U = Some out
                 /\ forall j x, L <= j < U -> nth_Z d j = Some x -> x <= hi).
  { assert (Hfall : forall U, upper_bound id d L (size d) hi = Some U ->
                      forall j x, L <= j < U -> nth_Z d j = Some x -> x <= hi).
    { intros U E. destruct (upper_bound_from d hi L U Hasc) as [_ A]; auto; lia. }
    destruct (Z.ltb_spec ub2 lb2) as [|Hv].
    - destruct (upper_bound id d L (size d) hi) as [U|] eqn:E; [|discriminate].
      exists U. split; [exact Hres|now apply Hfall].
    - destruct (upper_bound id d lb2 (ub2 + 1) hi) as [it2|] eqn:E2; [|discriminate].
      cbn [bind] in Hres.
      destruct (Z.eqb_spec it2 lb2) as [|Hne].
      + destruct (upper_bound id d L (size d) hi) as [U|] eqn:E; [|discriminate].
        exists U. split; [exact Hres|now apply Hfall].
      + exists it2. split; [exact Hres|].
        intros j x Hj Hx.
        apply (upper_bound_prefix d hi lb2 (ub2 + 1) it2 Hasc) with (j := j);
          auto; lia. }
  destruct HU as [U [Hsl HU]]. split.
  - intros x Hx. destruct (slice_elements _ _ _ _ _ Hsl Hx) as [j [Hj Ej]].
    split; [eapply nth_Z_In; eauto|apply (HU j x); auto].
  - intros l' h' Hsz Hp' Hv x Hx. inversion Hp'; subst l' h'.
    rewrite int_top in Htop by (pose proof (size_nonneg d); lia).
    inversion Htop; subst top. fold lb ub in Hv.
    destruct (slice_elements _ _ _ _ _ Hsl Hx) as [j [Hj Ej]].
    assert (Hfrom : forall j x, L <= j -> nth_Z d j = Some x -> lo <= x).
    { destruct (Z.eqb_spec it (ub + 1)) as [|Hne].
      - destruct (lower_bound_whole d lo Hasc) as [a [Ea [_ [_ Ba]]]].
        rewrite HL' in Ea. inversion Ea; subst a. exact Ba.
      - inversion HL'; subst it.
        destruct (lower_bound_suffix d lo lb (ub + 1) L Hasc) as [_ B]; auto; lia. }
    apply (Hfrom j x); auto. lia.
Qed.

Lemma window_range (ft : FitingTree.FitingTree) (s : FitingTree.Segment)
    (k lo hi : Z) :
  FitingTree.window ft s k = Some (lo, hi) ->
  0 <= lo /\ hi <= size (FitingTree.data ft) - 1.
Proof.
  unfold FitingTree.window.
  destruct (Double.round_to_int _) as [pp|]; [|discriminate]. cbn [bind].
  destruct (int_sub _ _) as [a|]; [|discriminate]. cbn [bind].
  destruct (int_add _ _) as [b|]; [|discriminate]. cbn [bind].
  destruct (int_sub (int_of _) 1) as [top|] eqn:Htop; [|discriminate]. cbn [bind].
  apply int_top_le in Htop; [|apply size_nonneg].
  intros E; inversion E; subst. lia.
Qed.

(** X14. FITing-Tree over ascending data of at most INT_MAX keys: if
    findSegmentIndex(k) selects segment s, the window that lookup computes
    from the prediction of s and max_error is (lo, hi), and k is stored at a
    position p with lo <= p <= hi, then lookup(k) returns a position q <= p
    that holds k. *)
Theorem fiting_lookup_within_window (ft : FitingTree.FitingTree)
    (s : FitingTree.Segment) (k p i lo hi : Z) :
  size (FitingTree.data ft) <= int_max ->
  ascending (FitingTree.data ft) ->
  FitingTree.findSegmentIndex ft k = Some i ->
  nth_Z (FitingTree.segments ft) i = Some s ->
  FitingTree.window ft s k = Some (lo, hi) ->
  nth_Z (FitingTree.data ft) p = Some k ->
  lo <= p <= hi ->
  exists q, FitingTree.lookup ft k = Some q /\ q <= p
            /\ nth_Z (FitingTree.data ft) q = Some k.
Proof.
  intros Hsz Hasc Hi Hs Hw Hk Hp.
  destruct (window_range _ _ _ _ _ Hw) as [Hlo Hhi].
  unfold FitingTree.lookup.
  assert (Hnd : FitingTree.no_data ft = false).
  { pose proof (nth_Z_some_range _ _ _ Hk) as R1.
    pose proof (nth_Z_some_range _ _ _ Hs) as R2.
    unfold FitingTree.no_data, size in *.
    destruct (FitingTree.data ft); [simpl in R1; lia|].
    destruct (FitingTree.segments ft); [simpl in R2; lia|reflexivity]. }
  rewrite Hnd, Hi. cbn [bind]. rewrite Hs. cbn [bind]. rewrite Hw. cbn [bind fst snd].
  destruct (windowed_search_finds (FitingTree.data ft) k p lo (hi + 1))
    as [it [E [R [Hx F]]]]; auto; try lia.
  rewrite E. cbn [bind]. exists it.
  rewrite F, int_of_fits by (unfold int_min; lia).
  repeat split; auto; lia.
Qed.

(** *** The delta buffer *)

Lemma sorted_unique_insert (a b : list Z) (k : Z) :
  sorted_unique (a ++ b) ->
  Forall (fun x => x < k) a -> Forall (fun x => k < x) b ->
  sorted_unique (a ++ k :: b).
Proof.
  unfold sorted_unique. induction a as [|x a IH]; simpl; intros Hs Ha Hb.
  - constructor; assumption.
  - inversion Hs as [|x0 l0 Hs' Hf]; subst. inversion Ha; subst.
    constructor; [apply IH; assumption|].
    apply Forall_app in Hf. destruct Hf as [F1 F2].
    apply Forall_app. split; [exact F1|]. constructor; [assumption|exact F2].
Qed.

Lemma Forall_firstn_nth {A : Type} (P : A -> Prop) (l : list A) (n : nat) :
  (forall j x, (j < n)%nat -> nth_error l j = Some x -> P x) ->
  Forall P (firstn n l).
Proof.
  intros H. apply Forall_forall. intros x Hx.
  destruct (In_firstn_nth _ _ _ Hx) as [j [Hj E]]. eauto.
Qed.

Lemma Forall_skipn_nth {A : Type} (P : A -> Prop) (l : list A) (n : nat) :
  (forall j x, (n <= j)%nat -> nth_error l j = Some x -> P x) ->
  Forall P (skipn n l).
Proof.
  intros H. apply Forall_forall. intros x Hx.
  destruct (In_skipn_nth _ _ _ Hx) as [j [Hj E]]. eauto.
Qed.

Lemma insert_at_perm {A : Type} (l l' : list A) (i : Z) (x : A) :
  insert_at l i x = Some l' -> Permutation (x :: l) l'.
Proof.
  unfold insert_at. destruct ((0 <=? i) && (i <=? size l)); [|discriminate].
  intros E; inversion E; subst.
  rewrite <- (firstn_skipn (Z.to_nat i) l) at 1.
  apply Permutation_middle.
Qed.

(** X15. FITing-Tree DeltaBuffer::insert(k) on a buffer whose keys ascend strictly:
    it returns true exactly when the buffer holds fewer keys than max_size
    (converted to size_t for the comparison) and k is not among them; then the
    keys are those of before and k, still ascending strictly; otherwise the
    buffer is unchanged. max_size never changes. *)
Theorem buffer_insert_spec (b : FitingTree.DeltaBuffer) (k : Z) :
  sorted_unique (FitingTree.keys b) ->
  exists ok b',
    FitingTree.buffer_insert b k = Some (ok, b')
    /\ FitingTree.max_size b' = FitingTree.max_size b
    /\ sorted_unique (FitingTree.keys b')
    /\ (ok = true <->
        size (FitingTree.keys b) < u64 (FitingTree.max_size b)
        /\ ~ In k (FitingTree.keys b))
    /\ (ok = true -> Permutation (k :: FitingTree.keys b) (FitingTree.keys b'))
    /\ (ok = false -> b' = b).
Proof.
  intros Hs. pose proof (sorted_unique_ascending _ Hs) as Hasc.
  unfold FitingTree.buffer_insert.
  destruct (Z.leb_spec (u64 (FitingTree.max_size b)) (size (FitingTree.keys b)))
    as [Hfull|Hroom].
  { exists false, b. repeat split; auto; try discriminate. lia. }
  set (ks := FitingTree.keys b) in *.
  destruct (lower_bound_whole ks k Hasc) as [it [E [R [A B]]]].
  rewrite E. cbn [bind].
  assert (Hdup : forall x, nth_Z ks it = Some x -> x <> k -> ~ In k ks).
  { intros x Hx Hne Hin. destruct (In_nth_Z _ _ Hin) as [j Hj].
    destruct (Z.lt_ge_cases j it) as [Hlt|Hge].
    - assert (k < k) by (apply (A j k); auto). lia.
    - assert (k <= x) by (apply (B it x); auto; lia).
      assert (x <= k) by (apply (Hasc it j x k); auto). lia. }
  assert (Hins : forall ks', insert_at ks it k = Some ks' ->
                   ~ In k ks -> sorted_unique ks').
  { intros ks' Ei Hnin. unfold insert_at in Ei.
    destruct ((0 <=? it) && (it <=? size ks)); [|discriminate].
    inversion Ei; subst ks'. apply sorted_unique_insert.
    - now rewrite firstn_skipn.
    - apply Forall_firstn_nth. intros j x Hj Ex. rewrite <- nth_Z_of_nat in Ex.
      apply (A (Z.of_nat j) x); auto. lia.
    - apply Forall_skipn_nth. intros j x Hj Ex. rewrite <- nth_Z_of_nat in Ex.
      assert (k <= x) by (apply (B (Z.of_nat j) x); auto; lia).
      assert (x <> k) by (intros ->; apply Hnin; eapply nth_Z_In; eauto).
      lia. }
  assert (Hat : exists ks', insert_at ks it k = Some ks').
  { unfold insert_at. destruct (Z.leb_spec 0 it); [|lia].
    destruct (Z.leb_spec it (size ks)); [|lia]. simpl. eauto. }
  destruct Hat as [ks' Hat].
  destruct (Z.eqb_spec it (size ks)) as [Hend|Hin].
  - cbn [bind]. rewrite Hat. cbn [bind].
    assert (Hnin : ~ In k ks).
    { intros Hin. destruct (In_nth_Z _ _ Hin) as [j Hj].
      pose proof (nth_Z_some_range _ _ _ Hj).
      assert (k < k) by (apply (A j k); auto; lia). lia. }
    exists true, (FitingTree.mkBuffer ks' (FitingTree.max_size b)).
    cbn [FitingTree.keys FitingTree.max_size].
    repeat split; auto; try discriminate.
    intros _. eapply insert_at_perm; eauto.
  - destruct (nth_Z_in_range ks it) as [x Hx]; [lia|].
    rewrite Hx. cbn [bind].
    destruct (Z.eqb_spec x k) as [->|Hne].
    + exists false, b. repeat split; auto; try discriminate.
      intros [_ Hnin]. exfalso. apply Hnin. eapply nth_Z_In; eauto.
    + rewrite Hat. cbn [bind].
      exists true, (FitingTree.mkBuffer ks' (FitingTree.max_size b)).
      cbn [FitingTree.keys FitingTree.max_size].
      pose proof (Hdup x Hx Hne).
      repeat split; auto; try discriminate.
      intros _. eapply insert_at_perm; eauto.
Qed.

Lemma buffer_insert_spec_witness :
  exists ok b',
    FitingTree.buffer_insert (FitingTree.mkBuffer [1; 5; 9] 64) 7 = Some (ok, b')
    /\ FitingTree.max_size b' = 64
    /\ sorted_unique (FitingTree.keys b')
    /\ (ok = true <-> size [1; 5; 9] < u64 64 /\ ~ In 7 [1; 5; 9])
    /\ (ok = true -> Permutation (7 :: [1; 5; 9]) (FitingTree.keys b'))
    /\ (ok = false -> b' = FitingTree.mkBuffer [1; 5; 9] 64).
Proof.
  apply (buffer_insert_spec (FitingTree.mkBuffer [1; 5; 9] 64) 7).
  apply ascends_sorted_unique. reflexivity.
Defined.

(** *** The segments of buildSegments *)

Ltac bind_inv H :=
  match type of H with
  | bind ?e _ = Some _ =>
      let E := fresh "E" in
      destruct e eqn:E; [cbn [bind] in H|discriminate H]
  end.

Lemma extend_end (d : list Z) (n eps start : Z) :
  forall (fuel : nat) (st st' : FitingTree.fit),
    FitingTree.extend fuel d n eps start st = Some st' ->
    FitingTree.end_idx st <= n ->
    FitingTree.end_idx st <= FitingTree.end_idx st' <= n.
Proof.
  induction fuel as [|f IH]; intros st st' E Hn.
  - cbn [FitingTree.extend] in E. injection E as <-. lia.
  - cbn [FitingTree.extend] in E.
    destruct (Z.ltb_spec (FitingTree.end_idx st) n) as [Hlt|Hge].
    + bind_inv E. bind_inv E. cbv zeta in E.
      match type of E with
      | context [if Double.gtb ?a Double.tiny then _ else _] =>
          destruct (Double.gtb a Double.tiny)
      end; bind_inv E;
      match type of E with
      | context [if Double.gtb ?a ?b then _ else _] => destruct (Double.gtb a b)
      end;
      try (injection E as <-; cbn [FitingTree.end_idx]; lia);
      apply IH in E; cbn [FitingTree.end_idx] in *; lia.
    + injection E as <-. lia.
Qed.

Lemma tiles_cons_iff (d : list Z) (from n : Z) (s : FitingTree.Segment)
    (r : list FitingTree.Segment) :
  tiles d from n (s :: r) = true
  <-> FitingTree.start_position s = from
      /\ from <= FitingTree.end_position s < n
      /\ nth_Z d from = Some (FitingTree.start_key s)
      /\ tiles d (FitingTree.end_position s + 1) n r = true.
Proof.
  cbn [tiles]. rewrite !andb_true_iff, Z.eqb_eq, Z.leb_le, Z.ltb_lt.
  destruct (nth_Z d from) as [x|].
  - rewrite Z.eqb_eq. split.
    + intros [[[[A B] C] D] E]. subst. auto.
    + intros [A [[B C] [D E]]]. inversion D. auto.
  - split.
    + intros [[_ D] _]. discriminate.
    + intros [_ [_ [D _]]]. discriminate.
Qed.

Lemma tiles_le (d : list Z) (n : Z) (segs : list FitingTree.Segment) :
  forall from, tiles d from n segs = true -> from <= n.
Proof.
  induction segs as [|s r IH]; intros from H.
  - simpl in H. apply Z.eqb_eq in H. lia.
  - apply tiles_cons_iff in H. destruct H as [A [B [C D]]]. apply IH in D. lia.
Qed.

Lemma tiles_snoc (d : list Z) (n : Z) (s : FitingTree.Segment)
    (a : list FitingTree.Segment) :
  forall from,
    tiles d from (FitingTree.start_position s) a = true ->
    FitingTree.start_position s <= FitingTree.end_position s < n ->
    nth_Z d (FitingTree.start_position s) = Some (FitingTree.start_key s) ->
    tiles d from (FitingTree.end_position s + 1) (a ++ [s]) = true.
Proof.
  induction a as [|s' a IH]; intros from Ha Hs Hk.
  - simpl in Ha. apply Z.eqb_eq in Ha. subst from.
    apply tiles_cons_iff. repeat split; auto; try lia. simpl. apply Z.eqb_refl.
  - apply tiles_cons_iff in Ha. destruct Ha as [A [B [C D]]].
    cbn [app]. apply tiles_cons_iff. repeat split; auto; try lia.
Qed.

Lemma segment_loop_tiles (d : list Z) (n eps : Z) :
  forall (fuel : nat) (start : Z) (acc segs : list FitingTree.Segment),
    0 <= start <= n -> n <= int_max -> n - start <= Z.of_nat fuel ->
    FitingTree.segment_loop fuel d n eps start acc = Some segs ->
    exists new, segs = acc ++ new /\ tiles d start n new = true.
Proof.
  induction fuel as [|f IH]; intros start acc segs Hs Hn Hf E.
  - cbn [FitingTree.segment_loop] in E. injection E as <-.
    exists []. rewrite app_nil_r. split; auto.
    cbn [tiles]. apply Z.eqb_eq. lia.
  - cbn [FitingTree.segment_loop] in E.
    destruct (Z.ltb_spec start n) as [Hlt|Hge].
    + rewrite (int_of_fits start) in E by (unfold int_min; lia).
      bind_inv E. cbv zeta in E. bind_inv E.
      match goal with Hx : nth_Z d start = Some ?x0,
                      Hext : FitingTree.extend _ _ _ _ _ _ = Some ?st0 |- _ =>
        rename x0 into x; rename st0 into st;
        apply extend_end in Hext; [|cbn [FitingTree.end_idx]; lia];
        cbn [FitingTree.end_idx] in Hext
      end.
      match type of E with
      | context [if ?c then ?a else st] => set (st' := if c then a else st) in E
      end.
      assert (Hend : start + 1 <= FitingTree.end_idx st' <= n).
      { subst st'.
        match goal with |- context [if ?c then _ else _] => destruct c end;
          cbn [FitingTree.end_idx]; lia. }
      bind_inv E.
      rewrite (int_of_fits (FitingTree.end_idx st' - 1)) in E
        by (unfold int_min; lia).
      apply IH in E; try lia.
      destruct E as [new [-> Ht]].
      eexists. rewrite <- app_assoc. split; [reflexivity|].
      cbn [app]. apply tiles_cons_iff.
      cbn [FitingTree.start_position FitingTree.end_position FitingTree.start_key].
      replace (FitingTree.end_idx st' - 1 + 1) with (FitingTree.end_idx st') by lia.
      repeat split; auto; lia.
    + injection E as <-. exists []. rewrite app_nil_r. split; auto.
      cbn [tiles]. apply Z.eqb_eq. lia.
Qed.

Lemma tiles_spans (d : list Z) (n : Z) (segs : list FitingTree.Segment) :
  forall from, tiles d from n segs = true -> spans_ok segs = true.
Proof.
  induction segs as [|s r IH]; intros from H; [reflexivity|].
  apply tiles_cons_iff in H. destruct H as [A [B [C D]]].
  cbn [spans_ok forallb]. apply andb_true_iff. split; [|exact (IH _ D)].
  apply Z.leb_le. lia.
Qed.

(** X16. FITing-Tree buildSegments on data of at most INT_MAX keys (so that the int
    fields start_position and end_position hold the positions unchanged):
    whenever it completes, the segments it leaves cover the positions 0 ..
    |data|-1 one after the other without gap or overlap (each starts where the
    one before ended plus one, the last ends at |data|-1), start_key of each
    segment is the key at its start_position, no segment ends before it
    starts, and non-empty data gives at least one segment. *)
Theorem buildSegments_tiles (ft ft' : FitingTree.FitingTree) :
  size (FitingTree.data ft) <= int_max ->
  FitingTree.buildSegments ft = Some ft' ->
  tiles (FitingTree.data ft') 0 (size (FitingTree.data ft')) (FitingTree.segments ft')
  = true
  /\ (FitingTree.data ft' <> [] -> FitingTree.segments ft' <> [])
  /\ spans_ok (FitingTree.segments ft') = true.
Proof.
  intros Hsz Hb. pose proof (buildSegments_data _ _ Hb) as Hd.
  assert (Ht : tiles (FitingTree.data ft') 0 (size (FitingTree.data ft'))
                 (FitingTree.segments ft') = true).
  { unfold FitingTree.buildSegments in Hb. rewrite Hd.
    destruct (FitingTree.data ft) as [|d0 dr] eqn:Hdata.
    - inversion Hb; subst. reflexivity.
    - rewrite <- Hdata in *.
      destruct (FitingTree.segment_loop _ _ _ _ _ _) as [segs|] eqn:Hl; [|discriminate].
      cbn [bind] in Hb.
      destruct (FitingTree.index_segments _ _ _) as [t|]; [|discriminate].
      cbn [bind] in Hb. inversion Hb; subst. cbn [FitingTree.segments].
      apply segment_loop_tiles in Hl; unfold size in *; try lia.
      destruct Hl as [new [-> Ht]]. exact Ht. }
  split; [exact Ht|]. split; [|eapply tiles_spans; eauto].
  intros Hne Hnil. rewrite Hnil in Ht. cbn [tiles] in Ht. apply Z.eqb_eq in Ht.
  destruct (FitingTree.data ft'); [contradiction|]. unfold size in Ht. simpl in Ht. lia.
Qed.

Lemma buildSegments_tiles_witness :
  exists ft',
    FitingTree.buildSegments
      (FitingTree.mkTree 1 [] BTree.empty [0; 1; 2; 3; 1000] []) = Some ft'
    /\ tiles (FitingTree.data ft') 0 (size (FitingTree.data ft'))
         (FitingTree.segments ft') = true
    /\ (FitingTree.data ft' <> [] -> FitingTree.segments ft' <> [])
    /\ spans_ok (FitingTree.segments ft') = true.
Proof.
  destruct (FitingTree.buildSegments
              (FitingTree.mkTree 1 [] BTree.empty [0; 1; 2; 3; 1000] []))
    as [ft'|] eqn:E; [|vm_compute in E; discriminate].
  exists ft'. split; [reflexivity|].
  apply (buildSegments_tiles
           (FitingTree.mkTree 1 [] BTree.empty [0; 1; 2; 3; 1000] []) ft');
    [vm_compute; discriminate|exact E].
Defined.

Lemma fiting_lookup_within_window_witness :
  exists q, FitingTree.lookup (fiting_of 32 [0; 1; 2; 3; 4]) 3 = Some q /\ q <= 3
            /\ nth_Z (FitingTree.data (fiting_of 32 [0; 1; 2; 3; 4])) q = Some 3.
Proof.
  apply (fiting_lookup_within_window (fiting_of 32 [0; 1; 2; 3; 4])
           (FitingTree.mkSegment 0 (Double.of_Z 1) Double.zero 0 0 4) 3 3 0 3 3).
  - vm_compute. discriminate.
  - apply ascends_ascending. reflexivity.
  - reflexivity.
  - vm_compute. reflexivity.
  - reflexivity.
  - reflexivity.
  - lia.
Defined.

(** *** insertInPlace *)

Lemma lower_bound_loop_between {A : Type} (key_of : A -> Z) (d : list A) (k : Z) :
  forall (fuel : nat) (first len it : Z),
    lower_bound_loop key_of d fuel first len k = Some it ->
    first <= it <= Z.max first (first + len).
Proof.
  induction fuel as [|f IH]; intros first len it E.
  - injection E as <-. lia.
  - cbn [lower_bound_loop] in E.
    destruct (Z.leb_spec len 0) as [Hle|Hgt]; [injection E as <-; lia|].
    destruct (half_bounds len Hgt) as [Hh0 Hh1].
    set (half := Z.shiftr len 1) in *. cbv zeta in E. bind_inv E.
    destruct (_ <? _); apply IH in E; lia.
Qed.

(** The position at which [insertInPlace] puts a key lies between the ends
    of the window: with the positions of the segment in [int], as the code
    has them, the [int] variable [insert_pos] holds it unchanged. *)
Lemma insert_position_fits (ft : FitingTree.FitingTree) (s : FitingTree.Segment)
    (k it : Z) (w : Z * Z) :
  FitingTree.start_position s <= int_max ->
  FitingTree.window ft s k = Some w ->
  lower_bound id (FitingTree.data ft) (fst w) (snd w + 1) k = Some it ->
  int_of it = it.
Proof.
  intros Hs Hw E. unfold lower_bound in E.
  apply lower_bound_loop_between in E.
  unfold FitingTree.window in Hw.
  bind_inv Hw. bind_inv Hw. bind_inv Hw. bind_inv Hw. injection Hw as <-.
  cbn [fst snd] in E.
  repeat match goal with
         | H : int_sub _ _ = Some _ |- _ => apply int_chk_range in H
         | H : int_add _ _ = Some _ |- _ => apply int_chk_range in H
         end.
  pose proof (int_of_range (size (FitingTree.data ft))).
  apply int_of_fits. unfold int_min, int_max in *. lia.
Qed.





(** *** range_query *)

Lemma range_segments_sound (ft : FitingTree.FitingTree) (lo hi : Z) :
  ascending (FitingTree.data ft) ->
  forall (fuel : nat) (i j : Z) (out : list Z),
    FitingTree.range_segments fuel ft lo hi i j = Some out ->
    forall x, In x out -> In x (FitingTree.data ft) /\ lo <= x <= hi.
Proof.
  intros Hasc. induction fuel as [|f IH]; intros i j out E x Hx.
  - simpl in E. inversion E; subst. contradiction.
  - cbn [FitingTree.range_segments] in E.
    destruct ((i <=? j) && (i <? int_of (size (FitingTree.segments ft))));
      [|inversion E; subst; contradiction].
    destruct (nth_Z (FitingTree.segments ft) i) as [s|]; [|discriminate].
    cbn [bind] in E.
    destruct (Double.round_to_int _) as [sp|]; [|discriminate]. cbn [bind] in E.
    destruct (int_sub sp _) as [sp'|]; [|discriminate]. cbn [bind] in E.
    destruct (int_sub (int_of (size (FitingTree.segments ft))) 1) as [last_seg|];
      [|discriminate].
    cbn [bind] in E.
    destruct (match (if i <? last_seg
                     then do nxt <- nth_Z (FitingTree.segments ft) (i + 1);
                          Some (u64_sub (FitingTree.start_key nxt) 1)
                     else Some u64_max)
              with Some v => Some v | None => None end) as [next_start|] eqn:Hn.
    2:{ destruct (if i <? last_seg then _ else _); discriminate. }
    assert (Hn' : (if i <? last_seg
                     then do nxt <- nth_Z (FitingTree.segments ft) (i + 1);
                          Some (u64_sub (FitingTree.start_key nxt) 1)
                     else Some u64_max) = Some next_start).
    { destruct (if i <? last_seg then _ else _); [exact Hn|discriminate]. }
    clear Hn. rewrite Hn' in E. cbn [bind] in E.
    destruct (Double.round_to_int _) as [ep|]; [|discriminate]. cbn [bind] in E.
    destruct (int_add ep _) as [ep'|]; [|discriminate]. cbn [bind] in E.
    set (d := FitingTree.data ft) in *.
    destruct (int_sub (int_of (size d)) 1) as [top|] eqn:Htop; [|discriminate].
    cbn [bind] in E.
    pose proof (int_top_le _ _ (size_nonneg d) Htop) as Htop'.
    set (first := Z.max 0 (Z.max (FitingTree.start_position s) sp')) in *.
    set (last := Z.min top (Z.min (FitingTree.end_position s) ep')) in *.
    set (search_start := Z.max lo (FitingTree.start_key s)) in *.
    set (search_end := Z.min hi next_start) in *.
    destruct (lower_bound id d first (last + 1) search_start) as [a|] eqn:Ea;
      [|discriminate].
    cbn [bind] in E.
    destruct (upper_bound id d a (last + 1) search_end) as [b|] eqn:Eb;
      [|discriminate].
    cbn [bind] in E.
    destruct (slice d a b) as [part|] eqn:Hsl; [|discriminate]. cbn [bind] in E.
    destruct (FitingTree.range_segments f ft lo hi (i + 1) j) as [rest|] eqn:Hr;
      [|discriminate].
    cbn [bind] in E. inversion E; subst out. apply in_app_or in Hx.
    destruct Hx as [Hx|Hx]; [|eapply IH; eauto].
    destruct (slice_elements _ _ _ _ _ Hsl Hx) as [p [Hp Ep]].
    split; [eapply nth_Z_In; eauto|].
    destruct (Z.le_gt_cases first (last + 1)) as [Hv|Hinv].
    + destruct (lower_bound_range d search_start first (last + 1) Hasc)
        as [a' [Ea' [Ra [_ Ba]]]]; try lia.
      rewrite Ea in Ea'. inversion Ea'; subst a'.
      destruct (upper_bound_range d search_end a (last + 1) Hasc)
        as [b' [Eb' [Rb [Ab _]]]]; try lia.
      rewrite Eb in Eb'. inversion Eb'; subst b'.
      assert (search_start <= x) by (apply (Ba p x); auto; lia).
      assert (x <= search_end) by (apply (Ab p x); auto; lia).
      lia.
    + rewrite lower_bound_inverted in Ea by lia. inversion Ea; subst a.
      rewrite upper_bound_inverted in Eb by lia. inversion Eb; subst b. lia.
Qed.

(** X18. FITing-Tree over ascending data: every key that range_query(lo, hi)
    returns is a stored key x with lo <= x <= hi. *)
Theorem fiting_range_query_sound (ft : FitingTree.FitingTree) (lo hi : Z)
    (out : list Z) :
  ascending (FitingTree.data ft) ->
  FitingTree.range_query ft lo hi = Some out ->
  forall x, In x out -> In x (FitingTree.data ft) /\ lo <= x <= hi.
Proof.
  intros Hasc. unfold FitingTree.range_query.
  destruct (FitingTree.no_data ft || (hi <? lo)).
  - intros E; inversion E; subst. intros x [].
  - destruct (FitingTree.findSegmentIndex ft lo) as [i|]; [|discriminate].
    destruct (FitingTree.findSegmentIndex ft hi) as [j|]; [|discriminate].
    cbn [bind]. apply range_segments_sound. exact Hasc.
Qed.

Lemma fiting_range_query_sound_witness :
  In 2 (FitingTree.data (fiting_of 32 [0; 1; 2; 3; 4])) /\ 2 <= 2 <= 3.
Proof.
  apply (fiting_range_query_sound (fiting_of 32 [0; 1; 2; 3; 4]) 2 3 [2; 3]).
  - apply ascends_ascending. reflexivity.
  - reflexivity.
  - now left.
Defined.

Lemma lower_bound_one (d : list Z) (b e k x : Z) :
  e = b + 1 -> nth_Z d b = Some x ->
  lower_bound id d b e k = Some (if x <? k then b + 1 else b).
Proof.
  intros -> Hx. unfold lower_bound.
  replace (b + 1 - b) with 1 by lia.
  change (Z.to_nat 1) with 1%nat. cbn [lower_bound_loop].
  change (1 <=? 0) with false. cbv iota. change (Z.shiftr 1 1) with 0.
  rewrite Z.add_0_r, Hx. cbn [bind]. unfold id at 1.
  destruct (x <? k); reflexivity.
Qed.

Lemma nth_Z_first (ks : list Z) : ks <> [] -> nth_Z ks 0 = Some (hd 0 ks).
Proof. destruct ks; [contradiction|reflexivity]. Qed.

Lemma nth_error_last (ks : list Z) :
  ks <> [] -> nth_error ks (length ks - 1) = Some (last ks 0).
Proof.
  induction ks as [|a ks IH]; [contradiction|]. intros _.
  destruct ks as [|b ks]; [reflexivity|].
  change (last (a :: b :: ks) 0) with (last (b :: ks) 0).
  rewrite <- IH by discriminate. simpl. now rewrite Nat.sub_0_r.
Qed.

Lemma nth_Z_last (ks : list Z) :
  ks <> [] -> nth_Z ks (size ks - 1) = Some (last ks 0).
Proof.
  intros H. unfold size.
  assert (0 < length ks)%nat by (destruct ks; [contradiction|simpl; lia]).
  replace (Z.of_nat (length ks) - 1) with (Z.of_nat (length ks - 1)) by lia.
  rewrite nth_Z_of_nat. now apply nth_error_last.
Qed.

Lemma radix_build_fields (rs rs' : RadixSpline.RadixSpline) (ks : list Z) (bits : Z) :
  RadixSpline.build rs ks bits = Some rs' ->
  RadixSpline.data rs' = ks
  /\ RadixSpline.min_key_ rs' = hd 0 ks
  /\ RadixSpline.max_key_ rs' = last ks 0
  /\ RadixSpline.num_keys_ rs' = size ks.
Proof.
  unfold RadixSpline.build.
  destruct ((bits <? 0) || (64 <=? bits)); [discriminate|].
  destruct (RadixSpline.fill_table _ _ _ _ _ _ _) as [t|]; [|discriminate].
  cbn [bind]. intros E; inversion E; subst. auto.
Qed.

(** X21. RadixSpline after build on a non-empty key list (of at most 2^64 keys):
    lookup of a key below the first key returns -1, lookup of the first key
    returns 0, lookup of a key above the last key returns -1, and lookup of
    the last key (when it is above the first) returns |D|-1 converted to int,
    the result type of lookup: get_search_bound answers these four cases
    before it consults the radix table. *)
Theorem radix_lookup_at_the_ends (rs rs' : RadixSpline.RadixSpline)
    (ks : list Z) (bits k : Z) :
  RadixSpline.build rs ks bits = Some rs' -> ks <> [] -> size ks <= uint64_mod ->
  (k < hd 0 ks -> RadixSpline.lookup rs' k = Some (-1))
  /\ (k = hd 0 ks -> RadixSpline.lookup rs' k = Some 0)
  /\ (hd 0 ks < k -> last ks 0 < k -> RadixSpline.lookup rs' k = Some (-1))
  /\ (hd 0 ks < k -> k = last ks 0 ->
      RadixSpline.lookup rs' k = Some (int_of (size ks - 1))).
Proof.
  intros Hb Hne Hsz.
  destruct (radix_build_fields _ _ _ _ Hb) as [Hd [Hmin [Hmax Hn]]].
  assert (Hpos : 0 < size ks) by (destruct ks; [contradiction|unfold size; simpl; lia]).
  assert (Hlow : k <= hd 0 ks ->
            RadixSpline.lookup rs' k = Some (if hd 0 ks =? k then 0 else -1)).
  { intros Hk. unfold RadixSpline.lookup, RadixSpline.get_search_bound.
    rewrite Hd, Hmin. destruct ks as [|k0 kr] eqn:Hks; [contradiction|].
    rewrite <- Hks in *. cbn [orb].
    destruct (Z.leb_spec k (hd 0 ks)); [|lia]. cbn [bind RadixSpline.begin_ RadixSpline.end_].
    cbv zeta. rewrite (Z.min_l 0) by lia. rewrite (Z.min_l 1) by lia.
    change (1 <=? 0) with false. destruct (Z.leb_spec (size ks) 0); [lia|]. cbn [orb].
    rewrite (lower_bound_one ks 0 1 k (hd 0 ks)) by (auto using nth_Z_first).
    destruct (Z.ltb_spec (hd 0 ks) k); [lia|]. cbn [bind].
    unfold found_at. destruct (Z.eqb_spec 0 (size ks)); [lia|].
    rewrite nth_Z_first by assumption. reflexivity. }
  assert (Hhigh : hd 0 ks < k -> last ks 0 <= k ->
            RadixSpline.lookup rs' k
            = Some (if last ks 0 =? k then int_of (size ks - 1) else -1)).
  { intros Hk1 Hk2. unfold RadixSpline.lookup, RadixSpline.get_search_bound.
    rewrite Hd, Hmin, Hmax, Hn. destruct ks as [|k0 kr] eqn:Hks; [contradiction|].
    rewrite <- Hks in *. cbn [orb].
    destruct (Z.leb_spec k (hd 0 ks)); [lia|].
    destruct (Z.leb_spec (last ks 0) k); [|lia].
    cbn [bind RadixSpline.begin_ RadixSpline.end_].
    assert (Hu : u64_sub (size ks) 1 = size ks - 1).
    { unfold u64_sub, u64. apply Z.mod_small. lia. }
    rewrite Hu. cbv zeta. rewrite (Z.min_l (size ks - 1)) by lia.
    rewrite (Z.min_l (size ks)) by lia.
    destruct (Z.leb_spec (size ks) (size ks - 1)); [lia|]. cbn [orb].
    rewrite (lower_bound_one ks (size ks - 1) (size ks) k (last ks 0))
      by (auto using nth_Z_last; lia).
    destruct (Z.ltb_spec (last ks 0) k) as [Hlt|Hge].
    - cbn [bind]. unfold found_at.
      replace (size ks - 1 + 1) with (size ks) by lia. rewrite Z.eqb_refl.
      destruct (Z.eqb_spec (last ks 0) k); [lia|reflexivity].
    - cbn [bind]. unfold found_at.
      destruct (Z.eqb_spec (size ks - 1) (size ks)); [lia|].
      rewrite nth_Z_last by assumption. reflexivity. }
  repeat split.
  - intros Hk. rewrite Hlow by lia. destruct (Z.eqb_spec (hd 0 ks) k); [lia|reflexivity].
  - intros ->. rewrite Hlow by lia. now rewrite Z.eqb_refl.
  - intros H1 H2. rewrite Hhigh by lia.
    destruct (Z.eqb_spec (last ks 0) k); [lia|reflexivity].
  - intros H1 ->. rewrite Hhigh by lia. now rewrite Z.eqb_refl.
Qed.

Lemma radix_lookup_at_the_ends_witness :
  RadixSpline.lookup (spline_of [10; 20; 30] 4) 10 = Some 0
  /\ RadixSpline.lookup (spline_of [10; 20; 30] 4) 30
     = Some (int_of (size [10; 20; 30] - 1))
  /\ RadixSpline.lookup (spline_of [10; 20; 30] 4) 5 = Some (-1)
  /\ RadixSpline.lookup (spline_of [10; 20; 30] 4) 31 = Some (-1).
Proof.
  assert (Hb : RadixSpline.build RadixSpline.init [10; 20; 30] 4
               = Some (spline_of [10; 20; 30] 4)) by (vm_compute; reflexivity).
  assert (Hne : [10; 20; 30] <> []) by discriminate.
  assert (Hsz : size [10; 20; 30] <= uint64_mod) by (vm_compute; discriminate).
  split; [|split; [|split]].
  - destruct (radix_lookup_at_the_ends _ _ _ _ 10 Hb Hne Hsz) as [_ [H _]].
    apply H. reflexivity.
  - destruct (radix_lookup_at_the_ends _ _ _ _ 30 Hb Hne Hsz) as [_ [_ [_ H]]].
    apply H; [cbn [hd]; lia|reflexivity].
  - destruct (radix_lookup_at_the_ends _ _ _ _ 5 Hb Hne Hsz) as [H _].
    apply H. cbn [hd]; lia.
  - destruct (radix_lookup_at_the_ends _ _ _ _ 31 Hb Hne Hsz) as [_ [_ [H _]]].
    apply H; [cbn [hd]; lia|cbn [last]; lia].
Defined.

Lemma to_u64_nonneg (x : double) (z : Z) : Double.to_u64 x = Some z -> 0 <= z.
Proof.
  unfold Double.to_u64. destruct (Double.trunc x) as [t|]; [|discriminate].
  cbn [bind]. destruct (Z.leb_spec 0 t); [|discriminate].
  destruct (t <=? u64_max); [|discriminate]. simpl. intros E; inversion E; subst. lia.
Qed.

Lemma u64_nonneg (z : Z) : 0 <= u64 z.
Proof. unfold u64. apply Z.mod_pos_bound. reflexivity. Qed.

Lemma get_search_bound_begin (rs : RadixSpline.RadixSpline) (k : Z)
    (bd : RadixSpline.SearchBound) :
  RadixSpline.get_search_bound rs k = Some bd -> 0 <= RadixSpline.begin_ bd.
Proof.
  unfold RadixSpline.get_search_bound.
  destruct (_ || _); [intros E; inversion E; subst; simpl; lia|].
  destruct (_ <=? _); [intros E; inversion E; subst; apply u64_nonneg|].
  destruct (_ <=? _); [intros E; inversion E; subst; simpl; lia|].
  intros H. cbv zeta in H. do 7 bind_inv H.
  match goal with Hb : Double.to_u64 _ = Some _ |- _ =>
    apply to_u64_nonneg in Hb
  end.
  bind_inv H. inversion H; subst. cbn [RadixSpline.begin_]. assumption.
Qed.

(** X22. RadixSpline over ascending data of at most INT_MAX keys: if
    get_search_bound(k) returns [b, e) and k is stored at a position p with b
    <= p < e, then lookup(k) returns a position q <= p that holds k. *)
Theorem radix_lookup_within_bound (rs : RadixSpline.RadixSpline) (k p b e : Z) :
  size (RadixSpline.data rs) <= int_max ->
  ascending (RadixSpline.data rs) ->
  RadixSpline.get_search_bound rs k = Some (RadixSpline.mkBound b e) ->
  nth_Z (RadixSpline.data rs) p = Some k ->
  b <= p < e ->
  exists q, RadixSpline.lookup rs k = Some q /\ q <= p
            /\ nth_Z (RadixSpline.data rs) q = Some k.
Proof.
  intros Hsz Hasc Hb Hk Hp.
  pose proof (get_search_bound_begin _ _ _ Hb) as Hb0. cbn in Hb0.
  pose proof (nth_Z_some_range _ _ _ Hk) as Hr.
  unfold RadixSpline.lookup. rewrite Hb.
  destruct (RadixSpline.data rs) as [|d0 dr] eqn:Hd; [unfold size in Hr; simpl in Hr; lia|].
  rewrite <- Hd in *. cbn [bind RadixSpline.begin_ RadixSpline.end_]. cbv zeta.
  set (d := RadixSpline.data rs) in *.
  destruct (Z.leb_spec (Z.min e (size d)) (Z.min b (size d))); [lia|].
  destruct (Z.leb_spec (size d) (Z.min b (size d))); [lia|]. cbn [orb].
  destruct (windowed_search_finds d k p (Z.min b (size d)) (Z.min e (size d)))
    as [it [E [R [Hx F]]]]; auto; try lia.
  rewrite E. cbn [bind]. exists it.
  rewrite F, int_of_fits by (unfold int_min; lia).
  repeat split; auto; lia.
Qed.

Lemma radix_lookup_within_bound_witness :
  exists q, RadixSpline.lookup (spline_of [10; 20; 30] 4) 20 = Some q /\ q <= 1
            /\ nth_Z (RadixSpline.data (spline_of [10; 20; 30] 4)) q = Some 20.
Proof.
  apply (radix_lookup_within_bound (spline_of [10; 20; 30] 4) 20 1 0 3).
  - vm_compute. discriminate.
  - apply ascends_ascending. reflexivity.
  - vm_compute. reflexivity.
  - reflexivity.
  - lia.
Defined.

Lemma take_upto_in (hi : Z) (l : list Z) (x : Z) :
  In x (RadixSpline.take_upto hi l) -> In x l /\ x <= hi.
Proof.
  induction l as [|a l IH]; simpl; [contradiction|].
  destruct (Z.leb_spec a hi) as [Hle|Hgt]; [|contradiction].
  intros [->|Hin]; [auto|]. destruct (IH Hin). auto.
Qed.

(** X23. RadixSpline over ascending data: every key that range_query(lo, hi)
    returns is a stored key x with lo <= x <= hi. *)
Theorem radix_range_query_sound (rs : RadixSpline.RadixSpline) (lo hi : Z)
    (out : list Z) :
  ascending (RadixSpline.data rs) ->
  RadixSpline.range_query rs lo hi = Some out ->
  forall x, In x out -> In x (RadixSpline.data rs) /\ lo <= x <= hi.
Proof.
  intros Hasc. unfold RadixSpline.range_query.
  destruct (_ || _); [intros E; inversion E; subst; intros x []|].
  destruct (RadixSpline.get_search_bound rs lo) as [sb|] eqn:Hs; [|discriminate].
  destruct (RadixSpline.get_search_bound rs hi) as [eb|]; [|discriminate].
  cbn [bind]. cbv zeta. set (d := RadixSpline.data rs) in *.
  pose proof (get_search_bound_begin _ _ _ Hs) as Hb0.
  set (b := RadixSpline.begin_ sb) in *.
  set (e := Z.min (RadixSpline.end_ eb) (size d)).
  destruct (Z.leb_spec e b); [intros E; inversion E; subst; intros x []|].
  destruct (Z.leb_spec (size d) b); [intros E; inversion E; subst; intros x []|].
  cbn [orb].
  destruct (lower_bound_range d lo b e Hasc) as [it [E [R [_ B]]]]; try lia.
  rewrite E. cbn [bind].
  destruct (slice d it e) as [rest|] eqn:Hsl; [|discriminate]. cbn [bind].
  intros Eo; inversion Eo; subst out. intros x Hx.
  apply take_upto_in in Hx. destruct Hx as [Hx Hhi].
  destruct (slice_elements _ _ _ _ _ Hsl Hx) as [j [Hj Ej]].
  split; [eapply nth_Z_In; eauto|]. split; [|exact Hhi].
  apply (B j x); auto.
Qed.

Lemma radix_range_query_sound_witness :
  In 20 (RadixSpline.data (spline_of [10; 20; 30] 4)) /\ 15 <= 20 <= 30.
Proof.
  apply (radix_range_query_sound (spline_of [10; 20; 30] 4) 15 30 [20; 30]).
  - apply ascends_ascending. reflexivity.
  - vm_compute. reflexivity.
  - now left.
Defined.

(** *** The spline and the radix table of build *)

Lemma spline_loop_ascending (d : list Z) :
  forall (i : Z) (p : RadixSpline.SplinePoint) (rp : list RadixSpline.SplinePoint),
    sorted_unique (RadixSpline.x p :: d) ->
    RadixSpline.spline_loop d i (p :: rp) = rev (points_from i d) ++ p :: rp.
Proof.
  induction d as [|k d IH]; intros i p rp Hs; [reflexivity|].
  cbn [RadixSpline.spline_loop points_from rev].
  inversion Hs as [|a l Hs' Hf]; subst. inversion Hf as [|a l Hlt Hf']; subst.
  destruct (Z.eqb_spec k (RadixSpline.x p)) as [|_]; [lia|]. cbn [negb].
  rewrite IH by exact Hs'. now rewrite <- app_assoc.
Qed.

Lemma last_cons_default (a : Z) (l : list Z) (dflt : Z) :
  last (a :: l) dflt = last l a.
Proof.
  revert a dflt. induction l as [|b l IH]; intros a dflt; [reflexivity|].
  change (last (a :: b :: l) dflt) with (last (b :: l) dflt).
  rewrite IH. symmetry. apply IH.
Qed.

Lemma points_from_last (ks : list Z) :
  forall (i : Z) (p : RadixSpline.SplinePoint),
    RadixSpline.x (hd p (rev (points_from i ks) ++ [p])) = last ks (RadixSpline.x p).
Proof.
  induction ks as [|k ks IH]; intros i p; [reflexivity|].
  cbn [points_from rev]. rewrite <- app_assoc. cbn [app].
  destruct ks as [|k' ks']; [reflexivity|].
  specialize (IH (i + 1) (RadixSpline.mkPoint k (Double.of_Z i))).
  cbn [RadixSpline.x] in IH.
  change (last (k :: k' :: ks') (RadixSpline.x p)) with (last (k' :: ks') (RadixSpline.x p)).
  rewrite last_cons_default. rewrite last_cons_default in IH. rewrite <- IH.
  clear IH. set (l := rev (points_from (i + 1) (k' :: ks'))).
  assert (Hl : l <> []).
  { subst l. cbn [points_from rev]. intros H. apply app_eq_nil in H.
    destruct H; discriminate. }
  destruct l; [contradiction|reflexivity].
Qed.

(** X24. RadixSpline build on a non-empty, strictly ascending key list: the spline
    gets one point per key, (key, position), in order; no key is left out of
    the spline, which therefore is as long as the data. *)
Theorem radix_spline_one_point_per_key (rs rs' : RadixSpline.RadixSpline)
    (ks : list Z) (bits : Z) :
  RadixSpline.build rs ks bits = Some rs' -> sorted_unique ks -> ks <> [] ->
  RadixSpline.spline_points_ rs' = points_from 0 ks
  /\ size (RadixSpline.spline_points_ rs') = size ks.
Proof.
  intros Hb Hs Hne.
  assert (Hp : RadixSpline.spline_points_ rs' = points_from 0 ks).
  { unfold RadixSpline.build in Hb.
    destruct ((bits <? 0) || (64 <=? bits)); [discriminate|].
    destruct (RadixSpline.fill_table _ _ _ _ _ _ _) as [t|]; [|discriminate].
    cbn [bind] in Hb. inversion Hb; subst; clear Hb. cbn [RadixSpline.spline_points_].
    destruct ks as [|k0 kr]; [contradiction|]. cbn [hd tl].
    rewrite spline_loop_ascending by exact Hs.
    pose proof (points_from_last kr 1 (RadixSpline.mkPoint k0 Double.zero)) as Hl.
    cbn [RadixSpline.x] in Hl.
    destruct (rev (points_from 1 kr) ++ [RadixSpline.mkPoint k0 Double.zero])
      as [|p0 pr] eqn:Hr.
    { apply app_eq_nil in Hr. destruct Hr; discriminate. }
    cbn [hd] in Hl. rewrite last_cons_default.
    destruct (Z.eqb_spec (RadixSpline.x p0) (last kr k0)); [|contradiction].
    rewrite <- Hr, rev_app_distr, rev_involutive. reflexivity. }
  split; [exact Hp|]. rewrite Hp. unfold size. f_equal.
  generalize 0. clear. induction ks as [|k ks IH]; intros i; simpl; auto.
Qed.

Lemma radix_spline_one_point_per_key_witness :
  RadixSpline.spline_points_ (spline_of [10; 20; 30] 4) = points_from 0 [10; 20; 30]
  /\ size (RadixSpline.spline_points_ (spline_of [10; 20; 30] 4)) = size [10; 20; 30].
Proof.
  apply (radix_spline_one_point_per_key RadixSpline.init _ [10; 20; 30] 4).
  - vm_compute. reflexivity.
  - apply ascends_sorted_unique. reflexivity.
  - discriminate.
Defined.

Lemma advance_bounds (points : list RadixSpline.SplinePoint) (boundary : Z) :
  forall (fuel : nat) (cur : Z),
    cur <= RadixSpline.advance fuel points cur boundary
    /\ RadixSpline.advance fuel points cur boundary <= Z.max cur (size points - 1).
Proof.
  induction fuel as [|f IH]; intros cur; simpl; [lia|].
  destruct (nth_Z points (cur + 1)) as [p|] eqn:Hp; [|lia].
  apply nth_Z_some_range in Hp.
  destruct (RadixSpline.x p <=? boundary); [|lia].
  specialize (IH (cur + 1)). lia.
Qed.

Lemma fill_table_shape (points : list RadixSpline.SplinePoint)
    (min_key max_key buckets : Z) :
  forall (n : nat) (i cur : Z) (t : list Z),
    RadixSpline.fill_table n points min_key max_key buckets i cur = Some t ->
    length t = n
    /\ StronglySorted Z.le (cur :: t)
    /\ Forall (fun v => v <= Z.max cur (size points - 1)) t.
Proof.
  induction n as [|n IH]; intros i cur t H.
  - simpl in H. inversion H; subst. repeat split; repeat constructor.
  - cbn [RadixSpline.fill_table] in H. cbv zeta in H.
    bind_inv H. bind_inv H. inversion H; subst; clear H.
    match goal with E : RadixSpline.fill_table _ _ _ _ _ _ ?c = Some ?l |- _ =>
      destruct (IH _ _ _ E) as [Hl [Hs Hf]];
      pose proof (advance_bounds points (u64_add min_key z) (length points) cur) as Ha
    end.
    split; [simpl; now rewrite Hl|]. split.
    + inversion Hs as [|a l' Hs' Hf']; subst.
      constructor; [exact Hs|]. constructor; [lia|].
      eapply Forall_impl; [|exact Hf']. intros; simpl in *; lia.
    + constructor; [lia|].
      eapply Forall_impl; [|exact Hf]. intros; simpl in *; lia.
Qed.

Lemma sorted_snoc (l : list Z) (s : Z) :
  StronglySorted Z.le l -> Forall (fun v => v <= s) l -> StronglySorted Z.le (l ++ [s]).
Proof.
  induction 1 as [|a l Hs IH Hf]; intros Hb; simpl.
  - repeat constructor.
  - inversion Hb; subst. constructor; [auto|].
    apply Forall_app. split; [exact Hf|]. repeat constructor. assumption.
Qed.

Lemma spline_loop_grows (d : list Z) :
  forall (i : Z) (rp : list RadixSpline.SplinePoint),
    exists l, RadixSpline.spline_loop d i rp = l ++ rp.
Proof.
  induction d as [|k d IH]; intros i rp; [exists []; reflexivity|].
  cbn [RadixSpline.spline_loop].
  match goal with |- context [if ?c then _ else _] => destruct c end.
  - destruct (IH (i + 1) (RadixSpline.mkPoint k (Double.of_Z i) :: rp)) as [l Hl].
    rewrite Hl. exists (l ++ [RadixSpline.mkPoint k (Double.of_Z i)]).
    now rewrite <- app_assoc.
  - apply IH.
Qed.

(** X25. RadixSpline build, whenever it completes: the radix table has 2^bits + 1
    entries, the entries ascend, each is a valid position of the spline
    points, and the last entry is the position of the last spline point. *)
Theorem radix_table_shape (rs rs' : RadixSpline.RadixSpline) (ks : list Z) (bits : Z) :
  RadixSpline.build rs ks bits = Some rs' ->
  size (RadixSpline.radix_table_ rs') = 2 ^ bits + 1
  /\ StronglySorted Z.le (RadixSpline.radix_table_ rs')
  /\ Forall (fun v => 0 <= v < size (RadixSpline.spline_points_ rs'))
            (RadixSpline.radix_table_ rs')
  /\ last (RadixSpline.radix_table_ rs') 0
     = size (RadixSpline.spline_points_ rs') - 1.
Proof.
  unfold RadixSpline.build.
  destruct (Z.ltb_spec bits 0) as [|Hb0]; [discriminate|].
  destruct (Z.leb_spec 64 bits) as [|Hb1]; [discriminate|]. cbn [orb].
  set (rp0 := RadixSpline.spline_loop (tl ks) 1 [RadixSpline.mkPoint (hd 0 ks) Double.zero]).
  set (rp := match rp0 with
             | p :: _ => if RadixSpline.x p =? last ks 0 then rp0
                         else RadixSpline.mkPoint (last ks 0)
                                (Double.of_Z (u64_sub (size ks) 1)) :: rp0
             | [] => rp0
             end).
  intros H. bind_inv H. inversion H; subst; clear H.
  cbn [RadixSpline.radix_table_ RadixSpline.spline_points_].
  assert (Hne : 1 <= size (rev rp)).
  { unfold size. rewrite length_rev.
    destruct (spline_loop_grows (tl ks) 1 [RadixSpline.mkPoint (hd 0 ks) Double.zero])
      as [l0 Hl0].
    fold rp0 in Hl0. subst rp. rewrite Hl0.
    destruct (l0 ++ [RadixSpline.mkPoint (hd 0 ks) Double.zero]) as [|p r] eqn:Hr.
    - apply app_eq_nil in Hr. destruct Hr; discriminate.
    - destruct (RadixSpline.x p =? last ks 0); simpl; lia. }
  match goal with E : RadixSpline.fill_table _ _ _ _ _ _ _ = Some ?l |- _ =>
    destruct (fill_table_shape _ _ _ _ _ _ _ _ E) as [Hl [Hs Hf]]
  end.
  rewrite Z.max_r in Hf by lia.
  inversion Hs as [|a l' Hs' Hf']; subst.
  assert (Hpow : 0 < 2 ^ bits) by (apply Z.pow_pos_nonneg; lia).
  repeat split.
  - unfold size in *. rewrite length_app, Hl. simpl. lia.
  - apply sorted_snoc; assumption.
  - apply Forall_app. split.
    + rewrite Forall_forall in *. intros v Hv.
      specialize (Hf v Hv). specialize (Hf' v Hv). simpl in *. lia.
    + repeat constructor; lia.
  - apply last_last.
Qed.

Section BTreeContents.
Context {T : Type}.
Variable key_of : T -> Z.
Variable ORDER : Z.

(** *** What an insertion stores *)

Lemma shift_insert_perm (k : T) (l : list T) :
  Permutation (BTree.shift_insert key_of k l) (k :: l).
Proof.
  induction l as [|x l IH]; simpl; [reflexivity|].
  destruct (key_of k <? key_of x); [|reflexivity].
  rewrite IH. apply perm_swap.
Qed.

Lemma leaf_insert_perm (k : T) (ks : list T) :
  Permutation (BTree.leaf_insert key_of k ks) (k :: ks).
Proof.
  unfold BTree.leaf_insert.
  rewrite <- Permutation_rev, shift_insert_perm.
  constructor. symmetry. apply Permutation_rev.
Qed.

Lemma all_keys_node (l : bool) (ks : list T) (cs : list (BTree.Node T)) :
  all_keys (BTree.mkNode l ks cs) = ks ++ flat_map all_keys cs.
Proof. reflexivity. Qed.

Lemma all_keys_eta (n : BTree.Node T) :
  all_keys n = BTree.keys n ++ flat_map all_keys (BTree.children n).
Proof. destruct n; reflexivity. Qed.

Lemma flat_map_set_nth (cs : list (BTree.Node T)) (j : nat) (c c' : BTree.Node T)
    (extra : list T) :
  nth_error cs j = Some c ->
  Permutation (all_keys c') (extra ++ all_keys c) ->
  Permutation (flat_map all_keys (set_nth cs j c')) (extra ++ flat_map all_keys cs).
Proof.
  revert j. induction cs as [|d cs IH]; intros [|j] Hn Hp; simpl in *; try discriminate.
  - inversion Hn; subst. rewrite Hp. now rewrite app_assoc.
  - rewrite (IH j Hn Hp). rewrite !app_assoc.
    apply Permutation_app_tail. apply Permutation_app_comm.
Qed.

Lemma vec_read_shrink {A : Type} (ks : list A) (m : nat) :
  vec_read (vec_shrink m (vec_of ks)) m = nth_error ks m.
Proof.
  unfold vec_read, vec_shrink, vec_of. cbn [vs_live vs_slack].
  now rewrite app_nil_r, firstn_skipn.
Qed.

(** [split_child] moves keys and children between the nodes and loses none. *)
Lemma split_child_keys (parent c parent' : BTree.Node T) (i : nat) :
  nth_error (BTree.children parent) i = Some c ->
  BTree.split_child ORDER parent (Z.of_nat i) c = Some parent' ->
  Permutation (all_keys parent') (all_keys parent).
Proof.
  intros Hn. unfold BTree.split_child.
  destruct (BTree.mid ORDER <? 0); [discriminate|].
  set (m := Z.to_nat (BTree.mid ORDER)).
  intros H. bind_inv H. destruct p as [nc cc]. rewrite vec_read_shrink in H.
  bind_inv H. bind_inv H. bind_inv H. injection H as <-.
  match goal with E : nth_error (BTree.keys c) m = Some ?s |- _ =>
    rename s into sep; pose proof (nth_error_decompose _ _ _ E) as Hks
  end.
  match goal with E : insert_at (BTree.keys parent) _ _ = Some ?l |- _ =>
    apply insert_at_perm in E; rename E into Hpk
  end.
  match goal with E : insert_at (set_nth _ _ _) _ _ = Some ?l |- _ =>
    rename E into Hpc
  end.
  replace (Z.of_nat i + 1) with (Z.of_nat (S i)) in Hpc by lia.
  rewrite Nat2Z.id in Hpc.
  assert (Hlen : (i < length (BTree.children parent))%nat)
    by (apply nth_error_Some; congruence).
  rewrite insert_at_of_nat in Hpc by (rewrite set_nth_length; lia).
  rewrite (split_lists_normal _ i _ _ _ Hn) in Hpc.
  injection Hpc as <-.
  cbn [vec_shrink vec_of vs_live].
  rewrite all_keys_node, (all_keys_eta parent).
  rewrite (nth_error_decompose _ _ _ Hn) at 3.
  rewrite !flat_map_app. cbn [flat_map]. rewrite !all_keys_node.
  set (A1 := firstn m (BTree.keys c)) in *.
  set (A2 := skipn (S m) (BTree.keys c)) in *.
  set (C1 := flat_map all_keys cc). set (C2 := flat_map all_keys nc).
  set (F := flat_map all_keys (firstn i (BTree.children parent))).
  set (G := flat_map all_keys (skipn (S i) (BTree.children parent))).
  assert (Hcs : flat_map all_keys (BTree.children c) = C1 ++ C2).
  { subst C1 C2. destruct (BTree.is_leaf c).
    - match goal with E : Some _ = Some (nc, cc) |- _ => injection E as <- <- end.
      simpl. now rewrite app_nil_r.
    - destruct (size (BTree.children c) <? BTree.mid ORDER + 1); [discriminate|].
      match goal with E : Some _ = Some (nc, cc) |- _ =>
        assert (Hnc : nc = skipn (S m) (BTree.children c)) by congruence;
        assert (Hcc : cc = firstn (S m) (BTree.children c)) by congruence
      end.
      rewrite Hnc, Hcc, <- flat_map_app. now rewrite firstn_skipn. }
  assert (Hc : Permutation (sep :: (A1 ++ C1) ++ A2 ++ C2) (all_keys c)).
  { rewrite (all_keys_eta c), Hcs, Hks. rewrite <- !app_assoc. cbn [app].
    apply Permutation_cons_app. apply Permutation_app_head.
    apply Permutation_app_swap_app. }
  rewrite <- Hpk, <- Hc. cbn [app].
  rewrite (app_assoc (BTree.keys parent) F). rewrite <- (app_assoc ((A1 ++ C1))).
  rewrite <- !app_assoc. cbn [app].
  rewrite (app_assoc (BTree.keys parent) F (sep :: _)).
  apply Permutation_cons_app. rewrite <- !app_assoc. reflexivity.
Qed.


Lemma insert_non_full_keys :
  forall (f : nat) (n n' : BTree.Node T) (k : T),
    BTree.insert_non_full key_of ORDER f n k = Some n' ->
    Permutation (all_keys n') (k :: all_keys n).
Proof.
  induction f as [|f IH]; intros n n' k H; [discriminate|].
  cbn [BTree.insert_non_full] in H.
  destruct (BTree.is_leaf n).
  - injection H as <-. rewrite all_keys_node, (all_keys_eta n).
    rewrite leaf_insert_perm. reflexivity.
  - set (i := BTree.child_index key_of k (BTree.keys n)) in *.
    assert (Hi : i = Z.of_nat (Z.to_nat i)) by (unfold i, BTree.child_index; lia).
    bind_inv H.
    assert (Hsplit : forall node1 j,
              nth_Z (BTree.children node1) j = None \/ 0 <= j ->
              Permutation (all_keys node1) (all_keys n) ->
              (do cj <- nth_Z (BTree.children node1) j;
               do cj' <- BTree.insert_non_full key_of ORDER f cj k;
               Some (BTree.mkNode (BTree.is_leaf node1) (BTree.keys node1)
                       (set_nth (BTree.children node1) (Z.to_nat j) cj'))) = Some n' ->
              Permutation (all_keys n') (k :: all_keys n)).
    { intros node1 j Hj Hp H1. bind_inv H1. bind_inv H1. injection H1 as <-.
      match goal with E : BTree.insert_non_full _ _ _ _ _ = Some _ |- _ =>
        apply IH in E; rename E into Hc
      end.
      match goal with E : nth_Z _ j = Some _ |- _ => rename E into Hn end.
      assert (Hj0 : 0 <= j) by (apply nth_Z_some_range in Hn; lia).
      replace j with (Z.of_nat (Z.to_nat j)) in Hn by lia.
      rewrite nth_Z_of_nat in Hn.
      rewrite all_keys_node, <- Hp, (all_keys_eta node1).
      rewrite (flat_map_set_nth _ _ _ _ [k] Hn Hc). cbn [app].
      symmetry. apply Permutation_middle. }
    match goal with E : nth_Z (BTree.children n) i = Some ?c0 |- _ =>
      rename c0 into c; rename E into Hn
    end.
    destruct (BTree.full ORDER c).
    + bind_inv H. destruct p as [node1 j].
      match goal with E : bind _ _ = Some (node1, j) |- _ => rename E into Hst end.
      bind_inv Hst. bind_inv Hst.
      match goal with E : BTree.split_child _ _ _ _ = Some ?p |- _ =>
        rename p into node'; rename E into Hsp
      end.
      rewrite Hi in Hsp, Hn. rewrite nth_Z_of_nat in Hn.
      pose proof (split_child_keys _ _ _ _ Hn Hsp) as Hp.
      assert (Hj : node1 = node' /\ 0 <= j).
      { destruct (key_of _ <? key_of k); injection Hst as <- <-; split; auto; lia. }
      destruct Hj as [-> Hj].
      apply (Hsplit node' j); auto.
    + cbn [bind] in H. apply (Hsplit n i); auto. right. lia.
Qed.

(** [insert] stores the key once more and counts it. *)
Lemma insert_keys (t t' : BTree.BTree T) (k : T) :
  BTree.insert key_of ORDER t k = Some t' ->
  Permutation (all_keys (BTree.root t')) (k :: all_keys (BTree.root t))
  /\ BTree.size_ t' = BTree.size_ t + 1.
Proof.
  unfold BTree.insert. destruct (BTree.full ORDER (BTree.root t)).
  - intros H. bind_inv H. bind_inv H. injection H as <-.
    cbn [BTree.root BTree.size_]. split; [|reflexivity].
    match goal with E : BTree.insert_non_full _ _ _ _ _ = Some _ |- _ =>
      apply insert_non_full_keys in E; rewrite E
    end.
    constructor.
    match goal with E : BTree.split_child _ _ _ _ = Some _ |- _ =>
      change 0 with (Z.of_nat 0) in E;
      apply split_child_keys in E; [rewrite E|reflexivity]
    end.
    rewrite all_keys_node. cbn [flat_map app]. now rewrite app_nil_r.
  - intros H. bind_inv H. injection H as <-.
    cbn [BTree.root BTree.size_]. split; [|reflexivity].
    eapply insert_non_full_keys; eauto.
Qed.

Lemma insert_all_keys (ks : list T) :
  forall t t', BTree.insert_all key_of ORDER t ks = Some t' ->
    Permutation (all_keys (BTree.root t')) (ks ++ all_keys (BTree.root t))
    /\ BTree.size_ t' = BTree.size_ t + size ks.
Proof.
  induction ks as [|k ks IH]; intros t t' H.
  - injection H as <-. unfold size. simpl. split; [reflexivity|lia].
  - cbn [BTree.insert_all] in H. bind_inv H.
    match goal with E : BTree.insert _ _ _ _ = Some _ |- _ =>
      apply insert_keys in E; destruct E as [P1 S1]
    end.
    apply IH in H. destruct H as [P2 S2]. split.
    + rewrite P2, P1. cbn [app]. symmetry. apply Permutation_middle.
    + rewrite S2, S1. unfold size. simpl length. lia.
Qed.

(** X1. B-Tree: for every element type, every ORDER and every list ks, inserting
    the elements of ks one after the other into an empty BTree completes, and
    the tree then stores exactly the elements of ks, each as often as it
    occurs in ks (the keys of all nodes are a permutation of ks), and size()
    returns the length of ks. *)
Theorem btree_stores_what_was_inserted (ks : list T) :
  exists t,
    built key_of ORDER ks = Some t
    /\ Permutation (all_keys (BTree.root t)) ks
    /\ BTree.size_ t = size ks.
Proof.
  destruct (insert_all_ok key_of ORDER ks BTree.empty (empty_ordered key_of))
    as [t [Hb _]].
  exists t. split; [exact Hb|].
  destruct (insert_all_keys ks _ _ Hb) as [P S]. cbn in P, S.
  rewrite app_nil_r in P. split; [exact P|exact S].
Qed.

(** *** Search *)

Lemma search_misses_leaf (f : nat) (k : T) lo hi ks :
  sorted_in key_of lo hi ks ->
  (forall x, In x ks -> key_of x <> key_of k) ->
  BTree.search_internal key_of (S f) (BTree.mkNode true ks []) k = Some false.
Proof.
  induction 1 as [|lo hi k0 ks Ha Hb Hs IH]; intros Hno; [reflexivity|].
  rewrite search_leaf_cons.
  destruct (key_of k0 <? key_of k).
  - apply IH. intros x Hx. apply Hno. now right.
  - destruct (Z.eqb_spec (key_of k) (key_of k0)) as [Heq|]; [|reflexivity].
    exfalso. apply (Hno k0); [now left|congruence].
Qed.

Lemma search_misses_children (f : nat) (k : T) lo hi ks cs :
  ordered_children key_of lo hi ks cs ->
  (forall c, In c cs ->
     (forall x, In x (all_keys c) -> key_of x <> key_of k) ->
     BTree.search_internal key_of f c k = Some false) ->
  (forall x, In x (ks ++ flat_map all_keys cs) -> key_of x <> key_of k) ->
  BTree.search_internal key_of (S f) (BTree.mkNode false ks cs) k = Some false.
Proof.
  induction 1 as [lo hi c Hc|lo hi k0 ks c cs Ha Hb Hc Hcs IH]; intros Hrec Hno.
  - simpl. apply Hrec; [now left|].
    intros x Hx. apply Hno. simpl. now rewrite app_nil_r.
  - rewrite search_inner_cons.
    destruct (key_of k0 <? key_of k).
    + apply IH.
      * intros d Hd. apply Hrec. now right.
      * intros x Hx. apply Hno. simpl. right.
        apply in_app_or in Hx. apply in_or_app.
        destruct Hx; [now left|right]. apply in_or_app. now right.
    + destruct (Z.eqb_spec (key_of k) (key_of k0)) as [Heq|].
      * exfalso. apply (Hno k0); [now left|congruence].
      * apply Hrec; [now left|].
        intros x Hx. apply Hno. simpl. right. apply in_or_app. right.
        apply in_or_app. now left.
Qed.

Lemma search_misses :
  forall (f : nat) (n : BTree.Node T) lo hi (k : T),
    (BTree.height n <= f)%nat -> ordered key_of lo hi n ->
    (forall x, In x (all_keys n) -> key_of x <> key_of k) ->
    BTree.search_internal key_of f n k = Some false.
Proof.
  induction f as [|f IH]; intros n lo hi k Hh Ho Hno.
  - destruct n; simpl in Hh; lia.
  - inversion Ho as [lo0 hi0 ks Hs|lo0 hi0 ks cs Hcs]; subst.
    + apply (search_misses_leaf f k lo hi ks Hs).
      intros x Hx. apply Hno. simpl. now rewrite app_nil_r.
    + rewrite (height_node false ks cs) in Hh.
      apply (search_misses_children f k lo hi ks cs Hcs); [|exact Hno].
      intros c Hc Hnc.
      destruct (In_nth_error _ _ Hc) as [j Hj].
      assert (Hoc : exists lo' hi', ordered key_of lo' hi' c).
      { clear -Hcs Hc. induction Hcs as [lo hi c0 Hc0|lo hi k0 ks c0 cs Ha Hb Hc0 Hcs IH].
        - destruct Hc as [<-|[]]. eauto.
        - destruct Hc as [<-|Hc]; eauto. }
      destruct Hoc as [lo' [hi' Hoc]].
      apply (IH c lo' hi'); auto.
      pose proof (height_child c cs Hc). lia.
Qed.

(** X2. B-Tree: after the insertion of the elements of any list ks into an empty
    tree, search(k) returns true exactly when ks holds an element with the key
    of k, and false otherwise; it never fails. *)
Theorem btree_search_exact (ks : list T) (k : T) :
  exists t,
    built key_of ORDER ks = Some t
    /\ BTree.search key_of t k
       = Some (existsb (fun x => key_of x =? key_of k) ks).
Proof.
  destruct (insert_all_ok key_of ORDER ks BTree.empty (empty_ordered key_of))
    as [t [Hb Ho]].
  exists t. split; [exact Hb|].
  destruct (insert_all_keys ks _ _ Hb) as [P _]. cbn in P. rewrite app_nil_r in P.
  unfold BTree.search.
  destruct (existsb (fun x => key_of x =? key_of k) ks) eqn:Hex.
  - apply existsb_exists in Hex. destruct Hex as [x [Hx Hk]].
    apply Z.eqb_eq in Hk.
    apply (search_finds key_of _ _ None None); auto.
    exists x. split; [|exact Hk].
    eapply Permutation_in; [symmetry; exact P|exact Hx].
  - apply (search_misses _ _ None None); auto.
    intros x Hx Hk.
    assert (Htrue : existsb (fun x => key_of x =? key_of k) ks = true).
    { apply existsb_exists. exists x. split.
      - eapply Permutation_in; [exact P|exact Hx].
      - now apply Z.eqb_eq. }
    congruence.
Qed.

End BTreeContents.

Section BTreeRange.
Context {T : Type}.
Variable key_of : T -> Z.

Lemma weave_perm {A : Type} (ks : list A) (subs : list (list A)) :
  Permutation (weave ks subs) (ks ++ concat subs).
Proof.
  revert ks. induction subs as [|s subs IH]; intros ks; simpl.
  - rewrite app_nil_r. reflexivity.
  - destruct ks as [|k ks]; [reflexivity|].
    rewrite IH. cbn [app]. symmetry. apply Permutation_cons_app.
    apply Permutation_app_swap_app.
Qed.

Lemma inorder_perm :
  forall (f : nat) (n : BTree.Node T),
    (BTree.height n <= f)%nat -> Permutation (inorder n) (all_keys n).
Proof.
  induction f as [|f IH]; intros n Hh; [destruct n; simpl in Hh; lia|].
  destruct n as [l ks cs]. rewrite height_node in Hh.
  cbn [inorder all_keys]. rewrite weave_perm. apply Permutation_app_head.
  assert (Hc : forall c, In c cs -> Permutation (inorder c) (all_keys c)).
  { intros c Hc. apply IH. pose proof (height_child c cs Hc). lia. }
  clear Hh. induction cs as [|c cs IHc]; simpl; [reflexivity|].
  rewrite (Hc c) by now left. apply Permutation_app_head.
  apply IHc. intros d Hd. apply Hc. now right.
Qed.

Lemma inorder_bounds (n : BTree.Node T) lo hi x :
  ordered key_of lo hi n -> In x (inorder n) ->
  above lo (key_of x) /\ below hi (key_of x).
Proof.
  intros Ho Hx. apply (ordered_keys_bounded key_of n lo hi x Ho).
  eapply Permutation_in; [apply (inorder_perm (BTree.height n)); lia|exact Hx].
Qed.

Lemma weave_bounds lo hi ks cs x :
  ordered_children key_of lo hi ks cs ->
  In x (weave ks (map inorder cs)) ->
  above lo (key_of x) /\ below hi (key_of x).
Proof.
  intros Hcs Hx.
  apply (inorder_bounds (BTree.mkNode false ks cs) lo hi x); [now constructor|exact Hx].
Qed.

Section Range.
Variables start end_ : T.

Let band : T -> bool := key_in_band key_of start end_.

Lemma band_below (x : T) : key_of x < key_of start -> band x = false.
Proof.
  intros H. unfold band, key_in_band.
  destruct (Z.leb_spec (key_of start) (key_of x)); [lia|reflexivity].
Qed.

Lemma band_above (x : T) : key_of end_ < key_of x -> band x = false.
Proof.
  intros H. unfold band, key_in_band.
  destruct (Z.leb_spec (key_of x) (key_of end_)); [lia|apply andb_false_r].
Qed.

Lemma band_here (k : T) :
  key_of k <= key_of end_ ->
  (if key_of start <=? key_of k then [k] else []) = filter band [k].
Proof.
  intros H. unfold band, key_in_band. simpl.
  destruct (Z.leb_spec (key_of start) (key_of k));
    destruct (Z.leb_spec (key_of k) (key_of end_)); try lia; reflexivity.
Qed.

Lemma filter_skip_below (ks : list T) :
  filter band (skipn (BTree.scan_greater key_of start ks) ks) = filter band ks.
Proof.
  induction ks as [|x ks IH]; [reflexivity|].
  cbn [BTree.scan_greater].
  destruct (Z.ltb_spec (key_of x) (key_of start)) as [Hlt|Hge]; [|reflexivity].
  cbn [skipn filter]. now rewrite (band_below x Hlt).
Qed.

Lemma range_loop_leaf (rec : BTree.Node T -> option (list T)) lo hi ks :
  sorted_in key_of lo hi ks ->
  forall cs, BTree.range_loop key_of rec true ks cs start end_
             = Some (filter band ks).
Proof.
  induction 1 as [|lo hi k ks Ha Hb Hs IH]; intros cs; [reflexivity|].
  cbn [BTree.range_loop].
  destruct (Z.leb_spec (key_of k) (key_of end_)) as [Hle|Hgt].
  - cbn [bind]. rewrite IH. cbn [bind app].
    rewrite (band_here k Hle). cbn [filter].
    destruct (band k); reflexivity.
  - f_equal. symmetry. apply filter_none. intros x [<-|Hx].
    + now apply band_above.
    + apply band_above. destruct (sorted_in_bounds key_of _ _ _ _ Hs Hx) as [A _].
      simpl in A. lia.
Qed.

Lemma sorted_in_skipn lo hi ks :
  sorted_in key_of lo hi ks ->
  forall i, exists lo', sorted_in key_of lo' hi (skipn i ks).
Proof.
  induction 1 as [|lo hi k ks Ha Hb Hs IH]; intros i.
  - exists None. destruct i; constructor.
  - destruct i as [|i]; [exists lo; now constructor|]. apply IH.
Qed.

Lemma range_search_leaf (f : nat) lo hi ks :
  sorted_in key_of lo hi ks ->
  BTree.range_search_internal key_of (S f) (BTree.mkNode true ks []) start end_
  = Some (filter band ks).
Proof.
  intros Hs. cbn [BTree.range_search_internal BTree.is_leaf BTree.keys BTree.children bind].
  set (i := BTree.scan_greater key_of start ks).
  destruct (sorted_in_skipn lo hi ks Hs i) as [lo' Hsk].
  rewrite (range_loop_leaf _ _ _ _ Hsk). cbn [bind app].
  subst i. now rewrite filter_skip_below.
Qed.

Lemma range_loop_cons (rec : BTree.Node T -> option (list T)) (leaf : bool)
    (k : T) (ks : list T) (cs : list (BTree.Node T)) :
  BTree.range_loop key_of rec leaf (k :: ks) cs start end_
  = if key_of k <=? key_of end_ then
      do sub <- (if leaf then Some []
                 else match cs with
                      | [] => Some []
                      | c :: _ => rec c
                      end);
      do rest <- BTree.range_loop key_of rec leaf ks (tl cs) start end_;
      Some ((if key_of start <=? key_of k then [k] else []) ++ sub ++ rest)
    else Some [].
Proof. reflexivity. Qed.

Variable f : nat.

Let R (c : BTree.Node T) : option (list T) :=
  BTree.range_search_internal key_of f c start end_.

Lemma range_loop_inner :
  forall ks lo hi k c cs,
    ordered_children key_of lo hi (k :: ks) (c :: cs) ->
    (forall c', In c' cs -> R c' = Some (filter band (inorder c'))) ->
    BTree.range_loop key_of R false (k :: ks) cs start end_
    = Some (filter band (k :: weave ks (map inorder cs))).
Proof.
  induction ks as [|k' ks IH]; intros lo hi k c cs Hcs Hrec;
    inversion Hcs as [|lo0 hi0 k0 ks0 c0 cs0 Ha Hb Hc Hrest]; subst.
  - (* the last key *)
    inversion Hrest as [lo1 hi1 c1 Hc1|]; subst.
    rewrite range_loop_cons.
    destruct (Z.leb_spec (key_of k) (key_of end_)) as [Hle|Hgt].
    + rewrite (Hrec c1) by now left. cbn [bind tl BTree.range_loop].
      rewrite (band_here k Hle). cbn [map weave concat].
      rewrite !app_nil_r. cbn [filter]. destruct (band k); reflexivity.
    + f_equal. symmetry. apply filter_none. intros x [<-|Hx].
      * now apply band_above.
      * apply band_above.
        destruct (weave_bounds _ _ _ _ x Hrest Hx) as [A _]. simpl in A. lia.
  - inversion Hrest as [|lo1 hi1 k1 ks1 c1 cs1 Ha1 Hb1 Hc1 Hrest1]; subst.
    rewrite range_loop_cons.
    destruct (Z.leb_spec (key_of k) (key_of end_)) as [Hle|Hgt].
    + rewrite (Hrec c1) by now left. cbn [bind tl].
      rewrite (IH _ _ _ _ _ Hrest) by (intros c' Hc'; apply Hrec; now right).
      cbn [bind]. rewrite (band_here k Hle). cbn [map weave].
      cbn [filter]. rewrite filter_app. cbn [filter].
      destruct (band k); reflexivity.
    + f_equal. symmetry. apply filter_none. intros x [<-|Hx].
      * now apply band_above.
      * apply band_above.
        destruct (weave_bounds _ _ _ _ x Hrest Hx) as [A _]. simpl in A. lia.
Qed.

Lemma range_search_children lo hi ks cs :
  ordered_children key_of lo hi ks cs ->
  (forall c, In c cs -> R c = Some (filter band (inorder c))) ->
  BTree.range_search_internal key_of (S f) (BTree.mkNode false ks cs) start end_
  = Some (filter band (weave ks (map inorder cs))).
Proof.
  cbn [BTree.range_search_internal BTree.is_leaf BTree.keys BTree.children].
  fold R.
  induction 1 as [lo hi c Hc|lo hi k ks c cs Ha Hb Hc Hcs IH]; intros Hrec.
  - cbn [BTree.scan_greater nth_error bind skipn BTree.range_loop].
    rewrite (Hrec c) by now left. cbn [bind map weave concat].
    now rewrite !app_nil_r.
  - cbn [BTree.scan_greater].
    destruct (Z.ltb_spec (key_of k) (key_of start)) as [Hlt|Hge].
    + cbn [nth_error]. rewrite !skipn_cons.
      rewrite IH by (intros d Hd; apply Hrec; now right).
      f_equal. cbn [map weave]. rewrite filter_app. cbn [filter].
      rewrite (band_below k Hlt).
      rewrite (filter_none band (inorder c)); [reflexivity|].
      intros x Hx. apply band_below.
      destruct (inorder_bounds _ _ _ x Hc Hx) as [_ B]. simpl in B. lia.
    + cbn [nth_error bind]. rewrite skipn_cons, !skipn_O.
      rewrite (Hrec c) by now left. cbn [bind].
      rewrite (range_loop_inner ks lo hi k c cs)
        by (try (now constructor); intros d Hd; apply Hrec; now right).
      cbn [bind]. f_equal. cbn [map weave]. now rewrite filter_app.
Qed.

End Range.

Lemma ordered_child lo hi ks cs (c : BTree.Node T) :
  ordered_children key_of lo hi ks cs -> In c cs ->
  exists lo' hi', ordered key_of lo' hi' c.
Proof.
  induction 1 as [lo hi c0 Hc0|lo hi k0 ks c0 cs Ha Hb Hc0 Hcs IH]; intros Hc.
  - destruct Hc as [<-|[]]. eauto.
  - destruct Hc as [<-|Hc]; eauto.
Qed.

(** [range_search_internal] on a search tree: the elements of the traversal
    whose keys lie in the range. *)
Lemma range_search_inorder (start end_ : T) :
  forall (f : nat) (n : BTree.Node T) lo hi,
    (BTree.height n <= f)%nat -> ordered key_of lo hi n ->
    BTree.range_search_internal key_of f n start end_
    = Some (filter (key_in_band key_of start end_) (inorder n)).
Proof.
  induction f as [|f IH]; intros n lo hi Hh Ho; [destruct n; simpl in Hh; lia|].
  inversion Ho as [lo0 hi0 ks Hs|lo0 hi0 ks cs Hcs]; subst.
  - now apply (range_search_leaf start end_ f lo hi).
  - rewrite height_node in Hh.
    apply (range_search_children start end_ f lo hi ks cs Hcs).
    intros c Hc. destruct (ordered_child _ _ _ _ c Hcs Hc) as [lo' [hi' Hoc]].
    apply (IH c lo' hi'); auto. pose proof (height_child c cs Hc). lia.
Qed.

(** The traversal of a search tree ascends. *)
Lemma sorted_in_weaken lo hi lo' hi' ks :
  sorted_in key_of lo hi ks ->
  (forall k, above lo k -> above lo' k) -> (forall k, below hi k -> below hi' k) ->
  sorted_in key_of lo' hi' ks.
Proof.
  intros H. revert lo'. induction H as [|lo hi k ks Ha Hb Hs IH]; intros lo' Hl Hh.
  - constructor.
  - constructor; auto.
Qed.

Lemma sorted_in_app lo hi (a b : list T) (sep : T) :
  sorted_in key_of lo (Some (key_of sep)) a ->
  sorted_in key_of (Some (key_of sep)) hi b ->
  above lo (key_of sep) -> below hi (key_of sep) ->
  sorted_in key_of lo hi (a ++ sep :: b).
Proof.
  intros Ha. revert b.
  remember (Some (key_of sep)) as mid eqn:Hm.
  induction Ha as [|lo mid k ks Hka Hkb Hs IH]; intros b Hb Hl Hh; subst; simpl.
  - constructor; auto.
  - constructor; [exact Hka| |].
    + simpl in Hkb. eapply below_le; eauto.
    + apply IH; auto.
Qed.

Lemma weave_sorted lo hi ks cs :
  ordered_children key_of lo hi ks cs ->
  (forall c lo' hi', In c cs -> ordered key_of lo' hi' c ->
     sorted_in key_of lo' hi' (inorder c)) ->
  sorted_in key_of lo hi (weave ks (map inorder cs)).
Proof.
  induction 1 as [lo hi c Hc|lo hi k ks c cs Ha Hb Hc Hcs IH]; intros Hrec.
  - cbn [map weave concat]. rewrite app_nil_r. apply Hrec; [now left|exact Hc].
  - cbn [map weave]. apply sorted_in_app; auto.
    + apply Hrec; [now left|exact Hc].
    + apply IH. intros d lo' hi' Hd. apply Hrec. now right.
Qed.

Lemma inorder_sorted :
  forall (f : nat) (n : BTree.Node T) lo hi,
    (BTree.height n <= f)%nat -> ordered key_of lo hi n ->
    sorted_in key_of lo hi (inorder n).
Proof.
  induction f as [|f IH]; intros n lo hi Hh Ho; [destruct n; simpl in Hh; lia|].
  inversion Ho as [lo0 hi0 ks Hs|lo0 hi0 ks cs Hcs]; subst.
  - exact Hs.
  - rewrite height_node in Hh. cbn [inorder]. apply weave_sorted; [exact Hcs|].
    intros c lo' hi' Hc Hoc. apply IH; auto.
    pose proof (height_child c cs Hc). lia.
Qed.

End BTreeRange.

(** *** Integer keys *)

Lemma sorted_in_id (l : list Z) lo hi :
  sorted_in id lo hi l -> StronglySorted Z.le l.
Proof.
  induction 1 as [|lo hi k ks Ha Hb Hs IH]; constructor; [exact IH|].
  apply Forall_forall. intros x Hx.
  destruct (sorted_in_bounds id _ _ _ _ Hs Hx) as [A _]. exact A.
Qed.

Lemma sorted_perm_eq (a : list Z) :
  forall b, StronglySorted Z.le a -> StronglySorted Z.le b -> Permutation a b -> a = b.
Proof.
  induction a as [|x a IH]; intros b Ha Hb P.
  - apply Permutation_nil in P. now subst.
  - destruct b as [|y b]; [symmetry in P; apply Permutation_nil in P; discriminate|].
    inversion Ha as [|x0 a0 Ha' Hfa]; subst. inversion Hb as [|y0 b0 Hb' Hfb]; subst.
    rewrite Forall_forall in Hfa, Hfb.
    assert (x = y).
    { assert (Hx : In x (y :: b)) by (eapply Permutation_in; [exact P|now left]).
      assert (Hy : In y (x :: a))
        by (eapply Permutation_in; [symmetry; exact P|now left]).
      destruct Hx as [|Hx]; [congruence|]. destruct Hy as [|Hy]; [congruence|].
      specialize (Hfa y Hy). specialize (Hfb x Hx). lia. }
    subst y. f_equal. apply IH; auto. eapply Permutation_cons_inv; eauto.
Qed.

(** X3. B-Tree of integers: after the insertion of any list ks into an empty tree,
    range_search(lo, hi) returns the elements x of ks with lo <= x <= hi in
    ascending order, each as often as it occurs in ks (the filter of the
    sorted list); for lo > hi the result is empty. *)
Theorem btree_range_search_exact (ORDER : Z) (ks : list Z) (lo hi : Z) :
  exists t,
    built id ORDER ks = Some t
    /\ BTree.range_search id t lo hi = Some (filter (in_band lo hi) (sort ks)).
Proof.
  destruct (insert_all_ok id ORDER ks BTree.empty (empty_ordered id)) as [t [Hb Ho]].
  exists t. split; [exact Hb|].
  unfold BTree.range_search.
  rewrite (range_search_inorder id lo hi _ _ None None (Nat.le_refl _) Ho).
  f_equal.
  assert (Hs : inorder (BTree.root t) = sort ks).
  { apply sorted_perm_eq.
    - eapply sorted_in_id. apply (inorder_sorted id _ _ None None (Nat.le_refl _) Ho).
    - apply sort_sorted.
    - rewrite (inorder_perm _ _ (Nat.le_refl _)).
      destruct (insert_all_keys id ORDER ks _ _ Hb) as [P _]. cbn in P.
      rewrite app_nil_r in P. rewrite P. apply sort_perm. }
  rewrite Hs. reflexivity.
Qed.

Section ShapeFacts.
Context {T : Type}.
Variables floor cap : Z.

Lemma child_ok_iff (h : nat) (c : BTree.Node T) :
  child_ok floor cap h c = true
  <-> floor <= size (BTree.keys c) /\ shaped floor cap h c = true.
Proof. unfold child_ok. now rewrite andb_true_iff, Z.leb_le. Qed.

Lemma shaped_leaf (h : nat) (ks : list T) (cs : list (BTree.Node T)) :
  shaped floor cap h (BTree.mkNode true ks cs) = true
  <-> h = 1%nat /\ size ks <= cap /\ cs = [].
Proof.
  destruct h as [|h]; [simpl; split; [discriminate|intros [? _]; discriminate]|].
  cbn [shaped BTree.keys BTree.is_leaf BTree.children].
  rewrite !andb_true_iff, Z.leb_le, Nat.eqb_eq.
  destruct cs; split.
  - intros [A [B _]]. subst. auto.
  - intros [A [B _]]. inversion A. auto.
  - intros [_ [_ C]]. discriminate.
  - intros [_ [_ C]]. discriminate.
Qed.

Lemma shaped_inner (h : nat) (ks : list T) (cs : list (BTree.Node T)) :
  shaped floor cap h (BTree.mkNode false ks cs) = true
  <-> exists h', h = S h' /\ size ks <= cap /\ length cs = S (length ks)
                 /\ forallb (child_ok floor cap h') cs = true.
Proof.
  destruct h as [|h]; [simpl; split; [discriminate|intros [? [? _]]; discriminate]|].
  cbn [shaped BTree.keys BTree.is_leaf BTree.children].
  rewrite !andb_true_iff, Z.leb_le, Nat.eqb_eq. split.
  - intros [A [B C]]. exists h. auto.
  - intros [h' [E [A [B C]]]]. inversion E; subst. auto.
Qed.

Lemma shaped_size (h : nat) (n : BTree.Node T) :
  shaped floor cap h n = true -> size (BTree.keys n) <= cap.
Proof.
  destruct h; [discriminate|]. cbn [shaped]. rewrite andb_true_iff, Z.leb_le. tauto.
Qed.

Lemma forallb_set_nth {A : Type} (p : A -> bool) (l : list A) (i : nat) (x : A) :
  forallb p l = true -> p x = true -> forallb p (set_nth l i x) = true.
Proof.
  revert i. induction l as [|a l IH]; intros [|i] Hl Hx; simpl in *; auto.
  - apply andb_true_iff in Hl. destruct Hl as [_ Hl]. now rewrite Hx.
  - apply andb_true_iff in Hl. destruct Hl as [Ha Hl]. rewrite Ha. now apply IH.
Qed.

Lemma forallb_nth {A : Type} (p : A -> bool) (l : list A) (i : nat) (x : A) :
  forallb p l = true -> nth_error l i = Some x -> p x = true.
Proof.
  intros Hl Hn. rewrite forallb_forall in Hl. apply Hl. eapply nth_error_In; eauto.
Qed.

Lemma forallb_firstn {A : Type} (p : A -> bool) (l : list A) (n : nat) :
  forallb p l = true -> forallb p (firstn n l) = true.
Proof.
  intros Hl. rewrite <- (firstn_skipn n l) in Hl. rewrite forallb_app in Hl.
  apply andb_true_iff in Hl. tauto.
Qed.

Lemma forallb_skipn {A : Type} (p : A -> bool) (l : list A) (n : nat) :
  forallb p l = true -> forallb p (skipn n l) = true.
Proof.
  intros Hl. rewrite <- (firstn_skipn n l) in Hl. rewrite forallb_app in Hl.
  apply andb_true_iff in Hl. tauto.
Qed.

End ShapeFacts.

Section BTreeShape.
Context {T : Type}.
Variable key_of : T -> Z.
Variables ORDER floor cap : Z.
Hypothesis Hcap : cap = 2 * ORDER - 1.
Hypothesis Hfloor : floor <= BTree.mid ORDER.

(** What [split_child] makes of a parent and its child at [i]. *)
Lemma split_child_result (parent c parent' : BTree.Node T) (i : nat) :
  nth_error (BTree.children parent) i = Some c ->
  BTree.split_child ORDER parent (Z.of_nat i) c = Some parent' ->
  let m := Z.to_nat (BTree.mid ORDER) in
  exists sep,
    0 <= BTree.mid ORDER
    /\ nth_error (BTree.keys c) m = Some sep
    /\ (i <= length (BTree.keys parent))%nat
    /\ (BTree.is_leaf c = false -> (S m <= length (BTree.children c))%nat)
    /\ parent'
       = BTree.mkNode (BTree.is_leaf parent)
           (firstn i (BTree.keys parent) ++ sep :: skipn i (BTree.keys parent))
           (firstn i (BTree.children parent)
            ++ BTree.mkNode (BTree.is_leaf c) (firstn m (BTree.keys c))
                 (if BTree.is_leaf c then BTree.children c
                  else firstn (S m) (BTree.children c))
            :: BTree.mkNode (BTree.is_leaf c) (skipn (S m) (BTree.keys c))
                 (if BTree.is_leaf c then []
                  else skipn (S m) (BTree.children c))
            :: skipn (S i) (BTree.children parent)).
Proof.
  intros Hn. unfold BTree.split_child.
  destruct (Z.ltb_spec (BTree.mid ORDER) 0) as [|Hm0]; [discriminate|].
  set (m := Z.to_nat (BTree.mid ORDER)).
  intros H. bind_inv H. destruct p as [nc cc]. rewrite vec_read_shrink in H.
  bind_inv H. bind_inv H. bind_inv H. injection H as <-.
  match goal with E : nth_error (BTree.keys c) m = Some ?s |- _ =>
    rename s into sep; rename E into Hsep
  end.
  match goal with E : insert_at (BTree.keys parent) _ _ = Some ?l |- _ =>
    rename E into Hpk
  end.
  match goal with E : insert_at (set_nth _ _ _) _ _ = Some ?l |- _ =>
    rename E into Hpc
  end.
  assert (Hik : (i <= length (BTree.keys parent))%nat).
  { unfold insert_at, size in Hpk.
    destruct (Z.leb_spec (Z.of_nat i) (Z.of_nat (length (BTree.keys parent))));
      [lia|]. rewrite andb_false_r in Hpk. discriminate. }
  rewrite insert_at_of_nat in Hpk by exact Hik. injection Hpk as <-.
  replace (Z.of_nat i + 1) with (Z.of_nat (S i)) in Hpc by lia.
  rewrite Nat2Z.id in Hpc.
  assert (Hlen : (i < length (BTree.children parent))%nat)
    by (apply nth_error_Some; congruence).
  rewrite insert_at_of_nat in Hpc by (rewrite set_nth_length; lia).
  rewrite (split_lists_normal _ i _ _ _ Hn) in Hpc.
  injection Hpc as <-.
  cbn [vec_shrink vec_of vs_live].
  exists sep. split; [exact Hm0|]. split; [first [exact Hsep|reflexivity]|].
  split; [exact Hik|].
  destruct (BTree.is_leaf c).
  - match goal with E : Some _ = Some (nc, cc) |- _ =>
      assert (Hnc : nc = []) by congruence;
      assert (Hcc : cc = BTree.children c) by congruence
    end.
    subst nc cc. split; [discriminate|reflexivity].
  - destruct (Z.ltb_spec (size (BTree.children c)) (BTree.mid ORDER + 1));
      [discriminate|].
    match goal with E : Some _ = Some (nc, cc) |- _ =>
      assert (Hnc : nc = skipn (S m) (BTree.children c)) by congruence;
      assert (Hcc : cc = firstn (S m) (BTree.children c)) by congruence
    end.
    subst nc cc. split; [|reflexivity]. intros _. unfold size in *. lia.
Qed.


Lemma mid_bounds : 1 <= ORDER -> 0 <= BTree.mid ORDER < ORDER.
Proof.
  intros H. unfold BTree.mid. rewrite Z.quot_div_nonneg by lia.
  split; [apply Z.div_pos; lia|apply Z.div_lt; lia].
Qed.

Lemma split_halves_shaped (h : nat) (lf : bool) (cks : list T)
    (ccs : list (BTree.Node T)) :
  1 <= ORDER ->
  shaped floor cap h (BTree.mkNode lf cks ccs) = true -> size cks = cap ->
  let m := Z.to_nat (BTree.mid ORDER) in
  shaped floor cap h (BTree.mkNode lf (firstn m cks) (if lf then ccs else firstn (S m) ccs))
  = true
  /\ shaped floor cap h (BTree.mkNode lf (skipn (S m) cks)
                     (if lf then [] else skipn (S m) ccs)) = true
  /\ floor <= size (firstn m cks) < cap /\ floor <= size (skipn (S m) cks) < cap.
Proof.
  intros HO Hs Hfull m. pose proof (mid_bounds HO) as Hm.
  assert (Hl1 : length (firstn m cks) = m)
    by (rewrite length_firstn; unfold size in *; lia).
  assert (Hl2 : (length (skipn (S m) cks) = length cks - S m)%nat)
    by (now rewrite length_skipn).
  assert (Hs1 : floor <= size (firstn m cks) < cap) by (unfold size in *; lia).
  assert (Hs2 : floor <= size (skipn (S m) cks) < cap) by (unfold size in *; lia).
  destruct lf.
  - apply shaped_leaf in Hs. destruct Hs as [-> [_ ->]].
    repeat split; try tauto; apply shaped_leaf; repeat split; auto; lia.
  - apply shaped_inner in Hs. destruct Hs as [h' [-> [_ [Hlen Hall]]]].
    repeat split; try tauto; apply shaped_inner; exists h'.
    + repeat split; auto; try lia.
      * rewrite length_firstn, Hl1. unfold size in *. lia.
      * now apply forallb_firstn.
    + repeat split; auto; try lia.
      * rewrite length_skipn, Hl2. unfold size in *. lia.
      * now apply forallb_skipn.
Qed.

Lemma skip_greater_le (k : T) (l : list T) :
  (BTree.skip_greater key_of k l <= length l)%nat.
Proof.
  induction l as [|x l IH]; simpl; [lia|].
  destruct (key_of k <? key_of x); lia.
Qed.

Lemma leaf_insert_length (k : T) (ks : list T) :
  length (BTree.leaf_insert key_of k ks) = S (length ks).
Proof.
  apply (Permutation_length (leaf_insert_perm key_of k ks)).
Qed.

(** [insert_non_full] keeps the shape and takes no key from the node it is
    called on. *)
Lemma insert_non_full_shape :
  2 <= ORDER ->
  forall (f : nat) (n n' : BTree.Node T) (k : T) (h : nat),
    shaped floor cap h n = true -> size (BTree.keys n) < cap ->
    BTree.insert_non_full key_of ORDER f n k = Some n' ->
    shaped floor cap h n' = true
    /\ size (BTree.keys n) <= size (BTree.keys n')
    /\ BTree.is_leaf n' = BTree.is_leaf n.
Proof.
  intros HO. induction f as [|f IH]; intros n n' k h Hs Hroom H; [discriminate|].
  destruct n as [lf ks cs].
  cbn [BTree.insert_non_full BTree.is_leaf BTree.keys BTree.children] in H, Hroom.
  destruct lf.
  - injection H as <-. apply shaped_leaf in Hs. destruct Hs as [-> [_ ->]].
    cbn [BTree.keys BTree.is_leaf]. unfold size in *. rewrite leaf_insert_length.
    split; [|split; [lia|reflexivity]]. apply shaped_leaf. repeat split; auto.
    unfold size. rewrite leaf_insert_length. lia.
  - apply shaped_inner in Hs. destruct Hs as [h' [-> [_ [Hlen Hall]]]].
    set (i := BTree.skip_greater key_of k (rev ks)) in *.
    assert (Hi : (i <= length ks)%nat)
      by (unfold i; rewrite <- length_rev; apply skip_greater_le).
    unfold BTree.child_index in H. fold i in H.
    rewrite nth_Z_of_nat in H. bind_inv H.
    match goal with E : nth_error cs i = Some ?c0 |- _ =>
      rename c0 into c; rename E into Hn
    end.
    pose proof (forallb_nth _ _ _ _ Hall Hn) as Hc.
    apply child_ok_iff in Hc. destruct Hc as [Hcf Hc].
    (* the descent into the child [cj] at [j] of [node1] *)
    assert (Hdesc : forall ks1 cs1 (j : nat) cj,
              size ks1 <= cap -> length cs1 = S (length ks1) ->
              forallb (child_ok floor cap h') cs1 = true ->
              nth_error cs1 j = Some cj -> size (BTree.keys cj) < cap ->
              (do cj0 <- nth_Z cs1 (Z.of_nat j);
               do cj' <- BTree.insert_non_full key_of ORDER f cj0 k;
               Some (BTree.mkNode false ks1 (set_nth cs1 (Z.to_nat (Z.of_nat j)) cj')))
              = Some n' ->
              shaped floor cap (S h') n' = true /\ BTree.keys n' = ks1
              /\ BTree.is_leaf n' = false).
    { intros ks1 cs1 j cj Hk1 Hl1 Ha1 Hj Hrj H1.
      rewrite nth_Z_of_nat, Hj in H1. cbn [bind] in H1. bind_inv H1.
      injection H1 as <-. rewrite Nat2Z.id. split; [|split; reflexivity].
      apply shaped_inner. exists h'. repeat split; auto.
      - now rewrite set_nth_length.
      - pose proof (forallb_nth _ _ _ _ Ha1 Hj) as Hcj.
        apply child_ok_iff in Hcj. destruct Hcj as [Hcjf Hcj].
        apply forallb_set_nth; [exact Ha1|].
        match goal with E : BTree.insert_non_full _ _ _ _ _ = Some _ |- _ =>
          destruct (IH _ _ _ h' Hcj Hrj E) as [Hs' [Hgrow _]]
        end.
        apply child_ok_iff. split; [lia|exact Hs']. }
    destruct (BTree.full ORDER c) eqn:Hfull.
    + bind_inv H. destruct p as [node1 j].
      match goal with E : bind _ _ = Some (node1, j) |- _ => rename E into Hst end.
      bind_inv Hst. bind_inv Hst.
      match goal with E : BTree.split_child _ _ _ _ = Some ?p |- _ =>
        rename p into node'; rename E into Hsp
      end.
      destruct (split_child_result (BTree.mkNode false ks cs) c node' i Hn Hsp)
        as [sep [Hm0 [Hsep [_ [_ Hnode]]]]].
      cbn [BTree.is_leaf BTree.keys BTree.children] in Hnode.
      unfold BTree.full in Hfull. apply Z.eqb_eq in Hfull. rewrite <- Hcap in Hfull.
      destruct c as [clf cks ccs].
      cbn [BTree.is_leaf BTree.keys BTree.children] in *.
      destruct (split_halves_shaped _ _ _ _ ltac:(lia) Hc Hfull)
        as [Hl [Hr [Hls Hrs]]].
      set (m := Z.to_nat (BTree.mid ORDER)) in *.
      set (l := BTree.mkNode clf (firstn m cks) (if clf then ccs else firstn (S m) ccs)) in *.
      set (r := BTree.mkNode clf (skipn (S m) cks) (if clf then [] else skipn (S m) ccs)) in *.
      assert (Hfi : length (firstn i cs) = i) by (rewrite length_firstn; lia).
      assert (Hk1 : size (firstn i ks ++ sep :: skipn i ks) = size ks + 1).
      { unfold size in *. rewrite length_app. cbn [length].
        rewrite length_firstn, length_skipn. lia. }
      assert (Hl1 : length (firstn i cs ++ l :: r :: skipn (S i) cs)
                    = S (length (firstn i ks ++ sep :: skipn i ks))).
      { rewrite !length_app. cbn [length].
        rewrite !length_firstn, !length_skipn. lia. }
      assert (Ha1 : forallb (child_ok floor cap h') (firstn i cs ++ l :: r :: skipn (S i) cs)
                    = true).
      { rewrite forallb_app. cbn [forallb].
        rewrite (forallb_firstn _ _ _ Hall), (forallb_skipn _ _ _ Hall).
        assert (El : child_ok floor cap h' l = true)
          by (apply child_ok_iff; split; [apply Hls|exact Hl]).
        assert (Er : child_ok floor cap h' r = true)
          by (apply child_ok_iff; split; [apply Hrs|exact Hr]).
        now rewrite El, Er. }
      assert (Hk1' : size (firstn i ks ++ sep :: skipn i ks) <= cap) by lia.
      subst node'. cbn [BTree.keys BTree.children BTree.is_leaf] in *.
      assert (Hj : (j = Z.of_nat i /\ node1 = BTree.mkNode false
                      (firstn i ks ++ sep :: skipn i ks)
                      (firstn i cs ++ l :: r :: skipn (S i) cs))
                   \/ (j = Z.of_nat (S i) /\ node1 = BTree.mkNode false
                      (firstn i ks ++ sep :: skipn i ks)
                      (firstn i cs ++ l :: r :: skipn (S i) cs))).
      { destruct (key_of _ <? key_of k); injection Hst as <- <-; [right|left];
          split; auto; lia. }
      destruct Hj as [[-> ->]|[-> ->]];
        cbn [BTree.keys BTree.children BTree.is_leaf] in H.
      * assert (Hnl : nth_error (firstn i cs ++ l :: r :: skipn (S i) cs) i = Some l)
          by (apply nth_error_middle; now rewrite Hfi).
        destruct (Hdesc _ _ i l Hk1' Hl1 Ha1 Hnl (proj2 Hls) H) as [A [B C]].
        split; [exact A|]. rewrite B. split; [lia|exact C].
      * assert (Hnr : nth_error (firstn i cs ++ l :: r :: skipn (S i) cs) (S i)
                      = Some r).
        { replace (firstn i cs ++ l :: r :: skipn (S i) cs)
            with ((firstn i cs ++ [l]) ++ r :: skipn (S i) cs)
            by (now rewrite <- app_assoc).
          apply nth_error_middle. rewrite length_app. simpl. lia. }
        destruct (Hdesc _ _ (S i) r Hk1' Hl1 Ha1 Hnr (proj2 Hrs) H) as [A [B C]].
        split; [exact A|]. rewrite B. split; [lia|exact C].
    + cbn [bind BTree.keys BTree.children BTree.is_leaf] in H.
      destruct (Hdesc ks cs i c) as [A [B C]]; auto; try lia.
      * unfold BTree.full in Hfull. apply Z.eqb_neq in Hfull.
        pose proof (shaped_size _ _ _ _ Hc). lia.
      * split; [exact A|]. rewrite B. cbn [BTree.keys]. split; [lia|exact C].
Qed.

(** The shape of a whole tree: balanced, every node within the capacity,
    every node below the root with at least [floor] keys, and a root that
    is a leaf or has a key. *)
Lemma insert_shape (t t' : BTree.BTree T) (k : T) (h : nat) :
  2 <= ORDER ->
  shaped floor cap h (BTree.root t) = true ->
  (BTree.is_leaf (BTree.root t) = false -> 1 <= size (BTree.keys (BTree.root t))) ->
  BTree.insert key_of ORDER t k = Some t' ->
  exists h', shaped floor cap h' (BTree.root t') = true
             /\ (BTree.is_leaf (BTree.root t') = false
                 -> 1 <= size (BTree.keys (BTree.root t')))
             /\ BTree.size_ t' = BTree.size_ t + 1.
Proof.
  intros HO Hs Hroot. unfold BTree.insert.
  destruct (BTree.full ORDER (BTree.root t)) eqn:Hfull.
  - intros H. bind_inv H. bind_inv H. injection H as <-. cbn [BTree.root BTree.size_].
    match goal with E : BTree.split_child _ _ _ _ = Some ?p |- _ =>
      rename p into node'; rename E into Hsp
    end.
    change 0 with (Z.of_nat 0) in Hsp.
    destruct (split_child_result (BTree.mkNode false [] [BTree.root t])
                (BTree.root t) node' 0 eq_refl Hsp)
      as [sep [Hm0 [Hsep [_ [_ Hnode]]]]].
    unfold BTree.full in Hfull. apply Z.eqb_eq in Hfull. rewrite <- Hcap in Hfull.
    destruct (BTree.root t) as [clf cks ccs].
    cbn [BTree.is_leaf BTree.keys BTree.children] in *.
    destruct (split_halves_shaped _ _ _ _ ltac:(lia) Hs Hfull)
      as [Hl [Hr [Hls Hrs]]].
    set (m := Z.to_nat (BTree.mid ORDER)) in *.
    set (l := BTree.mkNode clf (firstn m cks) (if clf then ccs else firstn (S m) ccs)) in *.
    set (r := BTree.mkNode clf (skipn (S m) cks) (if clf then [] else skipn (S m) ccs)) in *.
    assert (Hnode' : node' = BTree.mkNode false [sep] [l; r]) by exact Hnode.
    clear Hnode. subst node'.
    exists (S h).
    assert (Hnew : shaped floor cap (S h) (BTree.mkNode false [sep] [l; r]) = true).
    { apply shaped_inner. exists h.
      split; [reflexivity|]. split; [unfold size; cbn [length]; lia|].
      split; [reflexivity|]. cbn [forallb].
      assert (El : child_ok floor cap h l = true)
        by (apply child_ok_iff; split; [apply Hls|exact Hl]).
      assert (Er : child_ok floor cap h r = true)
        by (apply child_ok_iff; split; [apply Hrs|exact Hr]).
      now rewrite El, Er. }
    assert (Hroom : size (BTree.keys (BTree.mkNode false [sep] [l; r])) < cap)
      by (cbn [BTree.keys]; unfold size; cbn [length]; lia).
    match goal with E : BTree.insert_non_full _ _ _ _ _ = Some _ |- _ =>
      destruct (insert_non_full_shape HO _ _ _ _ (S h) Hnew Hroom E) as [A [B _]]
    end.
    split; [exact A|]. split; [|reflexivity]. intros _.
    cbn [BTree.keys] in B. unfold size in B at 1. cbn [length] in B. lia.
  - intros H. bind_inv H. injection H as <-. cbn [BTree.root BTree.size_]. exists h.
    assert (Hroom : size (BTree.keys (BTree.root t)) < cap).
    { unfold BTree.full in Hfull. apply Z.eqb_neq in Hfull.
      pose proof (shaped_size _ _ _ _ Hs). lia. }
    match goal with E : BTree.insert_non_full _ _ _ _ _ = Some ?x |- _ =>
      destruct (insert_non_full_shape HO _ _ _ _ h Hs Hroom E) as [A [B C]]
    end.
    split; [exact A|]. split; [|reflexivity].
    rewrite C. intros Hl. specialize (Hroot Hl). lia.
Qed.

Lemma insert_all_shape (ks : list T) :
  2 <= ORDER ->
  forall t t' h,
    shaped floor cap h (BTree.root t) = true ->
    (BTree.is_leaf (BTree.root t) = false -> 1 <= size (BTree.keys (BTree.root t))) ->
    BTree.insert_all key_of ORDER t ks = Some t' ->
    exists h', shaped floor cap h' (BTree.root t') = true
               /\ (BTree.is_leaf (BTree.root t') = false
                   -> 1 <= size (BTree.keys (BTree.root t'))).
Proof.
  intros HO. induction ks as [|k ks IH]; intros t t' h Hs Hroot H.
  - injection H as <-. eauto.
  - cbn [BTree.insert_all] in H. bind_inv H.
    match goal with E : BTree.insert _ _ _ _ = Some _ |- _ =>
      destruct (insert_shape _ _ _ _ HO Hs Hroot E) as [h1 [Hs1 [Hr1 _]]]
    end.
    eapply IH; eauto.
Qed.

End BTreeShape.

(** X4. B-Tree with ORDER >= 2: after the insertion of any list of elements into
    an empty tree, all leaves lie at the same depth, every inner node has one
    child more than keys, no node holds more than 2*ORDER-1 keys, every node
    below the root holds at least ORDER/2 keys, and a root that is not a leaf
    holds at least one key. *)
Theorem btree_balanced_and_bounded {T : Type} (key_of : T -> Z) (ORDER : Z)
    (ks : list T) :
  2 <= ORDER ->
  exists t h,
    built key_of ORDER ks = Some t
    /\ shaped (BTree.mid ORDER) (2 * ORDER - 1) h (BTree.root t) = true
    /\ (BTree.is_leaf (BTree.root t) = false
        -> 1 <= size (BTree.keys (BTree.root t))).
Proof.
  intros HO.
  destruct (insert_all_ok key_of ORDER ks BTree.empty (empty_ordered key_of))
    as [t [Hb _]].
  destruct (insert_all_shape key_of ORDER (BTree.mid ORDER) (2 * ORDER - 1)
              eq_refl (Z.le_refl _) ks HO BTree.empty t 1) as [h Hs]; auto.
  - apply shaped_leaf. repeat split; auto. unfold size. cbn [length]. lia.
  - discriminate.
  - exists t, h. split; [exact Hb|exact Hs].
Qed.

Lemma btree_balanced_and_bounded_witness :
  exists t h,
    built id 5 (keys_from 1 1 40) = Some t
    /\ shaped (BTree.mid 5) (2 * 5 - 1) h (BTree.root t) = true
    /\ (BTree.is_leaf (BTree.root t) = false
        -> 1 <= size (BTree.keys (BTree.root t))).
Proof.
  apply (btree_balanced_and_bounded id 5 (keys_from 1 1 40)). lia.
Defined.

Lemma index_segments_insert_all (segs : list FitingTree.Segment) :
  forall t i,
    FitingTree.index_segments t segs i
    = BTree.insert_all FitingTree.key 5 t (index_entries segs i).
Proof.
  induction segs as [|s r IH]; intros t i; [reflexivity|].
  cbn [FitingTree.index_segments index_entries BTree.insert_all].
  destruct (BTree.insert FitingTree.key 5 t _); [|reflexivity].
  cbn [bind]. apply IH.
Qed.

Lemma index_entries_length (segs : list FitingTree.Segment) :
  forall i, length (index_entries segs i) = length segs.
Proof.
  induction segs as [|s r IH]; intros i; simpl; [reflexivity|]. now rewrite IH.
Qed.

Lemma buildSegments_index (ft ft' : FitingTree.FitingTree) :
  FitingTree.buildSegments ft = Some ft' -> FitingTree.data ft <> [] ->
  BTree.insert_all FitingTree.key 5 (FitingTree.segment_index ft)
    (index_entries (FitingTree.segments ft') 0)
  = Some (FitingTree.segment_index ft').
Proof.
  unfold FitingTree.buildSegments. intros H Hne.
  destruct (FitingTree.data ft) as [|d0 dr]; [contradiction|].
  bind_inv H. bind_inv H. injection H as <-.
  cbn [FitingTree.segments FitingTree.segment_index].
  now rewrite <- index_segments_insert_all.
Qed.

(** X19. FITing-Tree buildSegments on non-empty data: the companion B-Tree
    afterwards holds the entries it held before and one entry (start_key,
    position of the segment converted to int, the type of the entry field) for
    every new segment; buildSegments clears the segment list but never the
    index, so a second build adds to the entries of the first, and size_ of
    the index grows by the number of segments. *)
Theorem fiting_index_accumulates (ft ft' : FitingTree.FitingTree) :
  FitingTree.buildSegments ft = Some ft' -> FitingTree.data ft <> [] ->
  Permutation
    (all_keys (BTree.root (FitingTree.segment_index ft')))
    (index_entries (FitingTree.segments ft') 0
     ++ all_keys (BTree.root (FitingTree.segment_index ft)))
  /\ BTree.size_ (FitingTree.segment_index ft')
     = BTree.size_ (FitingTree.segment_index ft) + size (FitingTree.segments ft').
Proof.
  intros Hb Hne. pose proof (buildSegments_index _ _ Hb Hne) as Hi.
  destruct (insert_all_keys FitingTree.key 5 _ _ _ Hi) as [P S].
  split; [exact P|]. rewrite S. unfold size. now rewrite index_entries_length.
Qed.

Lemma fiting_index_accumulates_witness :
  exists ft',
    FitingTree.buildSegments (fiting_of 1 [0; 1; 2; 3; 1000]) = Some ft'
    /\ BTree.size_ (FitingTree.segment_index ft')
       = BTree.size_ (FitingTree.segment_index (fiting_of 1 [0; 1; 2; 3; 1000]))
         + size (FitingTree.segments ft').
Proof.
  destruct (FitingTree.buildSegments (fiting_of 1 [0; 1; 2; 3; 1000]))
    as [ft'|] eqn:E; [|vm_compute in E; discriminate].
  exists ft'. split; [reflexivity|].
  apply (fiting_index_accumulates _ _ E).
  assert (Hd : FitingTree.data (fiting_of 1 [0; 1; 2; 3; 1000]) = [0; 1; 2; 3; 1000])
    by (vm_compute; reflexivity).
  rewrite Hd. discriminate.
Defined.

(** *** The segment of a stored key *)

Lemma sorted_unique_strict (d : list Z) :
  sorted_unique d ->
  forall i j x y, i < j -> nth_Z d i = Some x -> nth_Z d j = Some y -> x < y.
Proof.
  intros Hs i j x y Hij Hi Hj.
  pose proof (sorted_unique_ascending d Hs) as Hasc.
  assert (x <= y) by (apply (Hasc i j x y); auto; lia).
  destruct (Z.eq_dec x y) as [->|]; [|lia].
  exfalso. apply sorted_unique_nodup in Hs.
  pose proof (nth_Z_some_range _ _ _ Hi). pose proof (nth_Z_some_range _ _ _ Hj).
  unfold nth_Z in Hi, Hj.
  destruct (i <? 0); [discriminate|]. destruct (j <? 0); [discriminate|].
  rewrite NoDup_nth_error in Hs.
  assert (Z.to_nat i = Z.to_nat j).
  { apply Hs; [apply nth_error_Some; congruence|congruence]. }
  lia.
Qed.

Section Routing.
Variable d : list Z.
Variables k p n : Z.
Hypothesis Hd : sorted_unique d.
Hypothesis Hpos : Forall (fun x => 0 <= x) d.
Hypothesis Hk : nth_Z d p = Some k.

Let band : FitingTree.KeyIndex -> bool :=
  key_in_band FitingTree.key (FitingTree.mkKeyIndex 0 (-1)) (FitingTree.mkKeyIndex k (-1)).

Lemma entries_from (segs : list FitingTree.Segment) :
  forall from i e,
    tiles d from n segs = true -> In e (index_entries segs i) ->
    exists q, from <= q /\ nth_Z d q = Some (FitingTree.key e).
Proof.
  induction segs as [|s r IH]; intros from i e Ht He; [contradiction|].
  apply tiles_cons_iff in Ht. destruct Ht as [A [B [C D]]].
  destruct He as [<-|He].
  - exists from. split; [lia|exact C].
  - destruct (IH _ _ _ D He) as [q [Hq Eq]]. exists q. split; [lia|exact Eq].
Qed.

Lemma last_cons_nonempty {A : Type} (a dflt : A) (l : list A) :
  l <> [] -> last (a :: l) dflt = last l dflt.
Proof. destruct l; [contradiction|reflexivity]. Qed.

Lemma route (segs : list FitingTree.Segment) :
  forall from i dflt,
    tiles d from n segs = true -> from <= p < n ->
    exists (j : nat) s,
      nth_error segs j = Some s
      /\ FitingTree.start_position s <= p <= FitingTree.end_position s
      /\ Z.of_nat j <= p - from
      /\ filter band (index_entries segs i) <> []
      /\ last (filter band (index_entries segs i)) dflt
         = FitingTree.mkKeyIndex (FitingTree.start_key s) (int_of (i + Z.of_nat j)).
Proof.
  induction segs as [|s r IH]; intros from i dflt Ht Hp.
  - simpl in Ht. apply Z.eqb_eq in Ht. lia.
  - pose proof Ht as Ht0.
    apply tiles_cons_iff in Ht. destruct Ht as [A [B [C D]]].
    assert (Hband : band (FitingTree.mkKeyIndex (FitingTree.start_key s) (int_of i))
                    = true).
    { unfold band, key_in_band. cbn [FitingTree.key].
      rewrite Forall_forall in Hpos.
      assert (0 <= FitingTree.start_key s) by (apply Hpos; eapply nth_Z_In; eauto).
      assert (FitingTree.start_key s <= k).
      { apply (sorted_unique_ascending d Hd from p); auto. lia. }
      apply andb_true_iff. split; apply Z.leb_le; lia. }
    cbn [index_entries filter]. rewrite Hband.
    destruct (Z.le_gt_cases p (FitingTree.end_position s)) as [Hin|Hout].
    + exists O, s. split; [reflexivity|]. split; [lia|]. split; [lia|].
      split; [discriminate|].
      rewrite (filter_none band (index_entries r (i + 1))).
      * cbn [last]. do 2 f_equal. lia.
      * intros e He. destruct (entries_from r _ _ e D He) as [q [Hq Eq]].
        assert (k < FitingTree.key e)
          by (apply (sorted_unique_strict d Hd p q); auto; lia).
        unfold band, key_in_band. cbn [FitingTree.key].
        destruct (Z.leb_spec (FitingTree.key e) k); [lia|apply andb_false_r].
    + destruct (IH (FitingTree.end_position s + 1) (i + 1) dflt D)
        as [j [s' [Hn [Hc [Hj [Hne Hl]]]]]]; [lia|].
      exists (S j), s'. split; [exact Hn|]. split; [exact Hc|].
      split; [lia|]. split; [discriminate|].
      rewrite last_cons_nonempty by exact Hne. rewrite Hl. do 2 f_equal. lia.
Qed.

End Routing.

Section SortedByKey.
Context {T : Type}.
Variable key_of : T -> Z.

Lemma sorted_in_filter (p : T -> bool) lo hi l :
  sorted_in key_of lo hi l -> sorted_in key_of lo hi (filter p l).
Proof.
  induction 1 as [|lo hi k ks Ha Hb Hs IH]; simpl; [constructor|].
  destruct (p k); [constructor; auto|].
  eapply sorted_in_weaken; [exact IH| |auto].
  intros z Hz. simpl in Hz. eapply above_le; eauto.
Qed.

Lemma sorted_in_upper lo l (k : Z) :
  sorted_in key_of lo None l -> (forall x, In x l -> key_of x <= k) ->
  sorted_in key_of lo (Some k) l.
Proof.
  intros H. remember None as hi eqn:Hhi. revert Hhi.
  induction H as [|lo hi x xs Ha Hb Hs IH]; intros -> Hall; constructor; auto.
  - simpl. apply Hall. now left.
  - apply IH; auto. intros y Hy. apply Hall. now right.
Qed.

(** A list that ascends by key and has the elements of a list whose keys
    ascend strictly is that list. *)
Lemma sorted_strict_perm_eq (a : list T) :
  forall lo hi b,
    sorted_in key_of lo hi a ->
    StronglySorted (fun x y => key_of x < key_of y) b ->
    Permutation a b -> a = b.
Proof.
  induction a as [|x a IH]; intros lo hi b Ha Hb P.
  - apply Permutation_nil in P. now subst.
  - destruct b as [|y b]; [symmetry in P; apply Permutation_nil in P; discriminate|].
    inversion Ha as [|lo0 hi0 x0 a0 Hxa Hxb Ha']; subst.
    inversion Hb as [|y0 b0 Hb' Hfb]; subst.
    rewrite Forall_forall in Hfb.
    assert (x = y).
    { assert (Hx : In x (y :: b)) by (eapply Permutation_in; [exact P|now left]).
      assert (Hy : In y (x :: a))
        by (eapply Permutation_in; [symmetry; exact P|now left]).
      destruct Hx as [|Hx]; [congruence|]. destruct Hy as [|Hy]; [congruence|].
      specialize (Hfb x Hx).
      destruct (sorted_in_bounds key_of _ _ _ _ Ha' Hy) as [A _]. simpl in A. lia. }
    subst y. f_equal. apply (IH _ _ _ Ha' Hb'). eapply Permutation_cons_inv; eauto.
Qed.

End SortedByKey.

Lemma entries_strict (d : list Z) (n : Z) (segs : list FitingTree.Segment) :
  sorted_unique d ->
  forall from i,
    tiles d from n segs = true ->
    StronglySorted (fun x y => FitingTree.key x < FitingTree.key y)
      (index_entries segs i).
Proof.
  intros Hd. induction segs as [|s r IH]; intros from i Ht; [constructor|].
  apply tiles_cons_iff in Ht. destruct Ht as [A [B [C D]]].
  cbn [index_entries]. constructor; [eapply IH; eauto|].
  apply Forall_forall. intros e He.
  destruct (entries_from d n r _ _ e D He) as [q [Hq Eq]].
  cbn [FitingTree.key].
  apply (sorted_unique_strict d Hd from q); auto. lia.
Qed.

Lemma fold_picks_last (k : Z) (rs : list FitingTree.KeyIndex) :
  forall (a b : Z) dflt,
    sorted_in FitingTree.key (Some b) (Some k) rs ->
    fold_left
      (fun (best : Z * Z) (ki : FitingTree.KeyIndex) =>
         if (FitingTree.key ki <=? k) && (snd best <=? FitingTree.key ki)
         then (FitingTree.index ki, FitingTree.key ki) else best)
      rs (a, b)
    = match rs with
      | [] => (a, b)
      | _ => (FitingTree.index (last rs dflt), FitingTree.key (last rs dflt))
      end.
Proof.
  induction rs as [|r rs IH]; intros a b dflt Hs; [reflexivity|].
  inversion Hs as [|lo hi r0 rs0 Ha Hb Hs']; subst. simpl in Ha, Hb.
  cbn [fold_left snd].
  destruct (Z.leb_spec (FitingTree.key r) k); [|lia].
  destruct (Z.leb_spec b (FitingTree.key r)); [|lia]. cbn [andb].
  rewrite (IH _ _ dflt Hs').
  destruct rs as [|r' rs']; reflexivity.
Qed.

(** X20. FITing-Tree built by build on a fresh tree from at most INT_MAX distinct
    non-negative keys: for every stored key k, at position p of the sorted
    data, findSegmentIndex(k) returns the index of the segment whose positions
    start_position .. end_position contain p. *)
Theorem fiting_segment_of_stored_key (eps : Z) (ks : list Z)
    (ft : FitingTree.FitingTree) (k p : Z) :
  FitingTree.build (FitingTree.init eps) ks = Some ft ->
  size ks <= int_max ->
  NoDup ks -> Forall (fun x => 0 <= x) ks ->
  nth_Z (FitingTree.data ft) p = Some k ->
  exists j s,
    FitingTree.findSegmentIndex ft k = Some j
    /\ nth_Z (FitingTree.segments ft) j = Some s
    /\ FitingTree.start_position s <= p <= FitingTree.end_position s.
Proof.
  intros Hbuild Hsz Hnd Hpos Hk.
  pose proof (fiting_build_data _ _ _ Hbuild) as Hdata.
  unfold FitingTree.build in Hbuild. bind_inv Hbuild. injection Hbuild as <-.
  cbn [FitingTree.data FitingTree.segments FitingTree.findSegmentIndex
       FitingTree.segment_index] in *.
  match goal with E : FitingTree.buildSegments ?ft1 = Some ?ft2 |- _ =>
    rename E into Hb; set (ft0 := ft1) in *
  end.
  rename f into ft2.
  assert (Hd : sorted_unique (FitingTree.data ft2)).
  { rewrite Hdata. apply sorted_nodup_unique; [apply sort_sorted|].
    eapply Permutation_NoDup; [apply sort_perm|exact Hnd]. }
  assert (Hp0 : Forall (fun x => 0 <= x) (FitingTree.data ft2)).
  { rewrite Hdata. eapply Permutation_Forall; [apply sort_perm|exact Hpos]. }
  assert (Hsz2 : size (FitingTree.data ft2) <= int_max).
  { rewrite Hdata. unfold size in *.
    rewrite <- (Permutation_length (sort_perm ks)). exact Hsz. }
  assert (Hsz0 : size (FitingTree.data ft0) <= int_max).
  { rewrite <- (buildSegments_data _ _ Hb). exact Hsz2. }
  destruct (buildSegments_tiles _ _ Hsz0 Hb) as [Ht _].
  assert (Hne : FitingTree.data ft0 <> []).
  { rewrite <- (buildSegments_data _ _ Hb). intros Hnil. rewrite Hnil in Hk.
    apply nth_Z_some_range in Hk. unfold size in Hk. simpl in Hk. lia. }
  pose proof (buildSegments_index _ _ Hb Hne) as Hi.
  cbn [FitingTree.segment_index ft0 FitingTree.init] in Hi.
  destruct (insert_all_ok FitingTree.key 5
              (index_entries (FitingTree.segments ft2) 0) BTree.empty
              (empty_ordered FitingTree.key)) as [t [Hb' Ho]].
  rewrite Hi in Hb'. injection Hb' as <-.
  destruct (insert_all_keys FitingTree.key 5 _ _ _ Hi) as [P _].
  cbn in P. rewrite app_nil_r in P.
  set (idx := FitingTree.segment_index ft2) in *.
  assert (Hin : inorder (BTree.root idx) = index_entries (FitingTree.segments ft2) 0).
  { apply (sorted_strict_perm_eq FitingTree.key _ None None).
    - apply (inorder_sorted FitingTree.key _ _ None None (Nat.le_refl _) Ho).
    - eapply entries_strict; eauto.
    - rewrite (inorder_perm _ _ (Nat.le_refl _)). exact P. }
  pose proof (nth_Z_some_range _ _ _ Hk) as Hr.
  destruct (route (FitingTree.data ft2) k p (size (FitingTree.data ft2)) Hd Hp0 Hk
              (FitingTree.segments ft2) 0 0 (FitingTree.mkKeyIndex 0 0) Ht Hr)
    as [j [s [Hn [Hc [Hj [Hne' Hl]]]]]].
  exists (Z.of_nat j), s. split; [|split; [now rewrite nth_Z_of_nat|exact Hc]].
  unfold FitingTree.findSegmentIndex, BTree.range_search.
  cbn [FitingTree.segment_index]. fold idx.
  rewrite (range_search_inorder FitingTree.key _ _ _ _ None None (Nat.le_refl _) Ho).
  cbn [bind]. rewrite Hin.
  set (band := key_in_band FitingTree.key (FitingTree.mkKeyIndex 0 (-1))
                 (FitingTree.mkKeyIndex k (-1))) in *.
  set (results := filter band (index_entries (FitingTree.segments ft2) 0)) in *.
  assert (Hsorted : sorted_in FitingTree.key None (Some k) results).
  { apply sorted_in_upper.
    - apply sorted_in_filter. rewrite <- Hin.
      apply (inorder_sorted FitingTree.key _ _ None None (Nat.le_refl _) Ho).
    - intros x Hx. apply filter_In in Hx. destruct Hx as [_ Hx].
      unfold band, key_in_band in Hx. apply andb_true_iff in Hx.
      destruct Hx as [_ Hx]. apply Z.leb_le in Hx. exact Hx. }
  destruct results as [|r0 rest] eqn:Hres; [contradiction|].
  assert (Hs2 : sorted_in FitingTree.key (Some (FitingTree.key r0)) (Some k)
                  (r0 :: rest)).
  { inversion Hsorted; subst. constructor; simpl; auto; lia. }
  rewrite (fold_picks_last k (r0 :: rest) _ _ (FitingTree.mkKeyIndex 0 0) Hs2).
  cbn [fst]. rewrite Hl. cbn [FitingTree.index]. f_equal.
  apply int_of_fits. unfold int_min. lia.
Qed.

Lemma fiting_segment_of_stored_key_witness :
  exists j s,
    FitingTree.findSegmentIndex (fiting_of 1 [0; 1; 2; 3; 1000]) 1000 = Some j
    /\ nth_Z (FitingTree.segments (fiting_of 1 [0; 1; 2; 3; 1000])) j = Some s
    /\ FitingTree.start_position s <= 4 <= FitingTree.end_position s.
Proof.
  apply (fiting_segment_of_stored_key 1 [0; 1; 2; 3; 1000]).
  - vm_compute. reflexivity.
  - vm_compute. discriminate.
  - apply sorted_unique_nodup, ascends_sorted_unique. reflexivity.
  - repeat constructor; lia.
  - reflexivity.
Defined.

Lemma rmi_range_query_sound_witness :
  (In 2 (RMI.data rmi_identity) /\ 2 <= 3) /\ 1 <= 2.
Proof.
  assert (Hasc : ascending (RMI.data rmi_identity))
    by (apply ascends_ascending; reflexivity).
  assert (Hq : RMI.range_query rmi_identity 1 3 = Some [1; 2; 3]) by reflexivity.
  destruct (rmi_range_query_sound rmi_identity 1 3 [1; 2; 3] Hasc Hq) as [Hup Hlow].
  split.
  - apply Hup. right. now left.
  - apply (Hlow 0 2);
      [vm_compute; discriminate|reflexivity|vm_compute; discriminate
      |right; now left].
Defined.

Lemma radix_table_shape_witness :
  size (RadixSpline.radix_table_ (spline_of [10; 20; 30] 4)) = 2 ^ 4 + 1
  /\ StronglySorted Z.le (RadixSpline.radix_table_ (spline_of [10; 20; 30] 4))
  /\ Forall (fun v => 0 <= v < size (RadixSpline.spline_points_ (spline_of [10; 20; 30] 4)))
            (RadixSpline.radix_table_ (spline_of [10; 20; 30] 4))
  /\ last (RadixSpline.radix_table_ (spline_of [10; 20; 30] 4)) 0
     = size (RadixSpline.spline_points_ (spline_of [10; 20; 30] 4)) - 1.
Proof.
  apply (radix_table_shape RadixSpline.init _ [10; 20; 30] 4).
  vm_compute. reflexivity.
Defined.

(** *** Positions that lookup reports *)

(** What [found_at] reports is the absence sentinel or the position of a
    place that holds the key, converted to [int]; in an array of at most
    [int_max] keys that is the position. *)
Lemma found_at_position (d : list Z) (it k p : Z) :
  found_at d it k = Some p ->
  p = -1
  \/ exists q, nth_Z d q = Some k /\ p = int_of q /\ (size d <= int_max -> p = q).
Proof.
  intros H. destruct (found_at_stored _ _ _ _ H) as [|[Hp Hk]]; [now left|].
  right. exists it. split; [exact Hk|]. split; [exact Hp|].
  intros Hsz. subst p. apply nth_Z_some_range in Hk.
  apply int_of_fits. unfold int_min. lia.
Qed.

Lemma rmi_lookup_stored (r : RMI.RMI) (k p : Z) :
  RMI.lookup r k = Some p ->
  p = -1
  \/ exists q, nth_Z (RMI.data r) q = Some k /\ p = int_of q
               /\ (size (RMI.data r) <= int_max -> p = q).
Proof.
  unfold RMI.lookup. destruct (RMI.data r) as [|d0 dr] eqn:Hd.
  - intros E; inversion E; auto.
  - rewrite <- Hd. destruct (RMI.branch_factor r =? 0).
    + intros H. bind_inv H. eapply found_at_position; eauto.
    + intros H. bind_inv H. bind_inv H. bind_inv H.
      eapply found_at_position; eauto.
Qed.

Lemma fiting_lookup_position (ft : FitingTree.FitingTree) (k p : Z) :
  FitingTree.lookup ft k = Some p ->
  p = -1
  \/ exists q, nth_Z (FitingTree.data ft) q = Some k /\ p = int_of q
               /\ (size (FitingTree.data ft) <= int_max -> p = q).
Proof.
  unfold FitingTree.lookup.
  destruct (FitingTree.no_data ft); [intros H; inversion H; auto|].
  intros H. do 4 bind_inv H. eapply found_at_position; eauto.
Qed.

Lemma radix_lookup_stored (rs : RadixSpline.RadixSpline) (k p : Z) :
  RadixSpline.lookup rs k = Some p ->
  p = -1
  \/ exists q, nth_Z (RadixSpline.data rs) q = Some k /\ p = int_of q
               /\ (size (RadixSpline.data rs) <= int_max -> p = q).
Proof.
  unfold RadixSpline.lookup. destruct (RadixSpline.data rs) as [|d0 dr] eqn:Hd.
  - intros E; inversion E; auto.
  - rewrite <- Hd. intros H. bind_inv H. cbv zeta in H.
    destruct (_ || _); [inversion H; auto|].
    bind_inv H. eapply found_at_position; eauto.
Qed.

(** X13. RMI, FITing-Tree and RadixSpline, in every state (any model, any data,
    sorted or not): whenever lookup(k) returns a value other than -1, the data
    array holds k at some position q and the value is q converted to int, the
    result type of lookup; when the array has at most INT_MAX keys the value
    is q itself, so the array holds k at the reported position. *)
Theorem lookup_reports_positions_of_the_key (k p : Z) :
  (forall r, RMI.lookup r k = Some p ->
     p = -1
     \/ exists q, nth_Z (RMI.data r) q = Some k /\ p = int_of q
                  /\ (size (RMI.data r) <= int_max -> p = q))
  /\ (forall ft, FitingTree.lookup ft k = Some p ->
        p = -1
        \/ exists q, nth_Z (FitingTree.data ft) q = Some k /\ p = int_of q
                     /\ (size (FitingTree.data ft) <= int_max -> p = q))
  /\ (forall rs, RadixSpline.lookup rs k = Some p ->
        p = -1
        \/ exists q, nth_Z (RadixSpline.data rs) q = Some k /\ p = int_of q
                     /\ (size (RadixSpline.data rs) <= int_max -> p = q)).
Proof.
  split; [|split].
  - intros r. apply rmi_lookup_stored.
  - intros ft. apply fiting_lookup_position.
  - intros rs. apply radix_lookup_stored.
Qed.

Lemma lookup_reports_positions_of_the_key_witness :
  nth_Z (RMI.data rmi_identity) 3 = Some 3.
Proof.
  destruct (proj1 (lookup_reports_positions_of_the_key 3 3) rmi_identity eq_refl)
    as [H|[q [Hk [_ Hq]]]]; [discriminate H|].
  assert (Hsz : size (RMI.data rmi_identity) <= int_max)
    by (vm_compute; discriminate).
  rewrite <- (Hq Hsz) in Hk. exact Hk.
Defined.

(** *** The model arrays of the RMI *)

(** X11. RMI: when 1 <= branch_factor <= number of stage-2 models and min_errors
    and max_errors have one entry per model, every index that predict_position
    computes for the stage-2 model (clamp of the truncated stage-1 prediction
    to [0, branch_factor-1]) is a valid position of stage2_models, min_errors
    and max_errors. *)
Theorem rmi_model_index_in_range (r : RMI.RMI) (k i : Z) :
  1 <= RMI.branch_factor r <= size (RMI.stage2_models r) ->
  size (RMI.min_errors r) = size (RMI.stage2_models r) ->
  size (RMI.max_errors r) = size (RMI.stage2_models r) ->
  RMI.stage2_index r k = Some i ->
  exists m mn mx,
    nth_Z (RMI.stage2_models r) i = Some m
    /\ nth_Z (RMI.min_errors r) i = Some mn
    /\ nth_Z (RMI.max_errors r) i = Some mx.
Proof.
  intros HB Hmin Hmax H. unfold RMI.stage2_index in H.
  bind_inv H. bind_inv H. injection H as <-.
  match goal with E : int_sub _ _ = Some ?b |- _ =>
    unfold int_sub, int_chk in E;
    destruct ((int_min <=? RMI.branch_factor r - 1)
              && (RMI.branch_factor r - 1 <=? int_max)); [|discriminate];
    injection E as <-
  end.
  set (i := Z.max 0 (Z.min (RMI.branch_factor r - 1) z)).
  assert (Hi : 0 <= i < size (RMI.stage2_models r)) by lia.
  destruct (nth_Z_in_range (RMI.stage2_models r) i Hi) as [m Hm].
  destruct (nth_Z_in_range (RMI.min_errors r) i) as [mn Hmn]; [lia|].
  destruct (nth_Z_in_range (RMI.max_errors r) i) as [mx Hmx]; [lia|].
  eauto 10.
Qed.

Lemma rmi_model_index_in_range_witness :
  exists m mn mx,
    nth_Z (RMI.stage2_models rmi_three_quarters) 0 = Some m
    /\ nth_Z (RMI.min_errors rmi_three_quarters) 0 = Some mn
    /\ nth_Z (RMI.max_errors rmi_three_quarters) 0 = Some mx.
Proof.
  apply (rmi_model_index_in_range rmi_three_quarters 5 0).
  - vm_compute. split; discriminate.
  - reflexivity.
  - reflexivity.
  - reflexivity.
Defined.

(** *** Whitespace around a line of the model file *)

Lemma drop_space_app (pre l : list ascii) :
  forallb is_space pre = true -> drop_space (pre ++ l) = drop_space l.
Proof.
  induction pre as [|c pre IH]; simpl; [reflexivity|].
  intros H. apply andb_true_iff in H. destruct H as [Hc Hp]. rewrite Hc. auto.
Qed.

Lemma drop_space_all (l : list ascii) :
  forallb is_space l = true -> drop_space l = [].
Proof.
  induction l as [|c l IH]; simpl; [reflexivity|].
  intros H. apply andb_true_iff in H. destruct H as [Hc Hl]. rewrite Hc. auto.
Qed.

Lemma drop_space_app_r (l post : list ascii) :
  drop_space (l ++ post)
  = match drop_space l with
    | [] => drop_space post
    | c :: r => (c :: r) ++ post
    end.
Proof.
  induction l as [|c l IH]; simpl; [reflexivity|].
  destruct (is_space c); [exact IH|reflexivity].
Qed.

Lemma forallb_rev_space (l : list ascii) :
  forallb is_space l = true -> forallb is_space (rev l) = true.
Proof.
  rewrite !forallb_forall. intros H x Hx. apply H. now apply in_rev.
Qed.

Lemma drop_space_keeps_tail (l post : list ascii) :
  forallb is_space post = true ->
  rev (drop_space (rev (drop_space (l ++ post))))
  = rev (drop_space (rev (drop_space l))).
Proof.
  intros Hp. rewrite drop_space_app_r.
  destruct (drop_space l) as [|c r].
  - now rewrite (drop_space_all post Hp).
  - rewrite rev_app_distr.
    now rewrite (drop_space_app (rev post)) by (now apply forallb_rev_space).
Qed.

Lemma trim_padding (pre post : list ascii) (s : string) :
  forallb is_space pre = true -> forallb is_space post = true ->
  trim (string_of_list_ascii (pre ++ list_ascii_of_string s ++ post)) = trim s.
Proof.
  intros Hpre Hpost. unfold trim. f_equal.
  rewrite list_ascii_of_string_of_list_ascii.
  rewrite drop_space_app by exact Hpre.
  now apply drop_space_keeps_tail.
Qed.

(** X12. RMI model parser: a line of the model file is handled by parseRMIModel as
    the same line without the blanks, tabs, carriage returns and newlines
    before and after it: trim removes them before any test of the line. *)
Theorem parse_line_ignores_padding (stod : string -> option double)
    (st : RMI.parser_state) (pre post : list ascii) (line : string) :
  forallb is_space pre = true -> forallb is_space post = true ->
  RMI.parse_line stod st
    (string_of_list_ascii (pre ++ list_ascii_of_string line ++ post))
  = RMI.parse_line stod st line.
Proof.
  intros Hpre Hpost. unfold RMI.parse_line.
  now rewrite (trim_padding pre post line Hpre Hpost).
Qed.

Lemma parse_line_ignores_padding_witness :
  RMI.parse_line stod_decimal
    (RMI.mkParser some_params false true RMI.zero_params)
    (string_of_list_ascii
       (list_ascii_of_string "    "
        ++ list_ascii_of_string (field "min_error" "-3,")
        ++ list_ascii_of_string "  "))
  = RMI.parse_line stod_decimal
      (RMI.mkParser some_params false true RMI.zero_params)
      (field "min_error" "-3,").
Proof.
  apply (parse_line_ignores_padding stod_decimal _
           (list_ascii_of_string "    ") (list_ascii_of_string "  ")
           (field "min_error" "-3,")); reflexivity.
Defined.

(** *** Vectors *)

Lemma back_snoc {A : Type} (l : list A) (x : A) : BTree.back (l ++ [x]) = Some x.
Proof.
  unfold BTree.back. rewrite length_app. cbn [length].
  replace (length l + 1 - 1)%nat with (length l) by lia.
  now apply nth_error_middle.
Qed.

Lemma back_some {A : Type} (l : list A) (x : A) :
  BTree.back l = Some x -> l = removelast l ++ [x].
Proof.
  destruct l as [|z l]; [discriminate|].
  destruct (@exists_last _ (z :: l)) as [l' [y E]]; [discriminate|].
  rewrite E, back_snoc. intros H. injection H as ->. now rewrite removelast_last.
Qed.

Lemma back_nonempty {A : Type} (l : list A) :
  l <> [] -> exists l' x, l = l' ++ [x].
Proof. intros H. destruct (exists_last H) as [l' [x ->]]. eauto. Qed.

Lemma erase_at_middle {A : Type} (a b : list A) (x : A) (i : nat) :
  i = length a -> BTree.erase_at (a ++ x :: b) i = Some (a ++ b).
Proof.
  intros ->. unfold BTree.erase_at.
  assert (H : (length a <? length (a ++ x :: b))%nat = true)
    by (apply Nat.ltb_lt; rewrite length_app; cbn [length]; lia).
  rewrite H. f_equal. f_equal.
  - rewrite firstn_app, Nat.sub_diag, firstn_all. cbn [firstn]. now rewrite app_nil_r.
  - rewrite skipn_app, skipn_all2 by lia.
    replace (S (length a) - length a)%nat with 1%nat by lia. reflexivity.
Qed.

Lemma set_nth_same {A : Type} (l : list A) (i : nat) (x : A) :
  nth_error l i = Some x -> set_nth l i x = l.
Proof.
  revert i. induction l as [|y l IH]; intros [|i] H; simpl in *; try discriminate.
  - now inversion H.
  - f_equal. now apply IH.
Qed.

Lemma nth_error_second {A : Type} (a b : list A) (x y : A) (i : nat) :
  i = S (length a) -> nth_error (a ++ x :: y :: b) i = Some y.
Proof.
  intros ->. change (a ++ x :: y :: b) with (a ++ [x] ++ y :: b).
  rewrite app_assoc. apply nth_error_middle. rewrite length_app. cbn [length]. lia.
Qed.

Lemma set_nth_second {A : Type} (a b : list A) (x y z : A) (i : nat) :
  i = S (length a) -> set_nth (a ++ x :: y :: b) i z = a ++ x :: z :: b.
Proof.
  intros ->. change (a ++ x :: y :: b) with (a ++ [x] ++ y :: b).
  rewrite app_assoc, set_nth_middle by (rewrite length_app; cbn [length]; lia).
  now rewrite <- app_assoc.
Qed.

Lemma split_at_index {A : Type} (l : list A) (i : nat) :
  (i <= length l)%nat ->
  exists a b, l = a ++ b /\ length a = i.
Proof.
  intros H. exists (firstn i l), (skipn i l). split.
  - now rewrite firstn_skipn.
  - rewrite length_firstn. lia.
Qed.

Lemma split_at_nth {A : Type} (l : list A) (i : nat) (x : A) :
  nth_error l i = Some x ->
  exists a b, l = a ++ x :: b /\ length a = i.
Proof.
  intros H. exists (firstn i l), (skipn (S i) l). split.
  - now apply nth_error_decompose.
  - rewrite length_firstn.
    assert (i < length l)%nat by (apply nth_error_Some; congruence). lia.
Qed.

Lemma app_same_length {A : Type} (a b a' b' : list A) :
  a ++ b = a' ++ b' -> length a = length a' -> a = a' /\ b = b'.
Proof.
  revert a'. induction a as [|x a IH]; intros [|y a'] H L; simpl in *;
    try discriminate; auto.
  injection H as -> H. destruct (IH a' H) as [-> ->]; auto.
Qed.

(** *** The shape of a node *)

Section ShapeMore.
Context {T : Type}.
Variables floor cap : Z.

Lemma shaped_children_height (h : nat) (cs : list (BTree.Node T)) :
  (forall c, In c cs -> BTree.height c = h) -> cs <> [] -> tallest cs = h.
Proof.
  unfold tallest. induction cs as [|c cs IH]; intros Hall Hne; [congruence|].
  cbn [map fold_right]. rewrite (Hall c) by now left.
  destruct cs as [|d cs]; [simpl; lia|].
  rewrite IH; [lia| |discriminate]. intros e He. apply Hall. now right.
Qed.

Lemma shaped_height :
  forall (h : nat) (n : BTree.Node T),
    shaped floor cap h n = true -> BTree.height n = h.
Proof.
  induction h as [|h IH]; intros [lf ks cs] Hs; [discriminate|].
  rewrite height_node. destruct lf.
  - apply shaped_leaf in Hs. destruct Hs as [E [_ ->]]. now rewrite E.
  - apply shaped_inner in Hs. destruct Hs as [h' [E [_ [Hlen Hall]]]].
    injection E as <-. f_equal. apply shaped_children_height.
    + intros c Hc. apply IH. rewrite forallb_forall in Hall.
      specialize (Hall c Hc). apply child_ok_iff in Hall. tauto.
    + destruct cs; [discriminate|discriminate].
Qed.

Lemma shaped_is_leaf (h : nat) (n : BTree.Node T) :
  shaped floor cap h n = true -> BTree.is_leaf n = (h =? 1)%nat.
Proof.
  destruct n as [lf ks cs]. cbn [BTree.is_leaf]. destruct lf; intros Hs.
  - apply shaped_leaf in Hs. destruct Hs as [-> _]. reflexivity.
  - apply shaped_inner in Hs. destruct Hs as [h' [-> [_ [Hlen Hall]]]].
    destruct cs as [|c cs]; [discriminate|].
    cbn [forallb] in Hall. apply andb_true_iff in Hall. destruct Hall as [Hc _].
    apply child_ok_iff in Hc. destruct Hc as [_ Hc].
    destruct h'; [discriminate|reflexivity].
Qed.

Lemma shaped_same_kind (h : nat) (a b : BTree.Node T) :
  shaped floor cap h a = true -> shaped floor cap h b = true ->
  BTree.is_leaf a = BTree.is_leaf b.
Proof.
  intros Ha Hb. now rewrite (shaped_is_leaf _ _ Ha), (shaped_is_leaf _ _ Hb).
Qed.

Lemma shaped_leaf_children (h : nat) (n : BTree.Node T) :
  shaped floor cap h n = true -> BTree.is_leaf n = true -> BTree.children n = [].
Proof.
  destruct n as [lf ks cs]. cbn [BTree.is_leaf BTree.children].
  intros Hs ->. apply shaped_leaf in Hs. tauto.
Qed.

Lemma shaped_eta (h : nat) (n : BTree.Node T) :
  BTree.mkNode (BTree.is_leaf n) (BTree.keys n) (BTree.children n) = n.
Proof. now destruct n. Qed.

End ShapeMore.

(** *** Counting keys *)

Section Counting.
Context {T : Type}.
Variable key_of : T -> Z.

Lemma occurrences_nil (z : Z) : occurrences key_of z [] = 0%nat.
Proof. reflexivity. Qed.

Lemma occurrences_cons (z : Z) (x : T) (l : list T) :
  occurrences key_of z (x :: l) = (hit (key_of x) z + occurrences key_of z l)%nat.
Proof.
  unfold occurrences, hit. cbn [map count_occ].
  destruct (Z.eq_dec (key_of x) z); lia.
Qed.

Lemma occurrences_app (z : Z) (a b : list T) :
  occurrences key_of z (a ++ b)
  = (occurrences key_of z a + occurrences key_of z b)%nat.
Proof. unfold occurrences. now rewrite map_app, count_occ_app. Qed.

Lemma occurrences_pos (z : Z) (l : list T) :
  (0 < occurrences key_of z l)%nat <-> exists x, In x l /\ key_of x = z.
Proof.
  unfold occurrences.
  pose proof (count_occ_In Z.eq_dec (map key_of l) z) as H.
  rewrite in_map_iff in H. unfold gt in H. split.
  - intros Hp. apply H in Hp. destruct Hp as [x [E Hx]]. eauto.
  - intros [x [Hx E]]. apply H. eauto.
Qed.

Lemma hit_same (a b z : Z) : a = b -> hit a z = hit b z.
Proof. now intros ->. Qed.

End Counting.

(** *** Moving keys and children inside a search tree *)

Section Surgery.
Context {T : Type}.
Variable key_of : T -> Z.

Lemma sorted_rebound lo hi lo' hi' (ks : list T) :
  sorted_in key_of lo hi ks ->
  (forall x, In x ks -> above lo' (key_of x) /\ below hi' (key_of x)) ->
  sorted_in key_of lo' hi' ks.
Proof.
  intros Hs. revert lo'.
  induction Hs as [|lo hi k ks Ha Hb Hs IH]; intros lo' Hin; constructor.
  - apply Hin. now left.
  - apply Hin. now left.
  - apply IH. intros x Hx. split.
    + apply (sorted_in_bounds key_of _ _ _ _ Hs Hx).
    + apply Hin. now right.
Qed.

Lemma children_all_bounds lo hi ks cs (x : T) :
  ordered_children key_of lo hi ks cs ->
  In x (ks ++ flat_map all_keys cs) ->
  above lo (key_of x) /\ below hi (key_of x).
Proof.
  intros Hcs Hx.
  apply (ordered_keys_bounded key_of (BTree.mkNode false ks cs)).
  - now constructor.
  - exact Hx.
Qed.

Lemma children_rebound lo hi lo' hi' ks cs :
  ordered_children key_of lo hi ks cs ->
  (forall c lo hi lo' hi', In c cs -> ordered key_of lo hi c ->
     (forall x, In x (all_keys c) -> above lo' (key_of x) /\ below hi' (key_of x)) ->
     ordered key_of lo' hi' c) ->
  (forall x, In x (ks ++ flat_map all_keys cs) ->
     above lo' (key_of x) /\ below hi' (key_of x)) ->
  ordered_children key_of lo' hi' ks cs.
Proof.
  intros Hcs. revert lo'.
  induction Hcs as [lo hi c Hc|lo hi k ks c cs Ha Hb Hc Hcs IH]; intros lo' Hrec Hin.
  - constructor. apply (Hrec c lo hi); [now left|exact Hc|].
    intros x Hx. apply Hin. simpl. now rewrite app_nil_r.
  - assert (Hk : above lo' (key_of k) /\ below hi' (key_of k))
      by (apply Hin; now left).
    constructor; try tauto.
    + apply (Hrec c lo (Some (key_of k))); [now left|exact Hc|].
      intros x Hx. split.
      * apply Hin. simpl. right. apply in_or_app. right. apply in_or_app. now left.
      * apply (ordered_keys_bounded key_of _ _ _ _ Hc Hx).
    + apply IH.
      * intros d l h l' h' Hd. apply Hrec. now right.
      * intros x Hx. split.
        -- apply (children_all_bounds _ _ _ _ _ Hcs Hx).
        -- apply Hin. simpl. right. apply in_app_or in Hx. apply in_or_app.
           destruct Hx; [now left|right]. apply in_or_app. now right.
Qed.

Lemma ordered_rebound_fuel :
  forall (f : nat) (n : BTree.Node T) lo hi lo' hi',
    (BTree.height n <= f)%nat -> ordered key_of lo hi n ->
    (forall x, In x (all_keys n) -> above lo' (key_of x) /\ below hi' (key_of x)) ->
    ordered key_of lo' hi' n.
Proof.
  induction f as [|f IH]; intros n lo hi lo' hi' Hh Ho Hin;
    [destruct n; simpl in Hh; lia|].
  inversion Ho as [lo0 hi0 ks Hs|lo0 hi0 ks cs Hcs]; subst.
  - constructor. apply (sorted_rebound lo hi); [exact Hs|].
    intros x Hx. apply Hin. simpl. now rewrite app_nil_r.
  - constructor. rewrite height_node in Hh.
    apply (children_rebound lo hi); [exact Hcs| |exact Hin].
    intros c l h l' h' Hc. apply IH.
    pose proof (height_child c cs Hc). lia.
Qed.

(** The bounds of a search tree can be any that hold of its keys. *)
Lemma ordered_rebound (n : BTree.Node T) lo hi lo' hi' :
  ordered key_of lo hi n ->
  (forall x, In x (all_keys n) -> above lo' (key_of x) /\ below hi' (key_of x)) ->
  ordered key_of lo' hi' n.
Proof. apply (ordered_rebound_fuel (BTree.height n)). lia. Qed.

Lemma ordered_weaken (n : BTree.Node T) lo hi lo' hi' :
  ordered key_of lo hi n ->
  (forall k, above lo k -> above lo' k) -> (forall k, below hi k -> below hi' k) ->
  ordered key_of lo' hi' n.
Proof.
  intros Ho Hl Hh. apply (ordered_rebound n lo hi); [exact Ho|].
  intros x Hx. destruct (ordered_keys_bounded key_of _ _ _ _ Ho Hx). auto.
Qed.

(** Whatever happens behind the first [length kl] keys and children of a
    node leaves it a search tree if the rest stays one. *)
Lemma children_prefix lo hi (kl K : list T) (cl C : list (BTree.Node T)) :
  length kl = length cl ->
  ordered_children key_of lo hi (kl ++ K) (cl ++ C) ->
  exists lo',
    ordered_children key_of lo' hi K C
    /\ (forall K' C', ordered_children key_of lo' hi K' C' ->
          ordered_children key_of lo hi (kl ++ K') (cl ++ C')).
Proof.
  revert lo cl. induction kl as [|k kl IH]; intros lo [|c cl] Hlen H;
    try discriminate.
  - exists lo. split; [exact H|]. auto.
  - cbn [app] in H.
    inversion H as [|lo0 hi0 k0 ks0 c0 cs0 Ha Hb Hc Hcs]; subst.
    destruct (IH (Some (key_of k)) cl ltac:(simpl in Hlen; lia) Hcs)
      as [lo' [HK Hre]].
    exists lo'. split; [exact HK|].
    intros K' C' H'. cbn [app]. constructor; auto.
Qed.

Lemma children_replace_first lo hi (K : list T) (c c' : BTree.Node T)
    (cr : list (BTree.Node T)) :
  (forall lo hi, ordered key_of lo hi c -> ordered key_of lo hi c') ->
  ordered_children key_of lo hi K (c :: cr) ->
  ordered_children key_of lo hi K (c' :: cr).
Proof.
  intros Hc H. inversion H; subst; constructor; auto.
Qed.

(** A key between two children and the two children are replaced. *)
Lemma children_rotate lo hi (k u : T) (kr : list T) (c1 c2 c1' c2' : BTree.Node T)
    (cr : list (BTree.Node T)) :
  (forall lo hi, above lo (key_of k) -> below hi (key_of k) ->
     ordered key_of lo (Some (key_of k)) c1 ->
     ordered key_of (Some (key_of k)) hi c2 ->
     above lo (key_of u) /\ below hi (key_of u)
     /\ ordered key_of lo (Some (key_of u)) c1'
     /\ ordered key_of (Some (key_of u)) hi c2') ->
  ordered_children key_of lo hi (k :: kr) (c1 :: c2 :: cr) ->
  ordered_children key_of lo hi (u :: kr) (c1' :: c2' :: cr).
Proof.
  intros Hrot H.
  inversion H as [|lo0 hi0 k0 ks0 c0 cs0 Ha Hb Hc Hcs]; subst.
  inversion Hcs as [lo1 hi1 c3 Hc3|lo1 hi1 k1 ks1 c3 cs1 Ha1 Hb1 Hc3 Hcs1]; subst.
  - destruct (Hrot lo hi Ha Hb Hc Hc3) as [A [B [C D]]].
    constructor; auto. now constructor.
  - simpl in Ha1.
    destruct (Hrot lo (Some (key_of k1)) Ha Ha1 Hc Hc3) as [A [B [C D]]].
    simpl in B. constructor; auto.
    + eapply below_le; eauto.
    + constructor; auto.
Qed.

(** A key and the two children around it are replaced by one child. *)
Lemma children_join lo hi (k : T) (kr : list T) (c1 c2 m : BTree.Node T)
    (cr : list (BTree.Node T)) :
  (forall lo hi, above lo (key_of k) -> below hi (key_of k) ->
     ordered key_of lo (Some (key_of k)) c1 ->
     ordered key_of (Some (key_of k)) hi c2 ->
     ordered key_of lo hi m) ->
  ordered_children key_of lo hi (k :: kr) (c1 :: c2 :: cr) ->
  ordered_children key_of lo hi kr (m :: cr).
Proof.
  intros Hj H.
  inversion H as [|lo0 hi0 k0 ks0 c0 cs0 Ha Hb Hc Hcs]; subst.
  inversion Hcs as [lo1 hi1 c3 Hc3|lo1 hi1 k1 ks1 c3 cs1 Ha1 Hb1 Hc3 Hcs1]; subst.
  - constructor. now apply Hj.
  - simpl in Ha1.
    constructor; [eapply above_le; eauto|exact Hb1|apply Hj; auto|exact Hcs1].
Qed.

Lemma join_ordered_children lo hi (a b : list T) (k : T)
    (ca cb : list (BTree.Node T)) :
  ordered_children key_of lo (Some (key_of k)) a ca ->
  ordered_children key_of (Some (key_of k)) hi b cb ->
  above lo (key_of k) -> below hi (key_of k) ->
  ordered_children key_of lo hi (a ++ k :: b) (ca ++ cb).
Proof.
  intros Ha. remember (Some (key_of k)) as mid eqn:Hm. revert Hm.
  induction Ha as [lo mid c Hc|lo mid k0 ks c cs Hka Hkb Hc Hcs IH];
    intros Hm Hb Hl Hh; subst; cbn [app].
  - constructor; auto.
  - simpl in Hkb.
    constructor; [exact Hka|eapply below_le; eauto|exact Hc|apply IH; auto].
Qed.

(** The node [merge_children] builds. *)
Lemma merge_ordered lo hi (k : T) (lf : bool) (ks1 ks2 : list T)
    (cs1 cs2 : list (BTree.Node T)) :
  above lo (key_of k) -> below hi (key_of k) ->
  ordered key_of lo (Some (key_of k)) (BTree.mkNode lf ks1 cs1) ->
  ordered key_of (Some (key_of k)) hi (BTree.mkNode lf ks2 cs2) ->
  ordered key_of lo hi
    (BTree.mkNode lf (ks1 ++ k :: ks2) (if lf then cs1 else cs1 ++ cs2)).
Proof.
  intros Ha Hb H1 H2. inversion H1; subst; inversion H2; subst.
  - constructor. now apply (sorted_in_app key_of).
  - constructor. now apply join_ordered_children.
Qed.

(** Splitting off the last key and child of a node. *)
Lemma unsnoc_ordered lo hi (lf : bool) (sk : list T) (up : T)
    (sc : list (BTree.Node T)) (mc : BTree.Node T) :
  ordered key_of lo hi
    (BTree.mkNode lf (sk ++ [up]) (if lf then [] else sc ++ [mc])) ->
  above lo (key_of up) /\ below hi (key_of up)
  /\ ordered key_of lo (Some (key_of up))
       (BTree.mkNode lf sk (if lf then [] else sc))
  /\ (lf = false -> ordered key_of (Some (key_of up)) hi mc).
Proof.
  intros H. destruct lf; inversion H as [? ? ? Hs|? ? ? ? Hcs]; subst.
  - destruct (split_sorted key_of _ _ _ _ _ Hs) as [S1 [_ [A B]]].
    repeat split; auto. now constructor. discriminate.
  - pose proof (children_length key_of _ _ _ _ Hcs) as Hl.
    rewrite !length_app in Hl. cbn [length] in Hl.
    destruct (split_ordered_children key_of _ _ _ _ _ _ Hcs) as [S1 [S2 [A B]]].
    rewrite firstn_app in S1. rewrite skipn_app in S2.
    replace (S (length sk) - length sc)%nat with 0%nat in * by lia.
    rewrite firstn_all2 in S1 by lia. rewrite skipn_all2 in S2 by lia.
    cbn [firstn skipn app] in *. rewrite app_nil_r in S1.
    repeat split; auto. now constructor.
    intros _. now inversion S2.
Qed.

(** Splitting off the first key and child of a node. *)
Lemma uncons_ordered lo hi (lf : bool) (up : T) (sk : list T)
    (mc : BTree.Node T) (sc : list (BTree.Node T)) :
  ordered key_of lo hi
    (BTree.mkNode lf (up :: sk) (if lf then [] else mc :: sc)) ->
  above lo (key_of up) /\ below hi (key_of up)
  /\ ordered key_of (Some (key_of up)) hi
       (BTree.mkNode lf sk (if lf then [] else sc))
  /\ (lf = false -> ordered key_of lo (Some (key_of up)) mc).
Proof.
  intros H. destruct lf; inversion H as [? ? ? Hs|? ? ? ? Hcs]; subst.
  - inversion Hs; subst. repeat split; auto. now constructor. discriminate.
  - inversion Hcs; subst. repeat split; auto. now constructor.
Qed.

(** Putting a key and a child in front of a node. *)
Lemma cons_ordered lo hi (lf : bool) (k : T) (ks : list T)
    (mc : BTree.Node T) (cs : list (BTree.Node T)) :
  above lo (key_of k) -> below hi (key_of k) ->
  (lf = false -> ordered key_of lo (Some (key_of k)) mc) ->
  ordered key_of (Some (key_of k)) hi (BTree.mkNode lf ks cs) ->
  ordered key_of lo hi
    (BTree.mkNode lf (k :: ks) (if lf then cs else mc :: cs)).
Proof.
  intros Ha Hb Hm H. destruct lf; inversion H; subst.
  - constructor. now constructor.
  - constructor. constructor; auto.
Qed.

(** Putting a key and a child behind a node. *)
Lemma snoc_ordered lo hi (lf : bool) (k : T) (ks : list T)
    (mc : BTree.Node T) (cs : list (BTree.Node T)) :
  above lo (key_of k) -> below hi (key_of k) ->
  (lf = false -> ordered key_of (Some (key_of k)) hi mc) ->
  ordered key_of lo (Some (key_of k)) (BTree.mkNode lf ks cs) ->
  ordered key_of lo hi
    (BTree.mkNode lf (ks ++ [k]) (if lf then cs else cs ++ [mc])).
Proof.
  intros Ha Hb Hm H. destruct lf; inversion H; subst.
  - constructor. apply (sorted_in_app key_of); auto. constructor.
  - constructor. apply join_ordered_children; auto. constructor. auto.
Qed.

End Surgery.

(** *** What the helpers of [remove_internal] build *)

Section Helpers.
Context {T : Type}.

Lemma erase_at_second {A : Type} (a b : list A) (x y : A) (i : nat) :
  i = S (length a) -> BTree.erase_at (a ++ x :: y :: b) i = Some (a ++ x :: b).
Proof.
  intros ->. change (a ++ x :: y :: b) with (a ++ [x] ++ y :: b).
  rewrite app_assoc, erase_at_middle by (rewrite length_app; cbn [length]; lia).
  now rewrite <- app_assoc.
Qed.

Lemma merge_children_eq (lf : bool) (kl kr : list T) (k : T)
    (cl cr : list (BTree.Node T)) (c1 c2 : BTree.Node T) :
  length kl = length cl ->
  BTree.merge_children (BTree.mkNode lf (kl ++ k :: kr) (cl ++ c1 :: c2 :: cr))
    (length cl)
  = Some (BTree.mkNode lf (kl ++ kr)
            (cl ++ BTree.mkNode (BTree.is_leaf c1)
                     (BTree.keys c1 ++ k :: BTree.keys c2)
                     (if BTree.is_leaf c1 then BTree.children c1
                      else BTree.children c1 ++ BTree.children c2)
                :: cr)).
Proof.
  intros Hlen. unfold BTree.merge_children.
  cbn [BTree.children BTree.keys BTree.is_leaf].
  rewrite nth_error_middle by reflexivity. cbn [bind].
  rewrite nth_error_second by reflexivity. cbn [bind].
  rewrite nth_error_middle by (symmetry; exact Hlen). cbn [bind].
  rewrite erase_at_middle by (symmetry; exact Hlen). cbn [bind].
  rewrite set_nth_middle by reflexivity.
  rewrite erase_at_second by reflexivity. reflexivity.
Qed.

Lemma borrow_from_prev_eq (lf sl chl : bool) (kl kr sk cks : list T) (k up : T)
    (cl cr scs sc ccs : list (BTree.Node T)) (mc : BTree.Node T) :
  length kl = length cl ->
  (chl = false -> scs = sc ++ [mc]) ->
  BTree.borrow_from_prev
    (BTree.mkNode lf (kl ++ k :: kr)
       (cl ++ BTree.mkNode sl (sk ++ [up]) scs :: BTree.mkNode chl cks ccs :: cr))
    (S (length cl))
  = Some (BTree.mkNode lf (kl ++ up :: kr)
            (cl ++ BTree.mkNode sl sk (if chl then scs else sc)
                :: BTree.mkNode chl (k :: cks) (if chl then ccs else mc :: ccs)
                :: cr)).
Proof.
  intros Hlen Hsc. unfold BTree.borrow_from_prev.
  cbn [BTree.children BTree.keys BTree.is_leaf].
  rewrite nth_error_second by reflexivity. cbn [bind Nat.eqb].
  replace (S (length cl) - 1)%nat with (length cl) by lia.
  rewrite nth_error_middle by reflexivity. cbn [bind].
  rewrite nth_error_middle by (symmetry; exact Hlen). cbn [bind].
  cbn [BTree.children BTree.keys BTree.is_leaf].
  rewrite back_snoc. cbn [bind]. rewrite removelast_last.
  rewrite set_nth_middle by (symmetry; exact Hlen).
  destruct chl.
  - cbn [bind fst snd]. rewrite set_nth_second by reflexivity.
    rewrite set_nth_middle by reflexivity. reflexivity.
  - rewrite (Hsc eq_refl), back_snoc. cbn [bind fst snd].
    rewrite set_nth_second by reflexivity.
    rewrite removelast_last, set_nth_middle by reflexivity. reflexivity.
Qed.

Lemma borrow_from_next_eq (lf sl chl : bool) (kl kr sk cks : list T) (k up : T)
    (cl cr scs sc ccs : list (BTree.Node T)) (mc : BTree.Node T) :
  length kl = length cl ->
  (chl = false -> scs = mc :: sc) ->
  BTree.borrow_from_next
    (BTree.mkNode lf (kl ++ k :: kr)
       (cl ++ BTree.mkNode chl cks ccs :: BTree.mkNode sl (up :: sk) scs :: cr))
    (length cl)
  = Some (BTree.mkNode lf (kl ++ up :: kr)
            (cl ++ BTree.mkNode chl (cks ++ [k]) (if chl then ccs else ccs ++ [mc])
                :: BTree.mkNode sl sk (if chl then scs else sc)
                :: cr)).
Proof.
  intros Hlen Hsc. unfold BTree.borrow_from_next.
  cbn [BTree.children BTree.keys BTree.is_leaf].
  rewrite nth_error_middle by reflexivity. cbn [bind].
  rewrite nth_error_second by reflexivity. cbn [bind].
  rewrite nth_error_middle by (symmetry; exact Hlen). cbn [bind].
  cbn [BTree.children BTree.keys BTree.is_leaf nth_error bind tl].
  rewrite set_nth_middle by (symmetry; exact Hlen).
  destruct chl.
  - cbn [bind fst snd]. rewrite set_nth_middle by reflexivity.
    rewrite set_nth_second by reflexivity. reflexivity.
  - rewrite (Hsc eq_refl). cbn [nth_error bind fst snd tl].
    rewrite set_nth_middle by reflexivity.
    rewrite set_nth_second by reflexivity. reflexivity.
Qed.

End Helpers.

(** *** The shape of the nodes the helpers build *)

Section ShapeSurgery.
Context {T : Type}.
Variables floor cap : Z.

Lemma shaped_node (h' : nat) (ks : list T) (cs : list (BTree.Node T)) :
  shaped floor cap (S h') (BTree.mkNode false ks cs) = true
  <-> size ks <= cap /\ length cs = S (length ks)
      /\ forallb (child_ok floor cap h') cs = true.
Proof.
  rewrite shaped_inner. split.
  - intros [h [E H]]. injection E as <-. exact H.
  - intros H. exists h'. auto.
Qed.

Lemma shaped_cases (h : nat) (lf : bool) (ks : list T) (cs : list (BTree.Node T)) :
  shaped floor cap h (BTree.mkNode lf ks cs) = true ->
  size ks <= cap
  /\ (if lf then h = 1%nat /\ cs = []
      else exists h', h = S h' /\ length cs = S (length ks)
                      /\ forallb (child_ok floor cap h') cs = true).
Proof.
  destruct lf; intros H.
  - apply shaped_leaf in H. tauto.
  - apply shaped_inner in H. destruct H as [h' [E [A [B C]]]]. eauto.
Qed.

Lemma merged_shaped (h : nat) (lf : bool) (k : T) (ks1 ks2 : list T)
    (cs1 cs2 : list (BTree.Node T)) :
  shaped floor cap h (BTree.mkNode lf ks1 cs1) = true ->
  shaped floor cap h (BTree.mkNode lf ks2 cs2) = true ->
  size ks1 + 1 + size ks2 <= cap ->
  shaped floor cap h
    (BTree.mkNode lf (ks1 ++ k :: ks2) (if lf then cs1 else cs1 ++ cs2)) = true.
Proof.
  intros H1 H2 Hsz.
  assert (Hk : size (ks1 ++ k :: ks2) <= cap)
    by (unfold size in *; rewrite length_app; cbn [length]; lia).
  destruct lf.
  - apply shaped_leaf in H1. destruct H1 as [-> [_ ->]].
    apply shaped_leaf. auto.
  - apply shaped_inner in H1. destruct H1 as [h' [-> [_ [L1 A1]]]].
    apply shaped_node in H2. destruct H2 as [_ [L2 A2]].
    apply shaped_node. split; [exact Hk|]. split.
    + rewrite !length_app. cbn [length]. lia.
    + rewrite forallb_app, A1, A2. reflexivity.
Qed.

Lemma unsnoc_shaped (h : nat) (lf : bool) (sk : list T) (up : T)
    (scs sc : list (BTree.Node T)) (mc : BTree.Node T) :
  (lf = false -> scs = sc ++ [mc]) ->
  shaped floor cap h (BTree.mkNode lf (sk ++ [up]) scs) = true ->
  shaped floor cap h (BTree.mkNode lf sk (if lf then scs else sc)) = true
  /\ (lf = false -> exists h', h = S h' /\ child_ok floor cap h' mc = true).
Proof.
  intros Hsc H.
  assert (Hk : size sk <= size (sk ++ [up]))
    by (unfold size; rewrite length_app; cbn [length]; lia).
  destruct lf.
  - apply shaped_leaf in H. destruct H as [-> [Hs ->]]. split; [|discriminate].
    apply shaped_leaf. repeat split; auto. lia.
  - rewrite (Hsc eq_refl) in H.
    apply shaped_inner in H. destruct H as [h' [-> [Hs [L A]]]].
    rewrite forallb_app in A. cbn [forallb] in A.
    apply andb_true_iff in A. destruct A as [A B].
    rewrite andb_true_r in B. split; [|eauto].
    apply shaped_node. split; [lia|]. split; [|exact A].
    rewrite !length_app in L. cbn [length] in L. lia.
Qed.

Lemma uncons_shaped (h : nat) (lf : bool) (up : T) (sk : list T)
    (scs sc : list (BTree.Node T)) (mc : BTree.Node T) :
  (lf = false -> scs = mc :: sc) ->
  shaped floor cap h (BTree.mkNode lf (up :: sk) scs) = true ->
  shaped floor cap h (BTree.mkNode lf sk (if lf then scs else sc)) = true
  /\ (lf = false -> exists h', h = S h' /\ child_ok floor cap h' mc = true).
Proof.
  intros Hsc H.
  assert (Hk : size sk <= size (up :: sk)) by (unfold size; cbn [length]; lia).
  destruct lf.
  - apply shaped_leaf in H. destruct H as [-> [Hs ->]]. split; [|discriminate].
    apply shaped_leaf. repeat split; auto. lia.
  - rewrite (Hsc eq_refl) in H.
    apply shaped_inner in H. destruct H as [h' [-> [Hs [L A]]]].
    cbn [forallb] in A. apply andb_true_iff in A. destruct A as [B A].
    split; [|eauto].
    apply shaped_node. split; [lia|]. split; [|exact A].
    cbn [length] in L. lia.
Qed.

Lemma cons_shaped (h : nat) (lf : bool) (k : T) (ks : list T)
    (cs : list (BTree.Node T)) (mc : BTree.Node T) :
  shaped floor cap h (BTree.mkNode lf ks cs) = true ->
  size ks + 1 <= cap ->
  (lf = false -> exists h', h = S h' /\ child_ok floor cap h' mc = true) ->
  shaped floor cap h (BTree.mkNode lf (k :: ks) (if lf then cs else mc :: cs)) = true.
Proof.
  intros H Hsz Hm.
  assert (Hk : size (k :: ks) <= cap) by (unfold size in *; cbn [length]; lia).
  destruct lf.
  - apply shaped_leaf in H. destruct H as [-> [_ ->]]. apply shaped_leaf. auto.
  - destruct (Hm eq_refl) as [h' [-> Hmc]].
    apply shaped_node in H. destruct H as [_ [L A]].
    apply shaped_node. split; [exact Hk|]. split.
    + cbn [length]. lia.
    + cbn [forallb]. now rewrite Hmc, A.
Qed.

Lemma snoc_shaped (h : nat) (lf : bool) (k : T) (ks : list T)
    (cs : list (BTree.Node T)) (mc : BTree.Node T) :
  shaped floor cap h (BTree.mkNode lf ks cs) = true ->
  size ks + 1 <= cap ->
  (lf = false -> exists h', h = S h' /\ child_ok floor cap h' mc = true) ->
  shaped floor cap h (BTree.mkNode lf (ks ++ [k]) (if lf then cs else cs ++ [mc]))
  = true.
Proof.
  intros H Hsz Hm.
  assert (Hk : size (ks ++ [k]) <= cap)
    by (unfold size in *; rewrite length_app; cbn [length]; lia).
  destruct lf.
  - apply shaped_leaf in H. destruct H as [-> [_ ->]]. apply shaped_leaf. auto.
  - destruct (Hm eq_refl) as [h' [-> Hmc]].
    apply shaped_node in H. destruct H as [_ [L A]].
    apply shaped_node. split; [exact Hk|]. split.
    + rewrite !length_app. cbn [length]. lia.
    + rewrite forallb_app. cbn [forallb]. now rewrite Hmc, A.
Qed.

End ShapeSurgery.

(** *** The predecessor and the successor of a key of an inner node *)

Section Extremes.
Context {T : Type}.
Variable key_of : T -> Z.
Variables floor cap : Z.
Hypothesis Hfloor1 : 1 <= floor.

Lemma nonempty_snoc {A : Type} (l : list A) :
  1 <= size l -> exists l' x, l = l' ++ [x].
Proof.
  intros H. apply back_nonempty. intros ->. unfold size in H. simpl in H. lia.
Qed.

Lemma nonempty_cons {A : Type} (l : list A) :
  1 <= size l -> exists x l', l = x :: l'.
Proof.
  destruct l as [|x l]; [unfold size; simpl; lia|eauto].
Qed.

Lemma last_leaf_max :
  forall (f h : nat) (n : BTree.Node T) lo hi,
    shaped floor cap h n = true -> (h <= f)%nat ->
    1 <= size (BTree.keys n) -> ordered key_of lo hi n ->
    exists leaf p,
      BTree.last_leaf f n = Some leaf
      /\ BTree.back (BTree.keys leaf) = Some p
      /\ In p (all_keys n)
      /\ (forall x, In x (all_keys n) -> key_of x <= key_of p).
Proof.
  induction f as [|f IH]; intros h [lf ks cs] lo hi Hs Hf Hne Ho.
  - destruct h; [discriminate|lia].
  - cbn [BTree.keys] in Hne. destruct (nonempty_snoc ks Hne) as [ks' [kl ->]].
    destruct lf.
    + apply shaped_leaf in Hs. destruct Hs as [-> [_ ->]].
      exists (BTree.mkNode true (ks' ++ [kl]) []), kl.
      cbn [BTree.last_leaf BTree.is_leaf BTree.keys]. rewrite back_snoc.
      rewrite all_keys_node. cbn [flat_map]. rewrite app_nil_r.
      split; [reflexivity|]. split; [reflexivity|].
      split; [apply in_or_app; right; now left|].
      inversion Ho as [? ? ? Hso|]; subst.
      destruct (split_sorted key_of _ _ _ _ _ Hso) as [S1 _].
      intros x Hx. apply in_app_or in Hx. destruct Hx as [Hx|[<-|[]]]; [|lia].
      apply (sorted_in_bounds key_of _ _ _ _ S1 Hx).
    + apply shaped_inner in Hs. destruct Hs as [h' [-> [_ [L A]]]].
      assert (Hcn : 1 <= size cs) by (unfold size; lia).
      destruct (nonempty_snoc cs Hcn) as [cs' [cl ->]].
      rewrite forallb_app in A. cbn [forallb] in A.
      apply andb_true_iff in A. destruct A as [_ A]. rewrite andb_true_r in A.
      apply child_ok_iff in A. destruct A as [Hclf Hcl].
      destruct (unsnoc_ordered key_of lo hi false ks' kl cs' cl Ho)
        as [Ha [Hb [Hleft Hright]]].
      specialize (Hright eq_refl).
      destruct (IH h' cl _ _ Hcl ltac:(lia) ltac:(lia) Hright)
        as [leaf [p [Hll [Hbk [Hin Hmax]]]]].
      exists leaf, p.
      cbn [BTree.last_leaf BTree.is_leaf BTree.children]. rewrite back_snoc.
      cbn [bind]. split; [exact Hll|]. split; [exact Hbk|].
      assert (Hkp : key_of kl <= key_of p)
        by (apply (ordered_keys_bounded key_of _ _ _ _ Hright Hin)).
      rewrite all_keys_node, flat_map_app. cbn [flat_map]. rewrite app_nil_r.
      split; [apply in_or_app; right; apply in_or_app; now right|].
      intros x Hx.
      assert (Hc : In x (all_keys (BTree.mkNode false ks' cs')) \/ x = kl
                   \/ In x (all_keys cl)).
      { rewrite all_keys_node.
        apply in_app_or in Hx. destruct Hx as [Hx|Hx].
        - apply in_app_or in Hx. destruct Hx as [Hx|[<-|[]]]; auto.
          left. apply in_or_app. now left.
        - apply in_app_or in Hx. destruct Hx as [Hx|Hx]; auto.
          left. apply in_or_app. now right. }
      destruct Hc as [Hc|[->|Hc]]; [|lia|now apply Hmax].
      destruct (ordered_keys_bounded key_of _ _ _ _ Hleft Hc) as [_ B].
      simpl in B. lia.
Qed.

Lemma first_leaf_min :
  forall (f h : nat) (n : BTree.Node T) lo hi,
    shaped floor cap h n = true -> (h <= f)%nat ->
    1 <= size (BTree.keys n) -> ordered key_of lo hi n ->
    exists leaf s,
      BTree.first_leaf f n = Some leaf
      /\ nth_error (BTree.keys leaf) 0 = Some s
      /\ In s (all_keys n)
      /\ (forall x, In x (all_keys n) -> key_of s <= key_of x).
Proof.
  induction f as [|f IH]; intros h [lf ks cs] lo hi Hs Hf Hne Ho.
  - destruct h; [discriminate|lia].
  - cbn [BTree.keys] in Hne. destruct (nonempty_cons ks Hne) as [k1 [ks' ->]].
    destruct lf.
    + apply shaped_leaf in Hs. destruct Hs as [-> [_ ->]].
      exists (BTree.mkNode true (k1 :: ks') []), k1.
      cbn [BTree.first_leaf BTree.is_leaf BTree.keys nth_error].
      rewrite all_keys_node. cbn [flat_map]. rewrite app_nil_r.
      split; [reflexivity|]. split; [reflexivity|].
      split; [now left|].
      inversion Ho as [? ? ? Hso|]; subst.
      inversion Hso as [|? ? ? ? _ _ S1]; subst.
      intros x [<-|Hx]; [lia|].
      apply (sorted_in_bounds key_of _ _ _ _ S1 Hx).
    + apply shaped_inner in Hs. destruct Hs as [h' [-> [_ [L A]]]].
      assert (Hcn : 1 <= size cs) by (unfold size; lia).
      destruct (nonempty_cons cs Hcn) as [c0 [cs' ->]].
      cbn [forallb] in A. apply andb_true_iff in A. destruct A as [A _].
      apply child_ok_iff in A. destruct A as [Hclf Hcl].
      destruct (uncons_ordered key_of lo hi false k1 ks' c0 cs' Ho)
        as [Ha [Hb [Hright Hleft]]].
      specialize (Hleft eq_refl).
      destruct (IH h' c0 _ _ Hcl ltac:(lia) ltac:(lia) Hleft)
        as [leaf [s [Hll [Hbk [Hin Hmin]]]]].
      exists leaf, s.
      cbn [BTree.first_leaf BTree.is_leaf BTree.children nth_error bind].
      split; [exact Hll|]. split; [exact Hbk|].
      assert (Hkp : key_of s <= key_of k1)
        by (apply (ordered_keys_bounded key_of _ _ _ _ Hleft Hin)).
      rewrite all_keys_node. cbn [flat_map].
      split; [apply in_or_app; right; apply in_or_app; now left|].
      intros x Hx.
      assert (Hc : In x (all_keys (BTree.mkNode false ks' cs')) \/ x = k1
                   \/ In x (all_keys c0)).
      { rewrite all_keys_node.
        apply in_app_or in Hx. destruct Hx as [[<-|Hx]|Hx]; auto.
        - left. apply in_or_app. now left.
        - apply in_app_or in Hx. destruct Hx as [Hx|Hx]; auto.
          left. apply in_or_app. now right. }
      destruct Hc as [Hc|[->|Hc]]; [|lia|now apply Hmin].
      destruct (ordered_keys_bounded key_of _ _ _ _ Hright Hc) as [B _].
      simpl in B. lia.
Qed.

End Extremes.

(** *** Search trees after a change at one place *)

Section NodeSurgery.
Context {T : Type}.
Variable key_of : T -> Z.

Lemma sorted_in_remove lo hi (a b : list T) (x : T) :
  sorted_in key_of lo hi (a ++ x :: b) -> sorted_in key_of lo hi (a ++ b).
Proof.
  revert lo. induction a as [|y a IH]; intros lo H; cbn [app] in *;
    inversion H as [|? ? ? ? Ha Hb Hs]; subst.
  - apply (sorted_in_weaken key_of _ _ _ _ _ Hs); auto.
    intros k Hk. simpl in Hk. eapply above_le; eauto.
  - constructor; auto.
Qed.

Lemma node_replace_child lo hi (kl kr : list T) (cl cr : list (BTree.Node T))
    (c c' : BTree.Node T) :
  length kl = length cl ->
  (forall lo hi, ordered key_of lo hi c -> ordered key_of lo hi c') ->
  ordered key_of lo hi (BTree.mkNode false (kl ++ kr) (cl ++ c :: cr)) ->
  ordered key_of lo hi (BTree.mkNode false (kl ++ kr) (cl ++ c' :: cr)).
Proof.
  intros Hlen Hc H. inversion H as [|? ? ? ? Hcs]; subst. constructor.
  destruct (children_prefix key_of _ _ _ _ _ _ Hlen Hcs) as [lo' [HK Hre]].
  apply Hre. now apply (children_replace_first key_of _ _ _ c).
Qed.

Lemma node_rotate lo hi (kl kr : list T) (k u : T) (cl cr : list (BTree.Node T))
    (c1 c2 c1' c2' : BTree.Node T) :
  length kl = length cl ->
  (forall lo hi, above lo (key_of k) -> below hi (key_of k) ->
     ordered key_of lo (Some (key_of k)) c1 ->
     ordered key_of (Some (key_of k)) hi c2 ->
     above lo (key_of u) /\ below hi (key_of u)
     /\ ordered key_of lo (Some (key_of u)) c1'
     /\ ordered key_of (Some (key_of u)) hi c2') ->
  ordered key_of lo hi (BTree.mkNode false (kl ++ k :: kr) (cl ++ c1 :: c2 :: cr)) ->
  ordered key_of lo hi (BTree.mkNode false (kl ++ u :: kr) (cl ++ c1' :: c2' :: cr)).
Proof.
  intros Hlen Hrot H. inversion H as [|? ? ? ? Hcs]; subst. constructor.
  destruct (children_prefix key_of _ _ _ _ _ _ Hlen Hcs) as [lo' [HK Hre]].
  apply Hre. now apply (children_rotate key_of _ _ k u kr c1 c2).
Qed.

Lemma node_join lo hi (kl kr : list T) (k : T) (cl cr : list (BTree.Node T))
    (c1 c2 m : BTree.Node T) :
  length kl = length cl ->
  (forall lo hi, above lo (key_of k) -> below hi (key_of k) ->
     ordered key_of lo (Some (key_of k)) c1 ->
     ordered key_of (Some (key_of k)) hi c2 ->
     ordered key_of lo hi m) ->
  ordered key_of lo hi (BTree.mkNode false (kl ++ k :: kr) (cl ++ c1 :: c2 :: cr)) ->
  ordered key_of lo hi (BTree.mkNode false (kl ++ kr) (cl ++ m :: cr)).
Proof.
  intros Hlen Hj H. inversion H as [|? ? ? ? Hcs]; subst. constructor.
  destruct (children_prefix key_of _ _ _ _ _ _ Hlen Hcs) as [lo' [HK Hre]].
  apply Hre. now apply (children_join key_of _ _ k kr c1 c2).
Qed.

Lemma node_child_ordered lo hi (ks : list T) (cs : list (BTree.Node T))
    (c : BTree.Node T) :
  ordered key_of lo hi (BTree.mkNode false ks cs) -> In c cs ->
  exists lo' hi', ordered key_of lo' hi' c.
Proof.
  intros H Hc. inversion H as [|? ? ? ? Hcs]; subst.
  apply (ordered_child key_of _ _ _ _ c Hcs Hc).
Qed.

End NodeSurgery.

(** *** Borrowing and merging *)

Ltac count_keys :=
  repeat (progress (rewrite ?all_keys_node, ?flat_map_app, ?app_nil_r;
                    cbn [flat_map]));
  rewrite ?occurrences_app, ?occurrences_cons, ?occurrences_nil.

Ltac list_sizes :=
  unfold size in *; rewrite ?length_app in *; cbn [length] in *;
  rewrite ?length_app in *; cbn [length] in *.

Section Rebalance.
Context {T : Type}.
Variable key_of : T -> Z.
Variables floor cap : Z.

Lemma fix_merge (h' : nat) (kl kr : list T) (k : T) (cl cr : list (BTree.Node T))
    (lf : bool) (ks1 ks2 : list T) (cs1 cs2 : list (BTree.Node T)) :
  let c1 := BTree.mkNode lf ks1 cs1 in
  let c2 := BTree.mkNode lf ks2 cs2 in
  let m := BTree.mkNode lf (ks1 ++ k :: ks2) (if lf then cs1 else cs1 ++ cs2) in
  let n1 := BTree.mkNode false (kl ++ k :: kr) (cl ++ c1 :: c2 :: cr) in
  let n2 := BTree.mkNode false (kl ++ kr) (cl ++ m :: cr) in
  length kl = length cl ->
  size (kl ++ k :: kr) <= cap ->
  length (cl ++ c1 :: c2 :: cr) = S (length (kl ++ k :: kr)) ->
  forallb (child_ok floor cap h') cl = true ->
  forallb (child_ok floor cap h') cr = true ->
  shaped floor cap h' c1 = true -> shaped floor cap h' c2 = true ->
  floor <= size ks1 + 1 + size ks2 <= cap ->
  BTree.merge_children n1 (length cl) = Some n2
  /\ shaped floor cap h' m = true
  /\ shaped floor cap (S h') n2 = true
  /\ (forall lo hi, ordered key_of lo hi n1 -> ordered key_of lo hi n2)
  /\ (forall z, occurrences key_of z (all_keys n1)
                = occurrences key_of z (all_keys n2))
  /\ (forall z, occurrences key_of z (all_keys m)
                = (occurrences key_of z (all_keys c1) + hit (key_of k) z
                   + occurrences key_of z (all_keys c2))%nat).
Proof.
  intros c1 c2 m n1 n2 Hlen Hsz Hl Acl Acr H1 H2 Hm.
  assert (Hms : shaped floor cap h' m = true)
    by (apply merged_shaped; [exact H1|exact H2|lia]).
  assert (Hmk : size (ks1 ++ k :: ks2) = size ks1 + 1 + size ks2) by (list_sizes; lia).
  split; [apply (merge_children_eq false kl kr k cl cr c1 c2 Hlen)|].
  split; [exact Hms|]. split; [|split; [|split]].
  - apply shaped_node. split; [list_sizes; lia|]. split; [list_sizes; lia|].
    rewrite forallb_app. cbn [forallb]. rewrite Acl, Acr.
    assert (E : child_ok floor cap h' m = true)
      by (apply child_ok_iff; unfold m at 1; cbn [BTree.keys]; split;
          [lia|exact Hms]).
    now rewrite E.
  - intros lo hi. apply (node_join key_of); [exact Hlen|].
    intros lo' hi' A B O1 O2. now apply (merge_ordered key_of).
  - intros z. subst n1 n2 m c1 c2. destruct lf.
    + apply shaped_leaf in H1, H2. destruct H1 as [_ [_ ->]], H2 as [_ [_ ->]].
      count_keys. lia.
    + count_keys. lia.
  - intros z. subst m c1 c2. destruct lf.
    + apply shaped_leaf in H1, H2. destruct H1 as [_ [_ ->]], H2 as [_ [_ ->]].
      count_keys. lia.
    + count_keys. lia.
Qed.

Lemma fix_borrow_prev (h' : nat) (kl kr : list T) (k up : T)
    (cl cr : list (BTree.Node T)) (lf : bool) (sk cks : list T)
    (scs sc ccs : list (BTree.Node T)) (mc : BTree.Node T) :
  let sib := BTree.mkNode lf (sk ++ [up]) scs in
  let child := BTree.mkNode lf cks ccs in
  let n1 := BTree.mkNode false (kl ++ k :: kr) (cl ++ sib :: child :: cr) in
  let n2 := BTree.mkNode false (kl ++ up :: kr)
              (cl ++ BTree.mkNode lf sk (if lf then scs else sc)
                  :: BTree.mkNode lf (k :: cks) (if lf then ccs else mc :: ccs)
                  :: cr) in
  length kl = length cl ->
  (lf = false -> scs = sc ++ [mc]) ->
  size (kl ++ k :: kr) <= cap ->
  length (cl ++ sib :: child :: cr) = S (length (kl ++ k :: kr)) ->
  forallb (child_ok floor cap h') cl = true ->
  forallb (child_ok floor cap h') cr = true ->
  shaped floor cap h' sib = true -> shaped floor cap h' child = true ->
  floor <= size sk -> floor <= size cks + 1 <= cap ->
  BTree.borrow_from_prev n1 (S (length cl)) = Some n2
  /\ shaped floor cap (S h') n2 = true
  /\ (forall lo hi, ordered key_of lo hi n1 -> ordered key_of lo hi n2)
  /\ (forall z, occurrences key_of z (all_keys n1)
                = occurrences key_of z (all_keys n2)).
Proof.
  intros sib child n1 n2 Hlen Hsc Hsz Hl Acl Acr Hs Hc Hfs Hfc.
  destruct (unsnoc_shaped floor cap h' lf sk up scs sc mc Hsc Hs) as [Hs' Hmc].
  split; [apply (borrow_from_prev_eq false lf lf kl kr sk cks k up cl cr scs sc ccs mc
                   Hlen Hsc)|].
  split; [|split].
  - apply shaped_node. split; [list_sizes; lia|]. split; [list_sizes; lia|].
    rewrite forallb_app. cbn [forallb]. rewrite Acl, Acr.
    assert (E1 : child_ok floor cap h'
                   (BTree.mkNode lf sk (if lf then scs else sc)) = true)
      by (apply child_ok_iff; cbn [BTree.keys]; split; [lia|exact Hs']).
    assert (E2 : child_ok floor cap h'
                   (BTree.mkNode lf (k :: cks) (if lf then ccs else mc :: ccs)) = true).
    { apply child_ok_iff. cbn [BTree.keys]. split; [list_sizes; lia|].
      apply cons_shaped; [exact Hc|lia|exact Hmc]. }
    now rewrite E1, E2.
  - intros lo hi. apply (node_rotate key_of); [exact Hlen|].
    intros lo' hi' A B O1 O2. subst sib child.
    assert (O1' : ordered key_of lo' (Some (key_of k))
                    (BTree.mkNode lf (sk ++ [up]) (if lf then [] else sc ++ [mc]))).
    { destruct lf; [|now rewrite <- (Hsc eq_refl)].
      apply shaped_leaf in Hs. destruct Hs as [_ [_ E]]. now rewrite <- E. }
    destruct (unsnoc_ordered key_of _ _ _ _ _ _ _ O1') as [A1 [B1 [L1 R1]]].
    simpl in B1.
    split; [exact A1|]. split; [eapply below_le; eauto|]. split.
    + destruct lf; [|exact L1].
      apply shaped_leaf in Hs. destruct Hs as [_ [_ E]]. now rewrite E.
    + apply (cons_ordered key_of); auto.
  - intros z. subst n1 n2 sib child. destruct lf.
    + count_keys. lia.
    + rewrite (Hsc eq_refl). count_keys. lia.
Qed.

Lemma fix_borrow_next (h' : nat) (kl kr : list T) (k up : T)
    (cl cr : list (BTree.Node T)) (lf : bool) (sk cks : list T)
    (scs sc ccs : list (BTree.Node T)) (mc : BTree.Node T) :
  let sib := BTree.mkNode lf (up :: sk) scs in
  let child := BTree.mkNode lf cks ccs in
  let n1 := BTree.mkNode false (kl ++ k :: kr) (cl ++ child :: sib :: cr) in
  let n2 := BTree.mkNode false (kl ++ up :: kr)
              (cl ++ BTree.mkNode lf (cks ++ [k]) (if lf then ccs else ccs ++ [mc])
                  :: BTree.mkNode lf sk (if lf then scs else sc)
                  :: cr) in
  length kl = length cl ->
  (lf = false -> scs = mc :: sc) ->
  size (kl ++ k :: kr) <= cap ->
  length (cl ++ child :: sib :: cr) = S (length (kl ++ k :: kr)) ->
  forallb (child_ok floor cap h') cl = true ->
  forallb (child_ok floor cap h') cr = true ->
  shaped floor cap h' sib = true -> shaped floor cap h' child = true ->
  floor <= size sk -> floor <= size cks + 1 <= cap ->
  BTree.borrow_from_next n1 (length cl) = Some n2
  /\ shaped floor cap (S h') n2 = true
  /\ (forall lo hi, ordered key_of lo hi n1 -> ordered key_of lo hi n2)
  /\ (forall z, occurrences key_of z (all_keys n1)
                = occurrences key_of z (all_keys n2)).
Proof.
  intros sib child n1 n2 Hlen Hsc Hsz Hl Acl Acr Hs Hc Hfs Hfc.
  destruct (uncons_shaped floor cap h' lf up sk scs sc mc Hsc Hs) as [Hs' Hmc].
  split; [apply (borrow_from_next_eq false lf lf kl kr sk cks k up cl cr scs sc ccs mc
                   Hlen Hsc)|].
  split; [|split].
  - apply shaped_node. split; [list_sizes; lia|]. split; [list_sizes; lia|].
    rewrite forallb_app. cbn [forallb]. rewrite Acl, Acr.
    assert (E1 : child_ok floor cap h'
                   (BTree.mkNode lf sk (if lf then scs else sc)) = true)
      by (apply child_ok_iff; cbn [BTree.keys]; split; [lia|exact Hs']).
    assert (E2 : child_ok floor cap h'
                   (BTree.mkNode lf (cks ++ [k]) (if lf then ccs else ccs ++ [mc]))
                 = true).
    { apply child_ok_iff. cbn [BTree.keys]. split; [list_sizes; lia|].
      apply snoc_shaped; [exact Hc|lia|exact Hmc]. }
    now rewrite E1, E2.
  - intros lo hi. apply (node_rotate key_of); [exact Hlen|].
    intros lo' hi' A B O1 O2. subst sib child.
    assert (O2' : ordered key_of (Some (key_of k)) hi'
                    (BTree.mkNode lf (up :: sk) (if lf then [] else mc :: sc))).
    { destruct lf; [|now rewrite <- (Hsc eq_refl)].
      apply shaped_leaf in Hs. destruct Hs as [_ [_ E]]. now rewrite <- E. }
    destruct (uncons_ordered key_of _ _ _ _ _ _ _ O2') as [A1 [B1 [R1 L1]]].
    simpl in A1.
    split; [eapply above_le; eauto|]. split; [exact B1|]. split.
    + apply (snoc_ordered key_of); auto.
    + destruct lf; [|exact R1].
      apply shaped_leaf in Hs. destruct Hs as [_ [_ E]]. now rewrite E.
  - intros z. subst n1 n2 sib child. destruct lf.
    + count_keys. lia.
    + rewrite (Hsc eq_refl). count_keys. lia.
Qed.

End Rebalance.

(* ---- properties ---- *)

(** *** [remove_internal] *)

Section BTreeRemove.
Context {T : Type}.
Variable key_of : T -> Z.
Variables ORDER floor cap : Z.
Hypothesis Hcap : cap = 2 * ORDER - 1.
Hypothesis Hfloor : 1 <= floor <= ORDER - 1.
Hypothesis Hint : ORDER <= int_max.

Lemma u64_small (z : Z) : 0 <= z <= 2 * int_max -> u64 z = z.
Proof.
  intros H. unfold u64. apply Z.mod_small.
  unfold uint64_mod, int_max in *. lia.
Qed.

Lemma u64_order : u64 ORDER = ORDER.
Proof. apply u64_small. lia. Qed.

Lemma u64_order_pred : u64 (ORDER - 1) = ORDER - 1.
Proof. apply u64_small. lia. Qed.

Lemma scan_greater_le (key : T) (ks : list T) :
  (BTree.scan_greater key_of key ks <= length ks)%nat.
Proof.
  induction ks as [|x ks IH]; simpl; [lia|].
  destruct (key_of x <? key_of key); lia.
Qed.

Lemma split_two {A : Type} (l : list A) (i : nat) :
  (S i < length l)%nat ->
  exists a x y b, l = a ++ x :: y :: b /\ length a = i.
Proof.
  intros H.
  destruct (nth_error l i) as [x|] eqn:Hx;
    [|apply nth_error_None in Hx; lia].
  destruct (split_at_nth l i x Hx) as [a [b [-> Ha]]].
  rewrite length_app in H. cbn [length] in H.
  destruct b as [|y b]; [cbn [length] in H; lia|].
  exists a, x, y, b. auto.
Qed.

(** Fewer occurrences of keys mean keys within the same bounds. *)
Lemma keys_stay (key : T) (h : nat) (n n' : BTree.Node T) (x : T) :
  removed_from key_of floor cap key h n n' -> In x (all_keys n') ->
  exists y, In y (all_keys n) /\ key_of y = key_of x.
Proof.
  intros [_ [_ [_ Hc]]] Hx.
  apply (occurrences_pos key_of). rewrite (Hc (key_of x)).
  assert (0 < occurrences key_of (key_of x) (all_keys n'))%nat
    by (apply occurrences_pos; eauto).
  lia.
Qed.

Lemma route_replace (key : T) (h' : nat) (kl kr : list T)
    (cl cr : list (BTree.Node T)) (c c' : BTree.Node T) :
  length kl = length cl ->
  shaped floor cap (S h') (BTree.mkNode false (kl ++ kr) (cl ++ c :: cr)) = true ->
  removed_from key_of floor cap key h' c c' ->
  floor <= size (BTree.keys c') ->
  removed_from key_of floor cap key (S h')
    (BTree.mkNode false (kl ++ kr) (cl ++ c :: cr))
    (BTree.mkNode false (kl ++ kr) (cl ++ c' :: cr)).
Proof.
  intros Hlen Hs [Hs' [Hk [Ho Hc]]] Hfl.
  apply shaped_node in Hs. destruct Hs as [Hsz [L A]].
  rewrite forallb_app in A. cbn [forallb] in A.
  apply andb_true_iff in A. destruct A as [Acl A].
  apply andb_true_iff in A. destruct A as [_ Acr].
  split; [|split; [|split]].
  - apply shaped_node. split; [exact Hsz|]. split; [list_sizes; lia|].
    rewrite forallb_app. cbn [forallb]. rewrite Acl, Acr.
    assert (E : child_ok floor cap h' c' = true) by (apply child_ok_iff; auto).
    now rewrite E.
  - cbn [BTree.keys]. lia.
  - intros lo hi. now apply (node_replace_child key_of).
  - intros z. count_keys. rewrite (Hc z). lia.
Qed.

Lemma route_pred (key x p : T) (h' : nat) (kl kr : list T)
    (cl cr : list (BTree.Node T)) (c1 c1' c2 : BTree.Node T) :
  key_of key = key_of x ->
  length kl = length cl ->
  shaped floor cap (S h')
    (BTree.mkNode false (kl ++ x :: kr) (cl ++ c1 :: c2 :: cr)) = true ->
  ORDER <= size (BTree.keys c1) ->
  removed_from key_of floor cap p h' c1 c1' ->
  In p (all_keys c1) ->
  (forall y, In y (all_keys c1) -> key_of y <= key_of p) ->
  removed_from key_of floor cap key (S h')
    (BTree.mkNode false (kl ++ x :: kr) (cl ++ c1 :: c2 :: cr))
    (BTree.mkNode false (kl ++ p :: kr) (cl ++ c1' :: c2 :: cr)).
Proof.
  intros Hkey Hlen Hs Hbig Hrm Hp Hmax.
  pose proof Hrm as [Hs' [Hk [Ho Hc]]].
  apply shaped_node in Hs. destruct Hs as [Hsz [L A]].
  rewrite forallb_app in A. cbn [forallb] in A.
  apply andb_true_iff in A. destruct A as [Acl A].
  apply andb_true_iff in A. destruct A as [_ A].
  split; [|split; [|split]].
  - apply shaped_node. split; [list_sizes; lia|]. split; [list_sizes; lia|].
    rewrite forallb_app. cbn [forallb]. rewrite Acl, A.
    assert (E : child_ok floor cap h' c1' = true)
      by (apply child_ok_iff; split; [lia|exact Hs']).
    now rewrite E.
  - cbn [BTree.keys]. list_sizes. lia.
  - intros lo hi. apply (node_rotate key_of); [exact Hlen|].
    intros lo' hi' Ha Hb O1 O2.
    destruct (ordered_keys_bounded key_of _ _ _ _ O1 Hp) as [A1 B1]. simpl in B1.
    split; [exact A1|]. split; [eapply below_le; eauto|]. split.
    + apply (ordered_rebound key_of c1' lo' (Some (key_of x))); [now apply Ho|].
      intros y Hy. destruct (keys_stay _ _ _ _ _ Hrm Hy) as [y' [Hy' E]].
      rewrite <- E. split.
      * apply (ordered_keys_bounded key_of _ _ _ _ O1 Hy').
      * simpl. now apply Hmax.
    + apply (ordered_weaken key_of _ _ _ _ _ O2); auto.
      intros k0 Hk0. simpl in *. lia.
  - intros z. count_keys. rewrite (Hc z), (hit_same _ _ z Hkey). lia.
Qed.

Lemma route_succ (key x s : T) (h' : nat) (kl kr : list T)
    (cl cr : list (BTree.Node T)) (c1 c2 c2' : BTree.Node T) :
  key_of key = key_of x ->
  length kl = length cl ->
  shaped floor cap (S h')
    (BTree.mkNode false (kl ++ x :: kr) (cl ++ c1 :: c2 :: cr)) = true ->
  ORDER <= size (BTree.keys c2) ->
  removed_from key_of floor cap s h' c2 c2' ->
  In s (all_keys c2) ->
  (forall y, In y (all_keys c2) -> key_of s <= key_of y) ->
  removed_from key_of floor cap key (S h')
    (BTree.mkNode false (kl ++ x :: kr) (cl ++ c1 :: c2 :: cr))
    (BTree.mkNode false (kl ++ s :: kr) (cl ++ c1 :: c2' :: cr)).
Proof.
  intros Hkey Hlen Hs Hbig Hrm Hp Hmin.
  pose proof Hrm as [Hs' [Hk [Ho Hc]]].
  apply shaped_node in Hs. destruct Hs as [Hsz [L A]].
  rewrite forallb_app in A. cbn [forallb] in A.
  apply andb_true_iff in A. destruct A as [Acl A].
  apply andb_true_iff in A. destruct A as [A1 A].
  apply andb_true_iff in A. destruct A as [_ A].
  split; [|split; [|split]].
  - apply shaped_node. split; [list_sizes; lia|]. split; [list_sizes; lia|].
    rewrite forallb_app. cbn [forallb]. rewrite Acl, A1, A.
    assert (E : child_ok floor cap h' c2' = true)
      by (apply child_ok_iff; split; [lia|exact Hs']).
    now rewrite E.
  - cbn [BTree.keys]. list_sizes. lia.
  - intros lo hi. apply (node_rotate key_of); [exact Hlen|].
    intros lo' hi' Ha Hb O1 O2.
    destruct (ordered_keys_bounded key_of _ _ _ _ O2 Hp) as [A2 B2]. simpl in A2.
    split; [eapply above_le; eauto|]. split; [exact B2|]. split.
    + apply (ordered_weaken key_of _ _ _ _ _ O1); auto.
      intros k0 Hk0. simpl in *. lia.
    + apply (ordered_rebound key_of c2' (Some (key_of x)) hi'); [now apply Ho|].
      intros y Hy. destruct (keys_stay _ _ _ _ _ Hrm Hy) as [y' [Hy' E]].
      rewrite <- E. split.
      * simpl. now apply Hmin.
      * apply (ordered_keys_bounded key_of _ _ _ _ O2 Hy').
  - intros z. count_keys. rewrite (Hc z), (hit_same _ _ z Hkey). lia.
Qed.

Lemma node_replace_second lo hi (kl kr : list T) (k : T)
    (cl cr : list (BTree.Node T)) (s c c' : BTree.Node T) :
  length kl = length cl ->
  (forall lo hi, ordered key_of lo hi c -> ordered key_of lo hi c') ->
  ordered key_of lo hi (BTree.mkNode false (kl ++ k :: kr) (cl ++ s :: c :: cr)) ->
  ordered key_of lo hi (BTree.mkNode false (kl ++ k :: kr) (cl ++ s :: c' :: cr)).
Proof.
  intros Hlen Hc.
  change (kl ++ k :: kr) with (kl ++ [k] ++ kr).
  change (cl ++ s :: c :: cr) with (cl ++ [s] ++ c :: cr).
  change (cl ++ s :: c' :: cr) with (cl ++ [s] ++ c' :: cr).
  rewrite !app_assoc. apply (node_replace_child key_of); [|exact Hc].
  rewrite !length_app. cbn [length]. lia.
Qed.

(** The parts of a node around two neighbouring children. *)
Lemma shaped_around (h' : nat) (kl kr : list T) (k : T)
    (cl cr : list (BTree.Node T)) (a b : BTree.Node T) :
  shaped floor cap (S h') (BTree.mkNode false (kl ++ k :: kr) (cl ++ a :: b :: cr))
  = true ->
  size (kl ++ k :: kr) <= cap
  /\ length (cl ++ a :: b :: cr) = S (length (kl ++ k :: kr))
  /\ forallb (child_ok floor cap h') cl = true
  /\ forallb (child_ok floor cap h') cr = true
  /\ (floor <= size (BTree.keys a) /\ shaped floor cap h' a = true)
  /\ (floor <= size (BTree.keys b) /\ shaped floor cap h' b = true).
Proof.
  intros Hs. apply shaped_node in Hs. destruct Hs as [Hsz [L A]].
  rewrite forallb_app in A. cbn [forallb] in A.
  apply andb_true_iff in A. destruct A as [Acl A].
  apply andb_true_iff in A. destruct A as [A1 A].
  apply andb_true_iff in A. destruct A as [A2 Acr].
  apply child_ok_iff in A1, A2. auto 10.
Qed.

Lemma inner_children_snoc (h : nat) (ks : list T) (cs : list (BTree.Node T)) :
  shaped floor cap h (BTree.mkNode false ks cs) = true ->
  exists sc mc, cs = sc ++ [mc].
Proof.
  intros Hs. apply shaped_inner in Hs. destruct Hs as [h' [_ [_ [L _]]]].
  apply nonempty_snoc. unfold size. lia.
Qed.

Lemma inner_children_cons (h : nat) (ks : list T) (cs : list (BTree.Node T)) :
  shaped floor cap h (BTree.mkNode false ks cs) = true ->
  exists mc sc, cs = mc :: sc.
Proof.
  intros Hs. apply shaped_inner in Hs. destruct Hs as [h' [_ [_ [L _]]]].
  apply nonempty_cons. unfold size. lia.
Qed.

Lemma route_borrow_prev (key k : T) (h' : nat) (kl kr : list T)
    (cl cr : list (BTree.Node T)) (sib c c' : BTree.Node T) :
  length kl = length cl ->
  shaped floor cap (S h')
    (BTree.mkNode false (kl ++ k :: kr) (cl ++ sib :: c :: cr)) = true ->
  removed_from key_of floor cap key h' c c' ->
  size (BTree.keys c') < ORDER - 1 -> ORDER <= size (BTree.keys sib) ->
  exists n2,
    BTree.borrow_from_prev
      (BTree.mkNode false (kl ++ k :: kr) (cl ++ sib :: c' :: cr)) (S (length cl))
    = Some n2
    /\ removed_from key_of floor cap key (S h')
         (BTree.mkNode false (kl ++ k :: kr) (cl ++ sib :: c :: cr)) n2.
Proof.
  intros Hlen Hs [Hs' [Hk [Ho Hc]]] Hsmall Hbig.
  destruct (shaped_around _ _ _ _ _ _ _ _ Hs) as [Hsz [L [Acl [Acr [[Fs Ss] [Fc Sc]]]]]].
  destruct sib as [sl sks scs], c' as [lf cks ccs].
  assert (E : sl = lf) by apply (shaped_same_kind _ _ _ _ _ Ss Hs').
  subst sl. cbn [BTree.keys] in *.
  destruct (nonempty_snoc sks ltac:(lia)) as [sk [up ->]].
  assert (Hsc : exists sc mc, lf = false -> scs = sc ++ [mc]).
  { destruct lf; [exists [], c; discriminate|].
    destruct (inner_children_snoc _ _ _ Ss) as [sc [mc ->]]. eauto. }
  destruct Hsc as [sc [mc Hsc]].
  assert (L' : length (cl ++ BTree.mkNode lf (sk ++ [up]) scs
                          :: BTree.mkNode lf cks ccs :: cr)
               = S (length (kl ++ k :: kr))) by (list_sizes; lia).
  destruct (fix_borrow_prev key_of floor cap h' kl kr k up cl cr lf sk cks scs sc ccs mc
              Hlen Hsc Hsz L' Acl Acr Ss Hs' ltac:(list_sizes; lia) ltac:(lia))
    as [Heq [Hs2 [Ho2 Hc2]]].
  eexists. split; [exact Heq|].
  split; [exact Hs2|]. split; [|split].
  - cbn [BTree.keys]. list_sizes. lia.
  - intros lo hi O. apply Ho2. now apply (node_replace_second lo hi kl kr k cl cr _ c).
  - intros z. rewrite <- (Hc2 z). count_keys. rewrite (Hc z). count_keys. lia.
Qed.

Lemma route_borrow_next (key k : T) (h' : nat) (kl kr : list T)
    (cl cr : list (BTree.Node T)) (sib c c' : BTree.Node T) :
  length kl = length cl ->
  shaped floor cap (S h')
    (BTree.mkNode false (kl ++ k :: kr) (cl ++ c :: sib :: cr)) = true ->
  removed_from key_of floor cap key h' c c' ->
  size (BTree.keys c') < ORDER - 1 -> ORDER <= size (BTree.keys sib) ->
  exists n2,
    BTree.borrow_from_next
      (BTree.mkNode false (kl ++ k :: kr) (cl ++ c' :: sib :: cr)) (length cl)
    = Some n2
    /\ removed_from key_of floor cap key (S h')
         (BTree.mkNode false (kl ++ k :: kr) (cl ++ c :: sib :: cr)) n2.
Proof.
  intros Hlen Hs [Hs' [Hk [Ho Hc]]] Hsmall Hbig.
  destruct (shaped_around _ _ _ _ _ _ _ _ Hs) as [Hsz [L [Acl [Acr [[Fc Sc] [Fs Ss]]]]]].
  destruct sib as [sl sks scs], c' as [lf cks ccs].
  assert (E : sl = lf) by apply (shaped_same_kind _ _ _ _ _ Ss Hs').
  subst sl. cbn [BTree.keys] in *.
  destruct (nonempty_cons sks ltac:(lia)) as [up [sk ->]].
  assert (Hsc : exists sc mc, lf = false -> scs = mc :: sc).
  { destruct lf; [exists [], c; discriminate|].
    destruct (inner_children_cons _ _ _ Ss) as [mc [sc ->]]. eauto. }
  destruct Hsc as [sc [mc Hsc]].
  assert (L' : length (cl ++ BTree.mkNode lf cks ccs
                          :: BTree.mkNode lf (up :: sk) scs :: cr)
               = S (length (kl ++ k :: kr))) by (list_sizes; lia).
  destruct (fix_borrow_next key_of floor cap h' kl kr k up cl cr lf sk cks scs sc ccs mc
              Hlen Hsc Hsz L' Acl Acr Ss Hs' ltac:(list_sizes; lia) ltac:(lia))
    as [Heq [Hs2 [Ho2 Hc2]]].
  eexists. split; [exact Heq|].
  split; [exact Hs2|]. split; [|split].
  - cbn [BTree.keys]. list_sizes. lia.
  - intros lo hi O. apply Ho2.
    now apply (node_replace_child key_of lo hi kl (k :: kr) cl (_ :: cr) c).
  - intros z. rewrite <- (Hc2 z). count_keys. rewrite (Hc z). count_keys. lia.
Qed.

Lemma route_merge_prev (key k : T) (h' : nat) (kl kr : list T)
    (cl cr : list (BTree.Node T)) (sib c c' : BTree.Node T) :
  length kl = length cl ->
  shaped floor cap (S h')
    (BTree.mkNode false (kl ++ k :: kr) (cl ++ sib :: c :: cr)) = true ->
  removed_from key_of floor cap key h' c c' ->
  size (BTree.keys c') < ORDER - 1 -> size (BTree.keys sib) < ORDER ->
  exists n2,
    BTree.merge_children
      (BTree.mkNode false (kl ++ k :: kr) (cl ++ sib :: c' :: cr)) (length cl)
    = Some n2
    /\ removed_from key_of floor cap key (S h')
         (BTree.mkNode false (kl ++ k :: kr) (cl ++ sib :: c :: cr)) n2.
Proof.
  intros Hlen Hs [Hs' [Hk [Ho Hc]]] Hsmall Hsib.
  destruct (shaped_around _ _ _ _ _ _ _ _ Hs) as [Hsz [L [Acl [Acr [[Fs Ss] [Fc Sc]]]]]].
  destruct sib as [sl sks scs], c' as [lf cks ccs].
  assert (E : sl = lf) by apply (shaped_same_kind _ _ _ _ _ Ss Hs').
  subst sl. cbn [BTree.keys] in *.
  assert (L' : length (cl ++ BTree.mkNode lf sks scs
                          :: BTree.mkNode lf cks ccs :: cr)
               = S (length (kl ++ k :: kr))) by (list_sizes; lia).
  destruct (fix_merge key_of floor cap h' kl kr k cl cr lf sks cks scs ccs
              Hlen Hsz L' Acl Acr Ss Hs' ltac:(lia))
    as [Heq [_ [Hs2 [Ho2 [Hc2 _]]]]].
  eexists. split; [exact Heq|].
  split; [exact Hs2|]. split; [|split].
  - cbn [BTree.keys]. list_sizes. lia.
  - intros lo hi O. apply Ho2. now apply (node_replace_second lo hi kl kr k cl cr _ c).
  - intros z. rewrite <- (Hc2 z). count_keys. rewrite (Hc z). count_keys. lia.
Qed.

Lemma route_merge_next (key k : T) (h' : nat) (kl kr : list T)
    (cl cr : list (BTree.Node T)) (sib c c' : BTree.Node T) :
  length kl = length cl ->
  shaped floor cap (S h')
    (BTree.mkNode false (kl ++ k :: kr) (cl ++ c :: sib :: cr)) = true ->
  removed_from key_of floor cap key h' c c' ->
  size (BTree.keys c') < ORDER - 1 -> size (BTree.keys sib) < ORDER ->
  exists n2,
    BTree.merge_children
      (BTree.mkNode false (kl ++ k :: kr) (cl ++ c' :: sib :: cr)) (length cl)
    = Some n2
    /\ removed_from key_of floor cap key (S h')
         (BTree.mkNode false (kl ++ k :: kr) (cl ++ c :: sib :: cr)) n2.
Proof.
  intros Hlen Hs [Hs' [Hk [Ho Hc]]] Hsmall Hsib.
  destruct (shaped_around _ _ _ _ _ _ _ _ Hs) as [Hsz [L [Acl [Acr [[Fc Sc] [Fs Ss]]]]]].
  destruct sib as [sl sks scs], c' as [lf cks ccs].
  assert (E : sl = lf) by apply (shaped_same_kind _ _ _ _ _ Ss Hs').
  subst sl. cbn [BTree.keys] in *.
  assert (L' : length (cl ++ BTree.mkNode lf cks ccs
                          :: BTree.mkNode lf sks scs :: cr)
               = S (length (kl ++ k :: kr))) by (list_sizes; lia).
  destruct (fix_merge key_of floor cap h' kl kr k cl cr lf cks sks ccs scs
              Hlen Hsz L' Acl Acr Hs' Ss ltac:(lia))
    as [Heq [_ [Hs2 [Ho2 [Hc2 _]]]]].
  eexists. split; [exact Heq|].
  split; [exact Hs2|]. split; [|split].
  - cbn [BTree.keys]. list_sizes. lia.
  - intros lo hi O. apply Ho2.
    now apply (node_replace_child key_of lo hi kl (k :: kr) cl (_ :: cr) c).
  - intros z. rewrite <- (Hc2 z). count_keys. rewrite (Hc z). count_keys. lia.
Qed.

Lemma list_end {A : Type} (l : list A) : l = [] \/ exists l' x, l = l' ++ [x].
Proof.
  destruct l as [|y l]; [now left|right].
  destruct (@exists_last _ (y :: l)) as [l' [x E]]; [discriminate|eauto].
Qed.

Lemma remove_internal_spec :
  forall (f h : nat) (n : BTree.Node T) (key : T) (sz : Z) lo hi,
    shaped floor cap h n = true -> (h <= f)%nat ->
    ordered key_of lo hi n ->
    (BTree.is_leaf n = false -> 1 <= size (BTree.keys n)) ->
    exists found n' sz',
      BTree.remove_internal key_of ORDER f n key sz = Some (found, n', sz')
      /\ BTree.search_internal key_of f n key = Some found
      /\ (if found
          then removed_from key_of floor cap key h n n' /\ sz' = u64_sub sz 1
          else n' = n /\ sz' = sz).
Proof.
  induction f as [|f IH]; intros h [lf ks cs] key sz lo hi Hs Hf Ho Hroot.
  - destruct h; [discriminate|lia].
  - cbn [BTree.remove_internal BTree.search_internal BTree.keys BTree.is_leaf
         BTree.children].
    rewrite u64_order, u64_order_pred.
    pose proof (scan_greater_le key ks) as Hidx.
    set (idx := BTree.scan_greater key_of key ks) in *.
    destruct (match nth_error ks idx with
              | Some x => key_of key =? key_of x
              | None => false
              end) eqn:Hhere.
    + (* the key is in this node *)
      destruct (nth_error ks idx) as [x|] eqn:Hx; [|discriminate].
      apply Z.eqb_eq in Hhere.
      destruct (split_at_nth ks idx x Hx) as [kl [kr [-> Hkl]]].
      destruct lf.
      * (* a leaf: the key is erased *)
        rewrite erase_at_middle by (symmetry; exact Hkl). cbn [bind].
        exists true. eexists. eexists.
        split; [reflexivity|]. split; [reflexivity|]. split; [|reflexivity].
        apply shaped_leaf in Hs. destruct Hs as [-> [Hsz ->]].
        split; [|split; [|split]].
        -- apply shaped_leaf. repeat split; auto. list_sizes; lia.
        -- cbn [BTree.keys]. list_sizes. lia.
        -- intros lo' hi' O. inversion O; subst. constructor.
           eapply sorted_in_remove; eauto.
        -- intros z. count_keys. rewrite (hit_same _ _ z Hhere). lia.
      * (* an inner node *)
        destruct h as [|h']; [discriminate|].
        pose proof Hs as Hs0. apply shaped_node in Hs0.
        destruct Hs0 as [Hsz [L A]].
        destruct (split_two cs idx) as [cl [c1 [c2 [cr [-> Hcl]]]]];
          [list_sizes; lia|].
        assert (Hlen : length kl = length cl) by lia.
        clearbody idx. clear Hkl. subst idx.
        rewrite forallb_app in A. cbn [forallb] in A.
        apply andb_true_iff in A. destruct A as [Acl A].
        apply andb_true_iff in A. destruct A as [A1 A].
        apply andb_true_iff in A. destruct A as [A2 Acr].
        apply child_ok_iff in A1, A2.
        destruct A1 as [F1 S1], A2 as [F2 S2].
        assert (Hin1 : In c1 (cl ++ c1 :: c2 :: cr))
          by (apply in_or_app; right; now left).
        assert (Hin2 : In c2 (cl ++ c1 :: c2 :: cr))
          by (apply in_or_app; right; right; now left).
        destruct (node_child_ordered key_of _ _ _ _ c1 Ho Hin1) as [lo1 [hi1 O1]].
        destruct (node_child_ordered key_of _ _ _ _ c2 Ho Hin2) as [lo2 [hi2 O2]].
        rewrite nth_error_middle by reflexivity. cbn [bind].
        destruct (Z.leb_spec ORDER (size (BTree.keys c1))) as [Hbig1|Hsmall1].
        -- (* the predecessor replaces the key *)
           destruct (last_leaf_max key_of floor cap (proj1 Hfloor) f h' c1 lo1 hi1
                       S1 ltac:(lia) ltac:(lia) O1)
             as [leaf [p [Hll [Hbk [Hp Hmax]]]]].
           rewrite Hll. cbn [bind]. rewrite Hbk. cbn [bind].
           destruct (IH h' c1 p sz lo1 hi1 S1 ltac:(lia) O1 ltac:(lia))
             as [found [c1' [sz' [Hrm [Hsr Hpost]]]]].
           assert (Hfound : found = true).
           { assert (E : BTree.search_internal key_of f c1 p = Some true).
             { apply (search_finds key_of f c1 lo1 hi1); auto.
               - rewrite (shaped_height _ _ _ _ S1). lia.
               - eauto. }
             congruence. }
           subst found. destruct Hpost as [Hpost ->].
           rewrite Hrm. cbn [bind fst snd].
           rewrite set_nth_middle by (symmetry; exact Hlen).
           rewrite set_nth_middle by reflexivity.
           exists true. eexists. eexists.
           split; [reflexivity|]. split; [reflexivity|]. split; [|reflexivity].
           now apply (route_pred key x p h').
        -- rewrite nth_error_second by reflexivity. cbn [bind].
           destruct (Z.leb_spec ORDER (size (BTree.keys c2))) as [Hbig2|Hsmall2].
           ++ (* the successor replaces the key *)
              destruct (first_leaf_min key_of floor cap (proj1 Hfloor) f h' c2 lo2 hi2
                          S2 ltac:(lia) ltac:(lia) O2)
                as [leaf [s [Hll [Hbk [Hp Hmin]]]]].
              rewrite Hll. cbn [bind]. rewrite Hbk. cbn [bind].
              destruct (IH h' c2 s sz lo2 hi2 S2 ltac:(lia) O2 ltac:(lia))
                as [found [c2' [sz' [Hrm [Hsr Hpost]]]]].
              assert (Hfound : found = true).
              { assert (E : BTree.search_internal key_of f c2 s = Some true).
                { apply (search_finds key_of f c2 lo2 hi2); auto.
                  - rewrite (shaped_height _ _ _ _ S2). lia.
                  - eauto. }
                congruence. }
              subst found. destruct Hpost as [Hpost ->].
              rewrite Hrm. cbn [bind fst snd].
              rewrite set_nth_middle by (symmetry; exact Hlen).
              rewrite set_nth_second by reflexivity.
              exists true. eexists. eexists.
              split; [reflexivity|]. split; [reflexivity|]. split; [|reflexivity].
              now apply (route_succ key x s h').
           ++ (* the two children merge and the key is removed from them *)
              destruct c1 as [l1 ks1 cs1], c2 as [l2 ks2 cs2].
              assert (El : l1 = l2) by apply (shaped_same_kind _ _ _ _ _ S1 S2).
              subst l2. cbn [BTree.keys] in *.
              destruct (fix_merge key_of floor cap h' kl kr x cl cr l1 ks1 ks2 cs1 cs2
                          Hlen Hsz L Acl Acr S1 S2 ltac:(lia))
                as [Hm [Hms [Hn1s [Hn1o [Hn1c Hmc]]]]].
              rewrite Hm. cbn [bind BTree.children BTree.keys BTree.is_leaf].
              rewrite nth_error_middle by reflexivity. cbn [bind].
              set (m := BTree.mkNode l1 (ks1 ++ x :: ks2)
                          (if l1 then cs1 else cs1 ++ cs2)) in *.
              assert (Hinm : In m (cl ++ m :: cr))
                by (apply in_or_app; right; now left).
              destruct (node_child_ordered key_of _ _ _ _ m (Hn1o _ _ Ho) Hinm)
                as [lom [him Om]].
              assert (Hmsz : size (BTree.keys m) = size ks1 + 1 + size ks2)
                by (unfold m; cbn [BTree.keys]; list_sizes; lia).
              destruct (IH h' m key sz lom him Hms ltac:(lia) Om ltac:(lia))
                as [found [m' [sz' [Hrm [Hsr Hpost]]]]].
              assert (Hfound : found = true).
              { assert (E : BTree.search_internal key_of f m key = Some true).
                { apply (search_finds key_of f m lom him); auto.
                  - rewrite (shaped_height _ _ _ _ Hms). lia.
                  - exists x. split; [|now symmetry].
                    unfold m. rewrite all_keys_node.
                    apply in_or_app. left. apply in_or_app. right. now left. }
                congruence. }
              subst found. destruct Hpost as [Hpost ->].
              rewrite Hrm. cbn [bind fst snd].
              rewrite set_nth_middle by reflexivity.
              exists true. eexists. eexists.
              split; [reflexivity|]. split; [reflexivity|]. split; [|reflexivity].
              assert (Hfm : floor <= size (BTree.keys m'))
                by (destruct Hpost as [_ [Hk _]]; lia).
              destruct (route_replace key h' kl kr cl cr m m' Hlen Hn1s Hpost Hfm)
                as [R1 [R2 [R3 R4]]].
              split; [exact R1|]. split; [|split].
              ** cbn [BTree.keys]. list_sizes. lia.
              ** intros lo' hi' O. apply R3. now apply Hn1o.
              ** intros z. rewrite <- (R4 z). apply Hn1c.
    + (* the key is not in this node *)
      destruct lf.
      * exists false. eexists. eexists.
        split; [reflexivity|]. split; [reflexivity|]. split; reflexivity.
      * destruct h as [|h']; [discriminate|].
        pose proof Hs as Hs0. apply shaped_node in Hs0.
        destruct Hs0 as [Hsz [L A]].
        destruct (nth_error cs idx) as [c|] eqn:Hc;
          [|apply nth_error_None in Hc; lia].
        destruct (split_at_nth cs idx c Hc) as [cl [cr [-> Hcl]]].
        destruct (split_at_index ks idx Hidx) as [kl [kr [-> Hkl]]].
        assert (Hlen : length kl = length cl) by lia.
        clear Hhere. clearbody idx. clear Hkl Hidx Hc. subst idx.
        cbn [bind].
        rewrite forallb_app in A. cbn [forallb] in A.
        apply andb_true_iff in A. destruct A as [Acl A].
        apply andb_true_iff in A. destruct A as [A1 Acr].
        apply child_ok_iff in A1. destruct A1 as [F1 S1].
        assert (Hin1 : In c (cl ++ c :: cr)) by (apply in_or_app; right; now left).
        destruct (node_child_ordered key_of _ _ _ _ c Ho Hin1) as [lo1 [hi1 O1]].
        destruct (IH h' c key sz lo1 hi1 S1 ltac:(lia) O1 ltac:(lia))
          as [found [c' [sz' [Hrm [Hsr Hpost]]]]].
        rewrite Hrm, Hsr. cbn [bind fst snd].
        rewrite set_nth_middle by reflexivity.
        destruct found.
        -- destruct Hpost as [Hpost ->]. cbn [andb].
           match goal with |- context [bind ?e _] =>
             assert (Hn2 : exists n2,
                       e = Some n2
                       /\ removed_from key_of floor cap key (S h')
                            (BTree.mkNode false (kl ++ kr) (cl ++ c :: cr)) n2)
           end.
           { destruct (Z.ltb_spec (size (BTree.keys c')) (ORDER - 1)) as [Hsmall|Hok].
             - (* the child is short of keys *)
               assert (Hu : u64 (size (cl ++ c' :: cr) - 1)
                            = Z.of_nat (length cl + length cr))
                 by (rewrite u64_small; list_sizes; lia).
               rewrite Hu. clear Hu.
               cbn [BTree.keys BTree.is_leaf] in Hroot. specialize (Hroot eq_refl).
               destruct (list_end cl) as [->|[cl' [sib ->]]].
               + (* the first child: the right sibling helps *)
                 destruct kl as [|? ?]; [|discriminate].
                 cbn [app length Nat.ltb Nat.leb bind] in *.
                 destruct (nonempty_cons kr Hroot) as [k [kr' ->]].
                 destruct cr as [|sib cr']; [cbn [length] in L; lia|].
                 assert (E1 : (Z.of_nat 0 <? Z.of_nat (0 + length (sib :: cr'))) = true)
                   by (apply Z.ltb_lt; cbn [length]; lia).
                 rewrite E1. cbn [nth_error bind].
                 destruct (Z.leb_spec ORDER (size (BTree.keys sib))) as [Hbig|Hsib].
                 * apply (route_borrow_next key k h' [] kr' [] cr' sib c c');
                     auto.
                 * apply (route_merge_next key k h' [] kr' [] cr' sib c c');
                     auto.
               + destruct (list_end kl) as [->|[kl' [k ->]]];
                   [rewrite length_app in Hlen; cbn [length] in Hlen; lia|].
                 assert (Hlen' : length kl' = length cl')
                   by (rewrite !length_app in Hlen; cbn [length] in Hlen; lia).
                 assert (E0 : (0 <? length (cl' ++ [sib]))%nat = true)
                   by (apply Nat.ltb_lt; rewrite length_app; cbn [length]; lia).
                 rewrite E0. clear E0.
                 assert (E1 : (length (cl' ++ [sib]) - 1)%nat = length cl')
                   by (rewrite length_app; cbn [length]; lia).
                 assert (E2 : length (cl' ++ [sib]) = S (length cl'))
                   by (rewrite length_app; cbn [length]; lia).
                 rewrite E1, E2. clear E1 E2.
                 rewrite <- !app_assoc in *. cbn [app] in *.
                 rewrite nth_error_middle by reflexivity. cbn [bind].
                 destruct (Z.leb_spec ORDER (size (BTree.keys sib))) as [Hbig|Hsib].
                 * apply (route_borrow_prev key k h' kl' kr cl' cr sib c c'); auto.
                 * assert (Hmerge : exists n2,
                             BTree.merge_children
                               (BTree.mkNode false (kl' ++ k :: kr)
                                  (cl' ++ sib :: c' :: cr)) (length cl') = Some n2
                             /\ removed_from key_of floor cap key (S h')
                                  (BTree.mkNode false (kl' ++ k :: kr)
                                     (cl' ++ sib :: c :: cr)) n2)
                     by (apply (route_merge_prev key k h' kl' kr cl' cr sib c c');
                         auto).
                   destruct cr as [|sib2 cr'].
                   -- assert (E3 : (Z.of_nat (S (length cl'))
                                   <? Z.of_nat (S (length cl') + length (@nil (BTree.Node T))))
                                  = false)
                        by (apply Z.ltb_ge; cbn [length]; lia).
                      rewrite E3. cbn [bind]. exact Hmerge.
                   -- assert (E3 : (Z.of_nat (S (length cl'))
                                   <? Z.of_nat (S (length cl') + length (sib2 :: cr')))
                                  = true)
                        by (apply Z.ltb_lt; cbn [length]; lia).
                      rewrite E3.
                      assert (E4 : nth_error (cl' ++ sib :: c' :: sib2 :: cr')
                                     (S (S (length cl'))) = Some sib2).
                      { change (cl' ++ sib :: c' :: sib2 :: cr')
                          with (cl' ++ [sib] ++ c' :: sib2 :: cr').
                        rewrite app_assoc. apply nth_error_second.
                        rewrite length_app. cbn [length]. lia. }
                      rewrite E4. cbn [bind].
                      destruct (Z.leb_spec ORDER (size (BTree.keys sib2)))
                        as [Hbig2|Hsib2]; [|exact Hmerge].
                      destruct kr as [|k2 kr'];
                        [rewrite !length_app in L; cbn [length] in L; lia|].
                      change (kl' ++ k :: k2 :: kr') with (kl' ++ [k] ++ k2 :: kr') in *.
                      change (cl' ++ sib :: c' :: sib2 :: cr')
                        with (cl' ++ [sib] ++ c' :: sib2 :: cr').
                      change (cl' ++ sib :: c :: sib2 :: cr')
                        with (cl' ++ [sib] ++ c :: sib2 :: cr') in *.
                      rewrite !app_assoc in *.
                      replace (S (length cl')) with (length (cl' ++ [sib]))
                        by (rewrite length_app; cbn [length]; lia).
                      apply (route_borrow_next key k2 h' (kl' ++ [k]) kr'
                               (cl' ++ [sib]) cr' sib2 c c'); auto;
                        rewrite !length_app; cbn [length]; lia.
             - (* the child has enough keys left *)
               eexists. split; [reflexivity|].
               apply (route_replace key h' kl kr cl cr c c'); auto. lia. }
           destruct Hn2 as [n2 [E Hn2]]. rewrite E. cbn [bind].
           exists true, n2. eexists.
           split; [reflexivity|]. split; [reflexivity|]. split; [exact Hn2|reflexivity].
        -- destruct Hpost as [-> ->]. cbn [andb bind].
           exists false. eexists. eexists.
           split; [reflexivity|]. split; [reflexivity|]. split; reflexivity.
Qed.

End BTreeRemove.

(** *** The operations on a whole tree *)

Section BTreeInvariantKept.
Context {T : Type}.
Variable key_of : T -> Z.
Variable ORDER : Z.

Lemma mid_floor : 2 <= ORDER -> 1 <= BTree.mid ORDER <= ORDER - 1.
Proof.
  intros H. unfold BTree.mid. rewrite Z.quot_div_nonneg by lia.
  split.
  - apply Z.div_le_lower_bound; lia.
  - assert (ORDER / 2 < ORDER) by (apply Z.div_lt; lia). lia.
Qed.

Lemma empty_ok : 1 <= ORDER -> btree_ok key_of ORDER (@BTree.empty T).
Proof.
  intros HO. split; [apply empty_ordered|]. split; [|discriminate].
  exists 1%nat. apply shaped_leaf. repeat split; auto.
  unfold size. cbn [length]. lia.
Qed.

Lemma insert_keeps_ok (t : BTree.BTree T) (k : T) :
  2 <= ORDER -> btree_ok key_of ORDER t ->
  exists t', BTree.insert key_of ORDER t k = Some t' /\ btree_ok key_of ORDER t'.
Proof.
  intros HO [Ho [[h Hs] Hroot]].
  destruct (insert_ok key_of ORDER t k Ho) as [t' [Hi [Ho' _]]].
  exists t'. split; [exact Hi|].
  destruct (insert_shape key_of ORDER (BTree.mid ORDER) (2 * ORDER - 1)
              eq_refl (Z.le_refl _) t t' k h HO Hs Hroot Hi)
    as [h' [Hs' [Hroot' _]]].
  split; [exact Ho'|]. split; [eauto|exact Hroot'].
Qed.

Lemma insert_all_keeps_ok (ks : list T) :
  2 <= ORDER ->
  forall t, btree_ok key_of ORDER t ->
  exists t', BTree.insert_all key_of ORDER t ks = Some t' /\ btree_ok key_of ORDER t'.
Proof.
  intros HO. induction ks as [|k ks IH]; intros t Hok.
  - exists t. split; [reflexivity|exact Hok].
  - destruct (insert_keeps_ok t k HO Hok) as [t1 [H1 Hok1]].
    cbn [BTree.insert_all]. rewrite H1. cbn [bind]. now apply IH.
Qed.

Lemma occurrences_existsb (k : T) (l : list T) :
  existsb (fun x => key_of x =? key_of k) l
  = (0 <? occurrences key_of (key_of k) l)%nat.
Proof.
  induction l as [|x l IH]; [reflexivity|].
  cbn [existsb]. rewrite occurrences_cons, IH. unfold hit.
  destruct (Z.eq_dec (key_of x) (key_of k)) as [E|E].
  - rewrite (proj2 (Z.eqb_eq _ _) E). reflexivity.
  - rewrite (proj2 (Z.eqb_neq _ _) E). reflexivity.
Qed.

Lemma search_exact (t : BTree.BTree T) (k : T) :
  ordered key_of None None (BTree.root t) ->
  BTree.search key_of t k
  = Some (existsb (fun x => key_of x =? key_of k) (all_keys (BTree.root t))).
Proof.
  intros Ho. unfold BTree.search.
  destruct (existsb (fun x => key_of x =? key_of k) (all_keys (BTree.root t)))
    eqn:Hex.
  - apply existsb_exists in Hex. destruct Hex as [x [Hx Hk]].
    apply Z.eqb_eq in Hk.
    apply (search_finds key_of _ _ None None); auto. eauto.
  - apply (search_misses key_of _ _ None None); auto.
    intros x Hx E.
    assert (Ht : existsb (fun x => key_of x =? key_of k) (all_keys (BTree.root t))
                 = true)
      by (apply existsb_exists; exists x; split; [exact Hx|now apply Z.eqb_eq]).
    congruence.
Qed.

Lemma filter_perm {A : Type} (p : A -> bool) (a b : list A) :
  Permutation a b -> Permutation (filter p a) (filter p b).
Proof.
  induction 1 as [|x a b P IH|x y a|a b c P1 IH1 P2 IH2]; cbn [filter].
  - constructor.
  - destruct (p x); [now constructor|exact IH].
  - destruct (p x), (p y); try reflexivity. apply perm_swap.
  - now transitivity (filter p b).
Qed.

Lemma removed_perm (key : T) (n n' : BTree.Node T) :
  (forall z, occurrences key_of z (all_keys n)
             = (occurrences key_of z (all_keys n') + hit (key_of key) z)%nat) ->
  Permutation (key_of key :: map key_of (all_keys n')) (map key_of (all_keys n)).
Proof.
  intros Hc. apply (Permutation_count_occ Z.eq_dec). intros z.
  specialize (Hc z). unfold occurrences, hit in Hc. cbn [count_occ].
  destruct (Z.eq_dec (key_of key) z); lia.
Qed.

(** X5. B-Tree with ORDER >= 2: on any tree in the state btree_ok (a search tree
    with non-strict bounds, balanced, nodes within 2*ORDER-1 keys, nodes below
    the root with at least ORDER/2 keys, an inner root with a key) - the state
    of the empty tree, kept by insert and by remove - insert(k) completes,
    leaves the tree in that state, adds k to the stored elements and nothing
    else, and increments size_. *)
Theorem btree_insert_keeps_invariant (t : BTree.BTree T) (k : T) :
  2 <= ORDER -> btree_ok key_of ORDER t ->
  exists t',
    BTree.insert key_of ORDER t k = Some t'
    /\ btree_ok key_of ORDER t'
    /\ Permutation (all_keys (BTree.root t')) (k :: all_keys (BTree.root t))
    /\ BTree.size_ t' = BTree.size_ t + 1.
Proof.
  intros HO Hok.
  destruct (insert_keeps_ok t k HO Hok) as [t' [Hi Hok']].
  destruct (insert_keys key_of ORDER t t' k Hi) as [P S].
  exists t'. split; [exact Hi|]. split; [exact Hok'|]. split; [exact P|exact S].
Qed.

(** X7. B-Tree: on any tree in the state btree_ok, hence after any mix of insert
    and remove, search(k) returns true exactly when an element with the key of
    k is stored, and range_search(a, b) returns, in ascending order of keys,
    exactly the stored elements whose key lies between the keys of a and b (a
    permutation of the filtered contents). *)
Theorem btree_queries_exact (t : BTree.BTree T) (k a b : T) :
  btree_ok key_of ORDER t ->
  BTree.search key_of t k
  = Some (existsb (fun x => key_of x =? key_of k) (all_keys (BTree.root t)))
  /\ exists out,
       BTree.range_search key_of t a b = Some out
       /\ sorted_in key_of None None out
       /\ Permutation out (filter (key_in_band key_of a b) (all_keys (BTree.root t))).
Proof.
  intros [Ho _]. split; [now apply search_exact|].
  exists (filter (key_in_band key_of a b) (inorder (BTree.root t))).
  split; [|split].
  - unfold BTree.range_search.
    apply (range_search_inorder key_of a b _ _ None None (Nat.le_refl _) Ho).
  - apply sorted_in_filter.
    apply (inorder_sorted key_of _ _ None None (Nat.le_refl _) Ho).
  - apply filter_perm. apply (inorder_perm _ _ (Nat.le_refl _)).
Qed.

(** X6. B-Tree with 2 <= ORDER <= INT_MAX: on any tree in the state btree_ok,
    remove(key) completes (no access out of range in remove_internal,
    borrow_from_prev, borrow_from_next or merge_children) and returns true
    exactly when an element with that key is stored. When it returns false the
    tree is unchanged. When it returns true the tree is again in the state
    btree_ok (search tree, balanced, node sizes within bounds, a root without
    keys replaced by its only child), the stored keys are those of before with
    one occurrence of the key removed, and size_ is decremented. *)
Theorem btree_remove_correct (t : BTree.BTree T) (key : T) :
  2 <= ORDER <= int_max -> btree_ok key_of ORDER t ->
  exists found t',
    BTree.remove key_of ORDER t key = Some (found, t')
    /\ found = existsb (fun x => key_of x =? key_of key) (all_keys (BTree.root t))
    /\ (found = false -> t' = t)
    /\ (found = true ->
        btree_ok key_of ORDER t'
        /\ Permutation (key_of key :: map key_of (all_keys (BTree.root t')))
             (map key_of (all_keys (BTree.root t)))
        /\ BTree.size_ t' = u64_sub (BTree.size_ t) 1).
Proof.
  intros HO [Ho [[h Hs] Hroot]].
  pose proof (mid_floor ltac:(lia)) as Hfl.
  pose proof (shaped_height _ _ _ _ Hs) as Hh.
  destruct (remove_internal_spec key_of ORDER (BTree.mid ORDER) (2 * ORDER - 1)
              eq_refl Hfl (proj2 HO) (BTree.height (BTree.root t)) h (BTree.root t)
              key (BTree.size_ t) None None Hs ltac:(lia) Ho Hroot)
    as [found [n' [sz' [Hrm [Hsr Hpost]]]]].
  assert (Hfound : found
                   = existsb (fun x => key_of x =? key_of key) (all_keys (BTree.root t))).
  { pose proof (search_exact t key Ho) as E. unfold BTree.search in E. congruence. }
  unfold BTree.remove. rewrite Hrm. cbn [bind fst snd].
  destruct found.
  - destruct Hpost as [[Hs' [Hk [Ho' Hc]]] ->].
    specialize (Ho' None None Ho).
    destruct n' as [lf' ks' cs'].
    cbn [BTree.keys BTree.is_leaf BTree.children] in *.
    destruct ((size ks' =? 0) && negb lf') eqn:Hcond.
    + (* the root has run out of keys: its only child is the new root *)
      apply andb_true_iff in Hcond. destruct Hcond as [Hz Hl].
      apply Z.eqb_eq in Hz. apply negb_true_iff in Hl. subst lf'.
      destruct ks' as [|? ?]; [|unfold size in Hz; cbn [length] in Hz; lia].
      apply shaped_inner in Hs'. destruct Hs' as [h' [-> [_ [L A]]]].
      destruct cs' as [|c [|? ?]]; try discriminate.
      cbn [forallb] in A. rewrite andb_true_r in A.
      apply child_ok_iff in A. destruct A as [Fc Sc].
      cbn [nth_error bind].
      exists true. eexists. split; [reflexivity|]. split; [exact Hfound|].
      split; [discriminate|]. intros _. unfold btree_ok. cbn [BTree.root BTree.size_].
      split; [|split; [|reflexivity]].
      * split; [|split; [eauto|intros _; lia]].
        inversion Ho' as [|? ? ? ? Hcs]; subst. now inversion Hcs.
      * apply removed_perm. intros z. rewrite (Hc z).
        rewrite all_keys_node. cbn [flat_map app]. now rewrite app_nil_r.
    + cbn [bind].
      exists true. eexists. split; [reflexivity|]. split; [exact Hfound|].
      split; [discriminate|]. intros _. unfold btree_ok. cbn [BTree.root BTree.size_].
      split; [|split; [|reflexivity]].
      * split; [exact Ho'|]. split; [eauto|].
        cbn [BTree.is_leaf BTree.keys]. intros ->.
        rewrite andb_true_r in Hcond. apply Z.eqb_neq in Hcond.
        unfold size in *. lia.
      * now apply removed_perm.
  - destruct Hpost as [-> ->].
    assert (Hcond : (size (BTree.keys (BTree.root t)) =? 0)
                    && negb (BTree.is_leaf (BTree.root t)) = false).
    { destruct (BTree.is_leaf (BTree.root t)); [apply andb_false_r|].
      specialize (Hroot eq_refl). rewrite andb_true_r. apply Z.eqb_neq. lia. }
    rewrite Hcond. cbn [bind].
    exists false. eexists. split; [reflexivity|]. split; [exact Hfound|].
    split; [|discriminate]. intros _. now destruct t.
Qed.

End BTreeInvariantKept.

Lemma sample_btree_ok : btree_ok id 2 sample_btree.
Proof.
  destruct (insert_all_keeps_ok id 2 (keys_from 1 1 12) ltac:(lia) BTree.empty
              (empty_ok id 2 ltac:(lia))) as [t [E Hok]].
  assert (Et : t = sample_btree) by (vm_compute in E; now injection E as <-).
  now rewrite <- Et.
Qed.

Lemma btree_insert_keeps_invariant_witness :
  exists t',
    BTree.insert id 2 sample_btree 7 = Some t'
    /\ btree_ok id 2 t'
    /\ Permutation (all_keys (BTree.root t')) (7 :: all_keys (BTree.root sample_btree))
    /\ BTree.size_ t' = BTree.size_ sample_btree + 1.
Proof.
  apply (btree_insert_keeps_invariant id 2 sample_btree 7); [lia|].
  exact sample_btree_ok.
Defined.

Lemma btree_queries_exact_witness :
  BTree.search id sample_btree 5
  = Some (existsb (fun x => id x =? id 5) (all_keys (BTree.root sample_btree)))
  /\ exists out,
       BTree.range_search id sample_btree 3 9 = Some out
       /\ sorted_in id None None out
       /\ Permutation out
            (filter (key_in_band id 3 9) (all_keys (BTree.root sample_btree))).
Proof.
  apply (btree_queries_exact id 2 sample_btree 5 3 9). exact sample_btree_ok.
Defined.

Lemma btree_remove_correct_witness :
  exists found t',
    BTree.remove id 2 sample_btree 4 = Some (found, t')
    /\ found = existsb (fun x => id x =? id 4) (all_keys (BTree.root sample_btree))
    /\ (found = false -> t' = sample_btree)
    /\ (found = true ->
        btree_ok id 2 t'
        /\ Permutation (id 4 :: map id (all_keys (BTree.root t')))
             (map id (all_keys (BTree.root sample_btree)))
        /\ BTree.size_ t' = u64_sub (BTree.size_ sample_btree) 1).
Proof.
  apply (btree_remove_correct id 2 sample_btree 4); [unfold int_max; lia|].
  exact sample_btree_ok.
Defined.
